(* ===== verification/_CoqProject ===== *)
-Q . S2P
Prelude.v
Signal.v
Linux.v
Reusable.v
Gotcha.v
Pools.v
Adapters.v
Threads.v
Timer.v
Tcb.v
Tcbstub.v
World.v
Preemption.v
Linger.v
Handler.v
Frame.v
Errno.v
Interference.v
Transparency.v
Oneshot.v
Caller.v
Setup.v
Resume.v
Ownership.v
Contract.v
Launch.v
Preempt.v
Cancel.v
Failure.v
Session.v
Custody.v
Service.v
Future.v
Ffi.v
Header.v
Profiler.v
Examples.v
