(* ===== verification/Prelude.v ===== *)
(** * libinger: a verification development

    libinger lets a program call a function with a time budget.  [launch] boxes the function, gives
    it a libset of libgotcha (its own copies of the libraries), a thread-control block (its own
    thread-local variables) and a stack, and [resume] runs it until it returns or its budget is
    over; a timer signal then interrupts it, the handler [preempt] saves its context, and [resume]
    returns with the function paused.  Calls into nonpreemptible libraries defer the preemption
    until they return, and the function can yield with [pause].

    ** Files and sources

    - Prelude.v (this file): results, exits, the state-and-exit monad [comp], machine integers,
      [Vec] operations, the hint database and tactics.
    - Signal.v: internal/libsignal (lib.rs, pthread.rs) over an abstract C library [Libc];
      Linux.v is an instance of it.
    - Reusable.v: src/reusable.rs, pools generic in the cell ([RefCell] or [Mutex]) and the builder.
    - Gotcha.v: what libinger calls of libgotcha.  Pools.v: src/signals.rs, groups.rs, stacks.rs and
      the constants of lib.rs.  Adapters.v: src/force.rs and the pointer types of stacks.rs.
      Threads.v: the operations of reusable.rs and of the pools' [Once] as the steps of kernel
      threads.  Timer.v: src/timer.rs.  Tcb.v: src/tcb.rs and localstores.rs.  Tcbstub.v:
      src/tcbstub.rs, and the interface that it shares with tcb.rs.
    - World.v: the state ([world], with the thread-local variables [tls]), interruptible programs
      ([prog]) and the platform.  Preemption.v: src/preemption.rs.  Linger.v: src/linger.rs, with
      signal delivery ([deliver], [run]) and the machine that [launch] and [resume] act on.
    - Handler.v, Frame.v, Errno.v, Interference.v, Transparency.v, Oneshot.v: the proof of what can
      happen on the oneshot stack.  Caller.v, Setup.v, Resume.v: the code on the caller's stack.
    - Contract.v: the theorems about [resume].  Launch.v: [launch].  Preempt.v: the handler, deferred
      preemptions and [pause].  Cancel.v: dropping a [Linger].  Failure.v: calls that fail.
    - Session.v: what a client can do with the library and see of it, as a specification.
      Ownership.v, Custody.v: the invariant of the library's state between two calls.  Service.v:
      every session refines the specification.
    - Future.v: src/future.rs.  Ffi.v: src/ffi.rs.  Header.v: src/main.rs.  Profiler.v:
      src/profiler.rs.
    - Examples.v: a concrete process on which the theorems are applied.

    ** How the code is modelled

    Definitions have the names of the code; a [struct] is a record, an [enum] an inductive type, a
    [static] or thread-local variable a field of the state.  Code that runs without interruption is
    a [comp]: a function from the state to a way of ending (a value, a panic, an abort, undefined
    behaviour) and the new state, so that destructors that run during unwinding are explicit.  Code
    that a signal can interrupt is a [prog], a tree of atomic actions on the world: an interrupted
    computation is the rest of its tree, which is what libtimetravel's contexts hold.  [run] puts
    an interruption point before every action: the clock moves, signals become pending, and every
    deliverable one runs [preempt] as the kernel would.  A preemptible function is a [ucode]: it
    computes, reads and writes [errno], calls nonpreemptible functions, calls [pause], and returns
    or panics.  [launch] and [resume] act on a [machine], which holds the world, the computations set
    aside, the events to come (a list of [tick]s that the theorems quantify over) and the client's
    [Linger]s by address.

    ** What the theorems show

    - Service.v: a client launches, resumes and drops any number of functions in any order and from
      any of its threads, while signals arrive at any time; what the calls return is a run of a
      small transition system on a map from [Linger]s to their results.  In every state so reached
      no two functions share a libset, a thread-control block, a closure, a stack or a context, and
      every block that the library has allocated is owned by a function that has not ended or is
      idle in its pool; libsets, stacks and closures likewise.  Custody.v has the invariant, in which
      each unfinished function is described by Contract.v's [pending_at] and the pools by
      Ownership.v.
    - Contract.v: preemption is transparent, so that a function ends with the result it would have
      computed undisturbed however the signals fall, and [resume] neither fails, aborts nor becomes
      undefined; the caller's thread is left as it was; budgets are respected; with an unlimited
      budget the function completes; no budget, not even 0, makes [resume] a no-op; functions do not
      disturb each other.  The proof is a
      rely-guarantee argument: Interference.v defines what can happen between two actions and a
      weakest precondition under it, Transparency.v verifies each piece of code on the oneshot
      stack, Frame.v and Errno.v give what they leave alone.
    - Launch.v: the same for [launch], also as the first call on a thread, the budget 0, and the
      panic when the libsets are used up.
    - Preempt.v, Setup.v, Cancel.v: each branch of the handler, deferred preemption and [pause]; how
      a thread gets its signal and timer, and for which budgets the deadline is over as soon as it is
      set, overflows included; what dropping a paused function gives back.
    - Failure.v: a [resume] that returns an error, whichever call failed, has taken the function's
      block away, so that the function can never be resumed again; and if it was the jump into a
      paused function that failed, the caller is left in the function's libset.
    - Threads.v: however kernel threads that use a static pool are interleaved, the operations have
      the effect of those of Pools.v one after the other; no value is owned twice at any moment; and
      there is no deadlock.
    - Future.v, Ffi.v, Header.v, Profiler.v: [poll] keeps the promise of [resume] over any engine
      that satisfies the interface [EngineLaws], which [resume] on the machine and the closure of
      [poll_fns] with its channel both do; a future completes if it is not interrupted but deadlocks
      if it times out twice within a call; the C interface keeps
      its flag in step; the C struct has room but not the alignment for Rust's; the profiler
      measures what it should.
    - Pools.v, Reusable.v, Tcb.v: no value is lent twice, values are conserved and reused, panics
      poison; installing a block is a round trip, and failures free what they should.
    - Adapters.v, Tcbstub.v: a stack that is reached through its adapter is one place that does not
      move; both versions of the module [tcb] keep what a client needs of them.

    ** Assumptions, bounds and fuel

    The laws of the parameters are the classes [LibcLaws] (POSIX), [GotchaLaws] and [LdLaws]
    (freshness of libsets and blocks, [errno] per libset); each has an instance.  What the calls
    inside the handler do to [errno] is arbitrary ([handler_errno]).  Calling [arch_prctl] with a
    thread-control block installed that has been deallocated is undefined behaviour; a second panic while one unwinds aborts the process.  Every run is a
    recursion over the program's tree, so none needs fuel.  The theorems about [resume] assume that
    libtimetravel's calls succeed ([no_failures]; their failures are modelled, and
    Failure.v is about them), that the function's libset, stack and
    block are available (in Service.v the invariant shows it, if the kernel and the linker are
    [obliging]), and of the clock only what a [span] says: it stays after the epoch and
    before [until], at most 2^64 ns, and if the span is [steady] it is not set back.  [fits] says
    that the deadline is representable.  The kernel threads of the process take turns: in Service.v
    the client may make each call from another thread ([switch_thread]), whose signal is blocked or
    can still be assigned; this needs that returning to a linked context restores the signal mask
    ([link_restores_mask], which no other theorem needs), because a function blocks the signal of the
    thread it was started on when it ends.

    ** Not modelled

    libgotcha and libtimetravel are submodules that are not in the sources: they are parameters, or
    part of the execution model.  The contents of stacks and registers, the C library's state
    behind [__ctype_init] are not represented.  Kernel threads take turns between calls of the
    library; that calls of several threads can overlap is modelled for the state they share, the
    static pools (Threads.v), but not for [launch] and [resume] as a whole.  Signals
    other than the preemption signals are ignored, and none is delivered to code on the caller's
    stack, where the thread's own signal is blocked; a handler is not interrupted by another one.
    The guard inside a [PoisonError] is taken to be released at once, as every caller drops the
    error.  sa_sigaction and sa_sigaction_mut, which no
    code calls, lifetime.rs and compile_assert.rs (functions that return their argument at another
    lifetime, or check its type), the benchmarks and the tests are left out, and so is the formatting
    of messages. *)

From stdpp Require Export base list gmap sets strings numbers relations.
From Stdlib Require Export ZArith Lia.

#[global] Open Scope Z_scope.

(** ** Result: Rust's [std::result::Result]. *)

Inductive result (A E : Type) : Type :=
| Ok (a : A)
| Err (e : E).
Arguments Ok {A E} a.
Arguments Err {A E} e.

#[global] Instance result_eq_dec `{EqDecision A, EqDecision E} : EqDecision (result A E).
Proof. solve_decision. Defined.

(** [Result::is_ok], [Result::is_err], and [Option::ok_or]. *)
Definition is_ok {A E} (r : result A E) : bool :=
  match r with Ok _ => true | Err _ => false end.
Definition is_err {A E} (r : result A E) : bool := negb (is_ok r).
Definition ok_or {A E} (o : option A) (e : E) : result A E :=
  match o with Some a => Ok a | None => Err e end.

(** The [is_some] test of the code, as a boolean. *)
Definition is_some {A} (o : option A) : bool :=
  match o with Some _ => true | None => false end.
Definition is_none {A} (o : option A) : bool := negb (is_some o).

(** ** How a Rust computation can end.

    [Panicked] is an unwinding panic; [Aborted] ends the process
    ([std::process::abort]); [Undefined] is the undefined behaviour behind
    [unreachable_unchecked] and jumps to contexts nobody saved. *)
Inductive exit (A : Type) : Type :=
| Done (a : A)
| Panicked (msg : string)
| Aborted (msg : string)
| Undefined.
Arguments Done {A} a.
Arguments Panicked {A} msg.
Arguments Aborted {A} msg.
Arguments Undefined {A}.

(** Stateful Rust code that runs without interruption: the state survives every way of ending,
    since a panic leaves the memory as it was when it started to unwind. *)
Definition comp (S A : Type) : Type := S -> exit A * S.

#[global] Instance comp_ret {S} : MRet (comp S) := fun A a s => (Done a, s).
#[global] Instance comp_bind {S} : MBind (comp S) := fun A B f m s =>
  match m s with
  | (Done a, s') => f a s'
  | (Panicked msg, s') => (Panicked msg, s')
  | (Aborted msg, s') => (Aborted msg, s')
  | (Undefined, s') => (Undefined, s')
  end.

Definition get {S} : comp S S := fun s => (Done s, s).
Definition put {S} (s : S) : comp S unit := fun _ => (Done tt, s).
Definition modify {S} (f : S -> S) : comp S unit := fun s => (Done tt, f s).
Definition gets {S A} (f : S -> A) : comp S A := fun s => (Done (f s), s).
Definition panic {S A} (msg : string) : comp S A := fun s => (Panicked msg, s).
(** [abort] of linger.rs, which prints the message, and [process::abort]. *)
Definition abort_process {S A} (msg : string) : comp S A := fun s => (Aborted msg, s).

(** Run a computation on a part of a larger state. *)
Definition zoom {S T A} (proj : S -> T) (inj : T -> S -> S) (m : comp T A) : comp S A :=
  fun s => let '(r, t) := m (proj s) in (r, inj t s).

(** Destructors that run while a panic unwinds: a second panic ends the process. *)
Definition unwinding {S A} (cleanup : comp S unit) (m : comp S A) : comp S A := fun s =>
  match m s with
  | (Panicked msg, s1) =>
      match cleanup s1 with
      | (Done _, s2) => (Panicked msg, s2)
      | (Panicked _, s2) => (Aborted "panic in a destructor during cleanup", s2)
      | (Aborted msg', s2) => (Aborted msg', s2)
      | (Undefined, s2) => (Undefined, s2)
      end
  | r => r
  end.

(** [Option::expect] and [Result::expect]. *)
Definition expect {S A} (o : option A) (msg : string) : comp S A :=
  match o with Some a => mret a | None => panic msg end.
Definition expect_ok {S A E} (r : result A E) (msg : string) : comp S A :=
  match r with Ok a => mret a | Err _ => panic msg end.

(** The [?] operator on a computation that returns a [Result]. *)
Definition try_bind {S A B E} (m : comp S (result A E)) (f : A -> comp S (result B E))
  : comp S (result B E) :=
  r ← m; match r with Ok a => f a | Err e => mret (Err e) end.
Notation "x ←? m ; k" := (try_bind m (fun x => k))
  (at level 20, m at level 100, k at level 200, only parsing) : stdpp_scope.

Lemma comp_bind_done {S A B} (m : comp S A) (f : A -> comp S B) s a s' :
  m s = (Done a, s') -> (m ≫= f) s = f a s'.
Proof. intros H. unfold mbind, comp_bind. by rewrite H. Qed.

Lemma comp_bind_panicked {S A B} (m : comp S A) (f : A -> comp S B) s msg s' :
  m s = (Panicked msg, s') -> (m ≫= f) s = (Panicked msg, s').
Proof. intros H. unfold mbind, comp_bind. by rewrite H. Qed.

Lemma unwinding_done {S A} (cleanup : comp S unit) (m : comp S A) s a s' :
  m s = (Done a, s') -> unwinding cleanup m s = (Done a, s').
Proof. intros H. unfold unwinding. by rewrite H. Qed.

Lemma unwinding_inv {S A} (c : comp S unit) (m : comp S A) s a s' :
  unwinding c m s = (Done a, s') -> m s = (Done a, s').
Proof. unfold unwinding. repeat case_match; naive_solver. Qed.

Lemma bind_inv {S A D} (m : comp S A) (f : A -> comp S D) s d s' :
  (m ≫= f) s = (Done d, s') -> exists a s1, m s = (Done a, s1) /\ f a s1 = (Done d, s').
Proof. unfold mbind, comp_bind. repeat case_match; naive_solver. Qed.

Lemma try_bind_ok {S A D E} (m : comp S (result A E)) (f : A -> comp S (result D E)) s a s' :
  m s = (Done (Ok a), s') -> try_bind m f s = f a s'.
Proof. intros Hm. unfold try_bind. by erewrite comp_bind_done by exact Hm. Qed.

Lemma try_bind_err {S A D E} (m : comp S (result A E)) (f : A -> comp S (result D E)) s e s' :
  m s = (Done (Err e), s') -> try_bind m f s = (Done (Err e), s').
Proof. intros Hm. unfold try_bind. by erewrite comp_bind_done by exact Hm. Qed.

(** ** Machine integers.  [u64] and [usize] values are [Z] in [0, 2^64). *)

Definition U64 : Z := 18446744073709551616.
Definition u64_max : Z := U64 - 1.
Definition is_u64 (x : Z) : Prop := 0 <= x < U64.
Definition wrap_u64 (x : Z) : Z := x mod U64.

(** [u64::checked_mul]. *)
Definition checked_mul (a b : Z) : option Z :=
  if a * b <? U64 then Some (a * b) else None.

(** Signed 64-bit integers: [as i64] keeps the low 64 bits. *)
Definition I64 : Z := 9223372036854775808.
Definition is_i64 (x : Z) : Prop := - I64 <= x < I64.
Definition as_i64 (x : Z) : Z := (x + I64) mod U64 - I64.

Lemma as_i64_small x : is_i64 x -> as_i64 x = x.
Proof. unfold is_i64, as_i64, I64, U64. intros Hx. rewrite Z.mod_small; lia. Qed.

Lemma as_i64_range x : is_i64 (as_i64 x).
Proof.
  unfold is_i64, as_i64. pose proof (Z.mod_pos_bound (x + I64) U64 ltac:(done)).
  unfold I64, U64 in *. lia.
Qed.

Lemma wrap_u64_small x : is_u64 x -> wrap_u64 x = x.
Proof. unfold is_u64, wrap_u64. intros. by apply Z.mod_small. Qed.

Lemma wrap_u64_range x : is_u64 (wrap_u64 x).
Proof. unfold is_u64, wrap_u64. apply Z.mod_pos_bound. reflexivity. Qed.

Lemma checked_mul_Some a b c :
  0 <= a -> 0 <= b -> checked_mul a b = Some c <-> c = a * b /\ is_u64 c.
Proof.
  intros Ha Hb. unfold checked_mul, is_u64.
  destruct (Z.ltb_spec (a * b) U64); split; intros Hc; simplify_eq; [nia | | ].
  - by destruct Hc as [-> _].
  - destruct Hc as [-> ?]. lia.
Qed.

(** ** [Vec]: push and pop at the end. *)
Definition vec_push {A} (v : list A) (x : A) : list A := v ++ [x].
Definition vec_pop {A} (v : list A) : option A * list A :=
  match last v with Some x => (Some x, removelast v) | None => (None, v) end.

Lemma vec_pop_push {A} (v : list A) x : vec_pop (vec_push v x) = (Some x, v).
Proof. unfold vec_pop, vec_push. rewrite last_snoc, removelast_last. done. Qed.

Lemma vec_pop_nil {A} : vec_pop (@nil A) = (None, []).
Proof. done. Qed.

Lemma vec_pop_Some {A} (v v' : list A) x :
  vec_pop v = (Some x, v') -> v = v' ++ [x].
Proof.
  induction v as [|y v _] using rev_ind; [done|].
  unfold vec_pop. rewrite last_snoc, removelast_last. by intros [= -> ->].
Qed.

Lemma vec_pop_None {A} (v v' : list A) : vec_pop v = (None, v') -> v = [] /\ v' = [].
Proof.
  induction v as [|y v _] using rev_ind; [by intros [= <-]|].
  unfold vec_pop. by rewrite last_snoc.
Qed.

(** ** Proof automation *)

Create HintDb inger discriminated.
#[export] Hint Resolve wrap_u64_range : inger.

(** Split the [match]es on a compound scrutinee that block a goal or a hypothesis. *)
Ltac case_step :=
  match goal with
  | H : context [match ?x with _ => _ end] |- _ => destruct x eqn:?; simplify_eq/=
  | |- context [match ?x with _ => _ end] => destruct x eqn:?; simplify_eq/=
  end.
