(* ===== verification/Signal.v ===== *)
(** * internal/libsignal: signal numbers, signal sets, actions and thread masks

    Models [internal/libsignal/src/lib.rs] and [pthread.rs].  The C library underneath is a
    parameter: [Libc] collects its constants, its [sigset_t] and its calls, [LibcLaws] what POSIX
    documents about them.  The kernel-visible state those calls act on is the record [kernel]. *)

From S2P Require Import Prelude.

(** ** The enumerations of lib.rs *)

Inductive Operation : Set := Block | Unblock | SetMask.

Inductive Signal : Set :=
| Abort | Alarm | Bus | Breakpoint | Child | Continue | Coprocessor | FilesystemLimit
| FloatingPoint | Hangup | Illegal | Interrupt | Kill | Pipe | Pollable | ProfilingTimer
| Quit | Segfault | Syscall | TerminalInput | TerminalOutput | TerminalStop | Terminate
| PowerFailure | ProcessorLimit | UrgentSocket | User1 | User2 | VirtualAlarm | WindowResize.

#[global] Instance Signal_eq_dec : EqDecision Signal.
Proof. solve_decision. Defined.

Definition all_signals : list Signal :=
  [Abort; Alarm; Bus; Breakpoint; Child; Continue; Coprocessor; FilesystemLimit;
   FloatingPoint; Hangup; Illegal; Interrupt; Kill; Pipe; Pollable; ProfilingTimer;
   Quit; Segfault; Syscall; TerminalInput; TerminalOutput; TerminalStop; Terminate;
   PowerFailure; ProcessorLimit; UrgentSocket; User1; User2; VirtualAlarm; WindowResize].

Lemma all_signals_complete s : s ∈ all_signals.
Proof. apply list_elem_of_In. destruct s; simpl; tauto. Qed.

(** ** The C library *)

(** [sigset_t] and the constants that the enumerations take their discriminants from. *)
Class LibcTypes : Type := {
  sigset_t : Set;
  sigset_zeroed : sigset_t;
  SIG_BLOCK : Z; SIG_UNBLOCK : Z; SIG_SETMASK : Z;
  SIGABRT : Z; SIGALRM : Z; SIGBUS : Z; SIGTRAP : Z; SIGCHLD : Z; SIGCONT : Z; SIGSTKFLT : Z;
  SIGXFSZ : Z; SIGFPE : Z; SIGHUP : Z; SIGILL : Z; SIGINT : Z; SIGKILL : Z; SIGPIPE : Z;
  SIGPOLL : Z; SIGPROF : Z; SIGQUIT : Z; SIGSEGV : Z; SIGSYS : Z; SIGTTIN : Z; SIGTTOU : Z;
  SIGTSTP : Z; SIGTERM : Z; SIGPWR : Z; SIGXCPU : Z; SIGURG : Z; SIGUSR1 : Z; SIGUSR2 : Z;
  SIGVTALRM : Z; SIGWINCH : Z;
  SA_SIGINFO : Z; SA_RESTART : Z;
  CLOCK_BOOTTIME : Z; CLOCK_BOOTTIME_ALARM : Z; CLOCK_MONOTONIC : Z;
  CLOCK_PROCESS_CPUTIME_ID : Z; CLOCK_REALTIME : Z; CLOCK_REALTIME_ALARM : Z;
  CLOCK_THREAD_CPUTIME_ID : Z;
  SIGEV_NONE : Z; SIGEV_SIGNAL : Z; SIGEV_THREAD_ID : Z; TIMER_ABSTIME : Z;
}.

(** [libc::sigaction], re-exported as [Sigaction]. Handlers are code addresses. *)
Record Sigaction `{LibcTypes} : Set := {
  sa_sigaction_field : Z;
  sa_mask : sigset_t;
  sa_flags : Z;
  sa_restorer : option Z;
}.

(** [libc::sigevent]: a field the code never writes stays uninitialized, [None]. *)
Record sigevent : Set := {
  sigev_notify : option Z;
  sigev_signo : option Z;
  sigev_notify_thread_id : option Z;
}.

(** [libc::itimerspec], with its two [timespec]s. *)
Record timespec : Set := { tv_sec : Z; tv_nsec : Z }.
Record itimerspec : Set := { it_interval : timespec; it_value : timespec }.

(** A POSIX timer: what it was created with, and its setting once armed. *)
Record ktimer : Set := {
  kt_clock : Z;
  kt_event : sigevent;
  kt_setting : option (Z * itimerspec);
}.

(** The kernel's view of the calling thread and its process: the thread's blocked signals, the
    standard signals pending for it (at most one instance each), the process's signal actions and
    timers, and the [errno] that a failed call leaves behind. *)
Record kernel `{LibcTypes} : Set := mkKernel {
  k_mask : sigset_t;
  k_pending : list Z;
  k_actions : gmap Z Sigaction;
  k_timers : gmap Z ktimer;
  k_errno : Z;
}.

Class Libc : Type := {
  libc_types :: LibcTypes;
  sigemptyset : sigset_t -> sigset_t;
  sigfillset : sigset_t -> sigset_t;
  sigaddset : sigset_t -> Z -> sigset_t;
  sigdelset : sigset_t -> Z -> sigset_t;
  sigismember : sigset_t -> Z -> Z;
  c_sigaction : Z -> option Sigaction -> kernel -> Z * kernel;
  c_pthread_sigmask : Z -> sigset_t -> kernel -> Z * kernel;
  c_pthread_kill : Z -> kernel -> Z * kernel;
  c_timer_create : Z -> sigevent -> kernel -> (Z * Z) * kernel;
  c_timer_settime : Z -> Z -> itimerspec -> kernel -> Z * kernel;
  c_timer_delete : Z -> kernel -> Z * kernel;
}.

Definition set_mask `{LibcTypes} (m : sigset_t) (k : kernel) : kernel :=
  mkKernel _ m (k_pending k) (k_actions k) (k_timers k) (k_errno k).
Definition set_pending `{LibcTypes} (p : list Z) (k : kernel) : kernel :=
  mkKernel _ (k_mask k) p (k_actions k) (k_timers k) (k_errno k).
Definition set_actions `{LibcTypes} (a : gmap Z Sigaction) (k : kernel) : kernel :=
  mkKernel _ (k_mask k) (k_pending k) a (k_timers k) (k_errno k).
Definition set_timers `{LibcTypes} (t : gmap Z ktimer) (k : kernel) : kernel :=
  mkKernel _ (k_mask k) (k_pending k) (k_actions k) t (k_errno k).

(** A standard signal is pending at most once. *)
Definition raise_pending (n : Z) (p : list Z) : list Z :=
  if decide (n ∈ p) then p else p ++ [n].

Section Signals.
Context `{Libc}.

(** The [repr(i32)] discriminants. *)
Definition op_int (op : Operation) : Z :=
  match op with Block => SIG_BLOCK | Unblock => SIG_UNBLOCK | SetMask => SIG_SETMASK end.

Definition c_int (s : Signal) : Z :=
  match s with
  | Abort => SIGABRT | Alarm => SIGALRM | Bus => SIGBUS | Breakpoint => SIGTRAP
  | Child => SIGCHLD | Continue => SIGCONT | Coprocessor => SIGSTKFLT
  | FilesystemLimit => SIGXFSZ | FloatingPoint => SIGFPE | Hangup => SIGHUP
  | Illegal => SIGILL | Interrupt => SIGINT | Kill => SIGKILL | Pipe => SIGPIPE
  | Pollable => SIGPOLL | ProfilingTimer => SIGPROF | Quit => SIGQUIT | Segfault => SIGSEGV
  | Syscall => SIGSYS | TerminalInput => SIGTTIN | TerminalOutput => SIGTTOU
  | TerminalStop => SIGTSTP | Terminate => SIGTERM | PowerFailure => SIGPWR
  | ProcessorLimit => SIGXCPU | UrgentSocket => SIGURG | User1 => SIGUSR1
  | User2 => SIGUSR2 | VirtualAlarm => SIGVTALRM | WindowResize => SIGWINCH
  end.

(** [impl PartialEq for Signal]. *)
Definition signal_eq (a b : Signal) : bool := c_int a =? c_int b.

(** [fn sigset], and [impl Set for Sigset]. *)
Definition sigset (f : sigset_t -> sigset_t) : sigset_t := f sigset_zeroed.
Definition set_empty : sigset_t := sigset sigemptyset.
Definition set_full : sigset_t := sigset sigfillset.
Definition set_add (me : sigset_t) (s : Signal) : sigset_t := sigaddset me (c_int s).
Definition set_del (me : sigset_t) (s : Signal) : sigset_t := sigdelset me (c_int s).
Definition set_has (me : sigset_t) (s : Signal) : bool := negb (sigismember me (c_int s) =? 0).

(** [impl Action for Sigaction]. *)
Definition Sigaction_new (handler : Z) (mask : sigset_t) (flags : Z) : Sigaction :=
  {| sa_sigaction_field := handler; sa_mask := mask; sa_flags := flags; sa_restorer := None |}.

(** [trait Actionable]: a [Sigaction], or [()] for a null pointer. *)
Inductive Actionable : Set := ASigaction (sa : Sigaction) | AUnit.
Definition maybe (a : Actionable) : option Sigaction :=
  match a with ASigaction sa => Some sa | AUnit => None end.

(** [fn sigaction]: the previous action is returned as the [old] out-parameter. *)
Definition sigaction (signal : Signal) (new : Actionable)
  : comp kernel (result (option Sigaction) Z) := fun k =>
  let old := k_actions k !! c_int signal in
  let '(code, k') := c_sigaction (c_int signal) (maybe new) k in
  if code =? 0 then (Done (Ok old), k') else (Done (Err (k_errno k')), k').

(** [fn pthread_sigmask] and [fn sigprocmask]: the previous mask is the [old] out-parameter. *)
Definition pthread_sigmask (how : Operation) (new : sigset_t)
  : comp kernel (result sigset_t Z) := fun k =>
  let '(code, k') := c_pthread_sigmask (op_int how) new k in
  if code =? 0 then (Done (Ok (k_mask k)), k') else (Done (Err code), k').

Definition sigprocmask (how : Operation) (new : sigset_t) : comp kernel (result sigset_t Z) :=
  pthread_sigmask how new.

(** [fn pthread_kill], always applied to [pthread_self()] by libinger. *)
Definition pthread_kill (signal : Signal) : comp kernel (result unit Z) := fun k =>
  let '(code, k') := c_pthread_kill (c_int signal) k in
  if code =? 0 then (Done (Ok tt), k') else (Done (Err code), k').

(** What POSIX documents about the calls above. *)
Definition mask_spec (how : Operation) (old new : bool) : bool :=
  match how with Block => old || new | Unblock => old && negb new | SetMask => new end.

Definition blocked (k : kernel) (s : Signal) : bool := set_has (k_mask k) s.
Definition pending (k : kernel) (s : Signal) : bool := bool_decide (c_int s ∈ k_pending k).
End Signals.

Class LibcLaws `{Libc} : Prop := {
  law_numbers : NoDup (c_int <$> all_signals);
  law_empty : forall s, set_has set_empty s = false;
  law_full : forall s, set_has set_full s = true;
  law_add : forall m s t, set_has (set_add m s) t = bool_decide (s = t) || set_has m t;
  law_del : forall m s t, set_has (set_del m s) t = negb (bool_decide (s = t)) && set_has m t;
  law_sigmask : forall how new k, exists m,
    c_pthread_sigmask (op_int how) new k = (0, set_mask m k) /\
    forall s, s <> Kill ->
      set_has m s = mask_spec how (set_has (k_mask k) s) (set_has new s);
  law_kill : forall s k,
    c_pthread_kill (c_int s) k = (0, set_pending (raise_pending (c_int s) (k_pending k)) k);
  law_sigaction_null : forall n k, c_sigaction n None k = (0, k);
  law_sigaction_set : forall n sa k code k',
    c_sigaction n (Some sa) k = (code, k') -> code = 0 ->
    k' = set_actions (<[n := sa]> (k_actions k)) k;
  law_timer_create : forall clock ev k code id k',
    c_timer_create clock ev k = ((code, id), k') -> code = 0 ->
    k_timers k !! id = None /\
    k' = set_timers (<[id := {| kt_clock := clock; kt_event := ev; kt_setting := None |}]>
                       (k_timers k)) k;
  law_timer_settime : forall id flags it k code k',
    c_timer_settime id flags it k = (code, k') -> code = 0 ->
    exists t, k_timers k !! id = Some t /\
    k' = set_timers (<[id := {| kt_clock := kt_clock t; kt_event := kt_event t;
                                kt_setting := Some (flags, it) |}]> (k_timers k)) k;
  law_timer_delete : forall id k code k',
    c_timer_delete id k = (code, k') -> code = 0 ->
    k' = set_timers (delete id (k_timers k)) k;
}.

Section SignalFacts.
Context `{LibcLaws}.

Lemma c_int_inj s t : c_int s = c_int t -> s = t.
Proof.
  intros Hst.
  assert (NoDup (c_int <$> all_signals)) as Hnd by apply law_numbers.
  destruct (list_elem_of_lookup_1 _ _ (all_signals_complete s)) as [i Hi].
  destruct (list_elem_of_lookup_1 _ _ (all_signals_complete t)) as [j Hj].
  assert (i = j) as <-.
  { eapply NoDup_lookup; [exact Hnd | |];
      rewrite list_lookup_fmap; [rewrite Hi | rewrite Hj; simpl; rewrite <- Hst]; done. }
  congruence.
Qed.

Lemma signal_eq_spec s t : signal_eq s t = bool_decide (s = t).
Proof.
  unfold signal_eq. case_bool_decide as Hst; [subst; apply Z.eqb_refl|].
  apply Z.eqb_neq. intros Heq. by apply Hst, c_int_inj.
Qed.

Lemma signal_eq_true s t : signal_eq s t = true <-> s = t.
Proof. rewrite signal_eq_spec. apply bool_decide_eq_true. Qed.

Lemma signal_eq_refl s : signal_eq s s = true.
Proof. by apply signal_eq_true. Qed.

Lemma set_add_same m s : set_has (set_add m s) s = true.
Proof. rewrite law_add. by rewrite bool_decide_true. Qed.

Lemma set_add_mono m s t : set_has m t = true -> set_has (set_add m s) t = true.
Proof. intros Hm. rewrite law_add, Hm. apply orb_true_r. Qed.

Lemma set_del_same m s : set_has (set_del m s) s = false.
Proof. rewrite law_del. by rewrite bool_decide_true. Qed.

(** [pthread_sigmask] succeeds, and changes nothing but the mask. *)
Lemma pthread_sigmask_run how new k : exists m,
  pthread_sigmask how new k = (Done (Ok (k_mask k)), set_mask m k) /\
  forall s, s <> Kill -> set_has m s = mask_spec how (blocked k s) (set_has new s).
Proof.
  destruct (law_sigmask how new k) as (m & Hm & Hs).
  exists m. unfold pthread_sigmask. rewrite Hm. done.
Qed.

Lemma pthread_kill_run s k :
  pthread_kill s k = (Done (Ok tt), set_pending (raise_pending (c_int s) (k_pending k)) k).
Proof. unfold pthread_kill. by rewrite law_kill. Qed.

Lemma sigaction_null s k :
  sigaction s AUnit k = (Done (Ok (k_actions k !! c_int s)), k).
Proof. unfold sigaction. simpl. by rewrite law_sigaction_null. Qed.
End SignalFacts.

#[export] Hint Rewrite @signal_eq_refl @set_add_same @set_del_same @law_empty @law_full
  using typeclasses eauto : inger.
