(* ===== verification/Linux.v ===== *)
(** * A concrete C library: x86-64 Linux signal numbers and bit-set signal masks

    An instance of the [Libc] parameter that satisfies [LibcLaws]; the witnesses of the
    development run on it.  A [sigset_t] is a bit mask with signal [n] at bit [n - 1]. *)

From S2P Require Import Prelude Signal.

Module Linux.

Definition bit (n : Z) : Z := n - 1.

#[export] Instance types : LibcTypes := {|
  sigset_t := Z; sigset_zeroed := 0;
  SIG_BLOCK := 0; SIG_UNBLOCK := 1; SIG_SETMASK := 2;
  SIGABRT := 6; SIGALRM := 14; SIGBUS := 7; SIGTRAP := 5; SIGCHLD := 17; SIGCONT := 18;
  SIGSTKFLT := 16; SIGXFSZ := 25; SIGFPE := 8; SIGHUP := 1; SIGILL := 4; SIGINT := 2;
  SIGKILL := 9; SIGPIPE := 13; SIGPOLL := 29; SIGPROF := 27; SIGQUIT := 3; SIGSEGV := 11;
  SIGSYS := 31; SIGTTIN := 21; SIGTTOU := 22; SIGTSTP := 20; SIGTERM := 15; SIGPWR := 30;
  SIGXCPU := 24; SIGURG := 23; SIGUSR1 := 10; SIGUSR2 := 12; SIGVTALRM := 26; SIGWINCH := 28;
  SA_SIGINFO := 4; SA_RESTART := 268435456;
  CLOCK_BOOTTIME := 7; CLOCK_BOOTTIME_ALARM := 9; CLOCK_MONOTONIC := 1;
  CLOCK_PROCESS_CPUTIME_ID := 2; CLOCK_REALTIME := 0; CLOCK_REALTIME_ALARM := 8;
  CLOCK_THREAD_CPUTIME_ID := 3;
  SIGEV_NONE := 1; SIGEV_SIGNAL := 0; SIGEV_THREAD_ID := 4; TIMER_ABSTIME := 1;
|}.

(** SIGKILL (9) and SIGSTOP (19) cannot be blocked. *)
Definition unmaskable : Z := Z.lor (Z.shiftl 1 (bit 9)) (Z.shiftl 1 (bit 19)).

Definition new_mask (how old new : Z) : Z :=
  Z.ldiff (if how =? 0 then Z.lor old new
           else if how =? 1 then Z.ldiff old new else new) unmaskable.

Definition EINVAL : Z := 22.

(** A free timer identifier. *)
Definition fresh_timer (t : gmap Z ktimer) : Z := fresh (dom (D := gset Z) t).

Lemma fresh_timer_None (t : gmap Z ktimer) : t !! fresh_timer t = None.
Proof. apply not_elem_of_dom. unfold fresh_timer. apply is_fresh. Qed.

#[export] Instance libc : Libc := {|
  sigemptyset _ := 0;
  sigfillset _ := Z.ones 64;
  sigaddset m n := Z.setbit m (bit n);
  sigdelset m n := Z.clearbit m (bit n);
  sigismember m n := if Z.testbit m (bit n) then 1 else 0;
  c_sigaction n act k := match act with
    | None => (0, k)
    | Some sa => (0, set_actions (<[n := sa]> (k_actions k)) k)
    end;
  c_pthread_sigmask how new k :=
    if (0 <=? how) && (how <=? 2) then (0, set_mask (new_mask how (k_mask k) new) k)
    else (EINVAL, k);
  c_pthread_kill n k := (0, set_pending (raise_pending n (k_pending k)) k);
  c_timer_create clock ev k :=
    let id := fresh_timer (k_timers k) in
    ((0, id), set_timers (<[id := {| kt_clock := clock; kt_event := ev; kt_setting := None |}]>
                            (k_timers k)) k);
  c_timer_settime id flags it k :=
    match k_timers k !! id with
    | Some t => (0, set_timers (<[id := {| kt_clock := kt_clock t; kt_event := kt_event t;
                                            kt_setting := Some (flags, it) |}]> (k_timers k)) k)
    | None => (-1, mkKernel _ (k_mask k) (k_pending k) (k_actions k) (k_timers k) EINVAL)
    end;
  c_timer_delete id k := (0, set_timers (delete id (k_timers k)) k);
|}.

Lemma c_int_pos s : 0 <= bit (c_int s).
Proof. by destruct s. Qed.

Lemma c_int_same s t : bit (c_int s) = bit (c_int t) -> s = t.
Proof. by destruct s, t. Qed.

Lemma set_has_bit m s : set_has m s = Z.testbit m (bit (c_int s)).
Proof. unfold set_has. simpl. by destruct (Z.testbit _ _). Qed.

Lemma unmaskable_bit s : s <> Kill -> Z.testbit unmaskable (bit (c_int s)) = false.
Proof. by destruct s. Qed.

Lemma add_bit m s t : set_has (set_add m s) t = bool_decide (s = t) || set_has m t.
Proof.
  rewrite !set_has_bit. unfold set_add. simpl.
  rewrite Z.setbit_eqb by apply c_int_pos. f_equal.
  case_bool_decide as E; [subst; apply Z.eqb_refl|].
  apply Z.eqb_neq. intros ?. by apply E, c_int_same.
Qed.

Lemma del_bit m s t : set_has (set_del m s) t = negb (bool_decide (s = t)) && set_has m t.
Proof.
  rewrite !set_has_bit. unfold set_del. simpl.
  rewrite Z.clearbit_eqb, andb_comm. f_equal. f_equal.
  case_bool_decide as E; [subst; apply Z.eqb_refl|].
  apply Z.eqb_neq. intros ?. by apply E, c_int_same.
Qed.

Lemma new_mask_bit how old new s : s <> Kill ->
  set_has (new_mask (op_int how) old new) s = mask_spec how (set_has old s) (set_has new s).
Proof.
  intros Hs. rewrite !set_has_bit. unfold new_mask.
  rewrite Z.ldiff_spec, unmaskable_bit, andb_true_r by done.
  destruct how; simpl; [apply Z.lor_spec | apply Z.ldiff_spec | done].
Qed.

#[export] Instance laws : LibcLaws.
Proof.
  split.
  - by apply (bool_decide_unpack _); vm_compute.
  - by intros [].
  - by intros [].
  - apply add_bit.
  - apply del_bit.
  - intros how new k. exists (new_mask (op_int how) (k_mask k) new).
    split; [by destruct how | intros s Hs; by apply new_mask_bit].
  - done.
  - done.
  - intros n sa k code k' [= <- <-] _. done.
  - intros clock ev k code id k' [= <- <- <-] _. split; [|done].
    apply fresh_timer_None.
  - intros id flags it k code k' Hs ->. simpl in *.
    destruct (k_timers k !! id) as [t|] eqn:Ht; simplify_eq. by exists t.
  - intros id k code k' [= <- <-] _. done.
Qed.

(** A process that has touched no signal yet. *)
Definition kernel0 : kernel :=
  {| k_mask := 0; k_pending := []; k_actions := ∅; k_timers := ∅; k_errno := 0 |}.

End Linux.
