(* ===== verification/Reusable.v ===== *)
(** * Pools of reusable values

    Models [src/reusable.rs]: a [Pool] keeps the values that are not in use in a [Vec] behind
    interior mutability and builds a new one only when it is empty; a [Reusable] owns a value and
    gives it back when dropped. *)

From S2P Require Import Prelude.

(** ** Interior mutability: [trait SharedMut], implemented by [RefCell] and [Mutex] *)

Class SharedMut (C : Type -> Type) : Type := {
  BorrowError : Type;
  (** [try_into_inner]: the value behind the guard, or the reason there is no guard. *)
  try_into_inner : forall {V}, C V -> result V BorrowError;
  (** The guard is dropped after the value became [v]. *)
  release : forall {V}, C V -> V -> C V;
  (** The guard is dropped by a panic that unwinds through its owner. *)
  unwind : forall {V}, C V -> C V;
  (** [Default::default]: an unshared cell. *)
  fresh_cell : forall {V}, V -> C V;
  (** The value in the cell, for specifications. *)
  peek : forall {V}, C V -> V;
}.

Class SharedMutLaws (C : Type -> Type) `{SharedMut C} : Prop := {
  into_peek : forall V (c : C V) v, try_into_inner c = Ok v -> peek c = v;
  into_release : forall V (c : C V) v w,
    try_into_inner c = Ok v -> try_into_inner (release c w) = Ok w;
  into_fresh : forall V (v : V), try_into_inner (fresh_cell v) = Ok v;
  peek_unwind : forall V (c : C V), peek (unwind c) = peek c;
}.

(** [std::cell::RefCell]: fails to lend while it is lent. *)
Record RefCell (V : Type) : Type := { rc_value : V; rc_borrowed : bool }.
Arguments rc_value {V}.
Arguments rc_borrowed {V}.
Inductive BorrowMutError : Set := AlreadyBorrowed.

#[export] Instance RefCell_shared : SharedMut RefCell := {|
  BorrowError := BorrowMutError;
  try_into_inner V c := if rc_borrowed c then Err AlreadyBorrowed else Ok (rc_value c);
  release V c v := {| rc_value := v; rc_borrowed := rc_borrowed c |};
  unwind V c := c;
  fresh_cell V v := {| rc_value := v; rc_borrowed := false |};
  peek V c := rc_value c;
|}.

#[export] Instance RefCell_laws : SharedMutLaws RefCell.
Proof.
  split; intros V c; try destruct c as [v []]; simpl; intros; by simplify_eq.
Qed.

(** [std::sync::Mutex]: a panic in the critical section poisons it for good. *)
Record Mutex (V : Type) : Type := { mx_value : V; mx_poisoned : bool }.
Arguments mx_value {V}.
Arguments mx_poisoned {V}.
Inductive PoisonError : Set := Poisoned.

#[export] Instance Mutex_shared : SharedMut Mutex := {|
  BorrowError := PoisonError;
  try_into_inner V c := if mx_poisoned c then Err Poisoned else Ok (mx_value c);
  release V c v := {| mx_value := v; mx_poisoned := mx_poisoned c |};
  unwind V c := {| mx_value := mx_value c; mx_poisoned := true |};
  fresh_cell V v := {| mx_value := v; mx_poisoned := false |};
  peek V c := mx_value c;
|}.

#[export] Instance Mutex_laws : SharedMutLaws Mutex.
Proof.
  split; intros V c; try destruct c as [v []]; simpl; intros; by simplify_eq.
Qed.

(** ** Pools *)

(** [struct Pool]: [pool_env] is the state that the builder closure captured. *)
Record Pool (C : Type -> Type) (T B : Type) : Type := mkPool {
  allocated : C (list T);
  pool_env : B;
}.
Arguments mkPool {C T B}.
Arguments allocated {C T B}.
Arguments pool_env {C T B}.

(** [struct Reusable]: the reference to the pool is implicit. *)
Record Reusable (T : Type) : Type := mkReusable { value : option T }.
Arguments mkReusable {T}.
Arguments value {T}.

Section Pools.
Context {C : Type -> Type} `{!SharedMut C} {T B : Type}.
(** The [builder] field: a call may change what the closure captured, and may panic. *)
Variable builder : comp B (option T).

Abbreviation pool := (Pool C T B).

(** [Pool::new]. *)
Definition pool_new (env : B) : pool := mkPool (fresh_cell []) env.

(** [impl Default for Pool]: the builder that makes default values, where [T::default()] is [d]; the
    pool is a new one. *)
Definition default_builder (d : T) : comp unit (option T) := mret (Some d).

Definition set_allocated (c : C (list T)) (p : pool) : pool := mkPool c (pool_env p).
Definition set_env (e : B) (p : pool) : pool := mkPool (allocated p) e.

(** [impl TryFrom<&Pool> for Reusable].  The guard is a temporary of the statement that calls
    [pop().or_else(builder)], so the builder runs while it is held.  The [PoisonError] of a poisoned
    mutex holds a guard too, which goes when the error does; every caller drops the error before it
    does anything else with the pool ([prealloc] would collect several of them, but it only runs on
    new pools). *)
Definition try_from : comp pool (result (Reusable T) (option BorrowError)) := fun p =>
  match try_into_inner (allocated p) with
  | Err e => (Done (Err (Some e)), p)
  | Ok vec =>
      match vec_pop vec with
      | (Some v, vec') =>
          (Done (Ok (mkReusable (Some v))), set_allocated (release (allocated p) vec') p)
      | (None, vec') =>
          match builder (pool_env p) with
          | (Done (Some v), e) =>
              (Done (Ok (mkReusable (Some v))),
               set_env e (set_allocated (release (allocated p) vec') p))
          | (Done None, e) =>
              (Done (Err None), set_env e (set_allocated (release (allocated p) vec') p))
          | (Panicked m, e) => (Panicked m, set_env e (set_allocated (unwind (allocated p)) p))
          | (Aborted m, e) => (Aborted m, set_env e p)
          | (Undefined, e) => (Undefined, set_env e p)
          end
      end
  end.

(** [impl Deref for Reusable] and [impl DerefMut for Reusable]. *)
Definition deref {S} (r : Reusable T) : comp S T :=
  expect (value r) "called `Option::unwrap()` on a `None` value".
Definition deref_mut {S} (r : Reusable T) (f : T -> T) : comp S (Reusable T) :=
  v ← expect (value r) "called `Option::unwrap()` on a `None` value";
  mret (mkReusable (Some (f v))).

(** [impl Drop for Reusable]: take the value, then push it onto the pool. *)
Definition give_back (v : T) : comp pool unit := fun p =>
  match try_into_inner (allocated p) with
  | Err _ => (Panicked "called `Result::unwrap()` on an `Err` value", p)
  | Ok vec => (Done tt, set_allocated (release (allocated p) (vec_push vec v)) p)
  end.

Definition Reusable_drop (r : Reusable T) : comp pool unit :=
  v ← expect (value r) "called `Option::unwrap()` on a `None` value"; give_back v.

Fixpoint drop_all (rs : list (result (Reusable T) (option BorrowError))) : comp pool unit :=
  match rs with
  | [] => mret tt
  | Ok r :: rs' => _ ← unwinding (drop_all rs') (Reusable_drop r); drop_all rs'
  | Err _ :: rs' => drop_all rs'
  end.

(** [Pool::prealloc]: first [count] conversions are collected, then each [Ok] is dropped in turn;
    an [Err] is returned at once, and the rest of the list is dropped on the way out.  A panic of
    the builder drops what was collected so far. *)
Fixpoint prealloc_collect (count : nat) (acc : list (result (Reusable T) (option BorrowError)))
  : comp pool (list (result (Reusable T) (option BorrowError))) :=
  match count with
  | O => mret acc
  | S n => r ← unwinding (drop_all acc) try_from; prealloc_collect n (acc ++ [r])
  end.

Fixpoint prealloc_drop (rs : list (result (Reusable T) (option BorrowError)))
  : comp pool (result unit (option BorrowError)) :=
  match rs with
  | [] => mret (Ok tt)
  | Ok r :: rs' => _ ← unwinding (drop_all rs') (Reusable_drop r); prealloc_drop rs'
  | Err e :: rs' => _ ← drop_all rs'; mret (Err e)
  end.

Definition prealloc (count : nat) : comp pool (result unit (option BorrowError)) :=
  swap ← prealloc_collect count []; prealloc_drop swap.

End Pools.

(** ** Facts about pools *)

Section PoolFacts.
Context {C : Type -> Type} `{!SharedMut C} `{!SharedMutLaws C} {T B : Type}.
Variable builder : comp B (option T).
Abbreviation pool := (Pool C T B).
Implicit Types (p : pool) (v : T) (rs : list (result (Reusable T) (option BorrowError))).

(** The pool can be locked or borrowed, and then lends [vec]. *)
Definition holds p (vec : list T) : Prop := try_into_inner (allocated p) = Ok vec.

Lemma holds_release p vec vec' e :
  holds p vec -> holds (mkPool (release (allocated p) vec') e) vec'.
Proof. intros Hp. unfold holds. simpl. by eapply into_release. Qed.

Lemma holds_new env : holds (pool_new (C := C) (T := T) env) [].
Proof. unfold holds. simpl. apply into_fresh. Qed.

(** A nonempty pool lends its most recently returned value; the builder is not called. *)
Lemma try_from_reuse p vec v :
  holds p (vec ++ [v]) ->
  try_from builder p =
    (Done (Ok (mkReusable (Some v))), mkPool (release (allocated p) vec) (pool_env p)).
Proof.
  intros Hp. unfold try_from. rewrite Hp.
  change (vec ++ [v]) with (vec_push vec v). by rewrite vec_pop_push.
Qed.

(** An empty pool calls the builder exactly once. *)
Lemma try_from_build p v e :
  holds p [] -> builder (pool_env p) = (Done (Some v), e) ->
  try_from builder p =
    (Done (Ok (mkReusable (Some v))), mkPool (release (allocated p) []) e).
Proof. intros Hp Hb. unfold try_from. rewrite Hp. simpl. by rewrite Hb. Qed.

Lemma try_from_exhausted p e :
  holds p [] -> builder (pool_env p) = (Done None, e) ->
  try_from builder p = (Done (Err None), mkPool (release (allocated p) []) e).
Proof. intros Hp Hb. unfold try_from. rewrite Hp. simpl. by rewrite Hb. Qed.

(** A pool of default values is never exhausted: a conversion fails only if the cell does. *)
Lemma try_from_default d (p : Pool C T unit) :
  match try_into_inner (allocated p) with
  | Ok _ => exists v q, try_from (default_builder d) p = (Done (Ok (mkReusable (Some v))), q)
  | Err e => try_from (default_builder d) p = (Done (Err (Some e)), p)
  end.
Proof.
  unfold try_from. destruct (try_into_inner (allocated p)) as [vec|e]; [|done].
  destruct (vec_pop vec) as [[v|] vec']; by eexists _, _.
Qed.

Lemma drop_run p vec v :
  holds p vec ->
  Reusable_drop (mkReusable (Some v)) p =
    (Done tt, mkPool (release (allocated p) (vec ++ [v])) (pool_env p)).
Proof.
  intros Hp. unfold Reusable_drop. simpl. unfold mbind, comp_bind. simpl.
  unfold give_back. by rewrite Hp.
Qed.

(** What the builder hands out over a number of calls, [None]s skipped. *)
Inductive emits : B -> list T -> B -> Prop :=
| emits_nil b : emits b [] b
| emits_some b v b' l b'' :
    builder b = (Done (Some v), b') -> emits b' l b'' -> emits b (v :: l) b''
| emits_none b b' l b'' :
    builder b = (Done None, b') -> emits b' l b'' -> emits b l b''.

Lemma emits_trans b1 l1 b2 l2 b3 :
  emits b1 l1 b2 -> emits b2 l2 b3 -> emits b1 (l1 ++ l2) b3.
Proof. induction 1; simpl; eauto using emits. Qed.

Lemma emits_one b v b' : builder b = (Done (Some v), b') -> emits b [v] b'.
Proof. eauto using emits. Qed.

Lemma emits_zero b b' : builder b = (Done None, b') -> emits b [] b'.
Proof. eauto using emits. Qed.

(** The values in a list of conversions. *)
Definition lent_value (r : result (Reusable T) (option BorrowError)) : option T :=
  match r with Ok r' => value r' | Err _ => None end.
Definition lent rs : list T := omap lent_value rs.
Definition well_lent (r : result (Reusable T) (option BorrowError)) : Prop :=
  match r with Ok r' => is_Some (value r') | Err _ => True end.

(** Every outcome of a conversion that returns, in one statement. *)
Lemma try_from_inv p vec r p' :
  holds p vec -> try_from builder p = (Done r, p') ->
  exists vec' l, holds p' vec' /\ well_lent r /\
    emits (pool_env p) l (pool_env p') /\ vec ++ l ≡ₚ vec' ++ lent [r].
Proof.
  intros Hp Ht. unfold try_from in Ht. rewrite Hp in Ht.
  destruct (vec_pop vec) as [[v|] w] eqn:Hv.
  - apply vec_pop_Some in Hv as ->. simplify_eq/=. exists w, [].
    split_and!; [by eapply holds_release | by eexists | apply emits_nil | by rewrite app_nil_r].
  - apply vec_pop_None in Hv as [-> ->].
    destruct (builder (pool_env p)) as [[[v|]|m|m|] e] eqn:Hb; simplify_eq/=.
    + exists [], [v]. split_and!; [by eapply holds_release | by eexists | by apply emits_one | done].
    + exists [], []. split_and!; [by eapply holds_release | done | by apply emits_zero | done].
Qed.

Lemma prealloc_collect_inv n acc p vec rs p' :
  holds p vec -> prealloc_collect builder n acc p = (Done rs, p') ->
  exists rs' vec' l, rs = acc ++ rs' /\ length rs' = n /\ holds p' vec' /\
    Forall well_lent rs' /\ emits (pool_env p) l (pool_env p') /\
    vec ++ l ≡ₚ vec' ++ lent rs'.
Proof.
  revert acc p vec. induction n as [|n IH]; intros acc p vec Hp Hc; simpl in Hc.
  { injection Hc as <- <-. exists [], vec, []. simpl. rewrite !app_nil_r.
    split_and!; eauto using emits_nil, Forall_nil_2. }
  apply bind_inv in Hc as (r & p1 & Ht & Hc). apply unwinding_inv in Ht.
  destruct (try_from_inv _ _ _ _ Hp Ht) as (v1 & l1 & Hp1 & Hr & He1 & Hperm1).
  destruct (IH _ _ _ Hp1 Hc) as (rs' & v2 & l2 & -> & Hlen & Hp2 & Hrs & He2 & Hperm2).
  exists (r :: rs'), v2, (l1 ++ l2).
  split_and!; [by rewrite <- app_assoc | simpl; lia | done | by constructor |
    by eapply emits_trans |].
  change (r :: rs') with ([r] ++ rs'). unfold lent in *. rewrite omap_app, app_assoc.
  rewrite Hperm1, <- app_assoc, (Permutation_app_comm _ l2), app_assoc, Hperm2.
  rewrite <- !app_assoc. by rewrite (Permutation_app_comm (omap _ rs')).
Qed.

Lemma drop_all_run rs p vec :
  holds p vec -> Forall well_lent rs ->
  exists p', drop_all rs p = (Done tt, p') /\ holds p' (vec ++ lent rs) /\
    pool_env p' = pool_env p.
Proof.
  revert p vec. induction rs as [|[[o]|e] rs IH]; intros p vec Hp Hw.
  - exists p. split_and!; [done | by rewrite app_nil_r | done].
  - apply Forall_cons in Hw as [[v Hv] Hw']. simplify_eq/=.
    destruct (IH _ _ (holds_release _ _ (vec ++ [v]) (pool_env p) Hp) Hw')
      as (p' & Hd & Hh & He).
    exists p'. rewrite <- app_assoc in Hh. split_and!; [|done..].
    erewrite comp_bind_done; [exact Hd|]. apply unwinding_done. by apply drop_run.
  - apply Forall_cons in Hw as [_ Hw']. apply (IH _ _ Hp Hw').
Qed.

(** The first failed conversion, which is what [prealloc] reports. *)
Fixpoint first_err rs : result unit (option BorrowError) :=
  match rs with
  | [] => Ok tt
  | Ok _ :: rs' => first_err rs'
  | Err e :: _ => Err e
  end.

Lemma prealloc_drop_run rs p vec :
  holds p vec -> Forall well_lent rs ->
  exists p', prealloc_drop rs p = (Done (first_err rs), p') /\ holds p' (vec ++ lent rs) /\
    pool_env p' = pool_env p.
Proof.
  revert p vec. induction rs as [|[[o]|e] rs IH]; intros p vec Hp Hw.
  - exists p. split_and!; [done | by rewrite app_nil_r | done].
  - apply Forall_cons in Hw as [[v Hv] Hw']. simplify_eq/=.
    destruct (IH _ _ (holds_release _ _ (vec ++ [v]) (pool_env p) Hp) Hw')
      as (p' & Hd & Hh & He).
    exists p'. rewrite <- app_assoc in Hh. split_and!; [|done..].
    erewrite comp_bind_done; [exact Hd|]. apply unwinding_done. by apply drop_run.
  - apply Forall_cons in Hw as [_ Hw'].
    destruct (drop_all_run _ _ _ Hp Hw') as (p' & Hd & Hh & He).
    exists p'. split_and!; [|done..]. simpl. by erewrite comp_bind_done by exact Hd.
Qed.

(** A [prealloc] that returns, with or without an error, keeps every value: what the pool held
    and what the builder made are all back in it. *)
Lemma prealloc_inv n p vec r p' :
  holds p vec -> prealloc builder n p = (Done r, p') ->
  exists vec' l, holds p' vec' /\ emits (pool_env p) l (pool_env p') /\ vec' ≡ₚ vec ++ l.
Proof.
  intros Hp Hpre. unfold prealloc in Hpre.
  apply bind_inv in Hpre as (rs & p1 & Hc & Hd).
  destruct (prealloc_collect_inv _ _ _ _ _ _ Hp Hc)
    as (rs' & v1 & l & -> & Hlen & Hp1 & Hw & He & Hperm). simpl in Hd.
  destruct (prealloc_drop_run _ _ _ Hp1 Hw) as (p2 & Hd2 & Hh & He2).
  rewrite Hd2 in Hd. simplify_eq. exists (v1 ++ lent rs'), l.
  rewrite He2. by rewrite Hperm.
Qed.

(** ** The pool's contract, over every sequence of operations *)

(** A pool in use: the pool, and the values its clients own.  Every operation runs under the
    lock, so the operations of several threads form one sequence (Threads.v). *)
Record session : Type := { s_pool : pool; s_out : list T }.

Inductive pool_step : session -> session -> Prop :=
| step_lend p out r v p' :
    try_from builder p = (Done (Ok r), p') -> value r = Some v ->
    pool_step {| s_pool := p; s_out := out |} {| s_pool := p'; s_out := v :: out |}
| step_refuse p out e p' :
    try_from builder p = (Done (Err e), p') ->
    pool_step {| s_pool := p; s_out := out |} {| s_pool := p'; s_out := out |}
| step_return p l1 v l2 p' :
    Reusable_drop (mkReusable (Some v)) p = (Done tt, p') ->
    pool_step {| s_pool := p; s_out := l1 ++ v :: l2 |} {| s_pool := p'; s_out := l1 ++ l2 |}
| step_prealloc p out n r p' :
    prealloc builder n p = (Done r, p') ->
    pool_step {| s_pool := p; s_out := out |} {| s_pool := p'; s_out := out |}.

Definition session_new (env : B) : session := {| s_pool := pool_new env; s_out := [] |}.

(** Nothing is lost and nothing is invented: lent and idle values together are exactly what the
    builder made. *)
Definition conserved (env : B) (s : session) : Prop :=
  exists vec l, holds (s_pool s) vec /\ emits env l (pool_env (s_pool s)) /\
    s_out s ++ vec ≡ₚ l.

Lemma pool_step_conserved env s s' :
  conserved env s -> pool_step s s' -> conserved env s'.
Proof.
  intros (vec & l & Hp & He & Hperm) Hstep.
  destruct Hstep as [p out r v p' Ht Hv | p out e p' Ht | p l1 v l2 p' Hd | p out n r p' Hpre];
    simpl in *.
  - destruct (try_from_inv _ _ _ _ Hp Ht) as (vec' & l' & Hp' & _ & He' & Hperm').
    exists vec', (l ++ l'). split_and!; [done | by eapply emits_trans |]. simpl.
    rewrite <- Hperm, <- app_assoc, Hperm'. simpl. rewrite Hv.
    rewrite (Permutation_app_comm vec'). solve_Permutation.
  - destruct (try_from_inv _ _ _ _ Hp Ht) as (vec' & l' & Hp' & _ & He' & Hperm').
    exists vec', (l ++ l'). split_and!; [done | by eapply emits_trans |]. simpl.
    simpl in Hperm'. rewrite app_nil_r in Hperm'. by rewrite <- Hperm, <- app_assoc, Hperm'.
  - rewrite (drop_run _ _ _ Hp) in Hd. simplify_eq.
    exists (vec ++ [v]), l. split_and!; [by eapply holds_release | done |]. simpl.
    rewrite <- Hperm. solve_Permutation.
  - destruct (prealloc_inv _ _ _ _ _ Hp Hpre) as (vec' & l' & Hp' & He' & Hperm').
    exists vec', (l ++ l'). split_and!; [done | by eapply emits_trans |]. simpl.
    by rewrite <- Hperm, <- app_assoc, Hperm'.
Qed.

Lemma session_conserved env s :
  rtc pool_step (session_new env) s -> conserved env s.
Proof.
  assert (conserved env (session_new env)) as H0.
  { exists [], []. simpl. eauto using holds_new, emits_nil. }
  intros Hs. revert H0. induction Hs; eauto using pool_step_conserved.
Qed.

(** ** Preallocation *)

(** A builder that always has another value. *)
Definition inexhaustible : Prop := forall b, exists v b', builder b = (Done (Some v), b').

Lemma prealloc_collect_fill n acc p :
  inexhaustible -> holds p [] ->
  exists rs p', prealloc_collect builder n acc p = (Done (acc ++ rs), p') /\ holds p' [] /\
    first_err rs = Ok tt /\ Forall well_lent rs /\ length (lent rs) = n /\
    emits (pool_env p) (lent rs) (pool_env p').
Proof.
  intros Hb. revert acc p. induction n as [|n IH]; intros acc p Hp; simpl.
  { exists [], p. rewrite app_nil_r. split_and!; eauto using emits_nil, Forall_nil_2. }
  destruct (Hb (pool_env p)) as (v & b' & Hv).
  destruct (IH (acc ++ [Ok (mkReusable (Some v))])
              _ (holds_release _ _ [] b' Hp)) as (rs & p' & Hc & Hp' & He & Hw & Hn & Hem).
  exists (Ok (mkReusable (Some v)) :: rs), p'.
  split_and!; [| done | done | constructor; [by eexists | done] | by simpl; f_equal |
    by eapply emits_some].
  erewrite comp_bind_done; [|apply unwinding_done; by apply try_from_build].
  rewrite Hc. by rewrite <- app_assoc.
Qed.

Lemma prealloc_fill n env :
  inexhaustible ->
  exists p' vec, prealloc builder n (pool_new env) = (Done (Ok tt), p') /\
    holds p' vec /\ length vec = n /\ emits env vec (pool_env p').
Proof.
  intros Hb.
  destruct (prealloc_collect_fill n [] (pool_new env) Hb (holds_new env))
    as (rs & p1 & Hc & Hp1 & Hf & Hw & Hn & Hem).
  destruct (prealloc_drop_run _ _ _ Hp1 Hw) as (p2 & Hd & Hp2 & He).
  exists p2, (lent rs). split_and!; [| done | done | by rewrite He].
  unfold prealloc. erewrite comp_bind_done by exact Hc. simpl. by rewrite Hd, Hf.
Qed.

(** ** Main properties *)

(** A pool never lends one value twice: if the builder makes distinct values, then after any
    sequence of conversions, drops and preallocations the values in use and the idle ones are all
    distinct, and the pool can still be locked. *)
Theorem pool_exclusive env s :
  (forall l b, emits env l b -> NoDup l) ->
  rtc pool_step (session_new env) s ->
  exists vec, holds (s_pool s) vec /\ NoDup (s_out s ++ vec).
Proof.
  intros Hb Hs. apply session_conserved in Hs as (vec & l & Hp & He & Hperm).
  exists vec. split; [done|]. rewrite Hperm. eauto.
Qed.

(** C36: Dropping a [Reusable] and converting again is a round trip: the value comes back, the
    idle values are as before, and the builder is not called. *)
Theorem drop_try_from_roundtrip p vec v :
  holds p vec ->
  exists p1 p2, Reusable_drop (mkReusable (Some v)) p = (Done tt, p1) /\
    try_from builder p1 = (Done (Ok (mkReusable (Some v))), p2) /\
    holds p2 vec /\ pool_env p2 = pool_env p.
Proof.
  intros Hp. exists (mkPool (release (allocated p) (vec ++ [v])) (pool_env p)). eexists.
  split_and!; [by apply drop_run | | |].
  - eapply try_from_reuse, holds_release, Hp.
  - eapply (holds_release (mkPool _ _)), holds_release, Hp.
  - done.
Qed.

End PoolFacts.

(** ** What the builder does to its environment is all that a pool does to it *)

Section PoolEnv.
Context {C : Type -> Type} `{!SharedMut C} {T B : Type}.
Variable builder : comp B (option T).
Variable R : B -> B -> Prop.
Context `{!Reflexive R, !Transitive R}.
Hypothesis builder_within : forall b x b', builder b = (x, b') -> R b b'.
Abbreviation pool := (Pool C T B).

Definition env_within {A} (m : comp pool A) : Prop :=
  forall p x p', m p = (x, p') -> R (pool_env p) (pool_env p').

Lemma within_bind {A D} (m : comp pool A) (k : A -> comp pool D) :
  env_within m -> (forall a, env_within (k a)) -> env_within (m ≫= k).
Proof.
  intros Hm Hk p x p'. unfold mbind, comp_bind. destruct (m p) as [[a| | |] p1] eqn:Hp;
    intros Hx; apply Hm in Hp; simplify_eq; try done. etransitivity; [done | by eapply Hk].
Qed.

Lemma within_unwinding {A} (c : comp pool unit) (m : comp pool A) :
  env_within c -> env_within m -> env_within (unwinding c m).
Proof.
  intros Hc Hm p x p'. unfold unwinding. destruct (m p) as [[a|msg| |] p1] eqn:Hp;
    apply Hm in Hp; try (intros Hx; simplify_eq; done).
  destruct (c p1) as [[] p2] eqn:Hp2; apply Hc in Hp2; intros Hx; simplify_eq; by etransitivity.
Qed.

Lemma within_try_from : env_within (try_from builder).
Proof.
  intros p x p'. unfold try_from. repeat case_match; intros Hx; simplify_eq/=; try done;
    by eapply builder_within.
Qed.

Lemma within_drop r : env_within (Reusable_drop r).
Proof.
  intros p x p'. unfold Reusable_drop, give_back, expect, mbind, comp_bind.
  destruct (value r); simpl; [|by intros; simplify_eq]. case_match; by intros; simplify_eq.
Qed.

Lemma within_drop_all rs : env_within (drop_all rs).
Proof.
  induction rs as [|[r|] rs IH]; simpl; [by intros p x p' [= _ <-] | | done].
  apply within_bind; [|done]. apply within_unwinding; [done | apply within_drop].
Qed.

Lemma within_prealloc n : env_within (prealloc builder n).
Proof.
  apply within_bind.
  - generalize (@nil (result (Reusable T) (option BorrowError))) as acc.
    induction n as [|n IH]; intros acc; simpl; [by intros p x p' [= _ <-]|].
    apply within_bind; [|done]. apply within_unwinding; [apply within_drop_all | apply within_try_from].
  - intros rs. induction rs as [|[r|] rs IH]; simpl; [by intros p x p' [= _ <-] | |].
    + apply within_bind; [|done].
      apply within_unwinding; [apply within_drop_all | apply within_drop].
    + apply within_bind; [apply within_drop_all | by intros _ p x p' [= _ <-]].
Qed.
End PoolEnv.

(** C37: A builder that panics while the pool's mutex is held poisons the pool for good: every
    later conversion fails with the poison error, and dropping a value that was still lent
    panics without putting it back. *)
Theorem builder_panic_poisons {T B} (builder : comp B (option T)) (p : Pool Mutex T B) m e :
  holds p [] -> builder (pool_env p) = (Panicked m, e) ->
  exists p', try_from builder p = (Panicked m, p') /\
    try_from builder p' = (Done (Err (Some Poisoned)), p') /\
    forall v, Reusable_drop (mkReusable (Some v)) p' =
      (Panicked "called `Result::unwrap()` on an `Err` value", p') /\
      peek (allocated p') = [].
Proof.
  intros Hp Hb. unfold try_from at 1. rewrite Hp. simpl. rewrite Hb.
  eexists. split; [done|]. split; [done|]. intros v. split; [done|].
  apply into_peek in Hp. simpl in *. done.
Qed.

(** A builder that counts, and one that gives up. *)
Module PoolExamples.
Definition counter : comp nat (option nat) := fun n => (Done (Some n), S n).

Lemma counter_emits n l m : emits counter n l m -> NoDup l /\ Forall (fun x => (n <= x)%nat) l.
Proof.
  induction 1 as [b|b v b' l b'' Hb _ [Hnd Hall]|b b' l b'' Hb _ IH];
    [split; constructor | | by injection Hb].
  injection Hb as <- <-. split; constructor; [|done|done|].
  - intros Hin. rewrite Forall_forall in Hall. apply Hall in Hin. lia.
  - eapply Forall_impl; [exact Hall|]. simpl. lia.
Qed.

Lemma pool_exclusive_witness :
  exists vec, holds (mkPool (fresh_cell (C := Mutex) [0%nat]) 2%nat) vec /\
    NoDup ([1%nat] ++ vec).
Proof.
  apply (pool_exclusive counter 0%nat
    {| s_pool := mkPool (fresh_cell [0%nat]) 2%nat; s_out := [1%nat] |}).
  - intros l b He. by destruct (counter_emits _ _ _ He).
  - eapply rtc_l; [by eapply step_lend|]. eapply rtc_l; [by eapply step_lend|].
    eapply rtc_l; [|apply rtc_refl].
    apply (step_return _ _ [1%nat] 0%nat []). reflexivity.
Defined.

Lemma drop_try_from_roundtrip_witness :
  exists p1 p2,
    Reusable_drop (mkReusable (Some 7%nat)) (pool_new (C := RefCell) 0%nat) = (Done tt, p1) /\
    try_from counter p1 = (Done (Ok (mkReusable (Some 7%nat))), p2) /\
    holds p2 [] /\ pool_env p2 = 0%nat.
Proof. apply (drop_try_from_roundtrip counter (pool_new 0%nat)). reflexivity. Defined.

Definition out_of_memory : comp nat (option nat) := fun n => (Panicked "out of memory", n).

Lemma builder_panic_poisons_witness :
  exists p', try_from (C := Mutex) out_of_memory (pool_new 0%nat) = (Panicked "out of memory", p') /\
    try_from out_of_memory p' = (Done (Err (Some Poisoned)), p') /\
    forall v, Reusable_drop (mkReusable (Some v)) p' =
      (Panicked "called `Result::unwrap()` on an `Err` value", p') /\
      peek (allocated p') = [].
Proof. apply (builder_panic_poisons out_of_memory (pool_new 0%nat) _ 0%nat); reflexivity. Defined.
End PoolExamples.
