(* ===== verification/Gotcha.v ===== *)
(** * libgotcha, as libinger uses it

    libgotcha (a submodule that is not part of the sources) provides the libsets, called groups:
    isolated copies of the program's libraries.  It is a parameter: [Gotcha] lists the operations
    that libinger calls and [GotchaLaws] what it relies on. *)

From S2P Require Import Prelude Reusable.

(** A group handle; [Group::SHARED] is the starting libset, whose code is never preempted. *)
Definition Group : Set := nat.
Definition SHARED : Group := 0%nat.
Definition is_shared (g : Group) : bool := bool_decide (g = SHARED).

Class Gotcha : Type := {
  (** What libgotcha keeps about the groups. *)
  gotcha_state : Set;
  (** [Group::new]: another group, or [None] when the libsets are used up. *)
  Group_new : gotcha_state -> option Group * gotcha_state;
  (** [Group::limit]. *)
  Group_limit : nat;
  (** libgotcha's state when the process starts. *)
  gotcha_init : gotcha_state;
  (** [Group::renew]: reinitialize the libraries of a group; [false] on failure. *)
  Group_renew : Group -> bool;
  (** The libset whose [errno] the call [errno()] denotes, given the thread's next group. *)
  errno_sel : Group -> Group;
  (** Whether [group_lookup_symbol_fn!] finds [__errno_location] in a group. *)
  has_errno_location : Group -> bool;
}.

(** [GotchaGroup::new] as a pool's builder. *)
Definition group_builder `{Gotcha} : comp gotcha_state (option Group) := fun s =>
  let '(g, s') := Group_new s in (Done g, s').

Class GotchaLaws `{Gotcha} : Prop := {
  (** Distinct calls to [Group::new] return distinct groups, none of them the shared one. *)
  law_groups : forall s l s', emits group_builder s l s' -> NoDup l /\ SHARED ∉ l;
  (** Within a preemptible group, [errno()] is that group's own. *)
  law_errno_sel : forall g, g <> SHARED -> errno_sel g = g;
  (** Every group has a C library. *)
  law_errno_location : forall g, has_errno_location g = true;
}.

(** A libgotcha with [limit] libsets, numbered from 1. *)
Module Libsets.
Definition gotcha (limit : nat) : Gotcha := {|
  gotcha_state := nat;
  Group_new n := if decide (n < limit)%nat then (Some (S n), S n) else (None, n);
  Group_limit := limit;
  gotcha_init := O;
  Group_renew _ := true;
  errno_sel g := g;
  has_errno_location _ := true;
|}.

Lemma gotcha_emits limit (s s' : @gotcha_state (gotcha limit)) l :
  emits (@group_builder (gotcha limit)) s l s' -> Forall (fun g => (S s <= g)%nat) l /\ NoDup l.
Proof.
  induction 1 as [b | b v b' l b'' Hb _ [IH Hnd] | b b' l b'' Hb _ [IH Hnd]].
  - split; constructor.
  - unfold group_builder in Hb. simpl in Hb. case_decide; simplify_eq. split.
    + constructor; [done|]. eapply Forall_impl; [exact IH|]. simpl. lia.
    + constructor; [|done]. intros Hin. rewrite Forall_forall in IH. apply IH in Hin. lia.
  - unfold group_builder in Hb. simpl in Hb. case_decide; simplify_eq. done.
Qed.

#[export] Instance laws limit : @GotchaLaws (gotcha limit).
Proof.
  split; [|done..]. intros s l s' He. apply gotcha_emits in He as [Hge Hnd].
  split; [done|]. intros Hin. rewrite Forall_forall in Hge. apply Hge in Hin.
  unfold SHARED in Hin. lia.
Qed.
End Libsets.
