(* ===== verification/Pools.v ===== *)
(** * The process-wide pools: signals, libsets, stacks

    Models [src/signals.rs], [src/groups.rs] and [src/stacks.rs]: each is a [static] pool behind a
    [Once].  (The pool of thread-control blocks, [src/localstores.rs], is in Tcb.v.) *)

From S2P Require Import Prelude Signal Reusable Gotcha.

(** ** [static mut X: Option<V>] initialized under a [Once] *)

Inductive once (V : Type) : Type :=
| OnceNew
| OnceDone (v : V)
| OncePoisoned.
Arguments OnceNew {V}.
Arguments OnceDone {V} v.
Arguments OncePoisoned {V}.

(** [INIT.call_once(init)]; the static is assigned by [init]'s last statement.  A panic of [init]
    poisons the [Once], and every later call panics. *)
Definition call_once {V} (init : exit V) : comp (once V) unit := fun o =>
  match o with
  | OnceDone _ => (Done tt, o)
  | OncePoisoned => (Panicked "Once instance has previously been poisoned", o)
  | OnceNew =>
      match init with
      | Done v => (Done tt, OnceDone v)
      | Panicked m => (Panicked m, OncePoisoned)
      | Aborted m => (Aborted m, OnceNew)
      | Undefined => (Undefined, OnceNew)
      end
  end.

(** Use the static after [call_once]. *)
Definition with_static {V A} (m : comp V A) : comp (once V) A := fun o =>
  match o with
  | OnceDone v => let '(r, v') := m v in (r, OnceDone v')
  | _ => (Panicked "called `Option::unwrap()` on a `None` value", o)
  end.

Lemma once_fresh {V A} (init : V) (m : comp V A) r v' :
  m init = (r, v') ->
  (call_once (Done init) ≫= fun _ => with_static m) OnceNew = (r, OnceDone v').
Proof. intros Hm. unfold mbind, comp_bind. simpl. by rewrite Hm. Qed.

Lemma once_again {V A} (init : exit V) (m : comp V A) v r v' :
  m v = (r, v') -> (call_once init ≫= fun _ => with_static m) (OnceDone v) = (r, OnceDone v').
Proof. intros Hm. unfold mbind, comp_bind. simpl. by rewrite Hm. Qed.

(** ** [src/signals.rs] *)

Definition NOTIFICATION_SIGNALS : list Signal :=
  [Alarm; VirtualAlarm; ProfilingTimer; ProcessorLimit; FilesystemLimit; TerminalInput;
   TerminalOutput; PowerFailure; User1; User2;
   (* A stretch... *)
   UrgentSocket; Pollable; Syscall; FloatingPoint; Hangup; Child].

Abbreviation signal_pool := (Pool Mutex Signal Z).

(** The builder: [NOTIFICATION_SIGNALS.get(free.fetch_add(1))].  The captured state counts the
    calls; the [AtomicUsize] holds it modulo 2^64. *)
Definition signal_builder : comp Z (option Signal) := fun free =>
  (Done (NOTIFICATION_SIGNALS !! Z.to_nat (wrap_u64 free)), free + 1).

Definition assign_signal
  : comp (once signal_pool) (result (Reusable Signal) (option PoisonError)) :=
  _ ← call_once (Done (pool_new 0)); with_static (try_from signal_builder).

(** ** [src/groups.rs] *)

Abbreviation group_pool := (Pool Mutex Group gotcha_state).

Definition assign_group `{Gotcha}
  : comp (once group_pool) (result (Reusable Group) (option PoisonError)) :=
  _ ← call_once (Done (pool_new gotcha_init)); with_static (try_from group_builder).

(** ** [src/stacks.rs] and the constants of [src/lib.rs] *)

Definition QUANTUM_MICROSECS : Z := 100.
Definition STACK_SIZE_BYTES : Z := 2 * 1024 * 1024.
Definition concurrency_limit `{Gotcha} : nat := Group_limit.

(** A [Box<[u8]>]: which allocation it is, and its length. *)
Record Stack : Set := { stack_alloc : nat; stack_len : Z }.
Abbreviation stack_pool := (Pool Mutex Stack nat).

Definition stack_builder : comp nat (option Stack) := fun next =>
  (Done (Some {| stack_alloc := next; stack_len := STACK_SIZE_BYTES |}), S next).

Definition alloc_stack_init `{Gotcha} : exit stack_pool :=
  match prealloc (C := Mutex) stack_builder Group_limit (pool_new O) with
  | (Done (Ok tt), p) => Done p
  | (Done (Err _), _) => Panicked "libinger: stack allocator lock was poisoned during init"
  | (Panicked m, _) => Panicked m
  | (Aborted m, _) => Aborted m
  | (Undefined, _) => Undefined
  end.

Definition alloc_stack `{Gotcha} : comp (once stack_pool) (Reusable Stack) :=
  _ ← call_once alloc_stack_init;
  r ← with_static (try_from stack_builder);
  expect_ok r "libinger: stack allocator lock is poisoned".

(** ** Preemption signals are never shared *)

Lemma NOTIFICATION_SIGNALS_NoDup : NoDup NOTIFICATION_SIGNALS.
Proof. by apply (bool_decide_unpack _); vm_compute. Qed.

Lemma NOTIFICATION_SIGNALS_length : length NOTIFICATION_SIGNALS = 16%nat.
Proof. done. Qed.

Lemma NOTIFICATION_SIGNALS_maskable s : s ∈ NOTIFICATION_SIGNALS -> s <> Kill.
Proof. intros Hs ->. rewrite list_elem_of_In in Hs. simpl in Hs. naive_solver. Qed.

Lemma take_S_drop {A} (l : list A) i x n :
  l !! i = Some x -> x :: take n (drop (S i) l) = take (S n) (drop i l).
Proof. intros Hi. by rewrite (drop_S _ _ _ Hi). Qed.

(** The signals built by calls number [b] to [b'] are that segment of the table. *)
Lemma signal_builder_emits b l b' :
  emits signal_builder b l b' -> 0 <= b -> b <= b' /\
  (b' <= U64 -> l = take (Z.to_nat (b' - b)) (drop (Z.to_nat b) NOTIFICATION_SIGNALS)).
Proof.
  induction 1 as [b | b v b' l b'' Hb He IH | b b' l b'' Hb He IH]; intros Hpos.
  - split; [lia|]. intros _. by rewrite Z.sub_diag, take_0.
  - injection Hb as Hv <-. destruct IH as [Hle IH]; [lia|]. split; [lia|]. intros Hu.
    rewrite wrap_u64_small in Hv by (unfold is_u64; lia). rewrite IH by done.
    replace (Z.to_nat (b + 1)) with (S (Z.to_nat b)) by lia.
    replace (Z.to_nat (b'' - b)) with (S (Z.to_nat (b'' - (b + 1)))) by lia.
    by apply take_S_drop.
  - injection Hb as Hv <-. destruct IH as [Hle IH]; [lia|]. split; [lia|]. intros Hu.
    rewrite wrap_u64_small in Hv by (unfold is_u64; lia). rewrite IH by done.
    apply lookup_ge_None in Hv.
    rewrite !drop_ge, !take_nil by lia. done.
Qed.

Lemma emitted_signals l n :
  emits signal_builder 0 l n -> n <= U64 -> l `prefix_of` NOTIFICATION_SIGNALS.
Proof.
  intros He Hn. apply signal_builder_emits in He as [_ Hl]; [|done].
  rewrite Hl by done. change (Z.to_nat 0) with 0%nat. rewrite drop_0. apply prefix_take.
Qed.

(** A signal session: the pool behind [SIGNALS], and the signals that threads own. *)
Abbreviation signal_session := (session (C := Mutex) (T := Signal) (B := Z)).

(** What conservation says of the signal pool. *)
Lemma signal_session_inv (s : signal_session) :
  rtc (pool_step signal_builder) (session_new 0) s -> pool_env (s_pool s) <= U64 ->
  exists vec n, holds (s_pool s) vec /\ (n <= 16)%nat /\
    Z.of_nat n = Z.min 16 (pool_env (s_pool s)) /\
    s_out s ++ vec ≡ₚ take n NOTIFICATION_SIGNALS.
Proof.
  intros Hs Hu. apply session_conserved in Hs as (vec & l & Hp & He & Hperm).
  apply signal_builder_emits in He as [H0 Hl]; [|done]. specialize (Hl Hu).
  change (Z.to_nat 0) with 0%nat in Hl. rewrite drop_0 in Hl.
  exists vec, (Z.to_nat (pool_env (s_pool s)) `min` 16)%nat.
  split_and!; [done | lia | lia |]. rewrite Hperm, Hl, Z.sub_0_r.
  destruct (Nat.le_gt_cases (Z.to_nat (pool_env (s_pool s))) 16).
  - by rewrite Nat.min_l by done.
  - rewrite Nat.min_r by lia. by rewrite !take_ge by (simpl; lia).
Qed.

(** C34: Preemption signals are exclusive.  Whatever sequence of assignments and releases the
    threads of the process perform, no signal of the table is owned twice, every owned signal is
    one of the table's and can be masked, and at most 16 are owned at once, as long as the
    builder's counter has not wrapped around. *)
Theorem assign_signal_exclusive (s : signal_session) :
  rtc (pool_step signal_builder) (session_new 0) s -> pool_env (s_pool s) <= U64 ->
  NoDup (s_out s) /\ (forall g, g ∈ s_out s -> g ∈ NOTIFICATION_SIGNALS /\ g <> Kill) /\
  (length (s_out s) <= 16)%nat.
Proof.
  intros Hs Hu. destruct (signal_session_inv _ Hs Hu) as (vec & n & _ & Hn & _ & Hperm).
  assert (NoDup (s_out s ++ vec)) as Hnd.
  { rewrite Hperm. eapply sublist_NoDup; [apply NOTIFICATION_SIGNALS_NoDup|].
    apply sublist_take. }
  apply NoDup_app in Hnd as (Hnd & _ & _). split_and!; [done | |].
  - intros g Hg. assert (g ∈ NOTIFICATION_SIGNALS) as Hin.
    { assert (g ∈ take n NOTIFICATION_SIGNALS) as Ht by (rewrite <- Hperm; set_solver).
      by eapply elem_of_take in Ht as (i & Hi & _); eapply list_elem_of_lookup_2. }
    eauto using NOTIFICATION_SIGNALS_maskable.
  - apply Permutation_length in Hperm. rewrite length_app, length_take in Hperm.
    simpl in Hperm. lia.
Qed.

(** The next conversion of a pool that can be locked. *)
Lemma signal_try_from (p : signal_pool) vec :
  holds p vec ->
  (exists vec' v p', vec = vec' ++ [v] /\
     try_from signal_builder p = (Done (Ok (mkReusable (Some v))), p')) \/
  (vec = [] /\ exists p', try_from signal_builder p =
     (Done (match NOTIFICATION_SIGNALS !! Z.to_nat (wrap_u64 (pool_env p)) with
            | Some v => Ok (mkReusable (Some v)) | None => Err None end), p')).
Proof.
  intros Hp. destruct vec as [|v vec _] using rev_ind.
  - right. split; [done|]. unfold try_from. rewrite Hp. simpl.
    destruct (NOTIFICATION_SIGNALS !! _); eauto.
  - left. exists vec, v. eexists. split; [done|]. by apply try_from_reuse.
Qed.

(** C35: A thread gets a signal exactly when fewer than 16 are in use: below that the assignment
    succeeds, with a signal that nobody owns, and at 16 it fails with [None], the error that
    [PreemptionSignal::new] turns into a panic. *)
Theorem assign_signal_limit (s : signal_session) :
  rtc (pool_step signal_builder) (session_new 0) s -> pool_env (s_pool s) < U64 ->
  if decide (length (s_out s) < 16)%nat
  then exists v p', v ∉ s_out s /\
    try_from signal_builder (s_pool s) = (Done (Ok (mkReusable (Some v))), p')
  else exists p', try_from signal_builder (s_pool s) = (Done (Err None), p').
Proof.
  intros Hs Hu.
  destruct (signal_session_inv _ Hs) as (vec & n & Hp & Hn & Hmin & Hperm); [lia|].
  assert (NoDup (s_out s ++ vec)) as Hnd.
  { rewrite Hperm. eapply sublist_NoDup; [apply NOTIFICATION_SIGNALS_NoDup|].
    apply sublist_take. }
  assert (length (s_out s) + length vec = n)%nat as Hlen.
  { rewrite <- length_app, Hperm, length_take. simpl. lia. }
  destruct (signal_try_from _ _ Hp) as [(vec' & v & p' & -> & Ht) | (-> & p' & Ht)].
  - rewrite length_app in Hlen. simpl in Hlen. rewrite decide_True by lia.
    exists v, p'. split; [|done]. apply NoDup_app in Hnd as (_ & Hd & _).
    intros Hin. eapply Hd; [exact Hin|]. set_solver.
  - simpl in Hlen. rewrite app_nil_r in Hperm.
    rewrite wrap_u64_small in Ht by (unfold is_u64; lia).
    case_decide as Hlt.
    + replace (Z.to_nat (pool_env (s_pool s))) with n in Ht by lia.
      destruct (NOTIFICATION_SIGNALS !! n) as [v|] eqn:Hv;
        [|apply lookup_ge_None in Hv; simpl in Hv; lia].
      exists v, p'. split; [|done]. rewrite Hperm. intros Hin.
      apply elem_of_take in Hin as (i & Hi & Hin).
      assert (i = n) by (by eapply NoDup_lookup; [apply NOTIFICATION_SIGNALS_NoDup|..]). lia.
    + rewrite lookup_ge_None_2 in Ht by (simpl; lia). eauto.
Qed.

(** A run of the pool that three threads use, one of which releases its signal. *)
Definition signal_witness : signal_session :=
  {| s_pool := mkPool {| mx_value := [VirtualAlarm]; mx_poisoned := false |} 3;
     s_out := [ProfilingTimer; Alarm] |}.

Lemma signal_witness_reachable :
  rtc (pool_step signal_builder) (session_new 0) signal_witness.
Proof.
  eapply rtc_l; [by eapply step_lend|]. eapply rtc_l; [by eapply step_lend|].
  eapply rtc_l; [by eapply step_lend|]. eapply rtc_l; [|apply rtc_refl].
  eapply (step_return _ _ [ProfilingTimer] VirtualAlarm [Alarm]). reflexivity.
Defined.

Lemma assign_signal_exclusive_witness :
  NoDup [ProfilingTimer; Alarm] /\
  (forall g, g ∈ [ProfilingTimer; Alarm] -> g ∈ NOTIFICATION_SIGNALS /\ g <> Kill) /\
  (2 <= 16)%nat.
Proof.
  apply (assign_signal_exclusive signal_witness); [apply signal_witness_reachable |].
  unfold U64. simpl. lia.
Defined.

Lemma assign_signal_limit_witness :
  exists v p', v ∉ [ProfilingTimer; Alarm] /\
    try_from signal_builder (s_pool signal_witness) = (Done (Ok (mkReusable (Some v))), p').
Proof.
  apply (assign_signal_limit signal_witness); [apply signal_witness_reachable |].
  unfold U64. simpl. lia.
Defined.

(** ** Stacks *)

Lemma stack_builder_emits n l m :
  emits stack_builder n l m ->
  Forall (fun s => stack_len s = STACK_SIZE_BYTES /\ (n <= stack_alloc s)%nat) l /\ NoDup l.
Proof.
  induction 1 as [b|b v b' l b'' Hb _ [Hall Hnd]|b b' l b'' Hb _ IH];
    [split; constructor | | by injection Hb].
  injection Hb as <- <-. split; constructor; [done | | |done].
  - eapply Forall_impl; [exact Hall|]. simpl. naive_solver lia.
  - intros Hin. rewrite Forall_forall in Hall. apply Hall in Hin. simpl in Hin. lia.
Qed.

(** The first call of [alloc_stack] preallocates one stack per libset, each
    [STACK_SIZE_BYTES] long and all distinct; it cannot fail, and lends one of them, so that as
    many stacks as there are libsets can be lent without allocating. *)
Theorem alloc_stack_first `{Gotcha} :
  (0 < Group_limit)%nat ->
  exists st vec p, alloc_stack OnceNew = (Done (mkReusable (Some st)), OnceDone p) /\
    holds p vec /\ S (length vec) = Group_limit /\ NoDup (vec ++ [st]) /\
    Forall (fun s => stack_len s = STACK_SIZE_BYTES) (vec ++ [st]).
Proof.
  intros Hlim.
  destruct (prealloc_fill (C := Mutex) stack_builder Group_limit O)
    as (p & vec & Hpre & Hp & Hlen & He); [intros b; by eexists _, _|].
  apply stack_builder_emits in He as [Hall Hnd].
  destruct vec as [|st vec _] using rev_ind; [simpl in Hlen; lia|].
  rewrite length_app in Hlen. simpl in Hlen.
  exists st, vec. eexists. split_and!; [| by eapply (holds_release p) | lia | done |].
  - unfold alloc_stack, alloc_stack_init. rewrite Hpre.
    unfold mbind, comp_bind. simpl. rewrite (try_from_reuse _ _ _ _ Hp). done.
  - eapply Forall_impl; [exact Hall|]. by intros ? [? _].
Qed.

Lemma alloc_stack_first_witness :
  exists st vec p,
    @alloc_stack (Libsets.gotcha 3) OnceNew = (Done (mkReusable (Some st)), OnceDone p) /\
    holds p vec /\ S (length vec) = 3%nat /\ NoDup (vec ++ [st]) /\
    Forall (fun s => stack_len s = STACK_SIZE_BYTES) (vec ++ [st]).
Proof. apply (@alloc_stack_first (Libsets.gotcha 3)). simpl. lia. Defined.
