(* ===== verification/Adapters.v ===== *)
(** * Smart pointers (src/force.rs, the second half of src/stacks.rs)

    [AssertSend] and [DerefAdapter] wrap a pointer to change what the type checker knows of it.
    libtimetravel runs functions on stacks that it reaches through a [DerefAdapter] around a
    [Reusable] around a [Box], and relies on two things: that it is the same memory on every access,
    and that this memory does not move. *)

From S2P Require Import Prelude Signal Reusable Gotcha Pools.

(** ** [Deref] and [DerefMut] *)

(** What [*x] is, and [x] after [*x = u]; [None] if dereferencing panics. *)
Class DerefMut (T U : Type) : Type := {
  target : T -> option U;
  assign : U -> T -> option T;
}.

(** A pointer points to one place: what was assigned is read back, and nothing else changes. *)
Class DerefMutLaws (T U : Type) `{DerefMut T U} : Prop := {
  law_assign u x : is_Some (target x) -> exists y, assign u x = Some y /\ target y = Some u;
  law_assign_same u x : target x = Some u -> assign u x = Some x;
  law_assign_twice u u' x y : assign u x = Some y -> assign u' y = assign u' x;
  law_assign_none u x : target x = None -> assign u x = None;
}.

(** [StableAddr] and [StableMutAddr]: the address of the target, which accesses do not change. *)
Class StableAddr (T : Type) : Type := { addr_of : T -> option Z }.
Class StableAddrLaws (T U : Type) `{DerefMut T U, StableAddr T} : Prop := {
  law_addr x : is_Some (target x) -> is_Some (addr_of x);
  law_stable u x y : assign u x = Some y -> addr_of y = addr_of x;
}.

(** ** The pointers of the standard library and of src/reusable.rs *)

Record Box (V : Type) : Type := mkBox { box_addr : Z; boxed : V }.
Arguments mkBox {V} box_addr boxed.
Arguments box_addr {V} b.
Arguments boxed {V} b.

#[export] Instance Box_pointer V : DerefMut (Box V) V := {|
  target b := Some (boxed b); assign v b := Some (mkBox (box_addr b) v);
|}.
#[export] Instance Box_laws V : DerefMutLaws (Box V) V.
Proof. split; [by eexists | by intros u [] [= ->] | by intros u u' x y [= <-] | done]. Qed.
#[export] Instance Box_stable V : StableAddr (Box V) := {| addr_of b := Some (box_addr b) |}.
#[export] Instance Box_stable_laws V : StableAddrLaws (Box V) V.
Proof. split; [by eexists | by intros u x y [= <-]]. Qed.

(** [Reusable] as src/reusable.rs dereferences it. *)
Definition of_done {A} (x : exit A) : option A := match x with Done a => Some a | _ => None end.
#[export] Instance Reusable_pointer T : DerefMut (Reusable T) T := {|
  target r := of_done (fst (deref r tt)); assign v r := of_done (fst (deref_mut r (fun _ => v) tt));
|}.
#[export] Instance Reusable_laws T : DerefMutLaws (Reusable T) T.
Proof.
  split.
  - intros u [[v|]] [w Hw]; [by eexists | done].
  - by intros u [[v|]] [= ->].
  - by intros u u' [[v|]] y [= <-].
  - by intros u [[v|]].
Qed.

(** ** src/force.rs *)

(** [struct AssertSend<T>(T)] and [AssertSend::new]. *)
Record AssertSend (T : Type) : Type := AssertSend_new { sent : T }.
Arguments AssertSend_new {T} sent.

Definition AssertSend_deref {T} (self : AssertSend T) : T :=
  let '(AssertSend_new this) := self in this.
Definition AssertSend_deref_mut {T} (f : T -> T) (self : AssertSend T) : AssertSend T :=
  let '(AssertSend_new this) := self in AssertSend_new (f this).

#[export] Instance AssertSend_pointer T : DerefMut (AssertSend T) T := {|
  target a := Some (AssertSend_deref a);
  assign v a := Some (AssertSend_deref_mut (fun _ => v) a);
|}.
#[export] Instance AssertSend_laws T : DerefMutLaws (AssertSend T) T.
Proof.
  split; [by intros u []; eexists | by intros u [] [= ->] | by intros u u' [] y [= <-] | done].
Qed.

(** ** src/stacks.rs: [DerefAdapter] *)

(** [struct DerefAdapter<'a, T>(T, PhantomData<&'a ()>)] and [From<T>]. *)
Record DerefAdapter (T : Type) : Type := DerefAdapter_from { adapted : T }.
Arguments DerefAdapter_from {T} adapted.
Arguments adapted {T} d.

Section DerefAdapter.
Context {T U V : Type} `{DerefMut T U, DerefMut U V}.

(** [&***t] and [*&mut ***t = v]. *)
Definition DerefAdapter_deref (self : DerefAdapter T) : option V :=
  t ← target (adapted self); target t.
Definition DerefAdapter_deref_mut (v : V) (self : DerefAdapter T) : option (DerefAdapter T) :=
  t ← target (adapted self);
  t' ← assign v t;
  DerefAdapter_from <$> assign t' (adapted self).

#[export] Instance DerefAdapter_pointer : DerefMut (DerefAdapter T) V := {|
  target := DerefAdapter_deref; assign := DerefAdapter_deref_mut;
|}.
#[export] Instance DerefAdapter_stable `{StableAddr U} : StableAddr (DerefAdapter T) := {|
  addr_of self := t ← target (adapted self); addr_of t;
|}.

Context `{!DerefMutLaws T U, !DerefMutLaws U V}.

(** An assignment goes through both pointers. *)
Lemma adapter_assign v x y :
  assign v (DerefAdapter_from x) = Some y <-> exists t t' x',
    target x = Some t /\ assign v t = Some t' /\ assign t' x = Some x' /\
    target x' = Some t' /\ y = DerefAdapter_from x'.
Proof.
  cbn. unfold DerefAdapter_deref_mut. cbn. split.
  - destruct (target x) as [t|] eqn:Ht; [|done]. cbn. destruct (assign v t) as [t'|] eqn:Ht'; [|done].
    cbn. destruct (law_assign t' x) as (x' & Hx & Htx); [by eexists|]. rewrite Hx.
    intros [= <-]. by exists t, t', x'.
  - intros (t & t' & x' & -> & Ht' & Hx & _ & ->). cbn. rewrite Ht'. cbn. by rewrite Hx.
Qed.

#[export] Instance DerefAdapter_laws : DerefMutLaws (DerefAdapter T) V.
Proof.
  split.
  - intros v [x] Hx. cbn in Hx. unfold DerefAdapter_deref in Hx. cbn in Hx.
    destruct (target x) as [t|] eqn:Ht; [|by destruct Hx]. cbn in Hx.
    destruct (law_assign v t Hx) as (t' & Ht' & Hv).
    destruct (law_assign t' x) as (x' & Hx' & Htx); [by eexists|].
    exists (DerefAdapter_from x'). split; [by apply adapter_assign; exists t, t', x'|].
    cbn. unfold DerefAdapter_deref. cbn. by rewrite Htx.
  - intros v [x] Hx. cbn in Hx. unfold DerefAdapter_deref in Hx. cbn in Hx.
    destruct (target x) as [t|] eqn:Ht; [|done]. cbn in Hx.
    apply adapter_assign. exists t, t, x. split_and!; auto using law_assign_same.
  - intros v v' [x] y (t & t' & x' & Ht & Ht' & Hx & Htx & ->) % adapter_assign. cbn.
    unfold DerefAdapter_deref_mut. cbn. rewrite Ht, Htx. cbn.
    rewrite (law_assign_twice _ v' _ _ Ht'). destruct (assign v' t) as [t2|]; [|done]. cbn.
    by rewrite (law_assign_twice _ t2 _ _ Hx).
  - intros v [x] Hx. cbn in *. unfold DerefAdapter_deref, DerefAdapter_deref_mut in *. cbn in *.
    destruct (target x) as [t|]; [|done]. cbn in *. by rewrite (law_assign_none _ _ Hx).
Qed.

#[export] Instance DerefAdapter_stable_laws `{StableAddr U, !StableAddrLaws U V} :
  StableAddrLaws (DerefAdapter T) V.
Proof.
  split.
  - intros [x]. cbn. unfold DerefAdapter_deref. cbn. destruct (target x) as [t|]; [|by intros []].
    cbn. apply law_addr.
  - intros v [x] y (t & t' & x' & Ht & Ht' & _ & Htx & ->) % adapter_assign. cbn.
    rewrite Ht, Htx. cbn. by eapply law_stable.
Qed.
End DerefAdapter.

(** ** The stack of a context *)

(** A stack as [makecontext] gets it: what the function writes stays at the stack's address, as long
    as the context has its [Reusable]; and the memory that is given back is that memory. *)
Lemma stack_written (bytes : list Z) (b : Box (list Z)) :
  exists y, assign bytes (DerefAdapter_from (mkReusable (Some b))) = Some y /\
    target y = Some bytes /\ addr_of y = Some (box_addr b) /\
    adapted y = mkReusable (Some (mkBox (box_addr b) bytes)).
Proof.
  destruct (law_assign bytes (DerefAdapter_from (mkReusable (Some b)))) as (y & Hy & Ht);
    [by eexists|].
  exists y. split_and!; [done | done | by rewrite (law_stable _ _ _ Hy) |].
  apply adapter_assign in Hy as (t & t' & x' & [= <-] & [= <-] & [= <-] & _ & ->). done.
Qed.
