(* ===== verification/Threads.v ===== *)
(** * Kernel threads that contend for a pool

    The process-wide pools are used by several kernel threads at the same time.  Here the
    operations of src/reusable.rs are taken apart into the steps between which other threads can
    run: entering the [Once], locking the [Mutex], taking a value from the [Vec], calling the
    builder, unlocking.  Every interleaving has the effect of the operations of Reusable.v and
    Pools.v one after the other. *)

From S2P Require Import Prelude Signal Reusable Gotcha Pools.

Section Threads.
Context {T B : Type}.
(** The pool's builder, and what the closure passed to [call_once] makes. *)
Variable builder : comp B (option T).
Variable init : exit (Pool Mutex T B).
Abbreviation pool := (Pool Mutex T B).

(** ** Operations *)

(** A client takes a value from the static pool, or drops a [Reusable] that has [v]. *)
Inductive op : Type := Take | Give (v : T).
Inductive reply : Type := Took (r : result (Reusable T) (option PoisonError)) | Gave.

(** The operations as Reusable.v and Pools.v have them: on the pool, and on the static. *)
Definition pool_op (o : op) : comp pool reply :=
  match o with
  | Take => r ← (try_from builder : comp pool (result (Reusable T) (option PoisonError)));
            mret (Took r)
  | Give v => _ ← (Reusable_drop (mkReusable (Some v)) : comp pool unit); mret Gave
  end.
Definition static_op (o : op) : comp (once pool) reply :=
  match o with
  | Take => _ ← call_once init; with_static (pool_op Take)
  | Give v => with_static (pool_op (Give v))
  end.

(** ** Threads *)

(** How far a thread has come with its operation. *)
Inductive pc : Type :=
| Idle
| Calling                                (* about to enter [call_once] *)
| Initializing                           (* in the closure passed to it *)
| Locking (o : op)                       (* about to call [lock] *)
| Locked (o : op)                        (* has the guard *)
| Popped                                 (* has the guard; the [Vec] was empty *)
| Leaving (o : op) (x : exit reply)      (* about to drop the guard *)
| Returning (o : op) (x : exit reply).

(** The [Once]: which thread runs the closure, if it is running. *)
Inductive once_state : Type := ONew | ORunning (i : nat) | ODone | OPoisoned.

(** What the threads share: the [Once], the static, and which thread has the mutex. *)
Record shared : Type := mkShared {
  sh_once : once_state;
  sh_static : option pool;
  sh_lock : option nat;
}.

Definition once_poisoned : exit reply := Panicked "Once instance has previously been poisoned".

(** The thread [i] in the [Once]; [None] says that it is blocked. *)
Definition once_step (i : nat) (c : pc) (sh : shared) : option (pc * shared) :=
  match c, sh_once sh with
  | Calling, ONew => Some (Initializing, mkShared (ORunning i) (sh_static sh) (sh_lock sh))
  | Calling, ODone => Some (Locking Take, sh)
  | Calling, OPoisoned => Some (Returning Take once_poisoned, sh)
  | Initializing, _ =>
      match init with
      | Done p => Some (Locking Take, mkShared ODone (Some p) (sh_lock sh))
      | Panicked m => Some (Returning Take (Panicked m), mkShared OPoisoned None (sh_lock sh))
      | _ => None
      end
  | _, _ => None
  end.

(** [pool.try_into_inner()?.pop().or_else(builder)] with the guard. *)
Definition take_step (c : pc) (p : pool) : option (pc * pool) :=
  match c with
  | Locked Take =>
      match try_into_inner (allocated p) with
      | Err e => Some (Leaving Take (Done (Took (Err (Some e)))), p)
      | Ok vec =>
          match vec_pop vec with
          | (Some v, vec') => Some (Leaving Take (Done (Took (Ok (mkReusable (Some v))))),
                                    set_allocated (release (allocated p) vec') p)
          | (None, _) => Some (Popped, p)
          end
      end
  | Popped =>
      match builder (pool_env p) with
      | (Done (Some v), e) =>
          Some (Leaving Take (Done (Took (Ok (mkReusable (Some v))))), set_env e p)
      | (Done None, e) => Some (Leaving Take (Done (Took (Err None))), set_env e p)
      | (Panicked m, e) =>
          Some (Leaving Take (Panicked m), set_env e (set_allocated (unwind (allocated p)) p))
      | _ => None
      end
  | _ => None
  end.

(** [self.pool.try_into_inner().unwrap().push(value)] with the guard. *)
Definition give_step (c : pc) (p : pool) : option (pc * pool) :=
  match c with
  | Locked (Give v) =>
      match try_into_inner (allocated p) with
      | Err _ => Some (Leaving (Give v)
                   (Panicked "called `Result::unwrap()` on an `Err` value"), p)
      | Ok vec => Some (Leaving (Give v) (Done Gave),
                        set_allocated (release (allocated p) (vec_push vec v)) p)
      end
  | _ => None
  end.

(** One step of the thread [i] within its operation. *)
Definition thread_step (i : nat) (c : pc) (sh : shared) : option (pc * shared) :=
  match c with
  | Idle | Returning _ _ => None
  | Calling | Initializing => once_step i c sh
  | Locking o =>
      match sh_lock sh with
      | None => Some (Locked o, mkShared (sh_once sh) (sh_static sh) (Some i))
      | Some _ => None
      end
  | Locked _ | Popped =>
      p ← sh_static sh;
      '(c', p') ← match c with Locked (Give _) => give_step c p | _ => take_step c p end;
      Some (c', mkShared (sh_once sh) (Some p') (sh_lock sh))
  | Leaving o x => Some (Returning o x, mkShared (sh_once sh) (sh_static sh) None)
  end.

(** The threads, what they share, the values that clients own, and the operations that have taken
    effect, with the threads that performed them. *)
Record state : Type := mkState {
  st_pcs : list pc;
  st_shared : shared;
  st_out : list T;
  st_log : list (nat * op * exit reply);
}.

Definition logged (i : nat) (c : pc) : list (nat * op * exit reply) :=
  match c with Returning o x => [(i, o, x)] | _ => [] end.
Definition took (x : exit reply) : list T :=
  match x with Done (Took (Ok r)) => option_list (value r) | _ => [] end.

(** A thread begins an operation, goes on with it, or returns from it. *)
Inductive begins : state -> state -> Prop :=
| begin_take i pcs sh out log :
    pcs !! i = Some Idle ->
    begins (mkState pcs sh out log) (mkState (<[i := Calling]> pcs) sh out log)
| begin_give i v l1 l2 pcs sh log :
    pcs !! i = Some Idle ->
    begins (mkState pcs sh (l1 ++ v :: l2) log)
           (mkState (<[i := Locking (Give v)]> pcs) sh (l1 ++ l2) log).
Inductive works : state -> state -> Prop :=
| work_on i c c' pcs sh sh' out log :
    pcs !! i = Some c -> thread_step i c sh = Some (c', sh') ->
    works (mkState pcs sh out log) (mkState (<[i := c']> pcs) sh' out (log ++ logged i c'))
| work_return i o x pcs sh out log :
    pcs !! i = Some (Returning o x) ->
    works (mkState pcs sh out log) (mkState (<[i := Idle]> pcs) sh (took x ++ out) log).
Definition step (s s' : state) : Prop := begins s s' \/ works s s'.

(** [n] threads before the first operation. *)
Definition start (n : nat) : state :=
  mkState (replicate n Idle) (mkShared ONew None None) [] [].

(** The operations in the order in which they took effect, performed one after the other. *)
Inductive replays : list (nat * op * exit reply) -> once pool -> Prop :=
| replay_nil : replays [] OnceNew
| replay_op l a i o x a' :
    replays l a -> static_op o a = (x, a') -> replays (l ++ [(i, o, x)]) a'.
End Threads.

#[global] Arguments op : clear implicits.
#[global] Arguments reply : clear implicits.
#[global] Arguments pc : clear implicits.
#[global] Arguments shared : clear implicits.
#[global] Arguments state : clear implicits.

(** ** Every interleaving is a sequence of operations *)

Section Linearization.
Context {T B : Type}.
Variable builder : comp B (option T).
Variable init : exit (Pool Mutex T B).
Abbreviation pool := (Pool Mutex T B).
Implicit Types (c d : pc T) (a : once pool) (sh : shared T B) (s : state T B) (p q : pool).

Definition crit c : bool :=
  match c with Locked _ | Popped | Leaving _ _ => true | _ => false end.
Definition initing c : bool := match c with Initializing => true | _ => false end.
Definition late c : bool := match c with Locking _ => true | _ => crit c end.
(** The thread has, or will return, a value of the pool. *)
Definition gives (o : op T) : bool := match o with Give _ => true | Take => false end.
Definition needs c : bool :=
  match c with
  | Locking o | Locked o | Leaving o _ => gives o
  | Returning _ x => match took x with [] => false | _ => true end
  | _ => false
  end.

(** The pool before the operation that is under way, and now. *)
Definition between c q p : Prop :=
  match c with
  | Locked _ => p = q
  | Popped => p = q /\ try_into_inner (allocated q) = Ok []
  | Leaving o x => pool_op builder o q = (x, p)
  | _ => True
  end.

(** What the pool is to the sequence of operations that have taken effect. *)
Definition seen_by a : option pool :=
  match a, init with
  | OnceDone q, _ => Some q
  | OnceNew, Done q => Some q
  | _, _ => None
  end.

(** A thread agrees with what is shared, and with the effect [a] of the operations so far. *)
Record agrees a sh (i : nat) c : Prop := {
  ag_crit : crit c = true <-> sh_lock sh = Some i;
  ag_init : initing c = true <-> sh_once sh = ORunning i;
  ag_late : late c = true -> sh_once sh = ODone;
  ag_needs : needs c = true -> exists q, a = OnceDone q;
  ag_data : forall q p, seen_by a = Some q -> sh_static sh = Some p -> between c q p;
}.

Record linear s a : Prop := {
  li_log : replays builder init (st_log s) a;
  li_pcs : forall i c, st_pcs s !! i = Some c -> agrees a (st_shared s) i c;
  li_lock : forall i, sh_lock (st_shared s) = Some i -> is_Some (st_pcs s !! i);
  li_once : forall i, sh_once (st_shared s) = ORunning i -> is_Some (st_pcs s !! i);
  li_out : st_out s <> [] -> exists q, a = OnceDone q;
  li_static :
    match sh_once (st_shared s) with
    | ONew | ORunning _ => a = OnceNew /\ sh_static (st_shared s) = None
    | OPoisoned => a = OncePoisoned /\ sh_static (st_shared s) = None
    | ODone => exists q p, seen_by a = Some q /\ sh_static (st_shared s) = Some p /\
        (sh_lock (st_shared s) = None -> p = q)
    end;
}.

Lemma linear_start n : linear (start n) OnceNew.
Proof.
  split; simpl; try done; [constructor|].
  intros i c Hi. apply lookup_replicate in Hi as [-> _]. by split.
Qed.

(** One thread has moved, and the others agree with what it has changed. *)
Lemma pcs_insert (P P' : nat -> pc T -> Prop) (pcs : list (pc T)) i c :
  (forall j d, pcs !! j = Some d -> P j d) -> P' i c ->
  (forall j d, j <> i -> P j d -> P' j d) ->
  forall j d, <[i := c]> pcs !! j = Some d -> P' j d.
Proof.
  intros HP Hi Hj j d [(<- & <- & _)|[? Hd]] % list_lookup_insert_Some; auto.
Qed.

(** The operation on the static is the operation on the pool. *)
Lemma static_pool_op o a q x p :
  seen_by a = Some q -> (gives o = true -> exists q', a = OnceDone q') ->
  pool_op builder o q = (x, p) -> static_op builder init o a = (x, OnceDone p).
Proof.
  intros Hq Hg Hop. destruct o as [|v].
  - cbn [static_op]. unfold seen_by in Hq. unfold mbind, comp_bind, call_once.
    destruct a as [|q'|]; [destruct init; simplify_eq | simplify_eq | done]; cbn [with_static];
      by rewrite Hop.
  - destruct Hg as [q' ->]; [done|]. simpl in Hq. simplify_eq. cbn [static_op with_static].
    by rewrite Hop.
Qed.

Lemma between_idle c q p : crit c = false -> between c q p.
Proof. by destruct c. Qed.

(** Steps of the thread [i], for the other threads. *)
Record quietly (i : nat) a sh a' sh' : Prop := {
  qu_lock : forall j, j <> i -> sh_lock sh' = Some j <-> sh_lock sh = Some j;
  qu_once : forall j, j <> i -> sh_once sh' = ORunning j <-> sh_once sh = ORunning j;
  qu_done : sh_once sh = ODone -> sh_once sh' = ODone;
  qu_op : (exists q, a = OnceDone q) -> exists q, a' = OnceDone q;
  qu_data : a' = a /\ sh_static sh' = sh_static sh \/ sh_lock sh = Some i \/ sh_once sh <> ODone;
}.

Lemma agrees_other i j a sh a' sh' d :
  quietly i a sh a' sh' -> j <> i -> agrees a sh j d -> agrees a' sh' j d.
Proof.
  intros [] Hj []. split.
  - by rewrite qu_lock0.
  - by rewrite qu_once0.
  - auto.
  - auto.
  - intros q p Hq Hp. destruct (crit d) eqn:Hd; [|by apply between_idle].
    destruct qu_data0 as [[-> Heq]|[Hl|Ho]].
    + apply ag_data0; congruence.
    + destruct ag_crit0 as [Hc _]. specialize (Hc eq_refl). congruence.
    + destruct Ho. apply ag_late0. by destruct d.
Qed.

(** How one thread's move keeps the whole. *)
Lemma linear_move i c c' a a' sh sh' pcs out out' log log' :
  linear (mkState pcs sh out log) a -> pcs !! i = Some c -> replays builder init log' a' ->
  quietly i a sh a' sh' -> agrees a' sh' i c' ->
  (out' <> [] -> exists q, a' = OnceDone q) ->
  match sh_once sh' with
  | ONew | ORunning _ => a' = OnceNew /\ sh_static sh' = None
  | OPoisoned => a' = OncePoisoned /\ sh_static sh' = None
  | ODone => exists q p, seen_by a' = Some q /\ sh_static sh' = Some p /\
      (sh_lock sh' = None -> p = q)
  end ->
  linear (mkState (<[i := c']> pcs) sh' out' log') a'.
Proof.
  intros [] Hi Hlog Hq Hc' Hout Hst. cbn [st_pcs st_shared st_out st_log] in *.
  assert (forall j, is_Some (pcs !! j) -> is_Some (<[i := c']> pcs !! j)) as Hin.
  { intros j. by rewrite !lookup_lt_is_Some, length_insert. }
  assert (is_Some (pcs !! i)) as Hi' by by eexists.
  split; cbn [st_pcs st_shared st_out st_log]; try done.
  - eapply pcs_insert; [exact li_pcs0 | done |]. intros j d Hj. by eapply agrees_other.
  - intros j Hj. apply Hin. destruct (decide (j = i)) as [->|Hne]; [done|].
    apply li_lock0. by apply (qu_lock _ _ _ _ _ Hq).
  - intros j Hj. apply Hin. destruct (decide (j = i)) as [->|Hne]; [done|].
    apply li_once0. by apply (qu_once _ _ _ _ _ Hq).
Qed.

Lemma quietly_refl i a sh : quietly i a sh a sh.
Proof. split; try done. by left. Qed.

Lemma linear_begins s s' a : linear s a -> begins s s' -> linear s' a.
Proof.
  intros Hl Hs. pose proof (li_log _ _ Hl) as Hlog. pose proof (li_out _ _ Hl) as Hout.
  pose proof (li_static _ _ Hl) as Hst.
  destruct Hs as [i pcs sh out log Hi|i v l1 l2 pcs sh log Hi];
    pose proof (li_pcs _ _ Hl _ _ Hi) as []; cbn [st_pcs st_shared st_out st_log] in *;
    (eapply linear_move; [exact Hl | exact Hi | exact Hlog | apply quietly_refl | | | exact Hst]).
  - by split.
  - done.
  - assert (exists q, a = OnceDone q) as [q ->] by (apply Hout; by destruct l1).
    split; try done; [|by exists q]. intros _. by destruct (sh_once sh); destruct Hst.
  - intros _. apply Hout. by destruct l1.
Qed.

Lemma linear_return i o x pcs sh out log a :
  linear (mkState pcs sh out log) a -> pcs !! i = Some (Returning o x) ->
  linear (mkState (<[i := Idle]> pcs) sh (took x ++ out) log) a.
Proof.
  intros Hl Hi. pose proof (li_pcs _ _ Hl _ _ Hi) as []. pose proof (li_out _ _ Hl) as Hout.
  eapply linear_move; [exact Hl | exact Hi | exact (li_log _ _ Hl) | apply quietly_refl | | |
    exact (li_static _ _ Hl)].
  - by split.
  - intros Hne. simpl in *. destruct (took x); auto.
Qed.

(** The steps with the guard. *)
Lemma between_step c c' q p p' :
  between c q p ->
  match c with Locked (Give _) => give_step c p | _ => take_step builder c p end = Some (c', p') ->
  between c' q p' /\ crit c' = true /\ needs c' = needs c.
Proof.
  intros Hb Hs. destruct c as [| | | |[|v]| | |]; simpl in Hb, Hs; try done;
    [subst p | subst p | destruct Hb as [-> Hb]]; destruct q as [[vec []] env]; simplify_eq/=; try done.
  - destruct (vec_pop vec) as [[v|] vec'] eqn:Hv; simplify_eq/=.
    + unfold pool_op, try_from, mbind, comp_bind. simpl. by rewrite Hv.
    + by apply vec_pop_None in Hv as [-> _].
  - destruct (builder env) as [[[v|]|m| |] e] eqn:Hbl; simplify_eq/=;
      unfold pool_op, try_from, mbind, comp_bind; simpl; by rewrite Hbl.
Qed.

(** In the [Once]: the operation takes effect if the [Once] is or becomes poisoned. *)
Lemma linear_once i c c' pcs sh sh' out log a :
  linear (mkState pcs sh out log) a -> pcs !! i = Some c ->
  once_step init i c sh = Some (c', sh') ->
  exists a', linear (mkState (<[i := c']> pcs) sh' out (log ++ logged i c')) a'.
Proof.
  intros Hl Hi Hs. pose proof (li_pcs _ _ Hl _ _ Hi) as [Hc Hin _ _ _].
  pose proof (li_out _ _ Hl) as Hout. pose proof (li_static _ _ Hl) as Hst.
  pose proof (li_log _ _ Hl) as Hlog. destruct sh as [on st lk]. cbn in Hc, Hin, Hout, Hst, Hlog, Hs.
  destruct c; try done.
  - destruct on; simplify_eq/=; rewrite ?app_nil_r.
    + exists a. eapply linear_move; [exact Hl | exact Hi | done | | | done | done]; split; try done.
      * intros j Hj. split; [by intros [= ->] | done].
      * by left.
    + exists a. eapply linear_move; [exact Hl | exact Hi | done | apply quietly_refl | | done | done].
      by split.
    + destruct Hst as [-> Hst]. exists OncePoisoned.
      eapply linear_move; [exact Hl | exact Hi | | apply quietly_refl | by split | done | done].
      by eapply replay_op.
  - destruct Hin as [Hin _]. specialize (Hin eq_refl). subst on. destruct Hst as [-> ->].
    remember init as x eqn:Hinit in Hs. destruct x as [p|m| |]; simplify_eq/=.
    + rewrite app_nil_r. exists OnceNew.
      eapply linear_move; [exact Hl | exact Hi | done | | | done |].
      * split; try done; [|by right; right]. intros j Hj. split; [done | by intros [= ->]].
      * by split.
      * exists p, p. unfold seen_by. by rewrite <- Hinit.
    + exists OncePoisoned.
      eapply linear_move; [exact Hl | exact Hi | | | | |done].
      * eapply replay_op; [exact Hlog|]. unfold static_op, mbind, comp_bind. cbn. by rewrite <- Hinit.
      * split; try done; [|by intros [q [=]] |by right; right].
        intros j Hj. split; [done | by intros [= ->]].
      * by split.
      * intros Hne. destruct (Hout Hne) as [q [=]].
Qed.

(** Getting the mutex. *)
Lemma linear_locking i o pcs on st out log a :
  linear (mkState pcs (mkShared on st None) out log) a -> pcs !! i = Some (Locking o) ->
  linear (mkState (<[i := Locked o]> pcs) (mkShared on st (Some i)) out log) a.
Proof.
  intros Hl Hi. pose proof (li_pcs _ _ Hl _ _ Hi) as [_ Hin Hlate Hneed _].
  pose proof (li_static _ _ Hl) as Hst. cbn in *. rewrite Hlate in * by done.
  destruct Hst as (q & p & Hq & -> & Heq).
  eapply linear_move; [exact Hl | exact Hi | apply Hl | | | apply Hl | by exists q, p].
  - split; try done; [|by left]. intros j Hj. split; [by intros [= ->] | done].
  - split; try done. cbn. intros q' p' Hq' [= <-]. rewrite Hq in Hq'. simplify_eq. auto.
Qed.

(** With the mutex. *)
Lemma linear_inside i c c' pcs on p p' lk out log a :
  linear (mkState pcs (mkShared on (Some p) lk) out log) a -> pcs !! i = Some c -> crit c = true ->
  match c with Locked (Give _) => give_step c p | _ => take_step builder c p end = Some (c', p') ->
  linear (mkState (<[i := c']> pcs) (mkShared on (Some p') lk) out (log ++ logged i c')) a.
Proof.
  intros Hl Hi Hc Hs. pose proof (li_pcs _ _ Hl _ _ Hi) as [Hcr Hin Hlate Hneed Hdata].
  pose proof (li_static _ _ Hl) as Hst. cbn in *.
  rewrite Hlate in * by by destruct c. destruct Hst as (q & ? & Hq & [= <-] & Heq).
  destruct (between_step _ _ _ _ _ (Hdata _ _ Hq eq_refl) Hs) as (Hb & Hc' & Hn).
  replace (logged i c') with (@nil (nat * op T * exit (reply T))) by by destruct c'.
  assert (initing c' = false) as Hni by by destruct c'.
  rewrite app_nil_r. eapply linear_move; [exact Hl | exact Hi | apply Hl | | | apply Hl |].
  - split; try done. right. left. by apply Hcr.
  - split; cbn; rewrite ?Hc', ?Hni, ?Hn; try done.
    + by rewrite <- Hcr, Hc.
    + intros q' ? Hq' [= <-]. rewrite Hq in Hq'. by simplify_eq.
  - exists q, p'. split_and!; [done | done |]. cbn. intros ->. by apply Hcr in Hc.
Qed.

(** Dropping the guard, where the operation takes effect. *)
Lemma linear_leaving i o x pcs on st lk out log a :
  linear (mkState pcs (mkShared on st lk) out log) a -> pcs !! i = Some (Leaving o x) ->
  exists a', linear (mkState (<[i := Returning o x]> pcs) (mkShared on st None) out
    (log ++ [(i, o, x)])) a'.
Proof.
  intros Hl Hi. pose proof (li_pcs _ _ Hl _ _ Hi) as [Hcr Hin Hlate Hneed Hdata].
  pose proof (li_static _ _ Hl) as Hst. cbn in *. rewrite Hlate in * by done.
  destruct Hst as (q & p & Hq & -> & _). specialize (Hdata _ _ Hq eq_refl).
  exists (OnceDone p). eapply linear_move; [exact Hl | exact Hi | | | | by exists p | by exists p, p].
  - eapply replay_op; [apply Hl|]. by eapply static_pool_op.
  - split; try done; cbn; [| by exists p | right; left; by apply Hcr].
    intros j Hj. split; [done|]. intros ->. destruct Hcr as [Hcr _]. by specialize (Hcr eq_refl) as [= ->].
  - split; try done. by exists p.
Qed.

Lemma linear_works s s' a : linear s a -> works builder init s s' -> exists a', linear s' a'.
Proof.
  intros Hl Hs. destruct Hs as [i c c' pcs sh sh' out log Hi Hadv|i o x pcs sh out log Hi];
    [|exists a; by eapply linear_return].
  destruct sh as [on st lk]. destruct c as [| | |o|o| |o x|]; try done; cbn [thread_step] in Hadv.
  - by eapply linear_once.
  - by eapply linear_once.
  - destruct lk; simplify_eq/=. rewrite app_nil_r. exists a. by apply linear_locking.
  - apply bind_Some in Hadv as (p & Hp & ([c1 p1] & Hs & [= <- <-]) % bind_Some). cbn in Hp. subst st.
    exists a. by eapply linear_inside.
  - apply bind_Some in Hadv as (p & Hp & ([c1 p1] & Hs & [= <- <-]) % bind_Some). cbn in Hp. subst st.
    exists a. by eapply linear_inside.
  - simplify_eq/=. by eapply linear_leaving.
Qed.

Lemma linear_reachable n s : rtc (step builder init) (start n) s -> exists a, linear s a.
Proof.
  intros Hs. apply rtc_ind_r with (P := fun s => exists a, linear s a) in Hs; [done| |].
  - exists OnceNew. apply linear_start.
  - intros s1 s2 _ [Hs12|Hs12] [a Ha]; [exists a; by eapply linear_begins | by eapply linear_works].
Qed.
End Linearization.

(** ** Values *)

Section Values.
Context {T B : Type}.
Variable builder : comp B (option T).
Variable init : exit (Pool Mutex T B).
(** The builder's first state; the closure passed to [call_once] makes a pool with the values that
    the builder made from there on. *)
Variable env : B.
Hypothesis init_made : forall p, init = Done p ->
  exists vec, holds p vec /\ emits builder env vec (pool_env p).
Implicit Types (c : pc T) (sh : shared T B) (s : state T B).

(** The values that are on the way into the pool or out of it, and those in it. *)
Definition flight c : list T :=
  match c with
  | Locking (Give v) | Locked (Give v) => [v]
  | Leaving _ x | Returning _ x => took x
  | _ => []
  end.
Definition pooled sh : list T :=
  match sh_static sh with Some p => peek (allocated p) | None => [] end.
Definition everything s : list T :=
  st_out s ++ (st_pcs s ≫= flight) ++ pooled (st_shared s).

Lemma flight_insert (pcs : list (pc T)) i c c' : pcs !! i = Some c -> exists rest,
  pcs ≫= flight ≡ₚ flight c ++ rest /\ <[i := c']> pcs ≫= flight ≡ₚ flight c' ++ rest.
Proof.
  intros Hi. exists ((take i pcs ≫= flight) ++ (drop (S i) pcs ≫= flight)). split.
  - rewrite <- (take_drop_middle _ _ _ Hi) at 1. rewrite bind_app, bind_cons. solve_Permutation.
  - rewrite insert_take_drop by by eapply lookup_lt_Some.
    rewrite bind_app, bind_cons. solve_Permutation.
Qed.

Lemma everything_move i c c' pcs sh sh' out out' log log' extra :
  pcs !! i = Some c ->
  flight c' ++ out' ++ pooled sh' ⊆+ (flight c ++ out ++ pooled sh) ++ extra ->
  everything (mkState (<[i := c']> pcs) sh' out' log') ⊆+
    everything (mkState pcs sh out log) ++ extra.
Proof.
  intros Hi Hsub. unfold everything. cbn [st_out st_pcs st_shared].
  destruct (flight_insert pcs i c c' Hi) as (rest & -> & ->).
  transitivity (rest ++ flight c' ++ out' ++ pooled sh'); [solve_submseteq|].
  transitivity (rest ++ (flight c ++ out ++ pooled sh) ++ extra); [|solve_submseteq].
  by apply submseteq_skips_l.
Qed.

Lemma everything_keeps i c c' pcs sh sh' out out' log log' :
  pcs !! i = Some c -> flight c' ++ out' ++ pooled sh' ⊆+ flight c ++ out ++ pooled sh ->
  everything (mkState (<[i := c']> pcs) sh' out' log') ⊆+ everything (mkState pcs sh out log).
Proof.
  intros Hi Hsub. rewrite <- (app_nil_r (everything (mkState pcs sh out log))).
  eapply everything_move; [exact Hi|]. by rewrite app_nil_r.
Qed.

(** All values were made by the builder. *)
Definition made s : Prop := exists l, everything s ⊆+ l /\
  match sh_static (st_shared s) with
  | None => l = []
  | Some p => exists e, emits builder env l e /\ (mx_poisoned (allocated p) = true \/ pool_env p = e)
  end.

Lemma made_start n : made (start n).
Proof.
  exists []. split; [|done]. unfold everything. simpl. rewrite app_nil_r.
  induction n; [done | by simpl].
Qed.

Lemma made_same s s' :
  made s -> everything s' ⊆+ everything s -> sh_static (st_shared s') = sh_static (st_shared s) ->
  made s'.
Proof. intros (l & Hl & Hm) He Hst. exists l. rewrite Hst. split; [by etransitivity | done]. Qed.

Lemma made_begins s s' : made s -> begins s s' -> made s'.
Proof.
  intros Hm Hs. destruct Hs as [i pcs sh out log Hi|i v l1 l2 pcs sh log Hi];
    (eapply made_same; [exact Hm | | done]; eapply everything_keeps; [exact Hi|]; simpl;
     solve_submseteq).
Qed.

(** With the mutex: what leaves the pool, and what the builder adds. *)
Lemma inside_made c c' p p' :
  (c = Popped -> mx_poisoned (allocated p) = false) ->
  match c with Locked (Give _) => give_step c p | _ => take_step builder c p end = Some (c', p') ->
  exists extra, flight c' ++ peek (allocated p') ⊆+ (flight c ++ peek (allocated p)) ++ extra /\
    (mx_poisoned (allocated p') = true /\ extra = [] \/
     mx_poisoned (allocated p) = false /\ emits builder (pool_env p) extra (pool_env p')).
Proof.
  intros Hp Hs. destruct c as [| | | |[|v]| | |]; try done; destruct p as [[vec po] e]; cbn in Hp, Hs.
  - destruct po; simplify_eq/=; [exists []; split; [solve_submseteq | by left]|].
    destruct (vec_pop vec) as [[v|] vec'] eqn:Hv; simplify_eq/=; exists [];
      (split; [|right; split; [done | constructor]]); [|solve_submseteq].
    apply vec_pop_Some in Hv as ->. solve_submseteq.
  - destruct po; simplify_eq/=; exists []; [split; [solve_submseteq | by left]|].
    split; [solve_submseteq | right; split; [done | constructor]].
  - specialize (Hp eq_refl). subst po.
    destruct (builder e) as [[[v|]|m| |] e'] eqn:Hb; simplify_eq/=.
    + exists [v]. split; [solve_submseteq|]. right. split; [done | by apply emits_one].
    + exists []. split; [solve_submseteq|]. right. split; [done | by apply emits_zero].
    + exists []. split; [solve_submseteq | by left].
Qed.

Lemma made_once i c c' pcs sh sh' out log a :
  made (mkState pcs sh out log) -> linear builder init (mkState pcs sh out log) a ->
  pcs !! i = Some c -> once_step init i c sh = Some (c', sh') ->
  made (mkState (<[i := c']> pcs) sh' out (log ++ logged i c')).
Proof.
  intros Hm Hl Hi Hs. pose proof (li_pcs _ _ _ _ Hl _ _ Hi) as [_ Hin _ _ _].
  pose proof (li_static _ _ _ _ Hl) as Hst. destruct sh as [on st lk]. cbn in Hin, Hst, Hs.
  destruct c; try done.
  - destruct on; simplify_eq/=;
      (eapply made_same; [exact Hm | eapply everything_keeps; [exact Hi | reflexivity] | done]).
  - destruct Hin as [Hin _]. specialize (Hin eq_refl). subst on. destruct Hst as [-> ->].
    destruct Hm as (l & Hl' & Hnil). simpl in Hnil. subst l.
    remember init as x eqn:Hinit in Hs. destruct x as [p|m| |]; simplify_eq/=.
    + destruct (init_made p) as (vec & Hp & He); [done|]. exists vec. split; [|exists (pool_env p); by auto].
      etransitivity; [|eapply (submseteq_app _ [] vec vec); [exact Hl' | done]].
      eapply everything_move; [exact Hi|]. apply into_peek in Hp. simpl in *.
      rewrite <- Hp. simpl. solve_submseteq.
    + exists []. split; [|done]. etransitivity; [|exact Hl'].
      eapply everything_keeps; [exact Hi | reflexivity].
Qed.

Lemma made_works s s' a :
  made s -> linear builder init s a -> works builder init s s' -> made s'.
Proof.
  intros Hm Hl Hs. destruct Hs as [i c c' pcs sh sh' out log Hi Hadv|i o x pcs sh out log Hi].
  2: { eapply made_same; [exact Hm | | done]. eapply everything_keeps; [exact Hi|]. simpl. solve_submseteq. }
  assert (forall c p p' on lk, pcs !! i = Some c -> sh = mkShared on (Some p) lk -> crit c = true ->
    match c with Locked (Give _) => give_step c p | _ => take_step builder c p end = Some (c', p') ->
    made (mkState (<[i := c']> pcs) (mkShared on (Some p') lk) out (log ++ logged i c'))) as Hins.
  { intros d p p' on lk Hd -> Hc Hs.
    pose proof (li_pcs _ _ _ _ Hl _ _ Hd) as [_ _ Hlate _ Hdata]. cbn in Hlate, Hdata.
    pose proof (li_static _ _ _ _ Hl) as Hst. cbn in Hst. rewrite Hlate in Hst by by destruct d.
    destruct Hst as (q & ? & Hq & [= <-] & _). specialize (Hdata _ _ Hq eq_refl).
    destruct (inside_made d c' p p') as (extra & Hsub & Hx); [|done|].
    { intros ->. destruct Hdata as [-> Hdata]. simpl in Hdata. by destruct (mx_poisoned _). }
    destruct Hm as (l & Hsubl & e & He & Hpe). exists (l ++ extra). split.
    - etransitivity; [|by apply submseteq_app; [exact Hsubl|]].
      eapply everything_move; [exact Hd|]. cbn [pooled sh_static].
      transitivity (out ++ flight c' ++ peek (allocated p')); [solve_submseteq|].
      transitivity (out ++ (flight d ++ peek (allocated p)) ++ extra); [|solve_submseteq].
      by apply submseteq_skips_l.
    - destruct Hx as [[Hpo ->]|[Hpo He']].
      + exists e. rewrite app_nil_r. auto.
      + destruct Hpe as [Hpe|<-]; [simpl in Hpe; congruence|]. exists (pool_env p'). split; [|by right].
        by eapply emits_trans. }
  destruct sh as [on st lk]. destruct c as [| | |o|o| |o x|]; try done; cbn [thread_step] in Hadv.
  - by eapply made_once.
  - by eapply made_once.
  - destruct lk; simplify_eq/=. eapply made_same; [exact Hm | eapply everything_keeps; [exact Hi | reflexivity] | done].
  - apply bind_Some in Hadv as (p & Hp & ([c1 p1] & Hs & [= <- <-]) % bind_Some). cbn in Hp. subst st.
    by eapply Hins.
  - apply bind_Some in Hadv as (p & Hp & ([c1 p1] & Hs & [= <- <-]) % bind_Some). cbn in Hp. subst st.
    by eapply Hins.
  - simplify_eq/=. eapply made_same; [exact Hm | eapply everything_keeps; [exact Hi | reflexivity] | done].
Qed.

Lemma made_reachable n s : rtc (step builder init) (start n) s -> made s.
Proof.
  intros Hs. apply rtc_ind_r with (P := fun s => rtc (step builder init) (start n) s /\ made s) in Hs
    as [_ Hm]; [done | |].
  - split; [done | apply made_start].
  - intros s1 s2 H1 [Hs12|Hs12] [_ Hm]; (split; [by eapply rtc_r; [exact H1 | by (left + right)]|]).
    + by eapply made_begins.
    + destruct (linear_reachable _ _ _ _ H1) as [a Ha]. by eapply made_works.
Qed.
End Values.

(** ** No operation is stuck *)

Section Progress.
Context {T B : Type}.
Variable builder : comp B (option T).
Variable init : exit (Pool Mutex T B).
Implicit Types (c : pc T) (s : state T B).

(** The process is not aborted. *)
Definition goes_on {A} (x : exit A) : Prop :=
  match x with Done _ | Panicked _ => True | _ => False end.

(** How many steps an operation still takes at most. *)
Definition rank c : nat :=
  match c with
  | Idle => 0 | Returning _ _ => 1 | Leaving _ _ => 2 | Popped => 3 | Locked _ => 4
  | Locking _ => 5 | Initializing => 6 | Calling => 7
  end.
Definition work s : nat := sum_list (rank <$> st_pcs s).

Lemma work_insert (pcs : list (pc T)) i c c' :
  pcs !! i = Some c -> (rank c' < rank c)%nat ->
  (sum_list (rank <$> <[i := c']> pcs) < sum_list (rank <$> pcs))%nat.
Proof.
  revert i. induction pcs as [|d pcs IH]; intros [|i] Hi Hr; simplify_eq/=; [lia|].
  specialize (IH _ Hi Hr). lia.
Qed.

Lemma advance_rank i c c' sh sh' :
  thread_step builder init i c sh = Some (c', sh') -> (rank c' < rank c)%nat.
Proof.
  destruct c as [| | |o|o| |o x|]; cbn [thread_step]; try done.
  - unfold once_step. destruct (sh_once sh); intros; simplify_eq/=; lia.
  - unfold once_step. destruct init; intros; simplify_eq/=; lia.
  - destruct (sh_lock sh); intros; simplify_eq/=; lia.
  - intros (p & _ & ([c1 p1] & Hs & [= <- <-]) % bind_Some) % bind_Some.
    destruct o; unfold take_step, give_step in Hs; repeat case_match; simplify_eq/=; lia.
  - intros (p & _ & ([c1 p1] & Hs & [= <- <-]) % bind_Some) % bind_Some.
    unfold take_step in Hs. repeat case_match; simplify_eq/=; lia.
  - intros; simplify_eq/=; lia.
Qed.

Lemma works_work s s' : works builder init s s' -> (work s' < work s)%nat.
Proof.
  intros Hs. destruct Hs as [i c c' pcs sh sh' out log Hi Hadv|i o x pcs sh out log Hi];
    (eapply work_insert; [exact Hi|]); [by eapply advance_rank | simpl; lia].
Qed.

Lemma idle_or_busy (pcs : list (pc T)) :
  Forall (eq Idle) pcs \/ exists i c, pcs !! i = Some c /\ c <> Idle.
Proof.
  induction pcs as [|c pcs [IH|(i & d & Hi & Hd)]]; [by left | |right; by exists (S i), d].
  destruct c; try (right; by eexists 0%nat, _). left. by constructor.
Qed.

Hypothesis builder_goes_on : forall b, goes_on (builder b).1.
Hypothesis init_goes_on : goes_on init.

(** A thread with the mutex can go on. *)
Lemma inside_advance i c (sh : shared T B) :
  crit c = true -> is_Some (sh_static sh) ->
  is_Some (thread_step builder init i c sh).
Proof.
  intros Hc [p Hp]. destruct c as [| | |o|o| |o x|]; try done; cbn [thread_step]; rewrite ?Hp; cbn.
  - destruct o; cbn; repeat case_match; simplify_eq/=; by eexists.
  - specialize (builder_goes_on (pool_env p)).
    destruct (builder (pool_env p)) as [[[v|]|m| |] e]; try done; cbn; by eexists.
Qed.

Lemma linear_progress s a :
  linear builder init s a -> Forall (eq Idle) (st_pcs s) \/ exists s', works builder init s s'.
Proof.
  intros Hl. destruct (idle_or_busy (st_pcs s)) as [|(i & c & Hi & Hc)]; [by left|]. right.
  destruct s as [pcs sh out log]. cbn [st_pcs] in *.
  assert (forall j d, pcs !! j = Some d -> is_Some (thread_step builder init j d sh) ->
    exists s', works builder init (mkState pcs sh out log) s') as Hgo.
  { intros j d Hj [[d' sh'] Hadv]. eexists. by eapply work_on. }
  pose proof (li_static _ _ _ _ Hl) as Hst. cbn [st_shared] in Hst.
  destruct (sh_lock sh) as [j|] eqn:Hlk.
  - destruct (li_lock _ _ _ _ Hl j Hlk) as [d Hd]. cbn [st_pcs] in Hd.
    pose proof (li_pcs _ _ _ _ Hl _ _ Hd) as [Hcr _ Hlate _ _]. cbn [st_shared] in *.
    apply (Hgo j d Hd). apply Hcr in Hlk as Hcd. apply inside_advance; [done|].
    rewrite Hlate in Hst by by destruct d. destruct Hst as (q & p & _ & -> & _). by eexists.
  - pose proof (li_pcs _ _ _ _ Hl _ _ Hi) as []. cbn [st_shared] in *.
    assert (crit c = false) as Hcc by (destruct (crit c); naive_solver).
    destruct c as [| | |o| | | |o x]; try done.
    + destruct (sh_once sh) as [|j| |] eqn:Ho;
        try (apply (Hgo i _ Hi); cbn; rewrite Ho; by eexists).
      destruct (li_once _ _ _ _ Hl j Ho) as [d Hd]. cbn [st_pcs] in Hd.
      pose proof (li_pcs _ _ _ _ Hl _ _ Hd) as [_ Hin _ _ _]. cbn [st_shared] in Hin.
      apply Hin in Ho. destruct d; try done. apply (Hgo j _ Hd). cbn.
      destruct init; try done; by eexists.
    + apply (Hgo i _ Hi). cbn. destruct init; try done; by eexists.
    + apply (Hgo i _ Hi). cbn. rewrite Hlk. by eexists.
    + eexists. by eapply work_return.
Qed.
End Progress.

(** ** Claims *)

Section Claims.
Context {T B : Type}.
Variable builder : comp B (option T).
Variable init : exit (Pool Mutex T B).
Implicit Types (s : state T B).

(** What a thread returns with is what its last operation did when it took effect. *)
Definition answered s : Prop := forall i o x, st_pcs s !! i = Some (Returning o x) ->
  exists l1 l2, st_log s = l1 ++ (i, o, x) :: l2 /\ Forall (fun e => e.1.1 <> i) l2.

Lemma answered_reachable n s : rtc (step builder init) (start n) s -> answered s.
Proof.
  intros Hs. apply rtc_ind_r with (P := answered) in Hs; [done | |].
  { intros i o x Hi. by apply lookup_replicate in Hi as [? _]. }
  intros s1 s2 _ Hs12 Ha. destruct Hs12 as [Hs12|Hs12].
  - destruct Hs12 as [i pcs sh out log Hi|i v l1 l2 pcs sh log Hi]; intros j o x;
      cbn [st_pcs st_log]; rewrite list_lookup_insert_Some; intros [(_ & ? & _)|[_ Hj]]; try done; by apply (Ha j o x).
  - destruct Hs12 as [i c c' pcs sh sh' out log Hi Hadv|i o' x' pcs sh out log Hi]; intros j o x;
      cbn [st_pcs st_log]; rewrite list_lookup_insert_Some; intros [(-> & Heq & _)|[Hne Hj]]; try done.
    + subst c'. exists log, []. split; [done | constructor].
    + destruct (Ha j o x Hj) as (l1 & l2 & Hl & Hall). cbn in Hl. subst log.
      exists l1, (l2 ++ logged i c'). rewrite <- app_assoc. split; [done|]. apply Forall_app.
      split; [done|]. destruct c'; simpl; repeat constructor. simpl. congruence.
    + by apply (Ha j o x).
Qed.

(** C11: The static pools are linearizable.  However the steps of the threads are interleaved, with
    threads waiting for each other in the [Once] and at the mutex, builders that panic and poisoned
    locks, the operations have the effect of [call_once], [try_from] and [drop] performed one after
    the other in some order: each takes effect between its call and its return, it returns what it
    does in that order, and whenever the mutex is free the pool is what that order makes it. *)
Theorem threads_linearizable n s :
  rtc (step builder init) (start n) s ->
  exists a, replays builder init (st_log s) a /\ answered s /\
    (sh_lock (st_shared s) = None -> sh_once (st_shared s) = ODone ->
       sh_static (st_shared s) = seen_by init a) /\
    (sh_once (st_shared s) = OPoisoned <-> a = OncePoisoned).
Proof.
  intros Hs. destruct (linear_reachable _ _ _ _ Hs) as [a Ha]. exists a.
  split; [by apply Ha|]. split; [by eapply answered_reachable|].
  pose proof (li_static _ _ _ _ Ha) as Hst. split.
  - intros Hlk Ho. rewrite Ho in Hst. destruct Hst as (q & p & -> & -> & Heq). by rewrite Heq.
  - destruct (sh_once (st_shared s)); [by destruct Hst as [-> _].. | |by destruct Hst as [-> _]].
    split; [done|]. intros ->. by destruct Hst as (q & p & [=] & _).
Qed.

(** C12: Threads never share a value of a pool: if the builder makes distinct values, then at every
    moment the values that clients own, those that threads are about to return or are giving back,
    and those in the pool are all distinct, and at most one thread has the mutex; also if a builder
    has panicked and poisoned it. *)
Theorem threads_exclusive env n s :
  (forall p, init = Done p -> exists vec, holds p vec /\ emits builder env vec (pool_env p)) ->
  (forall l b, emits builder env l b -> NoDup l) ->
  rtc (step builder init) (start n) s ->
  NoDup (everything s) /\
  forall i j c d, st_pcs s !! i = Some c -> st_pcs s !! j = Some d ->
    crit c = true -> crit d = true -> i = j.
Proof.
  intros Hinit Hb Hs. split.
  - destruct (made_reachable _ _ env Hinit _ _ Hs) as (l & Hsub & Hl).
    assert (NoDup l) as Hnd.
    { destruct (sh_static (st_shared s)); [|subst l; constructor].
      destruct Hl as (e & He & _). eauto. }
    apply submseteq_Permutation in Hsub as [k Hk]. rewrite Hk in Hnd.
    by apply NoDup_app in Hnd as [? _].
  - intros i j c d Hi Hj Hc Hd. destruct (linear_reachable _ _ _ _ Hs) as [a Ha].
    apply (ag_crit _ _ _ _ _ _ (li_pcs _ _ _ _ Ha _ _ Hi)) in Hc.
    apply (ag_crit _ _ _ _ _ _ (li_pcs _ _ _ _ Ha _ _ Hj)) in Hd. congruence.
Qed.

(** C13: Operations on the pools end: unless the builder aborts the process, there is no deadlock (a
    thread can take a step as long as some operation has not returned), and every step brings the
    operations that have begun closer to their end, whichever thread takes it. *)
Theorem threads_finish n s :
  (forall b, goes_on (builder b).1) -> goes_on init ->
  rtc (step builder init) (start n) s ->
  (Forall (eq Idle) (st_pcs s) \/ exists s', works builder init s s') /\
  (forall s', works builder init s s' -> (work s' < work s)%nat).
Proof.
  intros Hb Hi Hs. destruct (linear_reachable _ _ _ _ Hs) as [a Ha].
  split; [by eapply linear_progress | apply works_work].
Qed.
End Claims.

(** ** The pools of signals, libsets and stacks *)

Lemma assign_signal_static o :
  static_op signal_builder (Done (pool_new 0)) Take o = (r ← assign_signal; mret (Took r)) o.
Proof.
  unfold assign_signal, static_op, pool_op, mbind, comp_bind, mret, comp_ret, with_static, call_once.
  by repeat case_match; simplify_eq.
Qed.

Lemma assign_group_static `{Gotcha} o :
  static_op group_builder (Done (pool_new gotcha_init)) Take o = (r ← assign_group; mret (Took r)) o.
Proof.
  unfold assign_group, static_op, pool_op, mbind, comp_bind, mret, comp_ret, with_static, call_once.
  by repeat case_match; simplify_eq.
Qed.

Lemma alloc_stack_static `{Gotcha} o :
  alloc_stack o = (x ← static_op stack_builder alloc_stack_init Take;
                   match x with
                   | Took r => expect_ok r "libinger: stack allocator lock is poisoned"
                   | Gave => fun o => (Undefined, o)
                   end) o.
Proof.
  unfold alloc_stack, static_op, pool_op, mbind, comp_bind, mret, comp_ret, with_static.
  by repeat case_match; simplify_eq.
Qed.

Lemma alloc_stack_init_made `{Gotcha} p :
  alloc_stack_init = Done p -> exists vec, holds p vec /\ emits stack_builder 0%nat vec (pool_env p).
Proof.
  unfold alloc_stack_init.
  destruct (prealloc_fill (C := Mutex) stack_builder Group_limit 0%nat)
    as (p' & vec & -> & Hp & _ & He); [intros b; by eexists _, _|].
  intros [= <-]. eauto.
Qed.

(** ** An interleaving, executed *)

Section Schedules.
Context {T B : Type}.
Variable builder : comp B (option T).
Variable init : exit (Pool Mutex T B).

(** A thread takes a value, gives back the [k]-th value that clients own, or goes on. *)
Inductive action : Set := ATake (i : nat) | AGive (i k : nat) | AWork (i : nat).

Definition act_on (s : state T B) (m : action) : option (state T B) :=
  match m with
  | ATake i =>
      match st_pcs s !! i with
      | Some Idle => Some (mkState (<[i := Calling]> (st_pcs s)) (st_shared s) (st_out s) (st_log s))
      | _ => None
      end
  | AGive i k =>
      match st_pcs s !! i, st_out s !! k with
      | Some Idle, Some v => Some (mkState (<[i := Locking (Give v)]> (st_pcs s)) (st_shared s)
                                     (take k (st_out s) ++ drop (S k) (st_out s)) (st_log s))
      | _, _ => None
      end
  | AWork i =>
      match st_pcs s !! i with
      | Some (Returning o x) =>
          Some (mkState (<[i := Idle]> (st_pcs s)) (st_shared s) (took x ++ st_out s) (st_log s))
      | Some c =>
          '(c', sh') ← thread_step builder init i c (st_shared s);
          Some (mkState (<[i := c']> (st_pcs s)) sh' (st_out s) (st_log s ++ logged i c'))
      | None => None
      end
  end.

Lemma act_on_step s m s' : act_on s m = Some s' -> step builder init s s'.
Proof.
  destruct s as [pcs sh out log], m as [i|i k|i]; cbn [act_on st_pcs st_shared st_out st_log].
  - destruct (pcs !! i) as [[]|] eqn:Hi; intros; simplify_eq. left. by constructor.
  - destruct (pcs !! i) as [[]|] eqn:Hi, (out !! k) as [v|] eqn:Hk; intros; simplify_eq. left.
    rewrite <- (take_drop_middle _ _ _ Hk) at 1. by constructor.
  - destruct (pcs !! i) as [c|] eqn:Hi; [|done].
    assert (thread_step builder init i c sh ≫= (fun '(c', sh') =>
        Some (mkState (<[i := c']> pcs) sh' out (log ++ logged i c'))) = Some s' ->
      step builder init (mkState pcs sh out log) s') as Hadv.
    { intros ([c' sh'] & Ha & [= <-]) % bind_Some. right. by eapply work_on. }
    destruct c; try exact Hadv. intros; simplify_eq. right. by apply work_return with (o := o).
Qed.

Lemma schedule_reaches ms s s' :
  foldl (fun x m => x ≫= fun s => act_on s m) (Some s) ms = Some s' -> rtc (step builder init) s s'.
Proof.
  revert s. induction ms as [|m ms IH]; intros s Hs; simpl in Hs; [by simplify_eq|].
  destruct (act_on s m) as [s1|] eqn:Hm; simpl in Hs.
  - eapply rtc_l; [by eapply act_on_step | by apply IH].
  - exfalso. clear -Hs. by induction ms.
Qed.
End Schedules.

Module Contention.

Abbreviation init := (@alloc_stack_init (Libsets.gotcha 3)).

(** Two threads ask for their first stack: the second waits in the [Once], then at the mutex; the
    first gives its stack back while the second still has its own. *)
Definition moves : list action :=
  [ATake 0; ATake 1; AWork 0; AWork 0; AWork 1; AWork 1; AWork 1; AWork 1; AWork 0; AWork 0; AWork 1;
   AWork 0; AWork 0; AGive 0 0; AWork 0].
Definition contended : state Stack nat := Eval vm_compute in
  default (start 2) (foldl (fun x m => x ≫= fun s => act_on stack_builder init s m)
    (Some (start 2)) moves).

Lemma contended_reached : rtc (step stack_builder init) (start 2) contended.
Proof. apply (schedule_reaches _ _ moves). vm_compute. reflexivity. Qed.

Lemma threads_linearizable_witness :
  exists a, replays stack_builder init (st_log contended) a /\ answered contended.
Proof.
  destruct (threads_linearizable stack_builder init 2 contended contended_reached)
    as (a & Hr & Ha & _). exact (ex_intro _ a (conj Hr Ha)).
Defined.

Lemma threads_exclusive_witness : NoDup (everything contended).
Proof.
  exact (proj1 (threads_exclusive stack_builder init 0%nat 2 contended
    (@alloc_stack_init_made (Libsets.gotcha 3))
    (fun l b He => proj2 (stack_builder_emits _ _ _ He)) contended_reached)).
Defined.

Lemma threads_finish_witness : exists s', works stack_builder init contended s' /\
  (work s' < work contended)%nat.
Proof.
  destruct (threads_finish stack_builder init 2 contended) as [[Hidle|[s' Hs']] Hw];
    [by intros b | by vm_compute | exact contended_reached | | exists s'; exact (conj Hs' (Hw s' Hs'))].
  exfalso. apply Forall_cons in Hidle as [Hidle _]. discriminate Hidle.
Defined.
End Contention.
