(* ===== verification/Timer.v ===== *)
(** * POSIX timers

    Models [src/timer.rs]: the clocks, the notification request, and the three calls. *)

From S2P Require Import Prelude Signal.

Section Timers.
Context `{Libc}.

Inductive Clock : Set := Boot | BootAlarm | Mono | Process | Real | RealAlarm | Thread.

Definition clock_int (c : Clock) : Z :=
  match c with
  | Boot => CLOCK_BOOTTIME | BootAlarm => CLOCK_BOOTTIME_ALARM | Mono => CLOCK_MONOTONIC
  | Process => CLOCK_PROCESS_CPUTIME_ID | Real => CLOCK_REALTIME
  | RealAlarm => CLOCK_REALTIME_ALARM | Thread => CLOCK_THREAD_CPUTIME_ID
  end.

(** [struct Sigevent] is a transparent wrapper of [sigevent]. *)
Definition Sigevent : Set := sigevent.

(** [uninitialized]: no field has a value yet. *)
Definition uninitialized : sigevent :=
  {| sigev_notify := None; sigev_signo := None; sigev_notify_thread_id := None |}.

Definition Sigevent_new (notify : Z) : sigevent :=
  let event := uninitialized in
  {| sigev_notify := Some notify; sigev_signo := sigev_signo event;
     sigev_notify_thread_id := sigev_notify_thread_id event |}.

Definition Sigevent_none : Sigevent := Sigevent_new SIGEV_NONE.

Definition Sigevent_signal (signal : Signal) : Sigevent :=
  let this := Sigevent_new SIGEV_SIGNAL in
  {| sigev_notify := sigev_notify this; sigev_signo := Some (c_int signal);
     sigev_notify_thread_id := sigev_notify_thread_id this |}.

Definition Sigevent_thread_id (signal : Signal) (thread : Z) : Sigevent :=
  let this := Sigevent_new SIGEV_THREAD_ID in
  {| sigev_notify := sigev_notify this; sigev_signo := Some (c_int signal);
     sigev_notify_thread_id := Some thread |}.

(** [struct Timer]: an identifier chosen by the kernel. *)
Definition Timer : Set := Z.

Definition timer_create (clockid : Clock) (sevp : Sigevent) : comp kernel (result Timer Z) :=
  fun k =>
  let '((code, timer), k') := c_timer_create (clock_int clockid) sevp k in
  if negb (code =? 0) then (Done (Err (k_errno k')), k') else (Done (Ok timer), k').

(** The previous setting, which POSIX stores through [old], is not requested by any caller. *)
Definition timer_settime (timerid : Timer) (absolute : bool) (new : itimerspec)
  : comp kernel (result unit Z) := fun k =>
  let flags := if absolute then TIMER_ABSTIME else 0 in
  let '(code, k') := c_timer_settime timerid flags new k in
  if negb (code =? 0) then (Done (Err (k_errno k')), k') else (Done (Ok tt), k').

Definition timer_delete (timerid : Timer) : comp kernel (result unit Z) := fun k =>
  let '(code, k') := c_timer_delete timerid k in
  if negb (code =? 0) then (Done (Err (k_errno k')), k') else (Done (Ok tt), k').

End Timers.

Section TimerFacts.
Context `{LibcLaws}.

(** A timer that was created is new and not armed; nothing else changes. *)
Lemma timer_create_ok clockid sevp k timer k' :
  timer_create clockid sevp k = (Done (Ok timer), k') ->
  k_timers k !! timer = None /\
  k' = set_timers (<[timer := {| kt_clock := clock_int clockid; kt_event := sevp;
                                 kt_setting := None |}]> (k_timers k)) k.
Proof.
  unfold timer_create. destruct (c_timer_create _ _ _) as [[code id] k1] eqn:Hc.
  destruct (Z.eqb_spec code 0); intros [= -> ->]. by eapply law_timer_create.
Qed.

Lemma timer_settime_ok timer absolute new k k' :
  timer_settime timer absolute new k = (Done (Ok tt), k') ->
  exists t, k_timers k !! timer = Some t /\
  k' = set_timers (<[timer := {| kt_clock := kt_clock t; kt_event := kt_event t;
    kt_setting := Some (if absolute then TIMER_ABSTIME else 0, new) |}]> (k_timers k)) k.
Proof.
  unfold timer_settime. destruct (c_timer_settime _ _ _ _) as [code k1] eqn:Hc.
  destruct (Z.eqb_spec code 0); intros [= ->]. by eapply law_timer_settime.
Qed.

Lemma timer_delete_ok timer k k' :
  timer_delete timer k = (Done (Ok tt), k') -> k' = set_timers (delete timer (k_timers k)) k.
Proof.
  unfold timer_delete. destruct (c_timer_delete _ _) as [code k1] eqn:Hc.
  destruct (Z.eqb_spec code 0); intros [= ->]. by eapply law_timer_delete.
Qed.
End TimerFacts.
