(* ===== verification/Tcb.v ===== *)
(** * Thread-control blocks

    Models [src/tcb.rs] and the pool of [src/localstores.rs].  Every preemptible function runs on
    a thread-control block of its own, so that it has its own thread-local variables; the block is
    installed by pointing the FS register at it.  The dynamic linker and [arch_prctl] are the
    parameter [Ld]. *)

From S2P Require Import Prelude Reusable Gotcha Pools.

(** A live block: its machine words, and the values of libinger's thread-local variables. *)
Record block (L : Type) : Type := mkBlock { words : list Z; locals : L }.
Arguments mkBlock {L}.
Arguments words {L}.
Arguments locals {L}.

(** The FS register, the live blocks by address, and the addresses at which thread-local
    destructors ran, newest first. *)
Record tcb_state (L : Type) : Type := mkTcb {
  fs_base : Z;
  blocks : gmap Z (block L);
  dtors_run : list Z;
}.
Arguments mkTcb {L}.
Arguments fs_base {L}.
Arguments blocks {L}.
Arguments dtors_run {L}.

(** The dynamic linker and the kernel's [arch_prctl]. *)
Class Ld : Type := {
  (** [_dl_allocate_tls]: the address and contents of a new block, given those in use. *)
  dl_allocate_tls : gset Z -> option (Z * list Z);
  (** Status of [arch_prctl(ARCH_GET_FS)] and of [libgotcha_arch_prctl(ARCH_SET_FS, addr)], and
      the [errno] of a failure. *)
  arch_get_fs : Z -> Z;
  arch_set_fs : Z -> Z;
  arch_errno : Z;
  (** Whether the symbol [__ctype_init] is found in a group. *)
  has_ctype_init : Group -> bool;
}.

Definition POINTER_GUARD : nat := 6.
Definition KERNEL_THREAD : nat := 90.

Class LdLaws `{Ld} : Prop := {
  (** A new block is at a fresh address and is at least as large as glibc's header. *)
  law_allocate : forall used a ws,
    dl_allocate_tls used = Some (a, ws) -> a ∉ used /\ (KERNEL_THREAD < length ws)%nat;
}.

(** [enum MaybeMut]: a borrowed or an owned block. *)
Inductive MaybeMut : Set := Ref (a : Z) | Mut (a : Z).
Definition maybe_addr (m : MaybeMut) : Z := match m with Ref a => a | Mut a => a end.

(** [struct ThreadControlBlock (Option<MaybeMut>)]. *)
Definition ThreadControlBlock : Set := option MaybeMut.

(** [struct ThreadControlBlockGuard]. *)
Record ThreadControlBlockGuard : Set := mkGuard {
  this : ThreadControlBlock;
  parent : ThreadControlBlock;
}.

Section Tcb.
Context `{Ld} {L : Type}.
(** The initial values of the thread-local variables. *)
Variable locals0 : L.

Abbreviation st := (tcb_state L).
Implicit Types (s : st).

Definition set_fs (a : Z) s : st := mkTcb a (blocks s) (dtors_run s).
Definition set_blocks (m : gmap Z (block L)) s : st := mkTcb (fs_base s) m (dtors_run s).
Definition log_dtors s : st := mkTcb (fs_base s) (blocks s) (fs_base s :: dtors_run s).

(** Calls of C functions use the block that %fs points to (the stack protector's canary and [errno]
    are in it): once that block has been deallocated they are undefined. *)
Definition on_block {A} (m : comp st A) : comp st A := fun s =>
  match blocks s !! fs_base s with Some _ => m s | None => (Undefined, s) end.

(** [arch_prctl_get(GetOp::Fs)] and [arch_prctl_set(SetOp::Fs, val)]. *)
Definition arch_prctl_get : comp st (result Z Z) := on_block (fun s =>
  if arch_get_fs (fs_base s) =? 0 then (Done (Ok (fs_base s)), s) else (Done (Err arch_errno), s)).
Definition arch_prctl_set (val : Z) : comp st (result unit Z) := on_block (fun s =>
  if arch_set_fs val =? 0 then (Done (Ok tt), set_fs val s) else (Done (Err arch_errno), s)).

(** [ThreadControlBlock::current]. *)
Definition current : comp st (result ThreadControlBlock Z) :=
  r ← arch_prctl_get;
  mret (match r with Ok fs => Ok (Some (Ref fs)) | Err e => Err e end).

(** [ThreadControlBlock::new]: allocate, and make [tls_ptr] and [self_ptr] (words 0 and 2) point
    to the block itself. *)
Definition new : comp st ThreadControlBlock := fun s =>
  match dl_allocate_tls (dom (blocks s)) with
  | None => (Panicked "libinger: could not allocate thread-control block", s)
  | Some (fs, ws) =>
      (Done (Some (Mut fs)),
       set_blocks (<[fs := mkBlock (<[2%nat := fs]> (<[0%nat := fs]> ws)) locals0]> (blocks s)) s)
  end.

(** The body of the [if let MaybeMut::Mut(fs)] in [install_unguarded]: [slice::from_raw_parts] of
    memory that is not a block, or is too short, is undefined. *)
Definition copy_header (fs cur : Z) : comp st unit := fun s =>
  match blocks s !! fs, blocks s !! cur with
  | Some bfs, Some bcur =>
      match words bcur !! POINTER_GUARD, words bcur !! KERNEL_THREAD,
            words bfs !! KERNEL_THREAD with
      | Some guard, Some thread, Some _ =>
          (Done tt, set_blocks (<[fs := mkBlock (<[KERNEL_THREAD := thread]>
                                                  (<[POINTER_GUARD := guard]> (words bfs)))
                                          (locals bfs)]> (blocks s)) s)
      | _, _, _ => (Undefined, s)
      end
  | _, _ => (Undefined, s)
  end.

(** [ThreadControlBlock::install_unguarded].  [__ctype_init] touches state of the C library that
    is not modelled. *)
Definition install_unguarded (self : ThreadControlBlock) (group : option Group)
  : comp st (result (option ThreadControlBlock) Z) :=
  fs ← expect self "called `Option::unwrap()` on a `None` value";
  match fs with
  | Mut a =>
      c ←? current;
      _ ← match c with Some m => copy_header a (maybe_addr m) | None => mret tt end;
      _ ←? arch_prctl_set a;
      match group with
      | Some g => if has_ctype_init g then mret (Ok (Some c))
                  else abort_process "install(): could not get address of __ctype_init()"
      | None => mret (Ok (Some c))
      end
  | Ref a =>
      _ ←? arch_prctl_set a;
      mret (Ok None)
  end.

(** [unguarded_parent]. *)
Definition unguarded_parent (this : result (option ThreadControlBlock) Z)
  : comp st (result ThreadControlBlock Z) :=
  match this with
  | Err e => mret (Err e)
  | Ok (Some cur) => mret (Ok cur)
  | Ok None => current
  end.

(** [impl Drop for ThreadControlBlockGuard].  The fields are dropped afterwards: [this] is empty
    by then, and [parent] is always a borrowed block (see [install_parent]), which needs no
    cleanup. *)
Definition guard_drop (g : ThreadControlBlockGuard) : comp st unit :=
  _ ← match this g with Some (Mut _) => modify log_dtors | _ => mret tt end;
  r ← install_unguarded (parent g) None;
  _ ← expect_ok r "called `Result::unwrap()` on an `Err` value";
  match this g with
  | Some (Mut fs) => modify (fun s => set_blocks (delete fs (blocks s)) s)
  | _ => mret tt
  end.

(** [impl Drop for ThreadControlBlock]: install the block once more to run its destructors. *)
Definition tcb_drop (self : ThreadControlBlock) : comp st unit :=
  match self with
  | Some (Mut fs) =>
      r ← install_unguarded self None;
      p ← unguarded_parent r;
      match p with
      | Ok par => guard_drop (mkGuard self par)
      | Err _ => mret tt (* eprintln!: the block is leaked *)
      end
  | _ => mret tt
  end.

(** [ThreadControlBlock::install]: on an error, [self] is dropped on the way out. *)
Definition install (self : ThreadControlBlock) (group : Group)
  : comp st (result ThreadControlBlockGuard Z) :=
  r ← install_unguarded self (Some group);
  p ← unguarded_parent r;
  match p with
  | Ok par => mret (Ok (mkGuard self par))
  | Err e => _ ← tcb_drop self; mret (Err e)
  end.

(** [ThreadControlBlockGuard::uninstall]: the guard that is dropped no longer owns a block. *)
Definition uninstall (g : ThreadControlBlockGuard) : comp st (result ThreadControlBlock Z) :=
  _ ← guard_drop (mkGuard None (parent g)); mret (Ok (this g)).

(** ** [src/localstores.rs] *)

(** The builder: [|| Some(Some(ThreadControlBlock::new()))]. *)
Definition localstore_builder : comp st (option (option ThreadControlBlock)) :=
  t ← new; mret (Some (Some t)).

Abbreviation localstores := (once (Mutex (list (option ThreadControlBlock)))).

(** Run an operation of the pool, whose builder allocates in the shared state. *)
Definition with_localstores {A} (m : comp (Pool Mutex (option ThreadControlBlock) st) A)
  : comp (Mutex (list (option ThreadControlBlock)) * st) A := fun '(c, s) =>
  let '(r, p) := m (mkPool c s) in (r, (allocated p, pool_env p)).

Definition localstores_init `{Gotcha} : comp (localstores * st) unit := fun '(o, s) =>
  match o with
  | OnceDone _ => (Done tt, (o, s))
  | OncePoisoned => (Panicked "Once instance has previously been poisoned", (o, s))
  | OnceNew =>
      match with_localstores (prealloc localstore_builder Group_limit) (fresh_cell [], s) with
      | (Done (Ok tt), (c, s')) => (Done tt, (OnceDone c, s'))
      | (Done (Err _), (_, s')) =>
          (Panicked "libinger: TCB allocator lock was poisoned during init", (OncePoisoned, s'))
      | (Panicked m, (_, s')) => (Panicked m, (OncePoisoned, s'))
      | (Aborted m, (_, s')) => (Aborted m, (OnceNew, s'))
      | (Undefined, (_, s')) => (Undefined, (OnceNew, s'))
      end
  end.

Definition localstores_lend : comp (localstores * st) (Reusable (option ThreadControlBlock)) :=
  fun '(o, s) =>
  match o with
  | OnceDone c =>
      match with_localstores (try_from localstore_builder) (c, s) with
      | (Done (Ok r), (c', s')) => (Done r, (OnceDone c', s'))
      | (Done (Err _), (c', s')) =>
          (Panicked "libinger: TCB allocator lock is poisoned", (OnceDone c', s'))
      | (Panicked m, (c', s')) => (Panicked m, (OnceDone c', s'))
      | (Aborted m, (c', s')) => (Aborted m, (OnceDone c', s'))
      | (Undefined, (c', s')) => (Undefined, (OnceDone c', s'))
      end
  | _ => (Panicked "called `Option::unwrap()` on a `None` value", (o, s))
  end.

Definition alloc_localstore `{Gotcha}
  : comp (localstores * st) (Reusable (option ThreadControlBlock)) :=
  _ ← localstores_init; localstores_lend.

End Tcb.

(** ** Facts *)

Section TcbFacts.
Context `{Ld} {L : Type}.
Abbreviation st := (tcb_state L).
Implicit Types (s : st) (a : Z).

(** A block that is allocated and large enough to be installed. *)
Definition live s a : Prop :=
  exists b, blocks s !! a = Some b /\ (KERNEL_THREAD < length (words b))%nat.

(** The words that [install_unguarded] copies from the running thread's block. *)
Definition with_header (src dst : list Z) : list Z :=
  <[KERNEL_THREAD := default 0 (src !! KERNEL_THREAD)]>
    (<[POINTER_GUARD := default 0 (src !! POINTER_GUARD)]> dst).

(** The state once the block at [a] is installed. *)
Definition installed a s : st :=
  set_fs a (match blocks s !! a, blocks s !! fs_base s with
            | Some b, Some cur =>
                set_blocks (<[a := mkBlock (with_header (words cur) (words b)) (locals b)]>
                              (blocks s)) s
            | _, _ => s
            end).

(** The block that the thread runs on is there. *)
Definition grounded s : Prop := is_Some (blocks s !! fs_base s).

Lemma live_grounded s : live s (fs_base s) -> grounded s.
Proof. intros (b & Hb & _). by exists b. Qed.
Lemma on_block_run {A} (m : comp st A) s : grounded s -> on_block m s = m s.
Proof. intros [b Hb]. unfold on_block. by rewrite Hb. Qed.

Lemma copy_header_run s a :
  live s a -> live s (fs_base s) -> exists s',
  copy_header a (fs_base s) s = (Done tt, s') /\ set_fs a s' = installed a s /\
  fs_base s' = fs_base s /\ grounded s'.
Proof.
  intros (b & Hb & Hlb) (c & Hc & Hlc). unfold copy_header, installed. rewrite Hb, Hc.
  destruct (lookup_lt_is_Some_2 (words c) KERNEL_THREAD) as [k Hk]; [done|].
  destruct (lookup_lt_is_Some_2 (words c) POINTER_GUARD) as [g Hg];
    [unfold POINTER_GUARD, KERNEL_THREAD in *; lia|].
  destruct (lookup_lt_is_Some_2 (words b) KERNEL_THREAD) as [k' Hk']; [done|].
  unfold with_header. rewrite Hg, Hk, Hk'. simpl. eexists. split_and!; [done..|].
  unfold grounded. simpl. destruct (decide (fs_base s = a)) as [->|].
  - rewrite lookup_insert_eq. by eexists.
  - rewrite lookup_insert_ne by done. by eexists.
Qed.

Lemma current_run s :
  grounded s -> arch_get_fs (fs_base s) = 0 -> current s = (Done (Ok (Some (Ref (fs_base s)))), s).
Proof.
  intros Hs Hget. unfold current, arch_prctl_get, mbind, comp_bind.
  rewrite on_block_run by done. by rewrite Hget.
Qed.

Lemma arch_prctl_set_run a s :
  grounded s -> arch_set_fs a = 0 -> arch_prctl_set a s = (Done (Ok tt), set_fs a s).
Proof. intros Hs Hset. unfold arch_prctl_set. rewrite on_block_run by done. by rewrite Hset. Qed.

Lemma install_unguarded_mut a group s :
  live s a -> live s (fs_base s) -> arch_get_fs (fs_base s) = 0 -> arch_set_fs a = 0 ->
  from_option has_ctype_init true group = true ->
  install_unguarded (Some (Mut a)) group s =
    (Done (Ok (Some (Some (Ref (fs_base s))))), installed a s).
Proof.
  intros Ha Hcur Hget Hset Hg. unfold install_unguarded. simpl.
  erewrite comp_bind_done by done. cbv beta iota.
  erewrite try_bind_ok by (apply current_run; [by apply live_grounded | done]). simpl.
  destruct (copy_header_run _ _ Ha Hcur) as (s' & Hcopy & Hinst & _ & Hgr).
  erewrite comp_bind_done by exact Hcopy.
  erewrite try_bind_ok by by apply arch_prctl_set_run. rewrite Hinst.
  destruct group as [g|]; [|done]. simpl in Hg. by rewrite Hg.
Qed.

Lemma install_unguarded_ref a group s :
  grounded s -> arch_set_fs a = 0 ->
  install_unguarded (Some (Ref a)) group s = (Done (Ok None), set_fs a s).
Proof.
  intros Hs Hset. unfold install_unguarded. erewrite comp_bind_done by done. cbv beta iota.
  by erewrite try_bind_ok by by apply arch_prctl_set_run.
Qed.

Lemma install_run a g s :
  live s a -> live s (fs_base s) -> arch_get_fs (fs_base s) = 0 -> arch_set_fs a = 0 ->
  has_ctype_init g = true ->
  install (Some (Mut a)) g s =
    (Done (Ok (mkGuard (Some (Mut a)) (Some (Ref (fs_base s))))), installed a s).
Proof.
  intros. unfold install.
  erewrite comp_bind_done by by apply install_unguarded_mut. done.
Qed.

(** A guard dropped without a block restores its parent. *)
Lemma uninstall_run t f s :
  grounded s -> arch_set_fs f = 0 ->
  uninstall (mkGuard t (Some (Ref f))) s = (Done (Ok t), set_fs f s).
Proof.
  intros Hs Hset. unfold uninstall, guard_drop. simpl. unfold mbind, comp_bind. simpl.
  by rewrite (install_unguarded_ref _ _ _ Hs Hset).
Qed.

(** The thread's block is installed while the function's is still there. *)
Lemma guard_drop_mut a f s :
  grounded s -> arch_set_fs f = 0 ->
  guard_drop (mkGuard (Some (Mut a)) (Some (Ref f))) s =
    (Done tt, mkTcb f (delete a (blocks s)) (fs_base s :: dtors_run s)).
Proof.
  intros Hs Hset. unfold guard_drop. simpl. unfold mbind, comp_bind. simpl.
  by rewrite (install_unguarded_ref _ _ (log_dtors s) Hs Hset).
Qed.

Lemma installed_fs a s : fs_base (installed a s) = a.
Proof. done. Qed.

Lemma installed_dtors a s : dtors_run (installed a s) = dtors_run s.
Proof. unfold installed. by repeat case_match. Qed.

Lemma installed_other a s a' : a' <> a -> blocks (installed a s) !! a' = blocks s !! a'.
Proof.
  intros Hne. unfold installed. repeat case_match; try done. simpl.
  by rewrite lookup_insert_ne.
Qed.

(** Installing keeps every thread-local variable of every block. *)
Lemma installed_locals a s a' :
  locals <$> blocks (installed a s) !! a' = locals <$> blocks s !! a'.
Proof.
  unfold installed. repeat case_match; try done. simpl.
  destruct (decide (a' = a)) as [->|]; [|by rewrite lookup_insert_ne].
  rewrite lookup_insert_eq. simpl. by simplify_option_eq.
Qed.

Lemma installed_live a s a' : live s a' -> live (installed a s) a'.
Proof.
  intros (b & Hb & Hl). unfold live, installed.
  destruct (blocks s !! a) as [ba|] eqn:Ha; [|by eauto].
  destruct (blocks s !! fs_base s) as [bc|] eqn:Hc; [|by eauto]. simpl.
  destruct (decide (a' = a)) as [->|]; [|rewrite lookup_insert_ne by done; eauto].
  rewrite lookup_insert_eq. eexists. split; [done|]. simplify_eq. simpl.
  unfold with_header. by rewrite !length_insert.
Qed.

Lemma installed_grounded a s : live s a -> grounded (installed a s).
Proof. intros Hl. by apply (live_grounded (installed a s)), installed_live. Qed.

Lemma installed_delete a s : a <> fs_base s ->
  delete a (blocks (installed a s)) = delete a (blocks s).
Proof.
  intros Hne. apply map_eq. intros i. destruct (decide (i = a)) as [->|].
  - by rewrite !lookup_delete_eq.
  - rewrite !lookup_delete_ne by done. by apply installed_other.
Qed.

(** Allocating blocks leaves the existing ones alone. *)
Definition grown s s' : Prop :=
  fs_base s' = fs_base s /\ forall a b, blocks s !! a = Some b -> blocks s' !! a = Some b.

#[export] Instance grown_refl : Reflexive grown.
Proof. by split. Qed.
#[export] Instance grown_trans : Transitive grown.
Proof. intros s1 s2 s3 [] []. split; [congruence | eauto]. Qed.

Lemma grown_live s s' a : grown s s' -> live s a -> live s' a.
Proof. intros [_ Hg] (b & Hb & Hl). exists b. eauto. Qed.
Lemma grown_locals s s' a l :
  grown s s' -> locals <$> blocks s !! a = Some l -> locals <$> blocks s' !! a = Some l.
Proof.
  intros [_ Hg] Hl. destruct (blocks s !! a) as [b|] eqn:Hb; [|done]. by rewrite (Hg _ _ Hb).
Qed.

Lemma alloc_localstore_grown `{!LdLaws} `{Gotcha} (l0 : L) os x os' :
  alloc_localstore l0 os = (x, os') -> grown (snd os) (snd os').
Proof.
  assert (forall s y s', localstore_builder l0 s = (y, s') -> grown s s') as Hb.
  { intros s y s'. unfold localstore_builder, new, mbind, comp_bind.
    destruct (dl_allocate_tls _) as [[a ws]|] eqn:Ha; intros [= _ <-]; [|done].
    apply law_allocate in Ha as [Hn _]. split; [done|]. intros a' b Ha'. simpl.
    rewrite lookup_insert_ne; [done|]. intros ->. by apply Hn, (elem_of_dom_2 _ _ _ Ha'). }
  assert (forall i y i', localstores_init l0 i = (y, i') -> grown (snd i) (snd i')) as Hi.
  { intros [o s] y i'. unfold localstores_init, with_localstores.
    destruct o; try (by intros [= _ <-]).
    destruct (prealloc (localstore_builder l0) Group_limit _) as [[[]| | |] p] eqn:Hp;
      apply (within_prealloc _ grown Hb) in Hp; simpl; repeat case_match; by intros [= _ <-]. }
  destruct os as [o s]. unfold alloc_localstore, mbind, comp_bind.
  destruct (localstores_init l0 (o, s)) as [[[]| | |] [o1 s1]] eqn:Hs; apply Hi in Hs;
    try (by intros [= _ <-]).
  intros Hx. etransitivity; [exact Hs|]. unfold localstores_lend, with_localstores in Hx.
  destruct o1; try (by injection Hx as _ <-).
  destruct (try_from (localstore_builder l0) _) as [[[]| | |] p] eqn:Hp;
    apply (within_try_from _ grown Hb) in Hp; simpl in Hx; repeat case_match; by injection Hx as _ <-.
Qed.

(** C38: Installing a function's thread-control block and uninstalling it again is a round trip:
    while installed, the FS register points to the block and the block carries the running
    thread's pointer guard and thread descriptor; afterwards the caller's block is back, the
    function still owns its block, nothing was freed, no destructor ran, and no thread-local
    variable changed. *)
Theorem install_uninstall_roundtrip a g s b cur :
  blocks s !! a = Some b -> (KERNEL_THREAD < length (words b))%nat ->
  blocks s !! fs_base s = Some cur -> (KERNEL_THREAD < length (words cur))%nat ->
  arch_get_fs (fs_base s) = 0 -> arch_set_fs a = 0 -> arch_set_fs (fs_base s) = 0 ->
  has_ctype_init g = true ->
  exists guard s1 s2 b1,
    install (Some (Mut a)) g s = (Done (Ok guard), s1) /\
    fs_base s1 = a /\ blocks s1 !! a = Some b1 /\
    words b1 !! POINTER_GUARD = words cur !! POINTER_GUARD /\
    words b1 !! KERNEL_THREAD = words cur !! KERNEL_THREAD /\
    uninstall guard s1 = (Done (Ok (Some (Mut a))), s2) /\
    fs_base s2 = fs_base s /\ dtors_run s2 = dtors_run s /\
    forall a', locals <$> blocks s2 !! a' = locals <$> blocks s !! a'.
Proof.
  intros Hb Hlb Hcur Hlc Hget Hset Hset' Hg.
  exists (mkGuard (Some (Mut a)) (Some (Ref (fs_base s)))), (installed a s),
    (set_fs (fs_base s) (installed a s)),
    (mkBlock (with_header (words cur) (words b)) (locals b)).
  assert (POINTER_GUARD < KERNEL_THREAD)%nat as Hlt
    by (unfold POINTER_GUARD, KERNEL_THREAD; lia).
  split_and!; try done.
  - apply install_run; unfold live; eauto.
  - unfold installed. rewrite Hb, Hcur. simpl. by rewrite lookup_insert_eq.
  - simpl. unfold with_header. rewrite list_lookup_insert_ne by lia.
    rewrite list_lookup_insert_eq by lia.
    by destruct (lookup_lt_is_Some_2 (words cur) POINTER_GUARD) as [x ->]; [lia|].
  - simpl. unfold with_header. rewrite list_lookup_insert_eq by (rewrite length_insert; lia).
    by destruct (lookup_lt_is_Some_2 (words cur) KERNEL_THREAD) as [x ->]; [lia|].
  - apply uninstall_run; [|done]. apply installed_grounded. unfold live. eauto.
  - simpl. apply installed_dtors.
  - intros a'. apply (installed_locals a).
Qed.

(** C39: Dropping an owned thread-control block frees it exactly once: its thread-local
    destructors run with that block installed, then the caller's block is installed again, and
    only then is the block deallocated; every other block is untouched. *)
Theorem tcb_drop_frees a s :
  live s a -> live s (fs_base s) -> a <> fs_base s ->
  arch_get_fs (fs_base s) = 0 -> arch_set_fs a = 0 -> arch_set_fs (fs_base s) = 0 ->
  tcb_drop (Some (Mut a)) s =
    (Done tt, mkTcb (fs_base s) (delete a (blocks s)) (a :: dtors_run s)).
Proof.
  intros Ha Hcur Hne Hget Hset Hset'. unfold tcb_drop.
  erewrite comp_bind_done by by apply install_unguarded_mut.
  erewrite comp_bind_done by done. cbv beta iota.
  rewrite guard_drop_mut by auto using installed_grounded. by rewrite installed_delete, installed_dtors.
Qed.

(** C40: When the kernel refuses to install a block, [install] reports the error with the caller's
    block still installed; the block is not freed (its destructors cannot run) and its owner no
    longer has it. *)
Theorem install_refused a g s :
  live s a -> live s (fs_base s) -> arch_get_fs (fs_base s) = 0 -> arch_set_fs a <> 0 ->
  exists s', install (Some (Mut a)) g s = (Done (Err arch_errno), s') /\
    fs_base s' = fs_base s /\ dtors_run s' = dtors_run s /\ live s' a.
Proof.
  intros Ha Hcur Hget Hset.
  assert (forall s0 group, live s0 a -> live s0 (fs_base s0) -> fs_base s0 = fs_base s ->
    exists s1, install_unguarded (Some (Mut a)) group s0 = (Done (Err arch_errno), s1) /\
      set_fs a s1 = installed a s0 /\ fs_base s1 = fs_base s0) as Hfail.
  { intros s0 group Ha0 Hcur0 Hfs0.
    destruct (copy_header_run _ _ Ha0 Hcur0) as (s1 & Hcopy & Hinst & Hfs & Hgr).
    exists s1. split; [|done]. unfold install_unguarded. erewrite comp_bind_done by done.
    cbv beta iota. erewrite try_bind_ok by (apply current_run; [by apply live_grounded | congruence]). simpl.
    erewrite comp_bind_done by exact Hcopy. erewrite try_bind_err; [done|].
    unfold arch_prctl_set. rewrite on_block_run by done. apply Z.eqb_neq in Hset. by rewrite Hset. }
  assert (forall s0 s1, set_fs a s1 = installed a s0 -> forall a', live s0 a' -> live s1 a')
    as Hlive.
  { intros s0 s1 Heq a' Hl. apply (installed_live a) in Hl. rewrite <- Heq in Hl. exact Hl. }
  destruct (Hfail s (Some g)) as (s1 & Hi1 & He1 & Hf1); [done..|].
  assert (live s1 (fs_base s1)) as Hc1 by (rewrite Hf1; by eapply Hlive).
  destruct (Hfail s1 None) as (s2 & Hi2 & He2 & Hf2); [by eapply Hlive | done | done |].
  exists s2. split_and!; [| congruence | | by eapply Hlive, Hlive].
  - unfold install. erewrite comp_bind_done by exact Hi1.
    erewrite comp_bind_done by done. cbv beta iota. unfold tcb_drop.
    unfold mbind, comp_bind in *. by rewrite Hi2.
  - transitivity (dtors_run s1).
    + by rewrite <- (installed_dtors a s1), <- He2.
    + by rewrite <- (installed_dtors a s), <- He1.
Qed.
End TcbFacts.

(** A dynamic linker for the witnesses: [refused] is an address the kernel will not install. *)
Module LdExample.
Definition header : list Z := replicate 91 0.

Definition ld (refused : option Z) : Ld := {|
  dl_allocate_tls used := Some (fresh used, header);
  arch_get_fs _ := 0;
  arch_set_fs a := match refused with Some r => if a =? r then -1 else 0 | None => 0 end;
  arch_errno := 22;
  has_ctype_init _ := true;
|}.

#[export] Instance laws refused : @LdLaws (ld refused).
Proof.
  split. intros used a ws [= <- <-]. split; [apply is_fresh | simpl; unfold KERNEL_THREAD; lia].
Qed.

Definition caller_words : list Z := <[90%nat := 77]> (<[6%nat := 66]> header).

(** The caller's block at 10 and a function's block at 20. *)
Definition two_blocks : tcb_state unit :=
  mkTcb 10 (<[10 := mkBlock caller_words tt]> (<[20 := mkBlock header tt]> ∅)) [].

Lemma install_uninstall_roundtrip_witness :
  exists guard s1 s2 b1,
    @install (ld None) unit (Some (Mut 20)) 1%nat two_blocks = (Done (Ok guard), s1) /\
    fs_base s1 = 20 /\ blocks s1 !! 20 = Some b1 /\
    words b1 !! POINTER_GUARD = words (mkBlock caller_words tt) !! POINTER_GUARD /\
    words b1 !! KERNEL_THREAD = words (mkBlock caller_words tt) !! KERNEL_THREAD /\
    @uninstall (ld None) unit guard s1 = (Done (Ok (Some (Mut 20))), s2) /\
    fs_base s2 = fs_base two_blocks /\ dtors_run s2 = dtors_run two_blocks /\
    forall a', locals <$> blocks s2 !! a' = locals <$> blocks two_blocks !! a'.
Proof.
  apply (@install_uninstall_roundtrip (ld None) unit 20 1%nat two_blocks (mkBlock header tt));
    first [reflexivity | unfold KERNEL_THREAD; simpl; lia].
Defined.

Lemma tcb_drop_frees_witness :
  @tcb_drop (ld None) unit (Some (Mut 20)) two_blocks =
    (Done tt, mkTcb 10 (delete 20 (blocks two_blocks)) [20]).
Proof.
  apply (@tcb_drop_frees (ld None) unit 20 two_blocks); try reflexivity; [| | done];
    eexists; (split; [reflexivity | unfold KERNEL_THREAD; simpl; lia]).
Defined.

Lemma install_refused_witness :
  exists s', @install (ld (Some 20)) unit (Some (Mut 20)) 1%nat two_blocks = (Done (Err 22), s') /\
    fs_base s' = 10 /\ dtors_run s' = [] /\ live s' 20.
Proof.
  apply (@install_refused (ld (Some 20)) unit 20 1%nat two_blocks); try reflexivity; [| | done];
    eexists; (split; [reflexivity | unfold KERNEL_THREAD; simpl; lia]).
Defined.
End LdExample.
