(* ===== verification/Tcbstub.v ===== *)
(** * Builds without thread-local storage (src/tcbstub.rs)

    Under the feature [notls] lib.rs takes the module [tcb] from tcbstub.rs.  What the rest of the
    library asks of either version is a class, of which both are instances, and its clients are
    verified against the class. *)

From S2P Require Import Prelude Gotcha Tcb.

(** ** The interface of the module [tcb] *)

(** A module [tcb] over a state [S]: its two types, and the operations that other modules call. *)
Class TcbModule (S : Type) : Type := {
  Block : Type;
  Guard : Type;
  block_new : comp S Block;
  block_install : Block -> Group -> comp S (result Guard Z);
  guard_uninstall : Guard -> comp S (result Block Z);
  block_drop : Block -> comp S unit;
  abandon : Guard -> comp S unit;
  (** The block [t] can be installed for the libset [g] by the thread that runs. *)
  ready_for : Group -> Block -> S -> Prop;
  (** What the thread that runs must find again. *)
  home : S -> Z;
}.

Class TcbModuleLaws (S : Type) `{TcbModule S} : Prop := {
  (** Once the block has been uninstalled the thread is where it was, and has the block. *)
  law_visit g t s : ready_for g t s -> exists s',
    (guard ←? block_install t g; guard_uninstall guard) s = (Done (Ok t), s') /\
    home s' = home s /\ ready_for g t s';
  (** A guard that is dropped instead brings the thread back as well. *)
  law_abandon g t s : ready_for g t s -> exists guard s1 s2,
    block_install t g s = (Done (Ok guard), s1) /\
    abandon guard s1 = (Done tt, s2) /\ home s2 = home s;
}.

(** ** src/tcb.rs *)

Section Real.
Context `{Ld} {L : Type} (locals0 : L).

#[export] Instance tcb_module : TcbModule (tcb_state L) := {|
  Block := ThreadControlBlock; Guard := ThreadControlBlockGuard;
  block_new := new locals0; block_install := install; guard_uninstall := uninstall;
  block_drop := tcb_drop; abandon := guard_drop;
  ready_for g t s := exists a, t = Some (Mut a) /\ live s a /\ live s (fs_base s) /\
    arch_get_fs (fs_base s) = 0 /\ arch_set_fs a = 0 /\ arch_set_fs (fs_base s) = 0 /\
    has_ctype_init g = true;
  home := fs_base;
|}.

#[export] Instance tcb_module_laws : TcbModuleLaws (tcb_state L).
Proof.
  split; intros g t s (a & -> & Ha & Hf & Hget & Hset & Hsetf & Hg).
  - eexists. erewrite try_bind_ok by by apply install_run. cbn [guard_uninstall tcb_module].
    rewrite uninstall_run by auto using installed_grounded.
    split_and!; [done.. |]. exists a. split_and!; try done; by apply (installed_live a).
  - eexists _, _, _. split; [by apply install_run|].
    split; [apply guard_drop_mut; auto using installed_grounded | done].
Qed.
End Real.

(** ** src/tcbstub.rs *)

Section Stub.
Context {S : Type}.

(** [struct ThreadControlBlock] and [struct ThreadControlBlockGuard], which have no fields. *)
Inductive StubBlock : Type := stub_block.
Inductive StubGuard : Type := stub_guard.

Definition stub_new : comp S StubBlock := mret stub_block.
Definition stub_install (_ : StubBlock) (_ : Group) : comp S (result StubGuard Z) :=
  mret (Ok stub_guard).
Definition stub_drop (_ : StubBlock) : comp S unit := mret tt.
Definition stub_uninstall (_ : StubGuard) : comp S (result StubBlock Z) := mret (Ok stub_block).
Definition stub_guard_drop (_ : StubGuard) : comp S unit := mret tt.

(** Whatever the state holds for the thread's block, a stub does not move it. *)
Context (block_of : S -> Z).
#[export] Instance stub_module : TcbModule S := {|
  Block := StubBlock; Guard := StubGuard;
  block_new := stub_new; block_install := stub_install; guard_uninstall := stub_uninstall;
  block_drop := stub_drop; abandon := stub_guard_drop;
  ready_for _ _ _ := True; home := block_of;
|}.

#[export] Instance stub_module_laws : TcbModuleLaws S.
Proof.
  split; intros g [] s _; cbn.
  - by exists s.
  - by exists stub_guard, s, s.
Qed.
End Stub.

(** ** A client of either version *)

Section Client.
Context {S : Type} `{TcbModuleLaws S}.

(** A function that is resumed [n] times, its block in the libset [g] each time. *)
Fixpoint visits (n : nat) (t : Block) (g : Group) : comp S (result Block Z) :=
  match n with
  | O => mret (Ok t)
  | Datatypes.S n =>
      t ←? (guard ←? block_install t g; guard_uninstall guard);
      visits n t g
  end.

(** The block can be installed any number of times, and the thread always finds its own block
    again. *)
Lemma visits_return n g t s :
  ready_for g t s -> exists s',
    visits n t g s = (Done (Ok t), s') /\ home s' = home s /\ ready_for g t s'.
Proof.
  revert s. induction n as [|n IH]; intros s Hr; [by exists s|].
  destruct (law_visit g t s Hr) as (s1 & Hv & Hh & Hr1).
  destruct (IH s1 Hr1) as (s2 & Hn & Hh2 & Hr2). exists s2. cbn [visits].
  erewrite try_bind_ok by exact Hv. split_and!; [done | congruence | done].
Qed.
End Client.
