(* ===== verification/World.v ===== *)
(** * The state libinger runs on, and interruptible code

    The record [world] holds what the code of [src/preemption.rs] and [src/linger.rs] reads and
    writes: the kernel's view of the current thread, the libset the thread is in, the
    thread-control blocks with libinger's thread-local variables, and the static pools.
    Code that a signal can interrupt is a [prog]: a tree of atomic actions on the world, so that
    an interrupted computation is the rest of its tree. *)

From S2P Require Import Prelude Signal Reusable Gotcha Pools Timer Tcb.

(** ** The platform *)

(** Everything the sources do not contain: the C library, libgotcha, the dynamic linker, and the
    ways in which libtimetravel's calls can fail.  [debug_assertions] is the build profile, which
    turns on [debug_assert!] and overflow checks. *)
Class Platform : Type := {
  plat_libc :: Libc;
  plat_gotcha :: Gotcha;
  plat_ld :: Ld;
  debug_assertions : bool;
  (** The address of the function [preempt]. *)
  preempt_addr : Z;
  (** What the library calls of the signal handler leave in [errno], given what was there. *)
  handler_errno : Z -> Z;
  (** Errors of [makecontext] and [restorecontext], given the time of the call. *)
  makecontext_err : Z -> option Z;
  restorecontext_err : Z -> option Z;
  (** [sigsetcontext] comes back only to report a failure, possibly without an error. *)
  sigsetcontext_err : Z -> option (option Z);
  (** Whether returning from a context's function restores the signal mask of its call site. *)
  link_restores_mask : bool;
}.

Class PlatformLaws `{Platform} : Prop := {
  plat_libc_laws :: LibcLaws;
  plat_gotcha_laws :: GotchaLaws;
  plat_ld_laws :: LdLaws;
}.

(** ** The preemptible function

    What the closure passed to [launch] does, as far as libinger can tell: compute, read and
    write [errno], call nonpreemptible library functions (of [n] steps), call [pause], and end. *)
Inductive ucode : Type :=
| URet (v : Z)
| UPanic (msg : string)
| UStep (k : ucode)
| USetErrno (e : Z) (k : ucode)
| UGetErrno (k : Z -> ucode)
| UShared (n : nat) (k : ucode)
| UPause (k : ucode).

(** [std::thread::Result]: a value, or the payload of a panic. *)
Abbreviation ThdResult := (result Z string).

(** [enum Completion] inside [launch]: the state of the boxed closure. *)
Inductive Completion : Type :=
| Function (f : ucode)
| Return (v : ThdResult)
| Empty.

(** ** libtimetravel's contexts *)

(** Where a saved execution context continues: at the call that entered the preemptible function,
    at the point a signal interrupted, or at computation number [n] of those set aside. *)
Inductive code : Set := CallSite | Interrupted | Saved (n : nat).

Section World.
Context `{Platform}.

(** [timetravel::Context], with the stack it owns. *)
Record Context : Type := mkContext {
  cx_stack : Reusable Stack;
  cx_mask : sigset_t;
  cx_code : code;
}.

(** [timetravel::HandlerContext]: the interrupted context, as a signal handler sees it. *)
Record HandlerContext : Type := mkHandlerContext {
  uc_sigmask : sigset_t;
  uc_code : code;
}.

(** [struct Task] of linger.rs. *)
Record Task : Type := mkTask {
  errno : option Z;
  checkpoint : option Context;
  yielded : bool;
}.
Definition Task_default : Task := mkTask None None false.

(** [struct RealThreadId]: a reference to a kernel thread's [SIGNALER]. *)
Definition RealThreadId : Set := nat.

(** [struct PreemptionSignal]. *)
Record PreemptionSignal : Type := mkPS {
  ps_signal : Reusable Signal;
  ps_timer : Timer;
}.

(** The thread-local variables of preemption.rs and linger.rs that live in the installed
    thread-control block.  [BOOTSTRAP] points to a boxed closure. *)
Record tls : Type := mkTls {
  SIGNAL : option RealThreadId;
  DEFERRED : bool;
  BOOTSTRAP : option (nat * Group);
  TASK : Task;
  DEADLINE : Z;
  ERRNO_LOCATION : option Group;
  tls_destroyed : bool;
}.
Definition tls0 : tls := mkTls None false None Task_default 0 None false.

Record world : Type := mkWorld {
  w_clock : Z;
  w_kernel : kernel;
  w_group : Group;
  w_errno : gmap (Z * Group) Z;
  w_tcb : tcb_state tls;
  w_tid : RealThreadId;
  w_signalers : gmap RealThreadId PreemptionSignal;
  w_signals : once signal_pool;
  w_groups : once group_pool;
  w_stacks : once stack_pool;
  w_localstores : once (Mutex (list (option ThreadControlBlock)));
  w_heap : gmap nat Completion;
  w_hooked : bool;
  w_uc : option HandlerContext;
}.

Implicit Types (w : world) (t : tls).

Definition set_clock (x : Z) w : world :=
  mkWorld x (w_kernel w) (w_group w) (w_errno w) (w_tcb w) (w_tid w) (w_signalers w)
    (w_signals w) (w_groups w) (w_stacks w) (w_localstores w) (w_heap w) (w_hooked w) (w_uc w).
Definition set_kernel (x : kernel) w : world :=
  mkWorld (w_clock w) x (w_group w) (w_errno w) (w_tcb w) (w_tid w) (w_signalers w)
    (w_signals w) (w_groups w) (w_stacks w) (w_localstores w) (w_heap w) (w_hooked w) (w_uc w).
Definition set_group (x : Group) w : world :=
  mkWorld (w_clock w) (w_kernel w) x (w_errno w) (w_tcb w) (w_tid w) (w_signalers w)
    (w_signals w) (w_groups w) (w_stacks w) (w_localstores w) (w_heap w) (w_hooked w) (w_uc w).
Definition set_errnos (x : gmap (Z * Group) Z) w : world :=
  mkWorld (w_clock w) (w_kernel w) (w_group w) x (w_tcb w) (w_tid w) (w_signalers w)
    (w_signals w) (w_groups w) (w_stacks w) (w_localstores w) (w_heap w) (w_hooked w) (w_uc w).
Definition set_tcb (x : tcb_state tls) w : world :=
  mkWorld (w_clock w) (w_kernel w) (w_group w) (w_errno w) x (w_tid w) (w_signalers w)
    (w_signals w) (w_groups w) (w_stacks w) (w_localstores w) (w_heap w) (w_hooked w) (w_uc w).
Definition set_signalers (x : gmap RealThreadId PreemptionSignal) w : world :=
  mkWorld (w_clock w) (w_kernel w) (w_group w) (w_errno w) (w_tcb w) (w_tid w) x
    (w_signals w) (w_groups w) (w_stacks w) (w_localstores w) (w_heap w) (w_hooked w) (w_uc w).
Definition set_signals (x : once signal_pool) w : world :=
  mkWorld (w_clock w) (w_kernel w) (w_group w) (w_errno w) (w_tcb w) (w_tid w) (w_signalers w)
    x (w_groups w) (w_stacks w) (w_localstores w) (w_heap w) (w_hooked w) (w_uc w).
Definition set_groups (x : once group_pool) w : world :=
  mkWorld (w_clock w) (w_kernel w) (w_group w) (w_errno w) (w_tcb w) (w_tid w) (w_signalers w)
    (w_signals w) x (w_stacks w) (w_localstores w) (w_heap w) (w_hooked w) (w_uc w).
Definition set_stacks (x : once stack_pool) w : world :=
  mkWorld (w_clock w) (w_kernel w) (w_group w) (w_errno w) (w_tcb w) (w_tid w) (w_signalers w)
    (w_signals w) (w_groups w) x (w_localstores w) (w_heap w) (w_hooked w) (w_uc w).
Definition set_localstores (x : once (Mutex (list (option ThreadControlBlock)))) w : world :=
  mkWorld (w_clock w) (w_kernel w) (w_group w) (w_errno w) (w_tcb w) (w_tid w) (w_signalers w)
    (w_signals w) (w_groups w) (w_stacks w) x (w_heap w) (w_hooked w) (w_uc w).
Definition set_heap (x : gmap nat Completion) w : world :=
  mkWorld (w_clock w) (w_kernel w) (w_group w) (w_errno w) (w_tcb w) (w_tid w) (w_signalers w)
    (w_signals w) (w_groups w) (w_stacks w) (w_localstores w) x (w_hooked w) (w_uc w).
Definition set_hooked (x : bool) w : world :=
  mkWorld (w_clock w) (w_kernel w) (w_group w) (w_errno w) (w_tcb w) (w_tid w) (w_signalers w)
    (w_signals w) (w_groups w) (w_stacks w) (w_localstores w) (w_heap w) x (w_uc w).
Definition set_uc (x : option HandlerContext) w : world :=
  mkWorld (w_clock w) (w_kernel w) (w_group w) (w_errno w) (w_tcb w) (w_tid w) (w_signalers w)
    (w_signals w) (w_groups w) (w_stacks w) (w_localstores w) (w_heap w) (w_hooked w) x.

Definition set_SIGNAL (x : option RealThreadId) t : tls :=
  mkTls x (DEFERRED t) (BOOTSTRAP t) (TASK t) (DEADLINE t) (ERRNO_LOCATION t) (tls_destroyed t).
Definition set_DEFERRED (x : bool) t : tls :=
  mkTls (SIGNAL t) x (BOOTSTRAP t) (TASK t) (DEADLINE t) (ERRNO_LOCATION t) (tls_destroyed t).
Definition set_BOOTSTRAP (x : option (nat * Group)) t : tls :=
  mkTls (SIGNAL t) (DEFERRED t) x (TASK t) (DEADLINE t) (ERRNO_LOCATION t) (tls_destroyed t).
Definition set_TASK (x : Task) t : tls :=
  mkTls (SIGNAL t) (DEFERRED t) (BOOTSTRAP t) x (DEADLINE t) (ERRNO_LOCATION t) (tls_destroyed t).
Definition set_DEADLINE (x : Z) t : tls :=
  mkTls (SIGNAL t) (DEFERRED t) (BOOTSTRAP t) (TASK t) x (ERRNO_LOCATION t) (tls_destroyed t).
Definition set_ERRNO_LOCATION (x : option Group) t : tls :=
  mkTls (SIGNAL t) (DEFERRED t) (BOOTSTRAP t) (TASK t) (DEADLINE t) x (tls_destroyed t).

(** The installed thread-control block's variables. *)
Definition cur_tls w : option tls := locals <$> blocks (w_tcb w) !! fs_base (w_tcb w).
Definition put_tls t w : world :=
  set_tcb (set_blocks (alter (fun b => mkBlock (words b) t) (fs_base (w_tcb w))
                         (blocks (w_tcb w))) (w_tcb w)) w.

(** [errno] of a libset, on a thread-control block; 0 until it is first assigned. *)
Definition errno_at w (loc : Z * Group) : Z := default 0 (w_errno w !! loc).

(** ** Interruptible code *)

Inductive prog (A : Type) : Type :=
| PRet (a : A)
| PAct {R : Type} (f : world -> R * world) (k : R -> prog A)
| PPanic (msg : string)
| PAbort (msg : string)
| PUnreachable.

End World.
Arguments PRet {_ A} a.
Arguments PAct {_ A R} f k.
Arguments PPanic {_ A} msg.
Arguments PAbort {_ A} msg.
Arguments PUnreachable {_ A}.

#[export] Instance prog_ret `{Platform} : MRet prog := fun A a => PRet a.
#[export] Instance prog_bind `{Platform} : MBind prog := fun A B f =>
  fix bind (p : prog A) : prog B :=
    match p with
    | PRet a => f a
    | PAct g k => PAct g (fun r => bind (k r))
    | PPanic m => PPanic m
    | PAbort m => PAbort m
    | PUnreachable => PUnreachable
    end.

Section Code.
Context `{Platform}.
Implicit Types (w : world) (t : tls).

(** [std::panic::catch_unwind]. *)
Fixpoint catch_unwind {A} (p : prog A) : prog (result A string) :=
  match p with
  | PRet a => PRet (Ok a)
  | PAct g k => PAct g (fun r => catch_unwind (k r))
  | PPanic m => PRet (Err m)
  | PAbort m => PAbort m
  | PUnreachable => PUnreachable
  end.

(** Code that runs while a panic unwinds: another panic ends the process. *)
Fixpoint no_unwind {A} (p : prog A) : prog A :=
  match p with
  | PRet a => PRet a
  | PAct g k => PAct g (fun r => no_unwind (k r))
  | PPanic m => PAbort m
  | PAbort m => PAbort m
  | PUnreachable => PUnreachable
  end.

(** Destructors in order: when the first one panics the others run all the same. *)
Definition dropping (p q : prog unit) : prog unit :=
  r ← catch_unwind p;
  match r with Ok _ => q | Err m => _ ← no_unwind q; PPanic m end.

(** Run a program without interruptions. *)
Fixpoint exec {A} (p : prog A) : comp world A := fun w =>
  match p with
  | PRet a => (Done a, w)
  | PAct f k => let '(r, w') := f w in exec (k r) w'
  | PPanic m => (Panicked m, w)
  | PAbort m => (Aborted m, w)
  | PUnreachable => (Undefined, w)
  end.

(** One atomic action. *)
Definition act {R} (f : world -> R * world) : prog R := PAct f PRet.
Definition read {R} (f : world -> R) : prog R := act (fun w => (f w, w)).
Definition write (f : world -> world) : prog unit := act (fun w => (tt, f w)).

Definition of_exit {A} (e : exit A) : prog A :=
  match e with
  | Done a => PRet a
  | Panicked m => PPanic m
  | Aborted m => PAbort m
  | Undefined => PUnreachable
  end.

(** [Unfurl::unfurl]: reaching the missing case is undefined behaviour. *)
Definition unfurl {A} (o : option A) : prog A :=
  match o with Some t => mret t | None => PUnreachable end.

(** A call that completes without an interruption point inside, on a part of the world. *)
Definition call {S A} (proj : world -> S) (inj : S -> world -> world) (m : comp S A) : prog A :=
  r ← act (fun w => let '(r, s) := m (proj w) in (r, inj s w)); of_exit r.

Definition syscall {A} (m : comp kernel A) : prog A := call w_kernel set_kernel m.

(** [LocalKey::with]: the thread-local variables of the installed block. *)
Definition with_tls {R} (f : tls -> R * tls) : prog R :=
  o ← act (fun w => match cur_tls w with
                    | Some t => if tls_destroyed t then (Some None, w)
                                else let '(r, t') := f t in (Some (Some r), put_tls t' w)
                    | None => (None, w)
                    end);
  match o with
  | Some (Some r) => PRet r
  | Some None => PPanic "cannot access a Thread Local Storage value during or after destruction"
  | None => PUnreachable
  end.
Definition get_tls {R} (f : tls -> R) : prog R := with_tls (fun t => (f t, t)).
Definition put_local (f : tls -> tls) : prog unit := with_tls (fun t => (tt, f t)).

(** [debug_assert!], and arithmetic on [u64] in either profile. *)
Definition debug_assert (b : bool) (msg : string) : prog unit :=
  if debug_assertions && negb b then PPanic msg else PRet tt.
Definition arith_u64 (x : Z) (msg : string) : prog Z :=
  if x <? U64 then PRet x else if debug_assertions then PPanic msg else PRet (wrap_u64 x).

(** [timetravel::errno::errno()]: the current libset's. *)
Definition errno_loc w : Z * Group := (fs_base (w_tcb w), errno_sel (w_group w)).
Definition errno_get : prog Z := read (fun w => errno_at w (errno_loc w)).
Definition errno_put (e : Z) : prog unit :=
  write (fun w => set_errnos (<[errno_loc w := e]> (w_errno w)) w).

(** libgotcha: the libset that the thread's next dynamic call goes to. *)
Definition group_thread_get : prog Group := read w_group.
Definition group_thread_set (g : Group) : prog unit := write (set_group g).

End Code.

(** ** Running a program, step by step *)

Section CodeFacts.
Context `{Platform}.
Implicit Types (w : world) (t : tls).

Lemma exec_bind {A B} (p : prog A) (f : A -> prog B) w :
  exec (p ≫= f) w = (exec p ≫= fun a => exec (f a)) w.
Proof.
  revert w. induction p as [a|R g k IH|m|m|]; intros w; try done.
  unfold mbind at 2. unfold comp_bind. simpl. destruct (g w) as [r w']. apply IH.
Qed.

Lemma exec_bind_done {A B} (p : prog A) (f : A -> prog B) w a w' :
  exec p w = (Done a, w') -> exec (p ≫= f) w = exec (f a) w'.
Proof. intros Hp. rewrite exec_bind. by erewrite comp_bind_done by exact Hp. Qed.

(** Destructors that do not panic. *)
Lemma exec_catch_done {A} (p : prog A) w a w' :
  exec p w = (Done a, w') -> exec (catch_unwind p) w = (Done (Ok a), w').
Proof.
  revert w. induction p as [a0|R g k IH|m|m|]; intros w Hp; simpl in *; simplify_eq; [done|].
  destruct (g w) as [r w1]. by apply IH.
Qed.
Lemma exec_no_unwind_done {A} (p : prog A) w a w' :
  exec p w = (Done a, w') -> exec (no_unwind p) w = (Done a, w').
Proof.
  revert w. induction p as [a0|R g k IH|m|m|]; intros w Hp; simpl in *; simplify_eq; [done|].
  destruct (g w) as [r w1]. by apply IH.
Qed.
Lemma exec_dropping (p q : prog unit) w w' :
  exec p w = (Done tt, w') -> exec (dropping p q) w = exec q w'.
Proof.
  intros Hp. unfold dropping. by erewrite exec_bind_done by by apply exec_catch_done.
Qed.

Lemma exec_ret {A B} (a : A) (f : A -> prog B) w : exec (mret a ≫= f) w = exec (f a) w.
Proof. done. Qed.

Lemma exec_read {A B} (g : world -> A) (f : A -> prog B) w :
  exec (read g ≫= f) w = exec (f (g w)) w.
Proof. done. Qed.

Lemma exec_write {B} (g : world -> world) (f : unit -> prog B) w :
  exec (write g ≫= f) w = exec (f tt) (g w).
Proof. done. Qed.

Lemma exec_with_tls {A B} (g : tls -> A * tls) (f : A -> prog B) w t :
  cur_tls w = Some t -> tls_destroyed t = false ->
  exec (with_tls g ≫= f) w = exec (f (g t).1) (put_tls (g t).2 w).
Proof.
  intros Ht Hd. simpl. rewrite Ht, Hd. by destruct (g t) as [r t'].
Qed.

(** Thread-local variables, read back. *)
Lemma cur_tls_put t t' w : cur_tls w = Some t -> cur_tls (put_tls t' w) = Some t'.
Proof.
  unfold cur_tls, put_tls. simpl. destruct (blocks _ !! _) as [b|] eqn:Hb; [|done].
  intros _. by rewrite lookup_alter_eq, Hb.
Qed.

Lemma cur_tls_put_eq t' w : cur_tls (put_tls t' w) = (fun _ => t') <$> cur_tls w.
Proof.
  unfold cur_tls, put_tls. simpl. rewrite lookup_alter_eq. by destruct (blocks _ !! _).
Qed.

(** Only [put_tls] and [set_tcb] touch the thread-local variables. *)
Lemma cur_tls_set_clock x w : cur_tls (set_clock x w) = cur_tls w. Proof. done. Qed.
Lemma cur_tls_set_kernel x w : cur_tls (set_kernel x w) = cur_tls w. Proof. done. Qed.
Lemma cur_tls_set_group x w : cur_tls (set_group x w) = cur_tls w. Proof. done. Qed.
Lemma cur_tls_set_errnos x w : cur_tls (set_errnos x w) = cur_tls w. Proof. done. Qed.
Lemma cur_tls_set_heap x w : cur_tls (set_heap x w) = cur_tls w. Proof. done. Qed.
Lemma cur_tls_set_uc x w : cur_tls (set_uc x w) = cur_tls w. Proof. done. Qed.

Lemma put_tls_twice t1 t2 w : put_tls t2 (put_tls t1 w) = put_tls t2 w.
Proof. unfold put_tls, set_tcb, set_blocks. simpl. by rewrite alter_alter_eq. Qed.

Lemma put_tls_same t w : cur_tls w = Some t -> put_tls t w = w.
Proof.
  unfold cur_tls, put_tls. destruct w as [? ? ? ? [fs bl d]]. simpl.
  destruct (bl !! fs) as [[ws l]|] eqn:Hb; [|done]. simpl. intros [= ->].
  unfold set_tcb, set_blocks. simpl. do 2 f_equal. apply alter_id.
  intros x Hx. by simplify_eq.
Qed.

Lemma exec_get_tls {A B} (g : tls -> A) (f : A -> prog B) w t :
  cur_tls w = Some t -> tls_destroyed t = false ->
  exec (get_tls g ≫= f) w = exec (f (g t)) w.
Proof.
  intros Ht Hd. unfold get_tls. erewrite exec_with_tls by done. simpl.
  by rewrite put_tls_same.
Qed.

Lemma exec_put_local {B} (g : tls -> tls) (f : unit -> prog B) w t :
  cur_tls w = Some t -> tls_destroyed t = false ->
  exec (put_local g ≫= f) w = exec (f tt) (put_tls (g t) w).
Proof. intros Ht Hd. unfold put_local. by erewrite exec_with_tls by done. Qed.

Lemma exec_put_local_last (g : tls -> tls) w t :
  cur_tls w = Some t -> tls_destroyed t = false ->
  exec (put_local g) w = (Done tt, put_tls (g t) w).
Proof. intros Ht Hd. simpl. by rewrite Ht, Hd. Qed.

Lemma exec_call {S A B} proj inj (m : comp S A) (f : A -> prog B) w a s :
  m (proj w) = (Done a, s) -> exec (call proj inj m ≫= f) w = exec (f a) (inj s w).
Proof. intros Hm. simpl. by rewrite Hm. Qed.

Lemma exec_debug_assert {B} b msg (f : unit -> prog B) w :
  b = true -> exec (debug_assert b msg ≫= f) w = exec (f tt) w.
Proof. intros ->. unfold debug_assert. by rewrite andb_false_r. Qed.

Lemma arith_u64_small x msg : is_u64 x -> arith_u64 x msg = mret x.
Proof. intros [_ Hx]. unfold arith_u64. by apply Z.ltb_lt in Hx as ->. Qed.

(** Every action of a program is within a relation. *)
Fixpoint steps_in {A} (R : world -> world -> Prop) (p : prog A) : Prop :=
  match p with
  | PAct f k => (forall w, R w (f w).2) /\ forall r, steps_in R (k r)
  | _ => True
  end.

Lemma steps_in_bind {A B} R (p : prog A) (f : A -> prog B) :
  steps_in R p -> (forall a, steps_in R (f a)) -> steps_in R (p ≫= f).
Proof.
  intros Hp Hf. induction p as [x|S g k IH|m|m|]; simpl in *; try done.
  destruct Hp as [Hg Hk]. split; [done|]. intros r. apply IH, Hk.
Qed.

Lemma steps_in_unfurl {A} R (o : option A) : steps_in R (unfurl o).
Proof. by destruct o. Qed.

Lemma steps_in_exec {A} R `{!Reflexive R, !Transitive R} (p : prog A) w :
  steps_in R p -> R w (exec p w).2.
Proof.
  revert w. induction p as [x|S g k IH|m|m|]; simpl; intros w Hp; try done.
  destruct Hp as [Hg Hk]. specialize (Hg w). destruct (g w) as [r w']. simpl in Hg.
  etransitivity; [exact Hg | apply IH, Hk].
Qed.

(** [errno], written back: no location's value changes. *)
Lemma errno_at_restored w loc loc' :
  errno_at (set_errnos (<[loc := errno_at w loc]> (w_errno w)) w) loc' = errno_at w loc'.
Proof.
  unfold errno_at. simpl. destruct (decide (loc = loc')) as [->|].
  - by rewrite lookup_insert_eq.
  - by rewrite lookup_insert_ne.
Qed.
End CodeFacts.

#[export] Hint Resolve steps_in_unfurl : inger.

#[export] Hint Rewrite @cur_tls_put_eq @cur_tls_set_clock @cur_tls_set_kernel
  @cur_tls_set_group @cur_tls_set_errnos @cur_tls_set_heap @cur_tls_set_uc : tls.

(** Compute the thread-local variables of a world built by updates. *)
Ltac tls_now :=
  autorewrite with tls;
  match goal with
  | Ht : cur_tls ?w = Some _ |- context [cur_tls ?w] => rewrite Ht; reflexivity
  end.

(** Run the next action of a program on a world whose thread-local variables are known. *)
Ltac exec_tls :=
  (erewrite exec_with_tls || erewrite exec_get_tls || erewrite exec_put_local);
  [ | tls_now | done ].

(** Two worlds built by the same updates in different orders are equal. *)
Ltac world_eq :=
  repeat match goal with
  | w : world |- _ => let tcb := fresh "tcb" in destruct w as [? ? ? ? tcb ? ? ? ? ? ? ? ? ?];
                      destruct tcb; simpl in *
  end;
  cbv [put_tls set_clock set_kernel set_group set_errnos set_tcb set_signalers set_heap
       set_hooked set_uc set_blocks w_clock w_kernel w_group w_errno w_tcb w_tid w_signalers
       w_signals w_groups w_stacks w_localstores w_heap w_hooked w_uc fs_base blocks dtors_run];
  rewrite ?alter_alter_eq; reflexivity.
