(* ===== verification/Preemption.v ===== *)
(** * Enabling, disabling and deferring preemption

    Models [src/preemption.rs]. *)

From S2P Require Import Prelude Signal Reusable Gotcha Pools Timer Tcb World.

Section Preemption.
Context `{Platform}.
Implicit Types (w : world) (t : tls).

(** [fn thread_signal]: [Err] when no preemption signal is assigned, or during teardown. *)
Definition thread_signal_of w : result Signal unit :=
  match cur_tls w with
  | Some t =>
      if tls_destroyed t then Err tt
      else match SIGNAL t with
           | Some thread =>
               match w_signalers w !! thread with
               | Some ps => ok_or (value (ps_signal ps)) tt
               | None => Err tt
               end
           | None => Err tt
           end
  | None => Err tt
  end.
Definition thread_signal : prog (result Signal unit) := read thread_signal_of.

(** [fn is_preemptible]. *)
Definition is_preemptible : prog bool := g ← group_thread_get; mret (negb (is_shared g)).

(** [fn mask]. *)
Definition mask (un : Operation) (no : Signal) : prog (result unit Z) :=
  r ← syscall (pthread_sigmask un (set_add set_empty no));
  mret (match r with Ok _ => Ok tt | Err e => Err e end).

(** [fn errno_group]: the location of a libset's [errno], remembered for later calls. *)
Definition errno_group (group : option Group) : prog (Z * Group) :=
  o ← with_tls (fun t =>
    match group with
    | Some g => if has_errno_location g then (Some g, set_ERRNO_LOCATION (Some g) t)
                else (None, t)
    | None => (ERRNO_LOCATION t, t)
    end);
  match o with
  | Some g => read (fun w => (fs_base (w_tcb w), g))
  | None => PPanic "called `Option::unwrap()` on a `None` value"
  end.

(** [fn enable_preemption]. *)
Definition enable_preemption (group : option Group) : prog (result (option Signal) unit) :=
  erryes ← errno_group group;
  errno ← errno_get;
  u ← (match group with
       | Some g => _ ← group_thread_set g; s ← thread_signal;
                   mret (match s with Ok s => Ok (Some s) | Err e => Err e end)
       | None => mret (Ok None)
       end : prog (result (option Signal) unit));
  match u with
  | Err e => mret (Err e)
  | Ok unblock =>
      deferred ← with_tls (fun t => (DEFERRED t, set_DEFERRED false t));
      u ← (if deferred : bool then
             s ← thread_signal;
             match s with
             | Err e => mret (Err e)
             | Ok s => let signal := default s unblock in
                       _ ← syscall (pthread_kill signal); mret (Ok (Some signal))
             end
           else mret (Ok unblock));
      match u with
      | Err e => mret (Err e)
      | Ok unblock =>
          _ ← match unblock with
              | Some signal => _ ← mask Unblock signal; mret tt
              | None => mret tt
              end;
          _ ← (if is_none group && negb (errno =? 0)
               then write (fun w => set_errnos (<[erryes := errno]> (w_errno w)) w)
               else mret tt);
          mret (Ok unblock)
      end
  end.

(** [fn resume_preemption], the hook that libgotcha calls after a nonpreemptible call. *)
Definition resume_preemption : prog unit := _ ← enable_preemption None; mret tt.

(** [fn disable_preemption]. *)
Definition disable_preemption (block : option Signal) : prog unit :=
  _ ← group_thread_set SHARED;
  _ ← match block with
      | Some signal => _ ← mask Block signal; mret tt
      | None => mret tt
      end;
  _ ← put_local (set_SIGNAL None);
  put_local (set_DEFERRED false).

(** [fn defer_preemption]: beneath a signal handler, [signum] is the mask of the interrupted
    context and the signal to add to it. *)
Definition defer_preemption (signum : option Signal) : prog unit :=
  p ← is_preemptible;
  _ ← debug_assert (negb p) "assertion failed: ! is_preemptible()";
  _ ← match signum with
      | Some signo => write (fun w => set_uc ((fun uc =>
          mkHandlerContext (set_add (uc_sigmask uc) signo) (uc_code uc)) <$> w_uc w) w)
      | None => s ← thread_signal;
                match s with
                | Ok s => _ ← mask Block s; mret tt
                | Err _ => PPanic "called `Result::unwrap()` on an `Err` value"
                end
      end;
  put_local (set_DEFERRED true).

(** ** Per-thread setup *)

(** [RealThreadId::current]. *)
Definition RealThreadId_current : prog RealThreadId := read w_tid.

(** What [PreemptionSignal] works on: the signal pool and the kernel. *)
Definition ps_state : Type := once signal_pool * kernel.

Definition on_signals {A} (m : comp (once signal_pool) A) : comp ps_state A :=
  zoom fst (fun p s => (p, snd s)) m.
Definition on_kernel {A} (m : comp kernel A) : comp ps_state A :=
  zoom snd (fun k s => (fst s, k)) m.

(** Multiplication of two [i64] in either profile. *)
Definition mul_i64 {S} (x y : Z) : comp S Z :=
  if (- I64 <=? x * y) && (x * y <? I64) then mret (x * y)
  else if debug_assertions then panic "attempt to multiply with overflow"
  else mret (as_i64 (x * y)).

(** The steps of [PreemptionSignal::new] after the signal is assigned.  The two products are the
    same: the first one panics if the second one would. *)
Definition ps_configure (signal : Signal) (handler quantum : Z) : comp kernel (result Timer Z) :=
  let sa := Sigaction_new handler set_empty (Z.lor SA_SIGINFO SA_RESTART) in
  _ ←? sigaction signal (ASigaction sa);
  _ ←? pthread_sigmask Block (set_add set_empty signal);
  let se := Sigevent_signal signal in
  timer ←? timer_create Real se;
  let quantum := as_i64 quantum in
  interval ← mul_i64 quantum 1000;
  value ← mul_i64 quantum 1000;
  _ ←? timer_settime timer false {|
    it_interval := {| tv_sec := 0; tv_nsec := interval |};
    it_value := {| tv_sec := 0; tv_nsec := value |};
  |};
  mret (Ok timer).

(** [PreemptionSignal::new]; an error or a panic drops the assigned signal on the way out. *)
Definition PreemptionSignal_new (handler quantum : Z) : comp ps_state (result PreemptionSignal Z) :=
  r ← on_signals assign_signal;
  signal ← expect_ok r "libinger: no available signal for preempting this thread";
  s ← deref signal;
  t ← unwinding (on_signals (with_static (Reusable_drop signal)))
        (on_kernel (ps_configure s handler quantum));
  match t with
  | Ok timer => mret (Ok (mkPS signal timer))
  | Err e => _ ← on_signals (with_static (Reusable_drop signal)); mret (Err e)
  end.

(** [impl Drop for PreemptionSignal]; failures are only reported.  The field [signal] is dropped
    afterwards. *)
Definition PreemptionSignal_drop (ps : PreemptionSignal) : comp ps_state unit :=
  _ ← on_kernel (timer_delete (ps_timer ps));
  s ← deref (ps_signal ps);
  _ ← on_kernel (sigaction s AUnit);
  on_signals (with_static (Reusable_drop (ps_signal ps))).

(** [fn thread_setup]. *)
Definition thread_setup (thread : RealThreadId) (handler quantum : Z) : prog (result unit Z) :=
  have ← read (fun w => is_some (w_signalers w !! thread));
  r ← (if have : bool then mret (Ok tt)
       else
         r ← call (fun w => (w_signals w, w_kernel w))
               (fun s w => set_kernel (snd s) (set_signals (fst s) w))
               (PreemptionSignal_new handler quantum);
         match r with
         | Ok ps => _ ← write (fun w => set_signalers (<[thread := ps]> (w_signalers w)) w);
                    mret (Ok tt)
         | Err e => mret (Err e)
         end);
  match r with
  | Err e => mret (Err e)
  | Ok _ =>
      _ ← put_local (set_SIGNAL (Some thread));
      _ ← write (set_hooked true);
      mret (Ok tt)
  end.

End Preemption.
