(* ===== verification/Linger.v ===== *)
(** * Preemptible functions

    Models [src/linger.rs].  [schedule], the preemptible function and the signal handler
    [preempt] are interruptible programs; [launch], [resume] and the code around the context
    switch run on the caller's stack, with the thread's preemption signal blocked. *)

From S2P Require Import Prelude Signal Reusable Gotcha Pools Timer Tcb World Preemption.

Section Linger.
Context `{Platform}.
Implicit Types (w : world) (t : tls).

(** ** Time *)

(** [fn nsnow]: [SystemTime::now()] as seconds and nanoseconds since the epoch, recombined. *)
Definition nsnow : prog Z :=
  now ← read w_clock;
  if now <? 0 then PPanic "libinger: wall clock error"
  else
    let subsec := now mod 1000000000 in
    let secs := now / 1000000000 in
    m ← arith_u64 (secs * 1000000000) "attempt to multiply with overflow";
    arith_u64 (subsec + m) "attempt to add with overflow".

(** [fn stamp]. *)
Definition stamp : prog unit :=
  d ← get_tls DEADLINE;
  d' ← match checked_mul d 1000 with
       | Some timeout => now ← nsnow; arith_u64 (now + timeout) "attempt to add with overflow"
       | None => mret d
       end;
  put_local (set_DEADLINE d').

(** [fn pause]. *)
Definition pause : prog unit :=
  _ ← put_local (set_DEADLINE 0);
  defer_preemption None.

(** ** The preemptible function *)

(** A call into a nonpreemptible library: libgotcha switches to the shared libset for its
    duration, and on return switches back and runs the hook in the function's libset. *)
Definition shared_call {A} (body : prog A) : prog A :=
  g ← group_thread_get;
  _ ← group_thread_set SHARED;
  r ← body;
  _ ← group_thread_set g;
  hooked ← read w_hooked;
  _ ← (if hooked : bool then resume_preemption else mret tt);
  mret r.

Fixpoint steps (n : nat) : prog unit :=
  match n with O => mret tt | S n => _ ← write id; steps n end.

Fixpoint compile (u : ucode) : prog Z :=
  match u with
  | URet v => mret v
  | UPanic m => PPanic m
  | UStep k => _ ← write id; compile k
  | USetErrno e k => _ ← errno_put e; compile k
  | UGetErrno k => e ← errno_get; compile (k e)
  | UShared n k => _ ← shared_call (steps n); compile k
  | UPause k => _ ← shared_call pause; compile k
  end.

(** The closure that [launch] boxes, called through a pointer.  [ret] says whether a place for
    the return value was passed; the result is what was stored there. *)
Definition closure_call (p : nat) (ret : bool) : prog (option ThdResult) :=
  taken ← act (fun w => (w_heap w !! p, set_heap (<[p := Empty]> (w_heap w)) w));
  match taken with
  | Some (Function f) =>
      r ← catch_unwind (compile f);
      _ ← write (fun w => set_heap (<[p := Return r]> (w_heap w)) w);
      mret None
  | Some (Return val) =>
      if ret then mret (Some val) else PUnreachable
  | Some Empty => mret None
  | None => PUnreachable
  end.

(** The part of [fn schedule] that calls the function: closure [f], in libset [group]. *)
Definition call_function (f : nat) (group : Group) : prog unit :=
  r ← enable_preemption (Some group);
  match r with
  | Ok signal =>
      _ ← debug_assert (is_some signal) "assertion failed: signal.is_some()";
      _ ← closure_call f false;
      _ ← disable_preemption signal;
      e ← get_tls (fun t => errno (TASK t));
      debug_assert (is_none e) "schedule(): finished leaving errno"
  | Err _ => PAbort "schedule(): error accessing TLS variable"
  end.

(** [fn schedule]. *)
Definition schedule : prog unit :=
  b ← with_tls (fun t => (BOOTSTRAP t, set_BOOTSTRAP None t));
  match b with
  | None => PAbort "schedule(): called without bootstrapping"
  | Some (f, group) => _ ← stamp; call_function f group
  end.

(** ** The signal handler *)

(** [timetravel::Swap::swap] of the task's checkpoint with the handler's context. *)
Definition swap_checkpoint : prog unit :=
  ok ← act (fun w =>
    match cur_tls w, w_uc w with
    | Some t, Some uc =>
        match checkpoint (TASK t) with
        | Some c =>
            let c' := mkContext (cx_stack c) (uc_sigmask uc) (uc_code uc) in
            let uc' := mkHandlerContext (cx_mask c) (cx_code c) in
            (Some tt, set_uc (Some uc')
                     (put_tls (set_TASK (mkTask (errno (TASK t)) (Some c') (yielded (TASK t))) t) w))
        | None => (None, w)
        end
    | _, _ => (None, w)
    end);
  unfurl ok.

Definition uc_mask_add (no : Signal) : prog unit :=
  write (fun w => set_uc ((fun uc =>
    mkHandlerContext (set_add (uc_sigmask uc) no) (uc_code uc)) <$> w_uc w) w).

(** [fn preempt].  The interrupted context is the world's [w_uc].  What the calls below do to [errno]
    is done at once. *)
Definition preempt (no : Signal) : prog unit :=
  erryes ← errno_get;
  uc ← read w_uc;
  _ ← unfurl uc;
  _ ← errno_put (handler_errno erryes);
  s ← thread_signal;
  let relevant := match s with Ok signal => signal_eq no signal | Err _ => false end in
  p ← (if relevant then is_preemptible else mret false);
  if relevant && p then
    deadline ← get_tls DEADLINE;
    now ← nsnow;
    if deadline <=? now then
      _ ← put_local (fun t =>
            set_TASK (mkTask (errno (TASK t)) (checkpoint (TASK t)) (deadline =? 0)) t);
      _ ← swap_checkpoint;
      _ ← put_local (fun t =>
            set_TASK (mkTask (Some erryes) (checkpoint (TASK t)) (yielded (TASK t))) t);
      _ ← uc_mask_add no;
      disable_preemption None
    else errno_put erryes
  else
    _ ← (if relevant then defer_preemption (Some no) else uc_mask_add no);
    errno_put erryes.

(** ** Signal delivery and interleaved execution *)

(** What happens between two actions: the clock moves and signals arrive. *)
Record tick : Set := mkTick { dt : Z; raised : list Signal }.

Definition arrive w (s : Signal) : world :=
  set_kernel (set_pending (raise_pending (c_int s) (k_pending (w_kernel w))) (w_kernel w)) w.
Definition advance (e : tick) w : world :=
  foldl arrive (set_clock (w_clock w + dt e) w) (raised e).

(** Deliver one signal to [preempt]: the kernel blocks it while the handler runs, and afterwards
    continues whatever context the handler leaves behind.  [true] means the call site. *)
Definition deliver (s : Signal) : comp world bool := fun w =>
  let k := w_kernel w in
  let k' := set_mask (set_add (k_mask k) s)
              (set_pending (filter (fun n => n <> c_int s) (k_pending k)) k) in
  match exec (preempt s)
          (set_uc (Some (mkHandlerContext (k_mask k) Interrupted)) (set_kernel k' w)) with
  | (Done tt, w') =>
      match w_uc w' with
      | Some uc =>
          let w'' := set_uc None (set_kernel (set_mask (uc_sigmask uc) (w_kernel w')) w') in
          match uc_code uc with
          | Interrupted => (Done false, w'')
          | CallSite => (Done true, w'')
          | Saved _ => (Undefined, w'')
          end
      | None => (Undefined, w')
      end
  | (Panicked m, w') => (Aborted m, w')
  | (Aborted m, w') => (Aborted m, w')
  | (Undefined, w') => (Undefined, w')
  end.

(** A signal is delivered when it is pending, not blocked, and handled by [preempt]. *)
Definition handled (k : kernel) (s : Signal) : bool :=
  match k_actions k !! c_int s with
  | Some sa => sa_sigaction_field sa =? preempt_addr
  | None => false
  end.
Definition deliverable (k : kernel) (s : Signal) : bool :=
  pending k s && negb (blocked k s) && handled k s.

(** Deliver what can be delivered; stop if a handler leaves for the call site. *)
Fixpoint deliver_all (l : list Signal) : comp world bool :=
  match l with
  | [] => mret false
  | s :: l' =>
      d ← gets (fun w => deliverable (w_kernel w) s);
      gone ← (if d : bool then deliver s else mret false);
      if gone : bool then mret true else deliver_all l'
  end.

(** The next events, then delivery. *)
Definition interrupt (env : list tick) (w : world) : (exit bool * world) * list tick :=
  match env with
  | [] => (deliver_all NOTIFICATION_SIGNALS w, [])
  | e :: env' => (deliver_all NOTIFICATION_SIGNALS (advance e w), env')
  end.

(** How the code on the oneshot stack stops running. *)
Inductive stopped (A : Type) : Type :=
| Finished (a : A)
| Paused (rest : prog A)
| Crashed (e : exit A).
Arguments Finished {A} a.
Arguments Paused {A} rest.
Arguments Crashed {A} e.

Definition crash {A B} (e : exit A) : stopped B :=
  match e with
  | Done _ => Crashed Undefined
  | Panicked m => Crashed (Panicked m)
  | Aborted m => Crashed (Aborted m)
  | Undefined => Crashed Undefined
  end.

(** Run a program on the oneshot stack, with an interruption point before every action and before
    the end. *)
Fixpoint run {A} (p : prog A) (env : list tick) (w : world) : stopped A * world * list tick :=
  match interrupt env w with
  | ((Done true, w'), env') => (Paused p, w', env')
  | ((Done false, w'), env') =>
      match p with
      | PRet a => (Finished a, w', env')
      | PAct f k => let '(r, w'') := f w' in run (k r) env' w''
      | PPanic m => (Crashed (Panicked m), w', env')
      | PAbort m => (Crashed (Aborted m), w', env')
      | PUnreachable => (Crashed Undefined, w', env')
      end
  | ((e, w'), env') => (crash e, w', env')
  end.

(** ** Code on the caller's stack *)

(** [struct Continuation]: the boxed closure, the task, the libset, the thread-control block. *)
Record Continuation : Type := mkContinuation {
  functional : nat;
  stateful : Task;
  group : Reusable Group;
  tls_block : Reusable (option ThreadControlBlock);
}.

(** [enum Linger]. *)
Inductive Linger : Type :=
| LCompletion (v : Z)
| LContinuation (c : Continuation)
| LPoison.

Definition is_completion (l : Linger) : bool :=
  match l with LCompletion _ => true | _ => false end.
Definition is_continuation (l : Linger) : bool :=
  match l with LContinuation _ => true | _ => false end.
Definition Linger_yielded (l : Linger) : bool :=
  match l with LContinuation c => yielded (stateful c) | _ => false end.

(** [Linger::erase]: every field is read out and put into an instance of the erased type. *)
Definition erase (l : Linger) : Linger :=
  match l with
  | LCompletion v => LCompletion v
  | LContinuation c =>
      LContinuation (mkContinuation (functional c) (stateful c) (group c) (tls_block c))
  | LPoison => LPoison
  end.

(** The machine: the world, the computations set aside by context switches, the events to come,
    and the [Linger]s that client code owns, by address. *)
Record machine : Type := mkMachine {
  m_world : world;
  m_saved : gmap nat (prog unit);
  m_env : list tick;
  m_lingers : gmap nat Linger;
}.

Definition set_world (w : world) (m : machine) : machine :=
  mkMachine w (m_saved m) (m_env m) (m_lingers m).
Definition set_saved (s : gmap nat (prog unit)) (m : machine) : machine :=
  mkMachine (m_world m) s (m_env m) (m_lingers m).
Definition set_env (e : list tick) (m : machine) : machine :=
  mkMachine (m_world m) (m_saved m) e (m_lingers m).
Definition set_lingers (l : gmap nat Linger) (m : machine) : machine :=
  mkMachine (m_world m) (m_saved m) (m_env m) l.

(** Time passes and signals become pending; none is delivered to code on the caller's stack. *)
Definition main_tick : comp machine unit := fun m =>
  match m_env m with
  | [] => (Done tt, m)
  | e :: env => (Done tt, set_env env (set_world (advance e (m_world m)) m))
  end.

Definition main {A} (p : prog A) : comp machine A :=
  _ ← main_tick; zoom m_world set_world (exec p).

(** The continuation behind a [&mut Linger]. *)
Definition update_continuation (id : nat) (f : Continuation -> Continuation) : comp machine unit :=
  modify (fun m => set_lingers
    (alter (fun l => match l with LContinuation c => LContinuation (f c) | l => l end) id
       (m_lingers m)) m).
Definition set_stateful (x : Task) (c : Continuation) : Continuation :=
  mkContinuation (functional c) x (group c) (tls_block c).
Definition set_tls_block (x : Reusable (option ThreadControlBlock)) (c : Continuation)
  : Continuation := mkContinuation (functional c) (stateful c) (group c) x.

(** Destructors of what a continuation owns. *)
Definition drop_context (c : Context) : prog unit :=
  call w_stacks set_stacks (with_static (Reusable_drop (cx_stack c))).
Definition drop_task (t : Task) : prog unit :=
  match checkpoint t with Some c => drop_context c | None => mret tt end.
Definition drop_group (g : Reusable Group) : prog unit :=
  call w_groups set_groups (with_static (Reusable_drop g)).
Definition localstore_return (r : Reusable (option ThreadControlBlock))
  : comp (once (Mutex (list (option ThreadControlBlock)))) unit :=
  with_static (fun c =>
    let '(e, p) := Reusable_drop r (mkPool c tt) in (e, allocated p)).
Definition drop_localstore (r : Reusable (option ThreadControlBlock)) : prog unit :=
  call w_localstores set_localstores (localstore_return r).

(** [impl Drop for Continuation], then the fields in order: the boxed closure, the task, the
    group, the thread-control block. *)
Definition drop_fields (c : Continuation) : prog unit :=
  dropping (write (fun w => set_heap (delete (functional c) (w_heap w)) w))
    (dropping (drop_task (stateful c))
       (dropping (drop_group (group c)) (drop_localstore (tls_block c)))).

Definition drop_continuation (c : Continuation) : prog unit :=
  p ← is_preemptible;
  if debug_assertions && p then
    _ ← no_unwind (drop_fields c); PPanic "libinger: dropped from preemptible function"
  else if is_some (errno (stateful c)) then
    g ← of_exit (fst (deref (group c) tt));
    if Group_renew g then drop_fields c
    else _ ← no_unwind (drop_fields c); PPanic "libinger: failed to reinitialize library group"
  else drop_fields c.

Definition drop_linger (l : Linger) : prog unit :=
  match l with LContinuation c => drop_continuation c | _ => mret tt end.

(** [*fun = new]: the old value is dropped first. *)
Definition assign_linger (id : nat) (new : Linger) : comp machine unit :=
  old ← gets (fun m => m_lingers m !! id);
  _ ← modify (fun m => set_lingers (<[id := new]> (m_lingers m)) m);
  match old with Some l => main (drop_linger l) | None => mret tt end.

(** [fn setup_thread]. *)
Definition setup_thread (thread : RealThreadId) : prog (result unit Z) :=
  thread_setup thread preempt_addr QUANTUM_MICROSECS.

(** [timetravel::makecontext] followed by [fn setup_stack]: the new context runs [schedule]. *)
Definition setup_stack : comp machine (result (option Context) Z) :=
  st ← main (call w_stacks set_stacks alloc_stack);
  m ← get;
  match makecontext_err (w_clock (m_world m)) with
  | Some e => _ ← main (call w_stacks set_stacks (with_static (Reusable_drop st)));
              mret (Err e)
  | None =>
      let n := fresh (dom (m_saved m)) in
      _ ← put (set_saved (<[n := schedule]> (m_saved m)) m);
      mret (Ok (Some (mkContext st (k_mask (w_kernel (m_world m))) (Saved n))))
  end.

(** The task's checkpoint in the thread-local variable. *)
Definition put_checkpoint (c : Context) : prog unit :=
  put_local (fun t => set_TASK (mkTask (errno (TASK t)) (Some c) (yielded (TASK t))) t).

(** [timetravel::sigsetcontext] of the context in [TASK]: jump into it with its signal mask,
    leaving the call site's context in its place.  [None] says that control came back to the call
    site of [restorecontext]; [Some e] that the call returned [e]. *)
Definition sigsetcontext : comp machine (option (option Z)) :=
  m ← get;
  match sigsetcontext_err (w_clock (m_world m)) with
  | Some e => mret (Some e)
  | None =>
      cx ← main (get_tls (fun t => checkpoint (TASK t)));
      match cx with
      | Some (mkContext st msk (Saved n)) =>
          m ← get;
          match m_saved m !! n with
          | None => mret (Some None)
          | Some body =>
              let home := k_mask (w_kernel (m_world m)) in
              _ ← main (put_checkpoint (mkContext st home CallSite));
              _ ← modify (fun m => set_saved (delete n (m_saved m)) m);
              _ ← modify (fun m => set_world
                    (set_kernel (set_mask msk (w_kernel (m_world m))) (m_world m)) m);
              m ← get;
              let '(r, w, env) := run body (m_env m) (m_world m) in
              _ ← put (set_env env (set_world w m));
              match r with
              | Finished _ =>
                  _ ← (if link_restores_mask
                       then modify (fun m => set_world (set_kernel
                              (set_mask home (w_kernel (m_world m))) (m_world m)) m)
                       else mret tt);
                  mret None
              | Paused rest =>
                  let n' := fresh (dom (m_saved m)) in
                  _ ← modify (fun m => set_saved (<[n' := rest]> (m_saved m)) m);
                  _ ← main (put_local (fun t => set_TASK (mkTask (errno (TASK t))
                        ((fun c => mkContext (cx_stack c) (cx_mask c) (Saved n'))
                           <$> checkpoint (TASK t)) (yielded (TASK t))) t));
                  mret None
              | Crashed (Aborted msg) => abort_process msg
              | Crashed _ => fun m => (Undefined, m)
              end
          end
      | _ => mret (Some None)
      end
  end.

(** The closure that [switch_stack] passes to [restorecontext]; the result is the [error] it
    leaves. *)
Definition switch_scope (task_errno : option Z) (group : Group) (pause : Context)
  : comp machine (option Z) :=
  dropped ← main (with_tls (fun t =>
    match checkpoint (TASK t) with
    | Some _ => (Some pause, t)
    | None => (None, set_TASK (mkTask (errno (TASK t)) (Some pause) (yielded (TASK t))) t)
    end));
  _ ← match dropped with
      | Some c => _ ← main (drop_context c);
                  main (debug_assert false "switch_stack(): this continuation would nest?!")
      | None => mret tt
      end;
  error ← match task_errno with
    | None => mret None
    | Some erryes =>
        s ← main thread_signal;
        match s with
        | Err _ => abort_process "switch_stack(): error accessing TLS variable"
        | Ok sig =>
            r ← main (syscall (pthread_sigmask Block (set_add set_empty sig)));
            let old := match r with Ok old => old | Err _ => set_empty end in
            let error := match r with Ok _ => None | Err e => Some e end in
            _ ← main (put_local (fun t => set_TASK (mkTask (errno (TASK t))
                  ((fun c => mkContext (cx_stack c) (set_del old sig) (cx_code c))
                     <$> checkpoint (TASK t)) (yielded (TASK t))) t));
            _ ← main stamp;
            _ ← main (group_thread_set group);
            _ ← main (errno_put erryes);
            mret error
        end
    end;
  failure ← sigsetcontext;
  match failure with
  | None => mret error
  | Some f => e ← expect f "resume(): continuation is invalid"; mret (Some e)
  end.

(** [timetravel::restorecontext] followed by the rest of [fn switch_stack]. *)
Definition switch_stack (id : nat) (task : Task) (group : Group) : comp machine (result bool Z) :=
  c ← expect (checkpoint task) "switch_stack(): continuation is missing";
  _ ← update_continuation id (set_stateful (mkTask (errno task) None (yielded task)));
  m ← get;
  match restorecontext_err (w_clock (m_world m)) with
  | Some e => _ ← main (drop_context c); mret (Err e)
  | None =>
      error ← switch_scope (errno task) group c;
      match error with
      | Some e => mret (Err e)
      | None =>
          descheduled ← main (with_tls (fun t => (TASK t, set_TASK Task_default t)));
          if is_some (errno descheduled) then
            _ ← update_continuation id (set_stateful descheduled);
            mret (Ok false)
          else
            _ ← update_continuation id (set_stateful (mkTask None None (yielded task)));
            _ ← main (drop_task descheduled);
            mret (Ok true)
      end
  end.

(** The part of [fn resume] that runs with the virtual thread-control block installed. *)
Definition resume_installed (id : nat) (c : Continuation) (thread : RealThreadId) (group : Group)
    (us : Z) : comp machine (result bool Z) :=
  r ← main (setup_thread thread);
  _ ← match r with
      | Ok _ => mret tt
      | Err _ => abort_process "resume(): failure in thread_setup()"
      end;
  let task := stateful c in
  task ←? (if is_none (errno task) then
             cx ←? setup_stack;
             let task := mkTask (errno task) cx (yielded task) in
             _ ← update_continuation id (set_stateful task);
             no_fun ← main (with_tls (fun t =>
               (BOOTSTRAP t, set_BOOTSTRAP (Some (functional c, group)) t)));
             _ ← main (debug_assert (is_none no_fun)
                   "resume(): bootstraps without an intervening schedule()");
             mret (Ok task)
           else mret (Ok task));
  _ ← main (put_local (set_DEADLINE us));
  switch_stack id task group.

Definition on_tcb {A} (m : comp (tcb_state tls) A) : prog A := call w_tcb set_tcb m.

(** The guard's destructor runs on every exit but the one through [uninstall]. *)
Definition with_guard (guard : ThreadControlBlockGuard) (m : comp machine (result bool Z))
  : comp machine (result bool Z) :=
  r ← unwinding (main (on_tcb (guard_drop guard))) m;
  match r with
  | Ok b => mret (Ok b)
  | Err e => _ ← main (on_tcb (guard_drop guard)); mret (Err e)
  end.

(** [fn resume]. *)
Definition resume (id : nat) (us : Z) : comp machine (result unit Z) :=
  p ← main is_preemptible;
  _ ← main (debug_assert (negb p) "resume(): called from preemptible function");
  l ← gets (fun m => m_lingers m !! id);
  match l with
  | Some (LContinuation c) =>
      g ← deref (group c);
      thread ← main RealThreadId_current;
      t ← deref (tls_block c);
      _ ← update_continuation id (set_tls_block (mkReusable (Some None)));
      t ← expect t "libinger: continuation with missing TCB";
      guard ←? main (on_tcb (install t g));
      finished ←? with_guard guard (resume_installed id c thread g us);
      t ←? main (on_tcb (uninstall guard));
      _ ← update_continuation id (set_tls_block (mkReusable (Some (Some t))));
      if finished : bool then
        retval ← main (closure_call (functional c) true);
        v ← expect retval "resume(): return value was already retrieved";
        match v with
        | Ok v => _ ← assign_linger id (LCompletion v); mret (Ok tt)
        | Err msg => _ ← assign_linger id LPoison; panic msg
        end
      else mret (Ok tt)
  | _ => mret (Ok tt)
  end.

(** Client code lets go of a [Linger]. *)
Definition forget_linger (id : nat) : comp machine unit :=
  l ← gets (fun m => m_lingers m !! id);
  _ ← modify (fun m => set_lingers (delete id (m_lingers m)) m);
  match l with Some l => main (drop_linger l) | None => mret tt end.

(** [fn launch]: the new [Linger] is at the returned address. *)
Definition launch (fun_ : ucode) (us : Z) : comp machine (result nat Z) :=
  p ← main is_preemptible;
  _ ← main (debug_assert (negb p) "launch(): called from preemptible function");
  f ← main (act (fun w => let p := fresh (dom (w_heap w)) in
                          (p, set_heap (<[p := Function fun_]> (w_heap w)) w)));
  let free := main (write (fun w => set_heap (delete f (w_heap w)) w)) in
  g ← unwinding free (main (call w_groups set_groups
        (r ← assign_group; expect_ok r "launch(): too many active timed functions")));
  t ← unwinding (_ ← free; main (drop_group g))
        (main (call (fun w => (w_localstores w, w_tcb w))
                 (fun s w => set_tcb (snd s) (set_localstores (fst s) w))
                 (alloc_localstore tls0)));
  m ← get;
  let id := fresh (dom (m_lingers m)) in
  _ ← put (set_lingers (<[id := LContinuation (mkContinuation f Task_default g t)]>
                          (m_lingers m)) m);
  if negb (us =? 0) then
    r ← unwinding (forget_linger id) (resume id us);
    match r with
    | Ok _ => mret (Ok id)
    | Err e => _ ← forget_linger id; mret (Err e)
    end
  else mret (Ok id).

End Linger.

Arguments Finished {_ A} a.
Arguments Paused {_ A} rest.
Arguments Crashed {_ A} e.
