(* ===== verification/Handler.v ===== *)
(** * What the signal handler does

    The functional behaviour of [preempt] on each of its branches, of [stamp], [pause] and the
    functions of preemption.rs that it is built from, when they run without interruption. *)

From S2P Require Import Prelude Signal Linux Reusable Gotcha Pools Timer Tcb World Preemption.
From S2P Require Import Linger.

Section Handler.
Context `{PlatformLaws}.
Implicit Types (w : world) (t : tls).

(** The installed block's variables are alive. *)
Definition alive w t : Prop := cur_tls w = Some t /\ tls_destroyed t = false.

Lemma alive_put w t t' : alive w t -> tls_destroyed t' = false -> alive (put_tls t' w) t'.
Proof. intros [Ht _] Hd. split; [by eapply cur_tls_put | done]. Qed.

Lemma exec_nsnow {B} (f : Z -> prog B) w :
  is_u64 (w_clock w) -> exec (nsnow ≫= f) w = exec (f (w_clock w)) w.
Proof.
  intros Hc. unfold is_u64 in Hc. apply exec_bind_done. unfold nsnow. rewrite exec_read.
  destruct (Z.ltb_spec (w_clock w) 0); [lia|].
  pose proof (Z.div_mod (w_clock w) 1000000000 ltac:(done)) as Hdm.
  pose proof (Z.mod_pos_bound (w_clock w) 1000000000 ltac:(done)) as Hmod.
  rewrite arith_u64_small by (unfold is_u64; lia). rewrite exec_ret.
  rewrite arith_u64_small by (unfold is_u64; lia). simpl. do 2 f_equal. lia.
Qed.

Lemma exec_is_preemptible {B} (f : bool -> prog B) w :
  exec (is_preemptible ≫= f) w = exec (f (negb (is_shared (w_group w)))) w.
Proof. done. Qed.

Lemma is_shared_true g : is_shared g = true <-> g = SHARED.
Proof. unfold is_shared. apply bool_decide_eq_true. Qed.
Lemma is_shared_false g : is_shared g = false <-> g <> SHARED.
Proof. unfold is_shared. apply bool_decide_eq_false. Qed.

(** The variables that [disable_preemption] resets. *)
Definition disabled t : tls := set_DEFERRED false (set_SIGNAL None t).

(** Beneath the handler, the signal is not masked. *)
Lemma disable_preemption_none w t :
  alive w t ->
  exec (disable_preemption None) w = (Done tt, put_tls (disabled t) (set_group SHARED w)).
Proof.
  intros [Ht Hd]. unfold disable_preemption, group_thread_set.
  rewrite exec_write, exec_ret.
  rewrite (exec_put_local _ _ _ t) by done.
  erewrite exec_put_local_last; [|by eapply cur_tls_put | done].
  by rewrite put_tls_twice.
Qed.

(** What the handler's own calls do to [errno], and the end of the handler when it puts back what was
    there. *)
Definition clobbered w : world :=
  set_errnos (<[errno_loc w := handler_errno (errno_at w (errno_loc w))]> (w_errno w)) w.
Lemma clobbered_errno x w :
  <[errno_loc w := x]> (w_errno (clobbered w)) = <[errno_loc w := x]> (w_errno w).
Proof. apply insert_insert_eq. Qed.

(** The state in which the kernel starts the handler, and the one it leaves on a timeout. *)
Definition paused_task w t (c : Context) (uc : HandlerContext) : Task :=
  mkTask (Some (errno_at w (errno_loc w)))
    (Some (mkContext (cx_stack c) (uc_sigmask uc) (uc_code uc))) (DEADLINE t =? 0).

Ltac enter_handler Huc :=
  lazymatch type of Huc with w_uc ?w = _ =>
    rewrite !exec_read, Huc; cbn [unfurl]; rewrite exec_ret, exec_write; fold (clobbered w);
    rewrite exec_read; set (w1 := clobbered w)
  end.

Lemma exec_preempt_due w s t c uc :
  alive w t -> thread_signal_of w = Ok s -> w_group w <> SHARED ->
  is_u64 (w_clock w) -> DEADLINE t <= w_clock w ->
  checkpoint (TASK t) = Some c -> w_uc w = Some uc ->
  exec (preempt s) w =
    (Done tt,
     put_tls (disabled (set_TASK (paused_task w t c uc) t))
       (set_group SHARED
          (set_uc (Some (mkHandlerContext (set_add (cx_mask c) s) (cx_code c))) (clobbered w)))).
Proof.
  intros [Ht Hd] Hs Hg Hc Hdl Hcp Huc. unfold preempt, errno_get, errno_put, thread_signal.
  enter_handler Huc. rewrite (eq_refl : thread_signal_of w1 = thread_signal_of w), Hs, signal_eq_refl.
  rewrite exec_is_preemptible, (eq_refl : w_group w1 = w_group w).
  apply is_shared_false in Hg. rewrite Hg. simpl andb. cbv iota.
  assert (cur_tls w1 = Some t) as Ht1 by exact Ht. assert (w_uc w1 = Some uc) as Huc1 by exact Huc.
  assert (w_clock w1 = w_clock w) as Hc1 by reflexivity. rewrite <- Hc1 in Hc, Hdl. clearbody w1.
  rewrite (exec_get_tls _ _ w1 t) by done. rewrite exec_nsnow by done.
  apply Z.leb_le in Hdl. rewrite Hdl.
  rewrite (exec_put_local _ _ _ t) by done.
  erewrite exec_bind_done; last first.
  { unfold swap_checkpoint. simpl. autorewrite with tls.
    rewrite Ht1, Huc1. simpl. rewrite Hcp. reflexivity. }
  exec_tls. unfold uc_mask_add. rewrite exec_write.
  erewrite disable_preemption_none; [| split; [tls_now | done]].
  f_equal. world_eq.
Qed.

(** Before the deadline the handler does nothing but write [errno] back. *)
Lemma exec_preempt_early w s t uc :
  alive w t -> thread_signal_of w = Ok s -> w_group w <> SHARED ->
  is_u64 (w_clock w) -> w_clock w < DEADLINE t -> w_uc w = Some uc ->
  exec (preempt s) w =
    (Done tt, set_errnos (<[errno_loc w := errno_at w (errno_loc w)]> (w_errno w)) w).
Proof.
  intros [Ht Hd] Hs Hg Hc Hdl Huc. unfold preempt, errno_get, errno_put, thread_signal.
  enter_handler Huc. rewrite (eq_refl : thread_signal_of w1 = thread_signal_of w), Hs, signal_eq_refl.
  rewrite exec_is_preemptible, (eq_refl : w_group w1 = w_group w).
  apply is_shared_false in Hg. rewrite Hg. simpl andb. cbv iota.
  rewrite (exec_get_tls _ _ w1 t) by done. rewrite exec_nsnow by done.
  rewrite (eq_refl : w_clock w1 = w_clock w).
  destruct (Z.leb_spec (DEADLINE t) (w_clock w)); [lia|]. 
  set (e := errno_at w (errno_loc w)).
  transitivity (Done tt, set_errnos (<[errno_loc w := e]> (w_errno w1)) w); [reflexivity|].
  by rewrite clobbered_errno.
Qed.

(** In the shared libset the preemption is deferred to the end of the call. *)
Lemma exec_preempt_shared w s t uc :
  alive w t -> thread_signal_of w = Ok s -> w_group w = SHARED -> w_uc w = Some uc ->
  exec (preempt s) w =
    (Done tt,
     put_tls (set_DEFERRED true t)
       (set_errnos (<[errno_loc w := errno_at w (errno_loc w)]> (w_errno w))
          (set_uc (Some (mkHandlerContext (set_add (uc_sigmask uc) s) (uc_code uc))) w))).
Proof.
  intros [Ht Hd] Hs Hg Huc. unfold preempt, errno_get, errno_put, thread_signal.
  enter_handler Huc. rewrite (eq_refl : thread_signal_of w1 = thread_signal_of w), Hs, signal_eq_refl.
  rewrite exec_is_preemptible, (eq_refl : w_group w1 = w_group w).
  apply is_shared_true in Hg as Hg'. rewrite Hg'. simpl andb.
  cbv iota. set (e := errno_at w (errno_loc w)). unfold defer_preemption. erewrite exec_bind_done; last first.
  { rewrite exec_is_preemptible, (eq_refl : w_group w1 = w_group w), Hg'. simpl negb. rewrite exec_debug_assert by done.
    rewrite exec_write, (Huc : w_uc w1 = _). simpl fmap.
    eapply exec_put_local_last; [exact Ht | done]. }
  transitivity (Done tt, put_tls (set_DEFERRED true t) (set_errnos (<[errno_loc w := e]> (w_errno w1))
    (set_uc (Some (mkHandlerContext (set_add (uc_sigmask uc) s) (uc_code uc))) w))); [reflexivity|].
  by rewrite clobbered_errno.
Qed.

(** A signal that is not the thread's preemption signal is just blocked. *)
Lemma exec_preempt_irrelevant w s uc :
  thread_signal_of w <> Ok s -> w_uc w = Some uc ->
  exec (preempt s) w =
    (Done tt,
     set_errnos (<[errno_loc w := errno_at w (errno_loc w)]> (w_errno w))
       (set_uc (Some (mkHandlerContext (set_add (uc_sigmask uc) s) (uc_code uc))) w)).
Proof.
  intros Hs Huc. unfold preempt, errno_get, errno_put, thread_signal.
  enter_handler Huc. rewrite (eq_refl : thread_signal_of w1 = thread_signal_of w).
  assert (match thread_signal_of w with Ok signal => signal_eq s signal | Err _ => false end
          = false) as Hrel.
  { destruct (thread_signal_of w) as [s'|]; [|done]. rewrite signal_eq_spec.
    apply bool_decide_eq_false. congruence. }
  rewrite Hrel. set (e := errno_at w (errno_loc w)).
  transitivity (Done tt, set_errnos (<[errno_loc w := e]> (w_errno w1))
    (set_uc (Some (mkHandlerContext (set_add (uc_sigmask uc) s) (uc_code uc))) w));
    [|by rewrite clobbered_errno].
  cbn [andb]. rewrite exec_ret. unfold uc_mask_add. rewrite exec_write, (Huc : w_uc w1 = _). reflexivity.
Qed.
End Handler.
