(* ===== verification/Frame.v ===== *)
(** * What code on the oneshot stack leaves alone

    Every action of [schedule], of the preemptible function and of the signal handler keeps the
    clock, the pools, the signalers, every thread-control block but the installed one, and every
    boxed closure but its own.  The facts are about the shape of the programs, so they hold under
    any interleaving. *)

From S2P Require Import Prelude Signal Reusable Gotcha Pools Timer Tcb World Preemption Linger.

Section Framed.
Context `{Platform}.
Implicit Types (w : world).

(** [X] says which boxed closures may change. *)
Record framed (X : nat -> Prop) w w' : Prop := {
  f_tid : w_tid w' = w_tid w;
  f_signalers : w_signalers w' = w_signalers w;
  f_signals : w_signals w' = w_signals w;
  f_groups : w_groups w' = w_groups w;
  f_stacks : w_stacks w' = w_stacks w;
  f_localstores : w_localstores w' = w_localstores w;
  f_fs : fs_base (w_tcb w') = fs_base (w_tcb w);
  f_dtors : dtors_run (w_tcb w') = dtors_run (w_tcb w);
  f_words : forall x, words <$> blocks (w_tcb w') !! x = words <$> blocks (w_tcb w) !! x;
  f_blocks : forall x, x <> fs_base (w_tcb w) ->
    blocks (w_tcb w') !! x = blocks (w_tcb w) !! x;
  f_heap : forall x, ~ X x -> w_heap w' !! x = w_heap w !! x;
  f_boxed : forall x, is_Some (w_heap w !! x) -> is_Some (w_heap w' !! x);
}.

Definition kept (X : nat -> Prop) w w' : Prop := w_clock w' = w_clock w /\ framed X w w'.

#[export] Instance framed_refl X : Reflexive (framed X).
Proof. by split. Qed.
#[export] Instance framed_trans X : Transitive (framed X).
Proof.
  intros w1 w2 w3 [] []. split; try congruence.
  - intros x Hx. transitivity (blocks (w_tcb w2) !! x); [apply f_blocks1; congruence | eauto].
  - intros x Hx. transitivity (w_heap w2 !! x); eauto.
  - eauto.
Qed.
#[export] Instance kept_refl X : Reflexive (kept X).
Proof. by split. Qed.
#[export] Instance kept_trans X : Transitive (kept X).
Proof. intros w1 w2 w3 [H12 ?] [H23 ?]. split; [congruence | by etransitivity]. Qed.

Lemma put_tls_framed X t w : framed X w (put_tls t w).
Proof.
  split; try done; intros x; unfold put_tls; simpl.
  - destruct (decide (x = fs_base (w_tcb w))) as [->|].
    + rewrite lookup_alter_eq. by destruct (_ !! _).
    + by rewrite lookup_alter_ne.
  - intros Hx. by rewrite lookup_alter_ne.
Qed.

Lemma set_heap_framed (X : nat -> Prop) h x w :
  X h -> framed X w (set_heap (<[h := x]> (w_heap w)) w).
Proof.
  intros Hh. split; try done; intros y Hy; simpl.
  - rewrite lookup_insert_ne; [done|]. by intros <-.
  - destruct (decide (h = y)) as [<-|]; [rewrite lookup_insert_eq | rewrite lookup_insert_ne]; eauto.
Qed.

Lemma kept_read X {R} (f : world -> R) : steps_in (kept X) (read f).
Proof. done. Qed.
Lemma kept_write X f : (forall w, kept X w (f w)) -> steps_in (kept X) (write f).
Proof. done. Qed.
Lemma kept_act X {R} (f : world -> R * world) :
  (forall w, kept X w (f w).2) -> steps_in (kept X) (act f).
Proof. done. Qed.
Lemma kept_of_exit X {A} (e : exit A) : steps_in (kept X) (of_exit e).
Proof. by destruct e. Qed.
Lemma kept_call X {S A} proj inj (m : comp S A) :
  (forall s w, kept X w (inj s w)) -> steps_in (kept X) (call proj inj m).
Proof.
  intros Hi. apply steps_in_bind; [|apply kept_of_exit]. split; [|done].
  intros w. simpl. destruct (m (proj w)). apply Hi.
Qed.
Lemma kept_with_tls X {R} (f : tls -> R * tls) : steps_in (kept X) (with_tls f).
Proof.
  apply steps_in_bind; [split; [|done] | intros [[]|]; done].
  intros w. simpl. repeat case_match; try done. split; [done | apply put_tls_framed].
Qed.
Lemma kept_debug_assert X b msg : steps_in (kept X) (debug_assert b msg).
Proof. unfold debug_assert. by case_match. Qed.
Lemma kept_arith X x msg : steps_in (kept X) (arith_u64 x msg).
Proof. unfold arith_u64. by repeat case_match. Qed.
End Framed.

#[export] Hint Resolve kept_read kept_of_exit kept_with_tls kept_debug_assert kept_arith
  put_tls_framed : inger.

(** Walk through a program whose actions are among the above. *)
Ltac kept_walk :=
  repeat first
    [ done
    | solve [auto with inger]
    | apply kept_write; intros ?; done
    | apply kept_call; intros ? ?; done
    | apply kept_act; intros ?; repeat case_match; done
    | apply steps_in_bind; [|intros ?]
    | case_match ].

Section KeptFacts.
Context `{Platform}.
Context (X : nat -> Prop).
Implicit Types (w : world).

Lemma kept_nsnow : steps_in (kept X) nsnow.
Proof. unfold nsnow. kept_walk. Qed.
Lemma kept_mask un no : steps_in (kept X) (mask un no).
Proof. unfold mask, syscall. kept_walk. Qed.
Lemma kept_thread_signal : steps_in (kept X) thread_signal.
Proof. unfold thread_signal. kept_walk. Qed.
Lemma kept_is_preemptible : steps_in (kept X) is_preemptible.
Proof. unfold is_preemptible, group_thread_get. kept_walk. Qed.
#[local] Hint Resolve kept_nsnow kept_mask kept_thread_signal kept_is_preemptible : inger.

Lemma kept_disable b : steps_in (kept X) (disable_preemption b).
Proof. unfold disable_preemption, group_thread_set, put_local. kept_walk. Qed.
Lemma kept_defer b : steps_in (kept X) (defer_preemption b).
Proof. unfold defer_preemption, put_local. kept_walk. Qed.
Lemma kept_enable b : steps_in (kept X) (enable_preemption b).
Proof.
  unfold enable_preemption, errno_group, errno_get, group_thread_set, syscall. kept_walk.
Qed.
#[local] Hint Resolve kept_disable kept_defer kept_enable : inger.

Lemma kept_stamp : steps_in (kept X) stamp.
Proof. unfold stamp, get_tls, put_local. kept_walk. Qed.
Lemma kept_pause : steps_in (kept X) pause.
Proof. unfold pause, put_local. kept_walk. Qed.
Lemma kept_steps n : steps_in (kept X) (steps n).
Proof. induction n; simpl; [done|]. by split. Qed.
#[local] Hint Resolve kept_stamp kept_pause kept_steps : inger.

Lemma kept_shared_call {A} (p : prog A) :
  steps_in (kept X) p -> steps_in (kept X) (shared_call p).
Proof.
  intros Hp. unfold shared_call, group_thread_get, group_thread_set, resume_preemption.
  kept_walk.
Qed.

Lemma kept_compile u : steps_in (kept X) (compile u).
Proof.
  induction u as [v|m|k IH|e k IH|k IH|n k IH|k IH]; cbn [compile]; unfold errno_get, errno_put;
    try done; (apply steps_in_bind; [|intros ?; done || apply IH]);
    try apply kept_shared_call; kept_walk.
Qed.

Lemma kept_catch {A} (p : prog A) : steps_in (kept X) p -> steps_in (kept X) (catch_unwind p).
Proof. induction p; simpl; try done. intros [? ?]. eauto. Qed.

(** The boxed closure is the only one that its call changes. *)
Lemma kept_closure p ret : X p -> steps_in (kept X) (closure_call p ret).
Proof.
  intros Hp.
  assert (forall x w, kept X w (set_heap (<[p := x]> (w_heap w)) w)) as Hheap.
  { intros x w. split; [done | by apply set_heap_framed]. }
  unfold closure_call. apply steps_in_bind; [by apply kept_act; intros; apply Hheap|].
  intros [[]|]; try done.
  - apply steps_in_bind; [apply kept_catch, kept_compile|]. intros ?.
    apply steps_in_bind; [by apply kept_write; intros; apply Hheap | done].
  - by case_match.
Qed.

(** [schedule], once it has taken its closure from [BOOTSTRAP] and stamped the deadline. *)
Lemma kept_call_function f group : X f -> steps_in (kept X) (call_function f group).
Proof.
  intros Hf. unfold call_function, get_tls.
  apply steps_in_bind; [auto with inger|]. intros []; [|done].
  apply steps_in_bind; [auto with inger|]. intros _.
  apply steps_in_bind; [by apply kept_closure|]. intros _. kept_walk.
Qed.

Lemma kept_swap : steps_in (kept X) swap_checkpoint.
Proof.
  unfold swap_checkpoint. apply steps_in_bind; [|intros []; done].
  apply kept_act. intros w. repeat case_match; try done. split; [done|].
  simpl. etransitivity; [apply put_tls_framed|]. by split.
Qed.
#[local] Hint Resolve kept_swap : inger.

Lemma kept_preempt s : steps_in (kept X) (preempt s).
Proof.
  unfold preempt, errno_get, errno_put, get_tls, put_local, uc_mask_add. kept_walk.
Qed.

(** ** Deliveries and runs *)

Lemma deliver_kept s w b w' : deliver s w = (Done b, w') -> kept X w w'.
Proof.
  unfold deliver. intros Hd.
  match type of Hd with context [exec (preempt s) ?w0] =>
    pose proof (steps_in_exec (kept X) _ w0 (kept_preempt s)) as Hc;
    destruct (exec (preempt s) w0) as [[[]| | |] w1] end; simplify_eq.
  assert (forall k, kept X w (set_uc None (set_kernel k w1))) as Hw1.
  { intros k. destruct Hc as [Hc []]. split; [done|]. by split. }
  destruct (w_uc w1) as [uc|]; [|done]. destruct (uc_code uc); simplify_eq; apply Hw1.
Qed.

Lemma deliver_all_kept l w b w' : deliver_all l w = (Done b, w') -> kept X w w'.
Proof.
  revert w. induction l as [|s l IH]; intros w; simpl; [by intros [= <- <-]|].
  unfold gets, mbind, comp_bind. cbv beta iota.
  destruct (deliverable _ _); [|by apply IH].
  destruct (deliver s w) as [[[]| | |] w1] eqn:Hd; try done; intros Hl;
    apply deliver_kept in Hd; [by injection Hl as <- <-|].
  etransitivity; [exact Hd | by apply IH].
Qed.

Lemma deliver_all_clock l w b w' : deliver_all l w = (Done b, w') -> w_clock w' = w_clock w.
Proof. intros Hd. by apply deliver_all_kept in Hd as [? _]. Qed.

Lemma advance_framed e w : framed X w (advance e w).
Proof.
  unfold advance. transitivity (set_clock (w_clock w + dt e) w); [by split|].
  generalize (set_clock (w_clock w + dt e) w) as w1. induction (raised e) as [|s l IH];
    intros w1; [done|]. simpl. transitivity (arrive w1 s); [by split | apply IH].
Qed.

Lemma interrupt_framed env w b w' env' :
  interrupt env w = ((Done b, w'), env') -> framed X w w'.
Proof.
  unfold interrupt. generalize NOTIFICATION_SIGNALS as l. intros l. destruct env as [|e env].
  - intros [= Hd _]. by apply deliver_all_kept in Hd as [_ ?].
  - intros [= Hd _]. apply deliver_all_kept in Hd as [_ ?].
    etransitivity; [apply advance_framed | done].
Qed.

(** A run that finishes or is paused has kept the frame, and so will the rest of it. *)
Lemma run_framed {A} (p : prog A) env w r w' env' :
  steps_in (kept X) p -> run p env w = (r, w', env') ->
  match r with
  | Finished _ => framed X w w'
  | Paused rest => framed X w w' /\ steps_in (kept X) rest
  | Crashed _ => True
  end.
Proof.
  revert env w. induction p as [x|R f k IH|m|m|]; intros env w Hst; simpl;
    destruct (interrupt env w) as [[[[]| | |] w1] env1] eqn:Hi;
    try (by intros [= <- <- <-]); try apply interrupt_framed in Hi; try (by intros [= <- <- <-]).
  destruct Hst as [Hf Hk]. specialize (Hf w1). destruct (f w1) as [x w2]. simpl in Hf.
  intros Hr. apply IH in Hr; [|apply Hk].
  assert (framed X w w2) as Hw2 by (etransitivity; [done | apply Hf]).
  destruct r; [by etransitivity | | done]. destruct Hr as [? ?].
  split; [by etransitivity | done].
Qed.
End KeptFacts.

(** ** The deadline

    Between [stamp] and the end of the function, only [pause] changes the deadline. *)

(** A function that never calls [pause]. *)
Fixpoint never_pauses (u : ucode) : Prop :=
  match u with
  | URet _ | UPanic _ => True
  | UStep k | USetErrno _ k | UShared _ k => never_pauses k
  | UGetErrno k => forall e, never_pauses (k e)
  | UPause _ => False
  end.

Section Deadline.
Context `{Platform}.
(** Whether the function may call [pause], and where its closure is. *)
Context (b : bool) (h : nat).
Implicit Types (w : world) (t : tls).

(** The deadline is [d], unless [pause] has reset it. *)
Definition late (d : Z) w : Prop :=
  exists t, cur_tls w = Some t /\ (DEADLINE t = d \/ b = true /\ DEADLINE t = 0).
(** The function, as long as it is still in its closure, behaves as [b] says. *)
Definition tame w : Prop :=
  forall u, w_heap w !! h = Some (Function u) -> b = true \/ never_pauses u.
Definition timed w w' : Prop := (forall d, late d w -> late d w') /\ (tame w -> tame w').

#[export] Instance timed_refl : Reflexive timed.
Proof. by intros w. Qed.
#[export] Instance timed_trans : Transitive timed.
Proof. intros w1 w2 w3 [? ?] [? ?]. split; eauto. Qed.

Lemma timed_put t t' w :
  cur_tls w = Some t -> DEADLINE t' = DEADLINE t \/ b = true /\ DEADLINE t' = 0 ->
  timed w (put_tls t' w).
Proof.
  intros Ht Hd. split; [|done]. intros d (t0 & Ht0 & Hd0).
  exists t'. split; [by eapply cur_tls_put|].
  assert (t0 = t) as -> by congruence. destruct Hd as [->|]; auto.
Qed.

Lemma timed_same w w' : cur_tls w' = cur_tls w -> w_heap w' = w_heap w -> timed w w'.
Proof.
  intros Ht Hh. split; [|by unfold tame; rewrite Hh]. intros d (t & Hd).
  exists t. rewrite Ht. exact Hd.
Qed.

Lemma timed_act {R} (f : world -> R * world) :
  (forall w, cur_tls (f w).2 = cur_tls w) -> (forall w, w_heap (f w).2 = w_heap w) ->
  steps_in timed (act f).
Proof. intros Ht Hh. split; [|done]. intros w. by apply timed_same. Qed.
Lemma timed_write f :
  (forall w, cur_tls (f w) = cur_tls w) -> (forall w, w_heap (f w) = w_heap w) ->
  steps_in timed (write f).
Proof. intros Ht Hh. by apply timed_act. Qed.
Lemma timed_read {R} (f : world -> R) : steps_in timed (read f).
Proof. by apply timed_act. Qed.
Lemma timed_of_exit {A} (e : exit A) : steps_in timed (of_exit e).
Proof. by destruct e. Qed.
Lemma timed_call {S A} proj inj (m : comp S A) :
  (forall s w, cur_tls (inj s w) = cur_tls w) -> (forall s w, w_heap (inj s w) = w_heap w) ->
  steps_in timed (call proj inj m).
Proof.
  intros Ht Hh. apply steps_in_bind; [|apply timed_of_exit].
  apply timed_act; intros w; destruct (m (proj w)); [apply Ht | apply Hh].
Qed.
Lemma timed_with_tls {R} (f : tls -> R * tls) :
  (forall t, DEADLINE (f t).2 = DEADLINE t \/ b = true /\ DEADLINE (f t).2 = 0) ->
  steps_in timed (with_tls f).
Proof.
  intros Hf. apply steps_in_bind; [split; [|done] | intros [[]|]; done].
  intros w. simpl. destruct (cur_tls w) as [t|] eqn:Ht; [|done].
  destruct (tls_destroyed t); [done|]. specialize (Hf t). destruct (f t) as [r t'].
  by eapply timed_put.
Qed.
Lemma timed_debug_assert x msg : steps_in timed (debug_assert x msg).
Proof. unfold debug_assert. by case_match. Qed.
Lemma timed_arith x msg : steps_in timed (arith_u64 x msg).
Proof. unfold arith_u64. by repeat case_match. Qed.
End Deadline.

#[export] Hint Resolve timed_read timed_of_exit timed_debug_assert timed_arith : inger.

Ltac timed_walk :=
  repeat first
    [ done
    | solve [auto with inger]
    | apply timed_with_tls; intros ?; repeat case_match; by left
    | apply timed_write; done
    | apply timed_call; done
    | apply timed_act; intros ?; repeat case_match; done
    | apply steps_in_bind; [|intros ?]
    | case_match ].

Section TimedFacts.
Context `{Platform}.
Context (b : bool) (h : nat).
Implicit Types (w : world).
Abbreviation timed := (timed b h).

Lemma timed_mask un no : steps_in timed (mask un no).
Proof. unfold mask, syscall. timed_walk. Qed.
Lemma timed_is_preemptible : steps_in timed is_preemptible.
Proof. unfold is_preemptible, group_thread_get. timed_walk. Qed.
#[local] Hint Resolve timed_mask timed_is_preemptible : inger.
Lemma timed_defer no : steps_in timed (defer_preemption no).
Proof. unfold defer_preemption, put_local, thread_signal. timed_walk. Qed.
Lemma timed_disable no : steps_in timed (disable_preemption no).
Proof. unfold disable_preemption, group_thread_set, put_local. timed_walk. Qed.
Lemma timed_enable no : steps_in timed (enable_preemption no).
Proof.
  unfold enable_preemption, errno_group, errno_get, group_thread_set, syscall, thread_signal.
  timed_walk.
Qed.
#[local] Hint Resolve timed_defer timed_disable timed_enable : inger.

Lemma timed_shared_call {A} (p : prog A) :
  steps_in timed p -> steps_in timed (shared_call p).
Proof.
  intros Hp. unfold shared_call, group_thread_get, group_thread_set, resume_preemption.
  timed_walk.
Qed.

Lemma timed_steps n : steps_in timed (steps n).
Proof. induction n; simpl; [done|]. split; [by intros w; apply timed_same | done]. Qed.

Lemma timed_pause : b = true -> steps_in timed pause.
Proof.
  intros Hb. unfold pause. apply steps_in_bind; [|auto with inger].
  apply timed_with_tls. intros t. by right.
Qed.

Lemma timed_compile u : b = true \/ never_pauses u -> steps_in timed (compile u).
Proof.
  induction u as [v|m|k IH|e k IH|k IH|n k IH|k IH]; intros Hu; cbn [compile never_pauses] in *;
    unfold errno_get, errno_put; try done;
    (apply steps_in_bind; [|intros ?; try apply IH; naive_solver]);
    try apply timed_shared_call; try apply timed_steps;
    try (apply timed_pause; naive_solver); timed_walk.
Qed.

Lemma timed_catch {A} (p : prog A) : steps_in timed p -> steps_in timed (catch_unwind p).
Proof. induction p; simpl; try done. intros [? ?]. eauto. Qed.

(** The same along the executions in which the closure is tame. *)
Fixpoint steps_timed {A} (p : prog A) : Prop :=
  match p with
  | PAct f k => forall w, tame b h w -> timed w (f w).2 /\ steps_timed (k (f w).1)
  | _ => True
  end.

Lemma steps_timed_in {A} (p : prog A) : steps_in timed p -> steps_timed p.
Proof. induction p; simpl; try done. intros [? ?] w Hw. eauto. Qed.

Lemma steps_timed_bind {A B} (p : prog A) (k : A -> prog B) :
  steps_timed p -> (forall x, steps_timed (k x)) -> steps_timed (p ≫= k).
Proof.
  intros Hp Hk. induction p as [x|R f k' IH|m|m|]; simpl in *; try done.
  intros w Hw. destruct (Hp w Hw). split; [done | by apply IH].
Qed.

Lemma timed_closure ret : steps_timed (closure_call h ret).
Proof.
  assert (forall x w, (forall u, x <> Function u) ->
    timed w (set_heap (<[h := x]> (w_heap w)) w)) as Hheap.
  { intros x w Hx. split.
    - intros d (t & Hd). by exists t.
    - intros _ u. simpl. rewrite lookup_insert_eq. intros [= Hu]. by destruct (Hx u). }
  intros w Hw. split; [by apply Hheap|]. cbn [fst].
  change (steps_timed (match w_heap w !! h with
    | Some (Function f) => r ← catch_unwind (compile f);
        _ ← write (fun w => set_heap (<[h := Return r]> (w_heap w)) w); mret None
    | Some (Return val) => if ret then mret (Some val) else PUnreachable
    | Some Empty => mret None
    | None => PUnreachable end)).
  destruct (w_heap w !! h) as [[u|v|]|] eqn:Hh; try done; [|by destruct ret].
  apply steps_timed_bind; [by apply steps_timed_in, timed_catch, timed_compile, Hw|].
  intros r w1 _. split; [by apply Hheap | done].
Qed.

Lemma timed_call_function group : steps_timed (call_function h group).
Proof.
  unfold call_function, get_tls. apply steps_timed_bind; [auto using steps_timed_in, timed_enable|].
  intros []; [|done]. apply steps_timed_bind; [auto using steps_timed_in, timed_debug_assert|].
  intros _. apply steps_timed_bind; [apply timed_closure|]. intros _.
  apply steps_timed_in. timed_walk.
Qed.

(** ** Runs *)

Lemma timed_preempt s : steps_in timed (preempt s).
Proof.
  unfold preempt, errno_get, errno_put, get_tls, put_local, uc_mask_add, thread_signal, nsnow.
  assert (steps_in timed swap_checkpoint) as Hswap.
  { apply steps_in_bind; [|by intros []]. split; [|done]. intros w. simpl.
    destruct (cur_tls w) as [t|] eqn:Ht; [|done]. repeat case_match; try done.
    simpl. match goal with |- timed _ (set_uc _ (put_tls ?t' _)) => set (t1 := t') end.
    transitivity (put_tls t1 w); [by eapply timed_put; [exact Ht | by left] |].
    by apply timed_same. }
  timed_walk.
Qed.

Lemma deliver_timed s w x w' : deliver s w = (Done x, w') -> timed w w'.
Proof.
  unfold deliver. intros Hd.
  match type of Hd with context [exec (preempt s) ?w0] =>
    pose proof (steps_in_exec timed _ w0 (timed_preempt s)) as Hc;
    destruct (exec (preempt s) w0) as [[[]| | |] w1] end; simplify_eq.
  assert (forall k, timed w (set_uc None (set_kernel k w1))) as Hw1.
  { intros k. etransitivity; [by apply timed_same|]. etransitivity; [exact Hc|].
    by apply timed_same. }
  destruct (w_uc w1) as [uc|]; [|done]. destruct (uc_code uc); simplify_eq; apply Hw1.
Qed.

Lemma deliver_all_timed l w x w' : deliver_all l w = (Done x, w') -> timed w w'.
Proof.
  revert w. induction l as [|s l IH]; intros w; simpl; [by intros [= <- <-]|].
  unfold gets, mbind, comp_bind. cbv beta iota.
  destruct (deliverable _ _); [|by apply IH].
  destruct (deliver s w) as [[[]| | |] w1] eqn:Hd; try done; intros Hl;
    apply deliver_timed in Hd; [by injection Hl as <- <-|].
  etransitivity; [exact Hd | by apply IH].
Qed.

Lemma advance_timed e w : timed w (advance e w).
Proof.
  unfold advance. transitivity (set_clock (w_clock w + dt e) w); [by apply timed_same|].
  generalize (set_clock (w_clock w + dt e) w) as w1. induction (raised e) as [|s l IH];
    intros w1; [done|]. simpl. transitivity (arrive w1 s); [by apply timed_same | apply IH].
Qed.

Lemma interrupt_timed env w x w' env' :
  interrupt env w = ((Done x, w'), env') -> timed w w'.
Proof.
  unfold interrupt. generalize NOTIFICATION_SIGNALS as l. intros l. destruct env as [|e env].
  - intros [= Hd _]. by apply deliver_all_timed in Hd.
  - intros [= Hd _]. apply deliver_all_timed in Hd.
    etransitivity; [apply advance_timed | done].
Qed.

Lemma run_timed {A} (p : prog A) env w r w' env' :
  steps_timed p -> tame b h w -> run p env w = (r, w', env') ->
  match r with
  | Finished _ => timed w w'
  | Paused rest => timed w w' /\ steps_timed rest
  | Crashed _ => True
  end.
Proof.
  revert env w. induction p as [x|R f k IH|m|m|]; intros env w Hst Htm; simpl;
    destruct (interrupt env w) as [[[[]| | |] w1] env1] eqn:Hi;
    try (by intros [= <- <- <-]); try apply interrupt_timed in Hi; try (by intros [= <- <- <-]).
  destruct (Hst w1) as [Hf Hk]; [by apply Hi|].
  assert (timed w (f w1).2) as Hw2 by (etransitivity; [exact Hi | exact Hf]).
  destruct (f w1) as [x w2]. simpl in *.
  intros Hr. apply IH in Hr; [|done|by apply Hw2].
  destruct r; [by etransitivity | | done]. destruct Hr as [? ?].
  split; [by etransitivity | done].
Qed.
End TimedFacts.
