(* ===== verification/Errno.v ===== *)
(** * Whose [errno] code on the oneshot stack can change

    Every thread-control block has an [errno] per libset.  The function, the hook and the handler
    write only those of the block that is installed while they run.  The hook writes through a
    pointer that it computed earlier, so the facts follow the results of the actions. *)

From S2P Require Import Prelude Signal Reusable Gotcha Pools Timer Tcb World Preemption Linger.
From S2P Require Import Frame.

Section Foreign.
Context `{Platform}.
(** The installed block. *)
Context (a : Z).
Implicit Types (w : world).

Definition foreign w w' : Prop :=
  fs_base (w_tcb w) = a -> fs_base (w_tcb w') = a /\
  forall loc, loc.1 <> a -> errno_at w' loc = errno_at w loc.

#[export] Instance foreign_refl : Reflexive foreign.
Proof. by intros w. Qed.
#[export] Instance foreign_trans : Transitive foreign.
Proof.
  intros w1 w2 w3 H12 H23 H1. destruct (H12 H1) as [H2 He2]. destruct (H23 H2) as [H3 He3].
  split; [done|]. intros loc Hl. by rewrite He3, He2.
Qed.

Lemma foreign_same w w' : fs_base (w_tcb w') = fs_base (w_tcb w) -> w_errno w' = w_errno w ->
  foreign w w'.
Proof. intros Hf He H1. split; [by rewrite Hf|]. intros loc _. unfold errno_at. by rewrite He. Qed.

Lemma foreign_write loc e w : loc.1 = a -> foreign w (set_errnos (<[loc := e]> (w_errno w)) w).
Proof.
  intros Hl Hf. split; [done|]. intros loc' Hl'. unfold errno_at. simpl.
  rewrite lookup_insert_ne; [done | congruence].
Qed.

Lemma foreign_act {R} (f : world -> R * world) :
  (forall w, fs_base (w_tcb (f w).2) = fs_base (w_tcb w)) ->
  (forall w, w_errno (f w).2 = w_errno w) -> steps_in foreign (act f).
Proof. intros Hf He. split; [|done]. intros w. by apply foreign_same. Qed.
Lemma foreign_call {S A} proj inj (m : comp S A) :
  (forall s w, fs_base (w_tcb (inj s w)) = fs_base (w_tcb w)) ->
  (forall s w, w_errno (inj s w) = w_errno w) -> steps_in foreign (call proj inj m).
Proof.
  intros Hf He. apply steps_in_bind; [|by intros []].
  apply foreign_act; intros w; destruct (m (proj w)); [apply Hf | apply He].
Qed.
Lemma foreign_with_tls {R} (f : tls -> R * tls) : steps_in foreign (with_tls f).
Proof.
  apply steps_in_bind; [|intros [[]|]; done].
  apply foreign_act; intros w; by repeat case_match.
Qed.
Lemma foreign_errno_put e : steps_in foreign (errno_put e).
Proof. split; [|done]. intros w Hf. by apply foreign_write. Qed.
Lemma foreign_debug_assert b msg : steps_in foreign (debug_assert b msg).
Proof. unfold debug_assert. by case_match. Qed.
Lemma foreign_arith x msg : steps_in foreign (arith_u64 x msg).
Proof. unfold arith_u64. by repeat case_match. Qed.
End Foreign.

#[export] Hint Resolve foreign_with_tls foreign_errno_put foreign_debug_assert foreign_arith : inger.

(** Walk through a program whose actions are among the above. *)
Ltac foreign_walk :=
  repeat first
    [ done
    | solve [auto with inger]
    | apply foreign_call; done
    | apply foreign_act; intros ?; repeat case_match; done
    | apply steps_in_bind; [|intros ?]
    | case_match ].

Section ForeignFacts.
Context `{Platform}.
Context (a : Z).
Implicit Types (w : world).
Abbreviation foreign := (foreign a).

Lemma foreign_mask un no : steps_in foreign (mask un no).
Proof. unfold mask, syscall. foreign_walk. Qed.
Lemma foreign_is_preemptible : steps_in foreign is_preemptible.
Proof. unfold is_preemptible, group_thread_get, read. foreign_walk. Qed.
Lemma foreign_thread_signal : steps_in foreign thread_signal.
Proof. unfold thread_signal, read. foreign_walk. Qed.
Lemma foreign_group_set g : steps_in foreign (group_thread_set g).
Proof. unfold group_thread_set, write. foreign_walk. Qed.
#[local] Hint Resolve foreign_mask foreign_is_preemptible foreign_thread_signal
  foreign_group_set : inger.
Lemma foreign_disable b : steps_in foreign (disable_preemption b).
Proof. unfold disable_preemption, put_local. foreign_walk. Qed.
Lemma foreign_defer b : steps_in foreign (defer_preemption b).
Proof. unfold defer_preemption, put_local, write. foreign_walk. Qed.
#[local] Hint Resolve foreign_disable foreign_defer : inger.
Lemma foreign_pause : steps_in foreign pause.
Proof. unfold pause, put_local. foreign_walk. Qed.
Lemma foreign_steps n : steps_in foreign (steps n).
Proof. induction n; simpl; [done|]. by split. Qed.

Lemma foreign_preempt s : steps_in foreign (preempt s).
Proof.
  unfold preempt, errno_get, get_tls, put_local, uc_mask_add, swap_checkpoint, nsnow, read, write.
  foreign_walk.
Qed.

(** ** Deliveries *)

Lemma deliver_foreign s w b w' : deliver s w = (Done b, w') -> foreign w w'.
Proof.
  unfold deliver. intros Hd.
  match type of Hd with context [exec (preempt s) ?w0] =>
    pose proof (steps_in_exec foreign _ w0 (foreign_preempt s)) as Hc;
    destruct (exec (preempt s) w0) as [[[]| | |] w1] end; simplify_eq.
  assert (forall k, foreign w (set_uc None (set_kernel k w1))) as Hw1.
  { intros k. etransitivity; [by apply foreign_same|]. etransitivity; [exact Hc|].
    by apply foreign_same. }
  destruct (w_uc w1) as [uc|]; [|done]. destruct (uc_code uc); simplify_eq; apply Hw1.
Qed.

Lemma deliver_all_foreign l w b w' : deliver_all l w = (Done b, w') -> foreign w w'.
Proof.
  revert w. induction l as [|s l IH]; intros w; simpl; [by intros [= <- <-]|].
  unfold gets, mbind, comp_bind. cbv beta iota.
  destruct (deliverable _ _); [|by apply IH].
  destruct (deliver s w) as [[[]| | |] w1] eqn:Hd; try done; intros Hl;
    apply deliver_foreign in Hd; [by injection Hl as <- <-|].
  etransitivity; [exact Hd | by apply IH].
Qed.

Lemma advance_foreign e w : foreign w (advance e w).
Proof.
  unfold advance. transitivity (set_clock (w_clock w + dt e) w); [by apply foreign_same|].
  generalize (set_clock (w_clock w + dt e) w) as w1. induction (raised e) as [|s l IH];
    intros w1; [done|]. simpl. transitivity (arrive w1 s); [by apply foreign_same | apply IH].
Qed.

Lemma interrupt_foreign env w b w' env' :
  interrupt env w = ((Done b, w'), env') -> foreign w w'.
Proof.
  unfold interrupt. generalize NOTIFICATION_SIGNALS as l. intros l. destruct env as [|e env].
  - intros [= Hd _]. by eapply deliver_all_foreign.
  - intros [= Hd _]. etransitivity; [apply advance_foreign | by eapply deliver_all_foreign].
Qed.

(** ** Programs that use the results of their actions *)

(** Every action is [foreign] along the executions with block [a] installed, and the result
    satisfies [Q]. *)
Fixpoint steps_own {A} (p : prog A) (Q : A -> Prop) : Prop :=
  match p with
  | PRet x => Q x
  | PAct f k => forall w, fs_base (w_tcb w) = a -> foreign w (f w).2 /\ steps_own (k (f w).1) Q
  | _ => True
  end.

Lemma own_in {A} (p : prog A) : steps_in foreign p -> steps_own p (fun _ => True).
Proof. induction p; simpl; try done. intros [? ?] w Hw. eauto. Qed.

Lemma own_bind {A B} (p : prog A) (k : A -> prog B) Q Q' :
  steps_own p Q' -> (forall x, Q' x -> steps_own (k x) Q) -> steps_own (p ≫= k) Q.
Proof.
  intros Hp Hk. induction p as [x|R f k' IH|m|m|]; simpl in *; try done; [by apply Hk|].
  intros w Hw. destruct (Hp w Hw). split; [done | by apply IH].
Qed.

(** The first part uses no result. *)
Lemma own_then {A B} (p : prog A) (k : A -> prog B) Q :
  steps_in foreign p -> (forall x, steps_own (k x) Q) -> steps_own (p ≫= k) Q.
Proof. intros Hp Hk. by eapply own_bind; [by apply own_in | auto]. Qed.

Lemma own_catch {A} (p : prog A) :
  steps_own p (fun _ => True) -> steps_own (catch_unwind p) (fun _ => True).
Proof. induction p; simpl; try done. intros Hp w Hw. destruct (Hp w Hw). eauto. Qed.

(** The pointer that [errno_group] returns is into the installed block. *)
Lemma own_errno_group g : steps_own (errno_group g) (fun loc => loc.1 = a).
Proof. apply own_then; [apply foreign_with_tls|]. intros [g'|]; [|done]. by intros w Hw. Qed.

Lemma own_enable g : steps_own (enable_preemption g) (fun _ => True).
Proof.
  unfold enable_preemption. eapply own_bind; [apply own_errno_group|]. intros loc Hloc.
  apply own_then; [unfold errno_get, read; foreign_walk|]. intros e.
  apply own_then; [foreign_walk|]. intros [u|]; [|done].
  apply own_then; [foreign_walk|]. intros d.
  apply own_then; [unfold syscall; foreign_walk|]. intros [u'|]; [|done].
  apply own_then; [foreign_walk|]. intros _.
  apply own_then; [|done]. case_match; [|done]. split; [|done]. intros w. by apply foreign_write.
Qed.

Lemma own_shared_call {A} (p : prog A) :
  steps_in foreign p -> steps_own (shared_call p) (fun _ => True).
Proof.
  intros Hp. unfold shared_call.
  apply own_then; [unfold group_thread_get, read; foreign_walk|]. intros g.
  apply own_then; [foreign_walk|]. intros _. apply own_then; [exact Hp|]. intros r.
  apply own_then; [foreign_walk|]. intros _. apply own_then; [unfold read; foreign_walk|].
  intros hooked. apply own_bind with (Q' := fun _ => True); [|done].
  destruct hooked; [|done]. by eapply own_bind; [apply own_enable|].
Qed.

Lemma own_compile u : steps_own (compile u) (fun _ => True).
Proof.
  induction u as [v|m|k IH|e k IH|k IH|n k IH|k IH]; cbn [compile]; try done.
  - apply own_then; [apply foreign_errno_put | done].
  - apply own_then; [by apply foreign_act | done].
  - by eapply own_bind; [apply own_shared_call, foreign_steps|].
  - by eapply own_bind; [apply own_shared_call, foreign_pause|].
Qed.

Lemma own_closure p ret : steps_own (closure_call p ret) (fun _ => True).
Proof.
  unfold closure_call. apply own_then; [by apply foreign_act|]. intros [[f|v|]|]; try done.
  - eapply own_bind; [apply own_catch, own_compile|]. intros r _.
    by apply own_then; [by apply foreign_act|].
  - by destruct ret.
Qed.

Lemma own_call_function f group : steps_own (call_function f group) (fun _ => True).
Proof.
  unfold call_function, get_tls. eapply own_bind; [apply own_enable|]. intros [signal|] _; [|done].
  apply own_then; [foreign_walk|]. intros _. eapply own_bind; [apply own_closure|]. intros _ _.
  apply own_in. foreign_walk.
Qed.

(** A run that finishes or is paused has left the others' [errno] alone, and so will its rest. *)
Lemma run_own {A} (p : prog A) Q env w r w' env' :
  steps_own p Q -> fs_base (w_tcb w) = a -> run p env w = (r, w', env') ->
  match r with
  | Finished _ => foreign w w'
  | Paused rest => foreign w w' /\ steps_own rest Q
  | Crashed _ => True
  end.
Proof.
  revert env w. induction p as [x|R f k IH|m|m|]; intros env w Hst Hw; simpl;
    destruct (interrupt env w) as [[[[]| | |] w1] env1] eqn:Hi;
    try (by intros [= <- <- <-]); try apply interrupt_foreign in Hi; try (by intros [= <- <- <-]).
  pose proof (proj1 (Hi Hw)) as Hw1. destruct (Hst w1 Hw1) as [Hf Hk].
  pose proof (proj1 (Hf Hw1)) as Hw2.
  assert (foreign w (f w1).2) as Hfw by (etransitivity; [exact Hi | exact Hf]).
  destruct (f w1) as [x w2]. simpl in *. intros Hr. apply IH in Hr; [|done|done].
  destruct r; [by etransitivity | | done]. destruct Hr as [? ?].
  split; [by etransitivity | done].
Qed.
End ForeignFacts.
