(* ===== verification/Interference.v ===== *)
(** * Code that signals interrupt

    A rely-guarantee logic for the programs that run on a oneshot stack.  Between two actions of
    such a program the clock moves, signals arrive, the handler [preempt] runs, and the function
    may even be paused and, much later, resumed.  [istep] is that interference, [wp] the weakest
    precondition of a program under it, and [run_sound] relates [wp] to the execution model. *)

From S2P Require Import Prelude Signal Reusable Gotcha Pools Timer Tcb World Preemption Linger.
From S2P Require Import Handler Frame.

(** ** What one delivery does *)

Section Delivery.
Context `{PlatformLaws}.
Implicit Types (w : world) (t : tls) (s : Signal).

Definition set_wmask (m : sigset_t) w : world := set_kernel (set_mask m (w_kernel w)) w.
Definition unpend s w : world :=
  set_kernel (set_pending (filter (fun n => n <> c_int s) (k_pending (w_kernel w)))
    (w_kernel w)) w.

(** The world in which the handler for [s] starts. *)
Definition in_handler s w : world :=
  set_uc (Some (mkHandlerContext (k_mask (w_kernel w)) Interrupted))
    (set_wmask (set_add (k_mask (w_kernel w)) s) (unpend s w)).

(** [errno] is read by the handler and written back. *)
Definition touch_errno w : world :=
  set_errnos (<[errno_loc w := errno_at w (errno_loc w)]> (w_errno w)) w.

Lemma thread_signal_in_handler s w : thread_signal_of (in_handler s w) = thread_signal_of w.
Proof. done. Qed.

Lemma deliver_due s w t c :
  alive w t -> thread_signal_of w = Ok s -> w_group w <> SHARED ->
  is_u64 (w_clock w) -> DEADLINE t <= w_clock w ->
  checkpoint (TASK t) = Some c -> cx_code c = CallSite ->
  deliver s w =
    (Done true,
     put_tls (disabled (set_TASK
         (paused_task w t c (mkHandlerContext (k_mask (w_kernel w)) Interrupted)) t))
       (set_group SHARED (set_uc None (set_wmask (set_add (cx_mask c) s) (unpend s (clobbered w)))))).
Proof.
  intros Ht Hs Hg Hc Hd Hcp Hcode. unfold deliver.
  erewrite (exec_preempt_due (in_handler s w)) by done. simpl w_uc. cbv iota beta.
  simpl uc_code. rewrite Hcode. f_equal; unfold clobbered, unpend; world_eq.
Qed.

Lemma deliver_early s w t :
  alive w t -> thread_signal_of w = Ok s -> w_group w <> SHARED ->
  is_u64 (w_clock w) -> w_clock w < DEADLINE t ->
  deliver s w = (Done false, touch_errno (set_uc None (unpend s w))).
Proof.
  intros Ht Hs Hg Hc Hd. unfold deliver.
  erewrite (exec_preempt_early (in_handler s w)) by done. simpl w_uc. cbv iota beta.
  f_equal; unfold touch_errno, unpend, errno_loc, errno_at; world_eq.
Qed.

Lemma deliver_shared s w t :
  alive w t -> thread_signal_of w = Ok s -> w_group w = SHARED ->
  deliver s w =
    (Done false, put_tls (set_DEFERRED true t)
       (touch_errno (set_uc None (set_wmask (set_add (k_mask (w_kernel w)) s) (unpend s w))))).
Proof.
  intros Ht Hs Hg. unfold deliver.
  erewrite (exec_preempt_shared (in_handler s w)) by done. simpl w_uc. cbv iota beta.
  f_equal; unfold touch_errno, unpend, errno_loc, errno_at; world_eq.
Qed.

Lemma deliver_irrelevant s w :
  thread_signal_of w <> Ok s ->
  deliver s w =
    (Done false,
     touch_errno (set_uc None (set_wmask (set_add (k_mask (w_kernel w)) s) (unpend s w)))).
Proof.
  intros Hs. unfold deliver.
  erewrite (exec_preempt_irrelevant (in_handler s w)) by done. simpl w_uc. cbv iota beta.
  f_equal; unfold touch_errno, unpend, errno_loc, errno_at; world_eq.
Qed.

Lemma cur_tls_set_wmask m w : cur_tls (set_wmask m w) = cur_tls w.
Proof. done. Qed.
Lemma cur_tls_unpend s w : cur_tls (unpend s w) = cur_tls w.
Proof. done. Qed.
Lemma cur_tls_touch_errno w : cur_tls (touch_errno w) = cur_tls w.
Proof. done. Qed.
End Delivery.

#[export] Hint Rewrite @cur_tls_set_wmask @cur_tls_unpend @cur_tls_touch_errno : tls.

(** ** Quiet interference

    What signals can do to a thread whose own preemption signal is blocked, or that has none. *)

Section Quiet.
Context `{PlatformLaws}.
Implicit Types (w : world) (t : tls) (s : Signal).

Record quiet w w' : Prop := {
  q_group : w_group w' = w_group w;
  q_tcb : w_tcb w' = w_tcb w;
  q_tid : w_tid w' = w_tid w;
  q_signalers : w_signalers w' = w_signalers w;
  q_signals : w_signals w' = w_signals w;
  q_groups : w_groups w' = w_groups w;
  q_stacks : w_stacks w' = w_stacks w;
  q_localstores : w_localstores w' = w_localstores w;
  q_heap : w_heap w' = w_heap w;
  q_hooked : w_hooked w' = w_hooked w;
  q_uc : w_uc w = None -> w_uc w' = None;
  q_errno : forall loc, errno_at w' loc = errno_at w loc;
  q_actions : k_actions (w_kernel w') = k_actions (w_kernel w);
  q_blocked : forall s, blocked (w_kernel w) s = true -> blocked (w_kernel w') s = true;
  q_own : forall s, thread_signal_of w = Ok s ->
    blocked (w_kernel w') s = blocked (w_kernel w) s;
}.

#[export] Instance quiet_refl : Reflexive quiet.
Proof. by split. Qed.

Lemma quiet_cur_tls w w' : quiet w w' -> cur_tls w' = cur_tls w.
Proof. intros Hq. unfold cur_tls. by rewrite (q_tcb _ _ Hq). Qed.

Lemma quiet_thread_signal w w' : quiet w w' -> thread_signal_of w' = thread_signal_of w.
Proof.
  intros Hq. unfold thread_signal_of.
  by rewrite (quiet_cur_tls _ _ Hq), (q_signalers _ _ Hq).
Qed.

#[export] Instance quiet_trans : Transitive quiet.
Proof.
  intros w1 w2 w3 H12 H23. pose proof H12 as []. pose proof H23 as [].
  split; try congruence; auto. intros s Hs.
  rewrite (q_own _ _ H23) by (by rewrite (quiet_thread_signal _ _ H12)).
  by apply (q_own _ _ H12).
Qed.

Lemma quiet_alive w w' t : quiet w w' -> alive w t -> alive w' t.
Proof. intros Hq [Ht Hd]. split; [by rewrite (quiet_cur_tls _ _ Hq) | done]. Qed.

Lemma arrive_quiet w s : quiet w (arrive w s).
Proof. by split. Qed.

Lemma advance_quiet w e : quiet w (advance e w).
Proof.
  unfold advance. transitivity (set_clock (w_clock w + dt e) w); [by split|].
  generalize (set_clock (w_clock w + dt e) w) as w1. induction (raised e) as [|s l IH];
    intros w1; [reflexivity|]. simpl. transitivity (arrive w1 s); [apply arrive_quiet | apply IH].
Qed.

Lemma advance_clock w e : w_clock (advance e w) = w_clock w + dt e.
Proof.
  unfold advance. transitivity (w_clock (set_clock (w_clock w + dt e) w)); [|done].
  generalize (set_clock (w_clock w + dt e) w) as w1. induction (raised e) as [|s l IH];
    intros w1; [done|]. simpl. by rewrite IH.
Qed.

Lemma unpend_quiet s w : quiet w (touch_errno (set_uc None (unpend s w))).
Proof.
  split; try done. intros loc. unfold touch_errno.
  change (errno_at w loc) with (errno_at (set_uc None (unpend s w)) loc).
  apply errno_at_restored.
Qed.

Lemma block_other_quiet s w :
  thread_signal_of w <> Ok s ->
  quiet w (touch_errno (set_uc None (set_wmask (set_add (k_mask (w_kernel w)) s) (unpend s w)))).
Proof.
  intros Hs. split; try done.
  - intros loc. unfold touch_errno.
    change (errno_at w loc) with
      (errno_at (set_uc None (set_wmask (set_add (k_mask (w_kernel w)) s) (unpend s w))) loc).
    apply errno_at_restored.
  - intros s'. apply set_add_mono.
  - intros s' Hs'. unfold blocked. simpl. rewrite law_add.
    rewrite bool_decide_false by congruence. done.
Qed.

(** No signal can make the thread leave for its call site, or even defer anything. *)
Definition inert w : Prop :=
  forall s, thread_signal_of w = Ok s -> blocked (w_kernel w) s = true.

Lemma inert_quiet w w' : inert w -> quiet w w' -> inert w'.
Proof.
  intros Hi Hq s Hs. rewrite (quiet_thread_signal _ _ Hq) in Hs.
  rewrite (q_own _ _ Hq) by done. by apply Hi.
Qed.

Lemma inert_irrelevant w s :
  inert w -> deliverable (w_kernel w) s = true -> thread_signal_of w <> Ok s.
Proof.
  intros Hi Hd Hs. apply Hi in Hs. unfold deliverable in Hd. rewrite Hs in Hd.
  by rewrite andb_false_r in Hd.
Qed.
End Quiet.

(** The preemption signal of the kernel thread. *)
Definition on_thread `{Platform} (w : world) (s : Signal) : Prop :=
  exists ps, w_signalers w !! w_tid w = Some ps /\ value (ps_signal ps) = Some s.

Lemma on_thread_inj `{Platform} w s s' : on_thread w s -> on_thread w s' -> s = s'.
Proof. intros (ps & Hps & Hs) (ps' & Hps' & Hs'). congruence. Qed.

Lemma quiet_on_thread `{Platform} w w' s : quiet w w' -> on_thread w' s <-> on_thread w s.
Proof. intros Hq. unfold on_thread. by rewrite (q_signalers _ _ Hq), (q_tid _ _ Hq). Qed.

(** An assertion made of fields that quiet interference keeps. *)
Ltac quiet_fields Hq :=
  repeat match goal with H : _ /\ _ |- _ => destruct H end; split_and!; try done;
  first [ by eapply quiet_alive
        | by rewrite (q_tcb _ _ Hq)
        | by rewrite (quiet_thread_signal _ _ Hq)
        | by rewrite (quiet_on_thread _ _ _ Hq)
        | by rewrite (q_group _ _ Hq)
        | by rewrite (q_own _ _ Hq)
        | by apply (q_blocked _ _ Hq)
        | rewrite (quiet_on_thread _ _ _ Hq); intros ?; apply (q_blocked _ _ Hq); by auto
        | by rewrite (q_errno _ _ Hq)
        | by rewrite (q_heap _ _ Hq)
        | by rewrite (q_hooked _ _ Hq)
        | by apply (q_uc _ _ Hq) ].


(** ** Interference, and the logic *)

(** What is assumed of the wall clock: it does not reach the time [until], and if it is [steady] it
    is never set back. *)
Record span : Set := mkSpan { until : Z; steady : bool }.

Section Rely.
Context `{PlatformLaws}.
(** The function's thread-control block, libset and boxed closure. *)
Context (a : Z) (g : Group) (h : nat).
(** Its stack, and a time that the wall clock does not reach. *)
Context (K : Reusable Stack) (horizon : span).
Hypothesis horizon_u64 : until horizon <= U64.
Implicit Types (w : world) (t : tls) (s : Signal) (cell : option Completion).

Definition in_time (c : Z) : Prop := 0 <= c < until horizon.

Lemma in_time_u64 c : in_time c -> is_u64 c.
Proof. unfold in_time, is_u64. lia. Qed.

(** The function's view while it runs: in group [grp], with the thread's signal blocked or not, with a
    deferred preemption or not, [errno] being [e] and its closure in state [cell]. *)
Definition view (blk def : bool) (grp : Group) (e : Z) cell w : Prop := exists t s c,
  alive w t /\ fs_base (w_tcb w) = a /\ thread_signal_of w = Ok s /\
  (s <> Kill /\ on_thread w s) /\ w_group w = grp /\ blocked (w_kernel w) s = blk /\ DEFERRED t = def /\
  (TASK t = mkTask None (Some c) false /\ cx_code c = CallSite /\ cx_stack c = K) /\
  BOOTSTRAP t = None /\ ERRNO_LOCATION t = Some g /\
  errno_at w (a, g) = e /\ w_heap w !! h = cell /\ w_hooked w = true /\ w_uc w = None /\
  in_time (w_clock w).

(** A paused function: its state is in [TASK], preemption is off, the signal blocked. *)
Definition paused (e : Z) cell w : Prop := exists t s c y,
  alive w t /\ fs_base (w_tcb w) = a /\ w_group w = SHARED /\ SIGNAL t = None /\
  DEFERRED t = false /\ TASK t = mkTask (Some e) (Some c) y /\
  (cx_code c = Interrupted /\ cx_stack c = K) /\
  (y = (DEADLINE t =? 0) /\ DEADLINE t <= w_clock w) /\ BOOTSTRAP t = None /\ ERRNO_LOCATION t = Some g /\
  (on_thread w s /\ blocked (w_kernel w) s = true) /\
  w_heap w !! h = cell /\ w_hooked w = true /\ w_uc w = None /\ in_time (w_clock w).

Lemma paused_inj e e' cell cell' w :
  paused e cell w -> paused e' cell' w -> e = e' /\ cell = cell'.
Proof.
  intros (t & s & c & y & [Ht _] & _ & _ & _ & _ & HT & _ & _ & _ & _ & _ & Hh & _)
    (t' & s' & c' & y' & [Ht' _] & _ & _ & _ & _ & HT' & _ & _ & _ & _ & _ & Hh' & _).
  split; congruence.
Qed.

(** Resuming a paused function brings its view back, with its own [errno]. *)
Definition resumed w w' : Prop :=
  exists e cell, paused e cell w /\ view false false g e cell w'.

Inductive istep : world -> world -> Prop :=
| istep_advance e w : in_time (w_clock (advance e w)) -> istep w (advance e w)
| istep_handle s w w' :
    deliverable (w_kernel w) s = true -> deliver s w = (Done false, w') -> istep w w'
| istep_pause s w w' w'' :
    deliverable (w_kernel w) s = true -> deliver s w = (Done true, w') -> resumed w' w'' ->
    istep w w''.

(** Every delivery returns, and one that leaves for the call site leaves a paused function. *)
Definition ok w : Prop := forall s, deliverable (w_kernel w) s = true ->
  match deliver s w with
  | (Done false, _) => True
  | (Done true, w') => exists e cell, paused e cell w'
  | _ => False
  end.

(** Weakest precondition: [Φ] holds when the program returns, [Ψ] when it panics, under any
    interference; it never aborts and never becomes undefined. *)
Fixpoint wp {A} (p : prog A) (Φ : A -> world -> Prop) (Ψ : string -> world -> Prop) w : Prop :=
  match p with
  | PRet a => forall w', rtc istep w w' -> ok w' /\ Φ a w'
  | PAct f k => forall w', rtc istep w w' -> ok w' /\ wp (k (f w').1) Φ Ψ (f w').2
  | PPanic m => forall w', rtc istep w w' -> ok w' /\ Ψ m w'
  | PAbort _ | PUnreachable => False
  end.

Lemma wp_istep {A} (p : prog A) Φ Ψ w w' : wp p Φ Ψ w -> rtc istep w w' -> wp p Φ Ψ w'.
Proof.
  destruct p; simpl; try done; intros Hp Hw w'' Hw'; apply Hp; by etransitivity.
Qed.

Lemma wp_ok {A} (p : prog A) Φ Ψ w : wp p Φ Ψ w -> ok w.
Proof. destruct p; simpl; try done; intros Hp; by apply Hp. Qed.

Lemma wp_bind {A B} (p : prog A) (k : A -> prog B) Φ Ψ w :
  wp p (fun a => wp (k a) Φ Ψ) Ψ w -> wp (p ≫= k) Φ Ψ w.
Proof.
  revert w. induction p as [x|R f k' IH|m|m|]; intros w Hp; try done.
  - simpl in *. by destruct (Hp w) as [_ ?].
  - intros w' Hw. destruct (Hp w' Hw) as [Hok Hk]. split; [done|]. by apply IH.
Qed.

Lemma wp_mono {A} (p : prog A) (Φ Φ' : A -> world -> Prop) (Ψ Ψ' : string -> world -> Prop) w :
  (forall x w, Φ x w -> Φ' x w) -> (forall m w, Ψ m w -> Ψ' m w) ->
  wp p Φ Ψ w -> wp p Φ' Ψ' w.
Proof.
  intros HΦ HΨ. revert w. induction p as [x|R f k' IH|m|m|]; intros w; simpl; try done;
    intros Hp w' Hw; destruct (Hp w' Hw); eauto.
Qed.

Lemma wp_catch {A} (p : prog A) (Φ : result A string -> world -> Prop) Ψ w :
  wp p (fun x => Φ (Ok x)) (fun m => Φ (Err m)) w -> wp (catch_unwind p) Φ Ψ w.
Proof.
  revert w. induction p as [x|R f k' IH|m|m|]; intros w; simpl; try done.
  intros Hp w' Hw. destruct (Hp w' Hw). eauto.
Qed.

(** ** Soundness *)

(** The clock stays within the horizon, and a steady one does not go back. *)
Fixpoint clock_ok (c : Z) (env : list tick) : Prop :=
  match env with
  | [] => in_time c
  | e :: env' => in_time c /\ (steady horizon = true -> 0 <= dt e) /\ clock_ok (c + dt e) env'
  end.

Lemma clock_ok_now c env : clock_ok c env -> in_time c.
Proof. by destruct env; [|intros [? _]]. Qed.

Definition all_ok w : Prop := forall w', rtc istep w w' -> ok w'.

Lemma deliver_all_sound l w :
  all_ok w ->
  (exists w', deliver_all l w = (Done false, w') /\ rtc istep w w') \/
  (exists s w1 w', deliver_all l w = (Done true, w') /\ rtc istep w w1 /\
     deliverable (w_kernel w1) s = true /\ deliver s w1 = (Done true, w')).
Proof.
  revert w. induction l as [|s l IH]; intros w Hok; [left; by exists w|].
  simpl. unfold gets, mbind, comp_bind. cbv beta iota.
  destruct (deliverable (w_kernel w) s) eqn:Hd; simpl; [|by apply IH].
  pose proof (Hok w (rtc_refl _ _) s Hd) as Hs.
  destruct (deliver s w) as [[[]| | |] w1] eqn:Hdel; try done.
  - right. exists s, w, w1. by split_and!.
  - assert (rtc istep w w1) as Hw by (apply rtc_once; by eapply istep_handle).
    destruct (IH w1) as [(w' & Hl & Hr) | (s' & w2 & w' & Hl & Hr & Hx)].
    { intros w' Hw'. apply Hok. by etransitivity. }
    + left. exists w'. split; [done|]. by etransitivity.
    + right. exists s', w2, w'. split_and!; try done; [by etransitivity | |]; apply Hx.
Qed.

(** What [wp] promises of an execution. *)
Definition meets {A} (Φ : A -> world -> Prop) (Ψ : string -> world -> Prop)
    (r : stopped A * world * list tick) : Prop :=
  match r with
  | (Finished x, w, _) => Φ x w
  | (Paused p, w, _) =>
      (exists e cell, paused e cell w) /\ forall w', resumed w w' -> wp p Φ Ψ w'
  | (Crashed (Panicked m), w, _) => Ψ m w
  | _ => False
  end.

Lemma interrupt_sound env w :
  all_ok w -> clock_ok (w_clock w) env ->
  exists w' env', clock_ok (w_clock w') env' /\
  (interrupt env w = ((Done false, w'), env') /\ rtc istep w w' \/
   exists s w1, interrupt env w = ((Done true, w'), env') /\ rtc istep w w1 /\
     deliverable (w_kernel w1) s = true /\ deliver s w1 = (Done true, w')).
Proof.
  intros Hok Hc. destruct env as [|e env]; unfold interrupt.
  - destruct (deliver_all_sound NOTIFICATION_SIGNALS w Hok)
      as [(w' & Hl & Hr) | (s & w1 & w' & Hl & Hr & Hd & Hs)]; exists w', []; rewrite Hl.
    + split; [|by left]. simpl. erewrite (deliver_all_clock (fun _ => True)) by exact Hl. done.
    + split; [|right; eauto 10]. simpl. erewrite (deliver_all_clock (fun _ => True)) by exact Hl. done.
  - destruct Hc as (_ & _ & Hc). rewrite <- advance_clock in Hc.
    assert (rtc istep w (advance e w)) as Hadv.
    { apply rtc_once, istep_advance. by eapply clock_ok_now. }
    destruct (deliver_all_sound NOTIFICATION_SIGNALS (advance e w))
      as [(w' & Hl & Hr) | (s & w1 & w' & Hl & Hr & Hd & Hs)].
    { intros w' Hw'. apply Hok. by etransitivity. }
    + exists w', env. rewrite Hl. split; [by erewrite (deliver_all_clock (fun _ => True)) by exact Hl|].
      left. split; [done|]. by etransitivity.
    + exists w', env. rewrite Hl. split; [by erewrite (deliver_all_clock (fun _ => True)) by exact Hl|].
      right. exists s, w1. split_and!; try done. by etransitivity.
Qed.

Lemma wp_all_ok {A} (p : prog A) Φ Ψ w : wp p Φ Ψ w -> all_ok w.
Proof. intros Hp w' Hw. eapply wp_ok, wp_istep; eauto. Qed.

(** Every action keeps the clock, as all actions of libinger do. *)
Lemma run_sound {A} X (p : prog A) Φ Ψ env w :
  steps_in (kept X) p -> wp p Φ Ψ w -> clock_ok (w_clock w) env -> meets Φ Ψ (run p env w).
Proof.
  revert env w. induction p as [x|R f k IH|m|m|]; intros env w Hst Hp Hc; try done;
    destruct (interrupt_sound env w (wp_all_ok _ _ _ _ Hp) Hc) as
      (w' & env' & Hc' & [[Hi Hr] | (s & w1 & Hi & Hr & Hd & Hs)]);
    simpl; rewrite Hi; simpl.
  1, 5: by apply Hp.
  1, 3, 4: split; [by specialize (wp_ok _ _ _ _ (wp_istep _ _ _ _ _ Hp Hr) s Hd); rewrite Hs |];
    intros w'' Hw''; eapply (wp_istep _ _ _ _ _ Hp); eapply rtc_r; [exact Hr|];
    by eapply istep_pause.
  destruct Hst as [Hf Hk]. destruct (Hp w' Hr) as [_ Hkp]. specialize (Hf w').
  destruct (f w') as [r w'']. simpl in *. apply IH; [apply Hk | done |].
  by rewrite (proj1 Hf).
Qed.
(** ** Stable assertions *)

(** An assertion that interference preserves, and under which every delivery is safe. *)
Class Stable (P : world -> Prop) : Prop := {
  stable_step : forall w w', P w -> istep w w' -> P w';
  stable_ok : forall w, P w -> ok w;
}.

Arguments stable_step P {_} w w'.
Arguments stable_ok P {_} w.

Lemma stable_rtc P `{!Stable P} w w' : P w -> rtc istep w w' -> P w'.
Proof.
  intros HP Hw. revert HP. induction Hw as [|w1 w2 w3 Hs _ IH]; [done|].
  intros HP. apply IH. by eapply (stable_step P).
Qed.

Lemma stable_or P Q : Stable P -> Stable Q -> Stable (fun w => P w \/ Q w).
Proof.
  intros HP HQ. split.
  - intros w w' [?|?] ?; [left; by eapply (stable_step P) | right; by eapply (stable_step Q)].
  - intros w [?|?]; [by apply (stable_ok P) | by apply (stable_ok Q)].
Qed.

Lemma wp_act {R A} (f : world -> R * world) (k : R -> prog A) P `{!Stable P} Φ Ψ w :
  P w -> (forall w, P w -> wp (k (f w).1) Φ Ψ (f w).2) -> wp (PAct f k) Φ Ψ w.
Proof.
  intros HP Hk w' Hw. assert (P w') as HP' by by eapply (stable_rtc P).
  split; [by apply (stable_ok P) | by apply Hk].
Qed.

Lemma wp_ret {A} (x : A) P `{!Stable P} (Φ : A -> world -> Prop) Ψ w :
  P w -> (forall w, P w -> Φ x w) -> wp (mret x) Φ Ψ w.
Proof.
  intros HP Hk w' Hw. assert (P w') as HP' by by eapply (stable_rtc P).
  split; [by apply (stable_ok P) | by apply Hk].
Qed.

Lemma wp_panic {A} m P `{!Stable P} (Φ : A -> world -> Prop) Ψ w :
  P w -> (forall w, P w -> Ψ m w) -> wp (PPanic m) Φ Ψ w.
Proof.
  intros HP Hk w' Hw. assert (P w') as HP' by by eapply (stable_rtc P).
  split; [by apply (stable_ok P) | by apply Hk].
Qed.

(** An assertion about a thread that is inert is stable if quiet interference preserves it. *)
Lemma inert_stable (P : world -> Prop) :
  (forall w, P w -> inert w /\ w_uc w = None) ->
  (forall w w', P w -> quiet w w' -> in_time (w_clock w') -> P w') ->
  (forall w, P w -> in_time (w_clock w)) -> Stable P.
Proof.
  intros Hin Hq Hu.
  assert (forall w s, P w -> deliverable (w_kernel w) s = true ->
    exists w', deliver s w = (Done false, w') /\ P w') as Hdel.
  { intros w s HP Hd. destruct (Hin w HP) as [Hi _].
    pose proof (inert_irrelevant _ _ Hi Hd) as Hs.
    eexists. split; [by apply deliver_irrelevant|].
    eapply Hq; [exact HP | by apply block_other_quiet | simpl; by apply Hu]. }
  split.
  - intros w w' HP Hstep. destruct Hstep as [e w Hc | s w w' Hd Hs | s w w' w'' Hd Hs _].
    + eapply Hq; [done | apply advance_quiet | done].
    + destruct (Hdel w s HP Hd) as (w1 & Hw1 & HP1). congruence.
    + destruct (Hdel w s HP Hd) as (w1 & Hw1 & HP1). congruence.
  - intros w HP s Hd. destruct (Hdel w s HP Hd) as (w1 & -> & _). done.
Qed.

(** ** Stability of the function's view *)

Lemma view_quiet blk def grp e cell w w' :
  view blk def grp e cell w -> quiet w w' -> in_time (w_clock w') ->
  view blk def grp e cell w'.
Proof.
  intros (t & s & c & Ht & Hfs & Hs & HS & Hg & Hb & Hd & HT & HB & HE & He & Hh & Hk & Hu & _)
    Hq Hc.
  exists t, s, c. split_and!; try done.
  - by eapply quiet_alive.
  - by rewrite (q_tcb _ _ Hq).
  - by rewrite (quiet_thread_signal _ _ Hq).
  - apply HS.
  - rewrite (quiet_on_thread _ _ _ Hq). apply HS.
  - by rewrite (q_group _ _ Hq).
  - by rewrite (q_own _ _ Hq).
  - apply HT.
  - apply HT.
  - apply HT.
  - by rewrite (q_errno _ _ Hq).
  - by rewrite (q_heap _ _ Hq).
  - by rewrite (q_hooked _ _ Hq).
  - by apply (q_uc _ _ Hq).
Qed.

Lemma view_u64 blk def grp e cell w : view blk def grp e cell w -> in_time (w_clock w).
Proof. intros (t & s & c & Hv). apply Hv. Qed.

Lemma view_inert def grp e cell w : view true def grp e cell w -> inert w /\ w_uc w = None.
Proof.
  intros (t & s & c & Ht & Hfs & Hs & HS & Hg & Hb & _ & _ & _ & _ & _ & _ & _ & Hu & _).
  split; [|done]. intros s' Hs'. congruence.
Qed.

#[export] Instance view_blocked_stable def grp e cell : Stable (view true def grp e cell).
Proof.
  apply inert_stable; [apply view_inert | apply view_quiet | apply view_u64].
Qed.

(** A delivery while the function's signal is unblocked: another thread's signal is quiet. *)
Lemma view_deliver_other blk def grp e cell w s :
  view blk def grp e cell w -> thread_signal_of w <> Ok s ->
  exists w', deliver s w = (Done false, w') /\ view blk def grp e cell w'.
Proof.
  intros Hv Hs. eexists. split; [by apply deliver_irrelevant|].
  eapply view_quiet; [exact Hv | by apply block_other_quiet | simpl; by eapply view_u64].
Qed.

Hypothesis g_own : g <> SHARED.

(** Its own signal, in its own libset: nothing before the deadline, a pause afterwards. *)
Lemma view_deliver_user e cell w s :
  view false false g e cell w -> thread_signal_of w = Ok s ->
  (exists w', deliver s w = (Done false, w') /\ view false false g e cell w') \/
  (exists w', deliver s w = (Done true, w') /\ paused e cell w').
Proof.
  intros Hv Hs. pose proof Hv as
    (t & s' & c & Ht & Hfs & Hs' & HS & Hg & Hb & Hd & (HT & Hcc & HK) & HB & HE & He & Hh & Hk & Hu & Hc).
  assert (s' = s) as -> by congruence. rewrite <- Hg in g_own.
  destruct (Z.le_gt_cases (DEADLINE t) (w_clock w)) as [Hdl|Hdl].
  - right. eexists. split.
    { eapply deliver_due; try done; [by apply in_time_u64 | by rewrite HT]. }
    destruct Ht as [Ht Hlive].
    exists (disabled (set_TASK
        (paused_task w t c (mkHandlerContext (k_mask (w_kernel w)) Interrupted)) t)), s,
      (mkContext (cx_stack c) (k_mask (w_kernel w)) Interrupted), (DEADLINE t =? 0).
    split_and!; try done.
    + split; [|done]. apply cur_tls_put with (t := t). exact Ht.
    + unfold paused_task, errno_loc. rewrite Hfs, Hg, law_errno_sel, He by congruence. done.
    + apply HS.
    + unfold blocked. simpl. apply set_add_same.
  - left. eexists. split; [eapply deliver_early; try done; by apply in_time_u64|].
    eapply view_quiet; [exact Hv | apply unpend_quiet | done].
Qed.

#[export] Instance view_user_stable e cell : Stable (view false false g e cell).
Proof.
  split.
  - intros w w' Hv Hstep. destruct Hstep as [ev w Hc | s w w' Hd Hs | s w w' w'' Hd Hs Hr].
    + eapply view_quiet; [done | apply advance_quiet | done].
    + destruct (decide (thread_signal_of w = Ok s)) as [Hown|Hother].
      * destruct (view_deliver_user _ _ _ _ Hv Hown) as [(w1 & ? & ?)|(w1 & ? & ?)]; congruence.
      * destruct (view_deliver_other _ _ _ _ _ _ _ Hv Hother) as (w1 & ? & ?). congruence.
    + destruct (decide (thread_signal_of w = Ok s)) as [Hown|Hother].
      * destruct (view_deliver_user _ _ _ _ Hv Hown) as [(w1 & ? & ?)|(w1 & Hw1 & Hp)];
          [congruence|].
        assert (w1 = w') as -> by congruence. destruct Hr as (e' & cell' & Hp' & Hv').
        destruct (paused_inj _ _ _ _ _ Hp Hp') as [-> ->]. done.
      * destruct (view_deliver_other _ _ _ _ _ _ _ Hv Hother) as (w1 & ? & ?). congruence.
  - intros w Hv s Hd. destruct (decide (thread_signal_of w = Ok s)) as [Hown|Hother].
    + destruct (view_deliver_user _ _ _ _ Hv Hown) as [(w1 & -> & ?)|(w1 & -> & ?)]; eauto.
    + by destruct (view_deliver_other _ _ _ _ _ _ _ Hv Hother) as (w1 & -> & ?).
Qed.

(** In the shared libset, a preemption is either still possible or already deferred. *)
Definition in_shared e cell w : Prop :=
  view false false SHARED e cell w \/ view true true SHARED e cell w.

Lemma view_deliver_shared e cell w s :
  view false false SHARED e cell w -> thread_signal_of w = Ok s ->
  exists w', deliver s w = (Done false, w') /\ view true true SHARED e cell w' /\
    thread_signal_of w' = Ok s.
Proof.
  intros Hv Hs. pose proof Hv as
    (t & s' & c & Ht & Hfs & Hs' & HS & Hg & Hb & Hd & (HT & Hcc & HK) & HB & HE & He & Hh & Hk & Hu & Hc).
  assert (s' = s) as -> by congruence.
  eexists. split; [by eapply deliver_shared|]. destruct Ht as [Ht Hlive].
  match goal with |- view _ _ _ _ _ ?w' /\ _ => assert (thread_signal_of w' = Ok s) as Hsig end.
  { unfold thread_signal_of in *. autorewrite with tls. simpl.
    change (cur_tls (touch_errno _)) with (cur_tls w). rewrite Ht in *. simpl.
    by rewrite Hlive in *. }
  split; [|done]. exists (set_DEFERRED true t), s, c. split_and!; try done.
  - split; [tls_now | done].
  - apply HS.
  - apply HS.
  - unfold blocked. simpl. apply set_add_same.
  - rewrite <- He. exact (errno_at_restored
      (set_uc None (set_wmask (set_add (k_mask (w_kernel w)) s) (unpend s w))) _ _).
Qed.

(** The same, on a thread whose preemption signal is [s]. *)
Definition in_shared_at s e cell w : Prop := in_shared e cell w /\ thread_signal_of w = Ok s.

Lemma in_shared_deliver s0 e cell w s :
  in_shared_at s0 e cell w -> deliverable (w_kernel w) s = true -> exists w',
    deliver s w = (Done false, w') /\ in_shared_at s0 e cell w'.
Proof.
  intros [Hv Hs0] Hd. destruct (decide (s0 = s)) as [->|Hne].
  - destruct Hv as [Hv|Hv].
    + destruct (view_deliver_shared _ _ _ _ Hv Hs0) as (w' & ? & ? & ?).
      exists w'. split; [done|]. split; [by right | done].
    + destruct (inert_irrelevant _ _ (proj1 (view_inert _ _ _ _ _ Hv)) Hd Hs0).
  - eexists. split; [apply deliver_irrelevant; congruence|].
    assert (quiet w (touch_errno (set_uc None
      (set_wmask (set_add (k_mask (w_kernel w)) s) (unpend s w))))) as Hq
      by (apply block_other_quiet; congruence).
    split; [|by rewrite (quiet_thread_signal _ _ Hq)].
    destruct Hv as [Hv|Hv]; [left|right];
      (eapply view_quiet; [exact Hv | exact Hq | simpl; by eapply view_u64]).
Qed.

#[export] Instance in_shared_at_stable s0 e cell : Stable (in_shared_at s0 e cell).
Proof.
  split.
  - intros w w' Hv Hstep. destruct Hstep as [ev w Hc | s w w' Hd Hs | s w w' w'' Hd Hs Hr].
    + destruct Hv as [Hv Hs]. pose proof (advance_quiet w ev) as Hq.
      split; [|by rewrite (quiet_thread_signal _ _ Hq)].
      destruct Hv; [left|right]; by eapply view_quiet.
    + destruct (in_shared_deliver _ _ _ _ _ Hv Hd) as (w1 & ? & ?). congruence.
    + destruct (in_shared_deliver _ _ _ _ _ Hv Hd) as (w1 & ? & ?). congruence.
  - intros w Hv s Hd. by destruct (in_shared_deliver _ _ _ _ _ Hv Hd) as (w1 & -> & _).
Qed.

Lemma in_shared_signal e cell w : in_shared e cell w -> exists s, in_shared_at s e cell w.
Proof.
  intros Hv. pose proof Hv as [(t & s & c & _ & _ & Hs & _)|(t & s & c & _ & _ & Hs & _)];
    exists s; by split.
Qed.

#[export] Instance in_shared_stable e cell : Stable (in_shared e cell).
Proof.
  split.
  - intros w w' Hv Hstep. destruct (in_shared_signal _ _ _ Hv) as [s Hs].
    by destruct (stable_step (in_shared_at s e cell) _ _ Hs Hstep).
  - intros w Hv. destruct (in_shared_signal _ _ _ Hv) as [s Hs].
    by apply (stable_ok (in_shared_at s e cell)).
Qed.
End Rely.
