(* ===== verification/Transparency.v ===== *)
(** * Preemption is transparent to the preemptible function

    Specifications, under interference, of every piece of code that runs on the oneshot stack:
    the hook after a nonpreemptible call, [pause], the function itself, the boxed closure and
    [schedule]. *)

From S2P Require Import Prelude Signal Reusable Gotcha Pools Timer Tcb World Preemption Linger.
From S2P Require Import Handler Interference.

(** What the function computes when nothing interferes: its result, and the [errno] it leaves,
    starting from [errno] [e]. *)
Fixpoint ueval (u : ucode) (e : Z) : ThdResult * Z :=
  match u with
  | URet v => (Ok v, e)
  | UPanic m => (Err m, e)
  | UStep k => ueval k e
  | USetErrno e' k => ueval k e'
  | UGetErrno k => ueval (k e) e
  | UShared _ k => ueval k e
  | UPause k => ueval k e
  end.

Section Transparency.
Context `{PlatformLaws}.
Context (a : Z) (g : Group) (h : nat) (K : Reusable Stack) (T : span).
Hypothesis T_u64 : until T <= U64.
Hypothesis g_own : g <> SHARED.
Implicit Types (w : world) (t : tls) (s : Signal) (cell : option Completion).

Abbreviation view := (view a g h K T).
Abbreviation wp := (wp a g h K T).
Abbreviation Stable := (Stable a g h K T).
Abbreviation in_shared := (in_shared a g h K T).

#[local] Existing Instance view_blocked_stable.
#[local] Instance user_stable e cell : Stable (view false false g e cell).
Proof. by apply view_user_stable. Qed.
#[local] Instance shared_stable e cell : Stable (in_shared e cell).
Proof. apply in_shared_stable. Qed.

(** ** Actions *)

Lemma wp_act_bind {R A} (f : world -> R * world) (k : R -> prog A) P `{!Stable P} Φ Ψ w :
  P w -> (forall w, P w -> wp (k (f w).1) Φ Ψ (f w).2) -> wp (act f ≫= k) Φ Ψ w.
Proof. intros HP Hk. by apply (wp_act _ _ _ _ _ f k P). Qed.

Lemma wp_read {R A} (f : world -> R) (k : R -> prog A) P `{!Stable P} Φ Ψ w :
  P w -> (forall w, P w -> wp (k (f w)) Φ Ψ w) -> wp (read f ≫= k) Φ Ψ w.
Proof. intros HP Hk. by apply (wp_act _ _ _ _ _ (fun w => (f w, w)) k P). Qed.

Lemma wp_write {A} (f : world -> world) (k : unit -> prog A) P `{!Stable P} Φ Ψ w :
  P w -> (forall w, P w -> wp (k tt) Φ Ψ (f w)) -> wp (write f ≫= k) Φ Ψ w.
Proof. intros HP Hk. by apply (wp_act _ _ _ _ _ (fun w => (tt, f w)) k P). Qed.

Lemma wp_with_tls {R A} (f : tls -> R * tls) (k : R -> prog A) P `{!Stable P} Φ Ψ w :
  P w ->
  (forall w, P w -> exists t, alive w t /\ wp (k (f t).1) Φ Ψ (put_tls (f t).2 w)) ->
  wp (with_tls f ≫= k) Φ Ψ w.
Proof.
  intros HP Hk.
  match goal with |- wp ?p _ _ _ => let p' := eval cbn in p in change (wp p' Φ Ψ w) end.
  eapply (wp_act _ _ _ _ _ _ _ P); [done|]. intros w' HP'.
  destruct (Hk w' HP') as (t & [Ht Hd] & Hwp). rewrite Ht, Hd.
  by destruct (f t) as [r t'].
Qed.

Lemma wp_call {X R A} proj inj (m : comp X R) (k : R -> prog A) P `{!Stable P} Φ Ψ w :
  P w ->
  (forall w, P w -> exists r x, m (proj w) = (Done r, x) /\ wp (k r) Φ Ψ (inj x w)) ->
  wp (call proj inj m ≫= k) Φ Ψ w.
Proof.
  intros HP Hk.
  match goal with |- wp ?p _ _ _ => let p' := eval cbn in p in change (wp p' Φ Ψ w) end.
  eapply (wp_act _ _ _ _ _ _ _ P); [done|]. intros w' HP'.
  destruct (Hk w' HP') as (r & x & Hm & Hwp). by rewrite Hm.
Qed.

Lemma wp_with_tls_last {R} (f : tls -> R * tls) P `{!Stable P} Φ Ψ w :
  P w ->
  (forall w, P w -> exists t, alive w t /\ wp (mret (f t).1) Φ Ψ (put_tls (f t).2 w)) ->
  wp (with_tls f) Φ Ψ w.
Proof.
  intros HP Hk. unfold with_tls.
  match goal with |- wp ?p _ _ _ => let p' := eval cbn in p in change (wp p' Φ Ψ w) end.
  eapply (wp_act _ _ _ _ _ _ _ P); [done|]. intros w' HP'.
  destruct (Hk w' HP') as (t & [Ht Hd] & Hwp). rewrite Ht, Hd.
  by destruct (f t) as [r t'].
Qed.

(** A program that has returned its value is its continuation. *)
Lemma wp_ret_bind {R A} (x : R) (k : R -> prog A) Φ Ψ w :
  wp (k x) Φ Ψ w -> wp (mret x) (fun r => wp (k r) Φ Ψ) Ψ w.
Proof.
  intros Hk w' Hw. assert (wp (k x) Φ Ψ w') as Hk' by by eapply wp_istep.
  split; [by eapply wp_ok | done].
Qed.

Lemma wp_assert {A} b msg (k : unit -> prog A) Φ Ψ w :
  b = true -> wp (k tt) Φ Ψ w -> wp (debug_assert b msg ≫= k) Φ Ψ w.
Proof. intros ->. unfold debug_assert. by rewrite andb_false_r. Qed.

Lemma wp_assert_last b msg Φ Ψ w :
  b = true -> wp (mret tt) Φ Ψ w -> wp (debug_assert b msg) Φ Ψ w.
Proof. intros ->. unfold debug_assert. by rewrite andb_false_r. Qed.

(** ** Updates of the view *)

Lemma view_set_group grp' blk def grp e cell w :
  view blk def grp e cell w -> view blk def grp' e cell (set_group grp' w).
Proof.
  intros (t & s & c & Hv). exists t, s, c. naive_solver.
Qed.

Lemma view_alive blk def grp e cell w :
  view blk def grp e cell w -> exists t, alive w t /\ DEFERRED t = def /\
    ERRNO_LOCATION t = Some g /\ fs_base (w_tcb w) = a.
Proof. intros (t & s & c & Hv). exists t. naive_solver. Qed.

(** An update of thread-local variables that the view does not mention, or of [DEFERRED]. *)
Lemma view_put_tls blk def def' grp e cell w t t' :
  view blk def grp e cell w -> alive w t ->
  SIGNAL t' = SIGNAL t -> DEFERRED t' = def' -> TASK t' = TASK t -> BOOTSTRAP t' = BOOTSTRAP t ->
  ERRNO_LOCATION t' = ERRNO_LOCATION t -> tls_destroyed t' = false ->
  view blk def' grp e cell (put_tls t' w).
Proof.
  intros (t0 & s & c & Ht0 & Hfs & Hs & Hv) Ht HS HD HT HB HE Hl.
  assert (t0 = t) as -> by (destruct Ht, Ht0; congruence).
  exists t', s, c. split; [by eapply alive_put|]. split; [done|].
  split; [|rewrite HD, HT, HB, HE; naive_solver].
  unfold thread_signal_of in *. rewrite cur_tls_put_eq. destruct Ht as [Ht Hd].
  rewrite Ht in *. simpl. by rewrite HS, Hl, Hd in *.
Qed.

Lemma view_errno_put e' blk def grp e cell w :
  view blk def grp e cell w ->
  view blk def grp e' cell (set_errnos (<[(a, g) := e']> (w_errno w)) w).
Proof.
  intros (t & s & c & Hv). exists t, s, c.
  repeat match goal with H : _ /\ _ |- _ => destruct H end. split_and!; try done.
  unfold errno_at. simpl. by rewrite lookup_insert_eq.
Qed.

Lemma view_errno_loc blk def e cell w :
  view blk def g e cell w -> errno_loc w = (a, g) /\ errno_at w (errno_loc w) = e.
Proof.
  intros (t & s & c & _ & Hfs & _ & _ & Hg & _ & _ & _ & _ & _ & He & _).
  assert (errno_loc w = (a, g)) as Hloc.
  { unfold errno_loc. by rewrite Hfs, Hg, law_errno_sel. }
  by rewrite Hloc.
Qed.

Lemma view_heap (x : Completion) blk def grp e cell w :
  view blk def grp e cell w ->
  view blk def grp e (Some x) (set_heap (<[h := x]> (w_heap w)) w).
Proof.
  intros (t & s & c & Hv). exists t, s, c.
  repeat match goal with H : _ /\ _ |- _ => destruct H end. split_and!; try done.
  simpl. by rewrite lookup_insert_eq.
Qed.

Lemma view_kill s blk def grp e cell w :
  view blk def grp e cell w ->
  view blk def grp e cell
    (set_kernel (set_pending (raise_pending (c_int s) (k_pending (w_kernel w))) (w_kernel w)) w).
Proof. intros (t & s' & c & Hv). exists t, s', c. naive_solver. Qed.

Lemma view_mask m blk blk' def grp e cell w s :
  view blk def grp e cell w -> thread_signal_of w = Ok s -> set_has m s = blk' ->
  view blk' def grp e cell (set_kernel (set_mask m (w_kernel w)) w).
Proof.
  intros (t & s' & c & Ht & Hfs & Hs' & HS & Hg & Hb & Hv) Hs Hm.
  assert (s' = s) as -> by congruence. exists t, s, c. split_and!; try done; naive_solver.
Qed.

(** While its signal is blocked, the thread's signal is fixed. *)
Definition view_sig s def grp e cell w : Prop :=
  view true def grp e cell w /\ thread_signal_of w = Ok s.

#[local] Instance view_sig_stable s def grp e cell : Stable (view_sig s def grp e cell).
Proof.
  apply inert_stable.
  - intros w [Hv _]. by eapply view_inert.
  - intros w w' [Hv Hs] Hq Hc. split; [by eapply view_quiet|].
    by rewrite (quiet_thread_signal _ _ Hq).
  - intros w [Hv _]. by eapply view_u64.
Qed.

Lemma view_signal blk def grp e cell w :
  view blk def grp e cell w -> exists s, thread_signal_of w = Ok s /\ s <> Kill /\ on_thread w s.
Proof. intros (t & s & c & Hv). exists s. naive_solver. Qed.

(** [mask] always succeeds. *)
Lemma wp_mask_any {A} un s (k : result unit Z -> prog A) P `{!Stable P} Φ Ψ w :
  P w ->
  (forall w m, P w ->
     (forall s', s' <> Kill -> set_has m s' =
        mask_spec un (blocked (w_kernel w) s') (set_has (set_add set_empty s) s')) ->
     wp (k (Ok tt)) Φ Ψ (set_kernel (set_mask m (w_kernel w)) w)) ->
  wp (mask un s ≫= k) Φ Ψ w.
Proof.
  intros HP Hk. unfold mask, syscall. apply wp_bind.
  apply wp_call with (P := P); [done|done|]. intros w' HP'.
  destruct (pthread_sigmask_run un (set_add set_empty s) (w_kernel w')) as (m & Hm & Hspec).
  eexists _, _. split; [exact Hm|]. apply wp_ret_bind. by apply Hk.
Qed.

(** [mask] of the thread's own signal. *)
Lemma wp_mask {A} un s blk def grp e cell (k : result unit Z -> prog A) P `{!Stable P} Φ Ψ w :
  (forall w, P w -> view blk def grp e cell w /\ thread_signal_of w = Ok s) ->
  P w ->
  (forall w, view (mask_spec un blk true) def grp e cell w -> thread_signal_of w = Ok s ->
     wp (k (Ok tt)) Φ Ψ w) ->
  wp (mask un s ≫= k) Φ Ψ w.
Proof.
  intros HPv HP Hk. apply wp_mask_any with (P := P); [done|done|]. intros w' m HP' Hspec.
  destruct (HPv w' HP') as [Hv Hs]. apply Hk; [|done].
  destruct (view_signal _ _ _ _ _ _ Hv) as (s' & Hs' & Hkill & _).
  assert (s' = s) as -> by congruence.
  eapply view_mask; [exact Hv | done |]. rewrite Hspec, set_add_same by done.
  f_equal. destruct Hv as (t & s' & c & _ & _ & Hs'' & _ & _ & Hb & _). congruence.
Qed.

(** ** The hook after a nonpreemptible call *)

(** The libset is the function's again: either nothing was deferred, or the signal is blocked. *)
Definition returning e cell w : Prop :=
  view false false g e cell w \/ view true true g e cell w.
#[local] Instance returning_stable e cell : Stable (returning e cell).
Proof. apply stable_or; apply _. Qed.

Lemma returning_alive e cell w :
  returning e cell w -> exists t, alive w t /\ ERRNO_LOCATION t = Some g /\
    fs_base (w_tcb w) = a /\ errno_at w (errno_loc w) = e.
Proof.
  intros [Hv|Hv]; destruct (view_alive _ _ _ _ _ _ Hv) as (t & Ht & _ & HE & Hfs);
    exists t; split_and!; try done; by eapply view_errno_loc.
Qed.

(** The last step of the hook writes the value that is already there. *)
Lemma wp_hook_errno {A} e cell (k : unit -> prog A) Φ Ψ w :
  view false false g e cell w ->
  (forall w, view false false g e cell w -> wp (k tt) Φ Ψ w) ->
  wp ((if is_none (@None Group) && negb (e =? 0)
       then write (fun w => set_errnos (<[(a, g) := e]> (w_errno w)) w) else mret tt) ≫= k) Φ Ψ w.
Proof.
  intros Hv Hk. destruct (e =? 0).
  - change (wp (mret tt ≫= k) Φ Ψ w). by apply Hk.
  - apply (wp_write _ k (view false false g e cell)); [done|].
    intros w' Hv'. apply Hk. by eapply view_errno_put.
Qed.

(** Sequencing with an intermediate assertion. *)
Lemma wp_seq {A B} (p : prog A) (k : A -> prog B) Q Φ Ψ w :
  wp p Q Ψ w -> (forall x w, Q x w -> wp (k x) Φ Ψ w) -> wp (p ≫= k) Φ Ψ w.
Proof. intros Hp Hk. apply wp_bind. eapply wp_mono; [exact Hk | done | exact Hp]. Qed.

Lemma wp_errno_group e cell Ψ w :
  returning e cell w ->
  wp (errno_group None) (fun loc w => loc = (a, g) /\ returning e cell w) Ψ w.
Proof.
  intros Hr. unfold errno_group. apply (wp_with_tls _ _ (returning e cell)); [done|].
  intros w1 Hr1. destruct (returning_alive _ _ _ Hr1) as (t & Ht & HE & _). exists t.
  split; [done|]. cbn [fst snd]. rewrite HE, put_tls_same by apply Ht.
  eapply (wp_act _ _ _ _ _ _ _ (returning e cell)); [done|]. intros w2 Hr2.
  destruct (returning_alive _ _ _ Hr2) as (t2 & _ & _ & Hfs & _).
  eapply (wp_ret _ _ _ _ _ _ (returning e cell)); [done|]. intros w3 Hr3. cbn [fst].
  by rewrite Hfs.
Qed.

(** Raising the deferred signal and unblocking it. *)
Lemma wp_reraise e cell s Ψ w :
  view_sig s false g e cell w ->
  wp (s ← thread_signal;
      match s with
      | Err e => mret (Err e)
      | Ok s => let signal := default s (@None Signal) in
                _ ← syscall (pthread_kill signal); mret (Ok (Some signal))
      end)
     (fun u w => u = Ok (Some s) /\ view_sig s false g e cell w) Ψ w.
Proof.
  intros Hv. apply (wp_read _ _ (view_sig s false g e cell)); [done|]. intros w1 Hv1.
  rewrite (proj2 Hv1). cbn [default]. apply (wp_call _ _ _ _ (view_sig s false g e cell)); [done|].
  intros w2 Hv2. eexists _, _. split; [apply pthread_kill_run|].
  eapply (wp_ret _ _ _ _ _ _ (view_sig s false g e cell)); [|done].
  split; [apply view_kill, Hv2 | apply Hv2].
Qed.

Lemma wp_hook {A} e cell (k : unit -> prog A) Φ Ψ w :
  returning e cell w ->
  (forall w, view false false g e cell w -> wp (k tt) Φ Ψ w) ->
  wp (resume_preemption ≫= k) Φ Ψ w.
Proof.
  intros Hr Hk. eapply wp_seq with (Q := fun _ => view false false g e cell);
    [|intros [] w1; apply Hk].
  unfold resume_preemption. eapply wp_seq with (Q := fun _ => view false false g e cell);
    [|intros _ w1 Hv1; by eapply (wp_ret _ _ _ _ _ _ (view false false g e cell))].
  unfold enable_preemption. eapply wp_seq; [by apply (wp_errno_group e cell)|].
  intros loc w1 [-> Hr1]. apply (wp_read _ _ (returning e cell)); [done|]. intros w2 Hr2.
  destruct (returning_alive _ _ _ Hr2) as (_ & _ & _ & _ & ->).
  match goal with |- wp (mret (Ok None) ≫= ?k) ?Φ ?Ψ ?w => change (wp (k (Ok None)) Φ Ψ w) end.
  cbv beta iota.
  apply (wp_with_tls _ _ (returning e cell)); [done|]. clear w w1 w2 Hr Hr1 Hr2. intros w Hr.
  destruct Hr as [Hv|Hv]; destruct (view_alive _ _ _ _ _ _ Hv) as (t & Ht & HD & _);
    exists t; (split; [done|]); cbn [fst snd]; rewrite HD; cbv iota.
  - match goal with |- wp (mret ?u ≫= ?k) ?Φ ?Ψ ?w => change (wp (k u) Φ Ψ w) end. cbv beta iota.
    match goal with |- wp (mret ?u ≫= ?k) ?Φ ?Ψ ?w => change (wp (k u) Φ Ψ w) end. cbv beta.
    apply wp_hook_errno with (cell := cell).
    { eapply view_put_tls; try done. by apply Ht. }
    intros w1 Hv1. by eapply (wp_ret _ _ _ _ _ _ (view false false g e cell)).
  - destruct (view_signal _ _ _ _ _ _ Hv) as (s & Hs & _).
    eapply wp_seq; [eapply (wp_reraise e cell s)|].
    { split; [eapply view_put_tls; try done; by apply Ht|].
      unfold thread_signal_of in *. rewrite cur_tls_put_eq. destruct Ht as [Ht Hl].
      rewrite Ht in *. simpl. by rewrite Hl in *. }
    intros u w1 [-> Hv1]. cbv beta iota. eapply wp_seq with (Q := fun _ => view false false g e cell).
    { eapply (wp_mask _ _ true _ _ _ _ _ (view_sig s false g e cell)); [done|done|]. intros w2 Hv2 _.
      by eapply (wp_ret _ _ _ _ _ _ (view false false g e cell)). }
    intros [] w2 Hv2. apply wp_hook_errno with (cell := cell); [done|].
    intros w3 Hv3. by eapply (wp_ret _ _ _ _ _ _ (view false false g e cell)).
Qed.

(** ** The preemptible function *)

#[local] Instance shared_at_stable s e cell : Stable (in_shared_at a g h K T s e cell).
Proof. apply in_shared_at_stable. Qed.

Lemma in_shared_back e cell w :
  in_shared e cell w -> returning e cell (set_group g w).
Proof. intros [Hv|Hv]; [left|right]; by eapply view_set_group. Qed.

(** A nonpreemptible call, around a body that leaves the view alone. *)
Lemma wp_shared_call {A} (body : prog A) e cell (Ψ : string -> world -> Prop) w :
  (forall w, in_shared e cell w -> wp body (fun _ => in_shared e cell) Ψ w) ->
  view false false g e cell w ->
  wp (shared_call body) (fun _ => view false false g e cell) Ψ w.
Proof.
  intros Hbody Hv. unfold shared_call, group_thread_get, group_thread_set.
  apply (wp_read _ _ (view false false g e cell)); [done|]. intros w1 Hv1.
  assert (w_group w1 = g) as -> by (destruct Hv1 as (t & s & c & Hv1); apply Hv1).
  apply (wp_write _ _ (view false false g e cell)); [done|]. intros w2 Hv2.
  eapply wp_seq; [apply Hbody; left; by eapply view_set_group|]. intros r w3 Hv3.
  apply (wp_write _ _ (in_shared e cell)); [done|]. intros w4 Hv4.
  apply (wp_read _ _ (returning e cell)); [by apply in_shared_back|]. intros w5 Hv5.
  assert (w_hooked w5 = true) as ->
    by (destruct Hv5 as [(t & s & c & Hv5)|(t & s & c & Hv5)]; apply Hv5).
  apply wp_hook with (e := e) (cell := cell); [done|]. intros w6 Hv6.
  by apply (wp_ret _ _ _ _ _ _ (view false false g e cell)).
Qed.

Lemma wp_steps n e cell Ψ w :
  in_shared e cell w -> wp (steps n) (fun _ => in_shared e cell) Ψ w.
Proof.
  revert w. induction n as [|n IH]; intros w Hv; cbn [steps].
  - by apply (wp_ret _ _ _ _ _ _ (in_shared e cell)).
  - by apply (wp_write _ _ (in_shared e cell)).
Qed.

Lemma in_shared_alive e cell w :
  in_shared e cell w -> exists t, alive w t /\ w_group w = SHARED /\
    (view false (DEFERRED t) SHARED e cell w \/ view true (DEFERRED t) SHARED e cell w).
Proof.
  intros [Hv|Hv]; pose proof Hv as (t & s & c & Ht & _ & _ & _ & Hg & _ & HD & _);
    exists t; rewrite HD; naive_solver.
Qed.

Lemma in_shared_deadline d e cell w t :
  in_shared e cell w -> alive w t -> in_shared e cell (put_tls (set_DEADLINE d t) w).
Proof.
  intros [Hv|Hv] Ht; destruct (view_alive _ _ _ _ _ _ Hv) as (t' & Ht' & HD & _);
    assert (t' = t) as -> by (destruct Ht, Ht'; congruence); [left|right];
    (eapply view_put_tls; try done; apply Ht).
Qed.

(** Blocking the signal by hand. *)
Lemma in_shared_block m s e cell w :
  in_shared_at a g h K T s e cell w ->
  (forall s', s' <> Kill -> set_has m s' =
     mask_spec Block (blocked (w_kernel w) s') (set_has (set_add set_empty s) s')) ->
  exists def, view_sig s def SHARED e cell (set_kernel (set_mask m (w_kernel w)) w).
Proof.
  intros [Hv Hs] Hm.
  assert (exists blk def, view blk def SHARED e cell w) as (blk & def & Hv')
    by (destruct Hv; eauto). exists def. split; [|done].
  destruct (view_signal _ _ _ _ _ _ Hv') as (s' & Hs' & Hk & _).
  assert (s' = s) as -> by congruence.
  eapply view_mask; [exact Hv' | done |]. rewrite Hm, set_add_same by done.
  by destruct (blocked _ _).
Qed.

(** [pause] requests a preemption for when it returns. *)
Lemma wp_pause e cell Ψ w :
  in_shared e cell w -> wp pause (fun _ => in_shared e cell) Ψ w.
Proof.
  intros Hv. unfold pause, put_local. apply (wp_with_tls _ _ (in_shared e cell)); [done|].
  intros w1 Hv1. destruct (in_shared_alive _ _ _ Hv1) as (t & Ht & _).
  exists t. split; [done|]. cbn [fst snd]. unfold defer_preemption, is_preemptible.
  eapply wp_seq with (Q := fun p w => p = false /\ in_shared e cell w).
  { apply (wp_read _ _ (in_shared e cell)); [by apply in_shared_deadline|]. intros w2 Hv2.
    destruct (in_shared_alive _ _ _ Hv2) as (_ & _ & -> & _).
    apply (wp_ret _ _ _ _ _ _ (in_shared e cell)); [done|]. intros w3 Hv3. split; [|done].
    by rewrite (proj2 (is_shared_true _) eq_refl). }
  intros p w2 [-> Hv2]. apply wp_assert; [done|].
  eapply wp_seq with (Q := fun _ w => exists s def, view_sig s def SHARED e cell w).
  - destruct (in_shared_signal _ _ _ _ _ _ _ _ Hv2) as [s Hs].
    apply (wp_read _ _ (in_shared_at a g h K T s e cell)); [done|]. intros w3 Hv3.
    rewrite (proj2 Hv3). cbv iota beta.
    apply (wp_mask_any _ _ _ (in_shared_at a g h K T s e cell)); [done|]. intros w4 m Hv4 Hm.
    destruct (in_shared_block _ _ _ _ _ Hv4 Hm) as [def Hv5].
    apply (wp_ret _ _ _ _ _ _ (view_sig s def SHARED e cell)); eauto.
  - intros [] w3 (s & def & Hv3).
    apply wp_with_tls_last with (P := view_sig s def SHARED e cell); [apply _|done|].
    intros w4 [Hv4 _]. destruct (view_alive _ _ _ _ _ _ Hv4) as (t4 & Ht4 & _).
    exists t4. split; [done|].
    apply (wp_ret _ _ _ _ _ _ (in_shared e cell)); [|done]. right.
    eapply view_put_tls; try done. apply Ht4.
Qed.

(** What a function ends with: a return or a panic, and its [errno]. *)
Definition ends_with u e cell (r : ThdResult) w : Prop :=
  (ueval u e).1 = r /\ view false false g (ueval u e).2 cell w.

Lemma wp_compile u e cell w :
  view false false g e cell w ->
  wp (compile u) (fun v => ends_with u e cell (Ok v)) (fun m => ends_with u e cell (Err m)) w.
Proof.
  unfold ends_with. revert e w. induction u as [v|m|k IH|e' k IH|k IH|n k IH|k IH];
    intros e w Hv; cbn [compile ueval fst snd].
  - by apply (wp_ret _ _ _ _ _ _ (view false false g e cell)).
  - by apply (wp_panic _ _ _ _ _ _ (view false false g e cell)).
  - apply (wp_write _ _ (view false false g e cell)); [done|]. intros w1 Hv1. by apply IH.
  - apply (wp_write _ _ (view false false g e cell)); [done|]. intros w1 Hv1. apply IH.
    rewrite (proj1 (view_errno_loc _ _ _ _ _ Hv1)). by eapply view_errno_put.
  - apply (wp_read _ _ (view false false g e cell)); [done|]. intros w1 Hv1.
    rewrite (proj2 (view_errno_loc _ _ _ _ _ Hv1)). by apply IH.
  - eapply wp_seq; [apply wp_shared_call; [|exact Hv]; intros; by apply wp_steps|].
    intros [] w1 Hv1. by apply IH.
  - eapply wp_seq; [apply wp_shared_call; [|exact Hv]; intros; by apply wp_pause|].
    intros [] w1 Hv1. by apply IH.
Qed.

(** The boxed closure runs the function once and keeps its result. *)
Lemma wp_closure u e Ψ w :
  view false false g e (Some (Function u)) w ->
  wp (closure_call h false)
    (fun r w => r = None /\
       view false false g (ueval u e).2 (Some (Return (ueval u e).1)) w) Ψ w.
Proof.
  intros Hv. unfold closure_call.
  apply (wp_act_bind _ _ (view false false g e (Some (Function u)))); [done|]. intros w1 Hv1.
  assert (w_heap w1 !! h = Some (Function u)) as Hh
    by (destruct Hv1 as (t & s & c & Hv1); apply Hv1).
  cbn [fst snd]. rewrite Hh. cbv iota.
  eapply wp_seq with (Q := ends_with u e (Some Empty));
    [apply wp_catch, wp_compile; by eapply view_heap|].
  intros r w2 [<- Hv2].
  apply (wp_write _ _ (view false false g (ueval u e).2 (Some Empty))); [done|].
  intros w3 Hv3.
  apply (wp_ret _ _ _ _ _ _
    (view false false g (ueval u e).2 (Some (Return (ueval u e).1)))); [|done].
  by eapply view_heap.
Qed.

(** ** The trampoline *)

(** Before preemption is enabled: the signal [s] is blocked, the closure waits in [BOOTSTRAP]. *)
Definition boot (b : option (nat * Group)) (loc : option Group) grp s (D : Z -> Prop) e cell w
  : Prop := exists t c,
  alive w t /\ fs_base (w_tcb w) = a /\ thread_signal_of w = Ok s /\ (s <> Kill /\ on_thread w s) /\
  w_group w = grp /\ blocked (w_kernel w) s = true /\ DEFERRED t = false /\
  (TASK t = mkTask None (Some c) false /\ cx_code c = CallSite /\ cx_stack c = K) /\
  BOOTSTRAP t = b /\ ERRNO_LOCATION t = loc /\ D (DEADLINE t) /\
  errno_at w (a, g) = e /\ w_heap w !! h = cell /\ w_hooked w = true /\ w_uc w = None /\
  in_time T (w_clock w).

(** After it is disabled again, with the signal [s] blocked if it is this thread's. *)
Definition ended def s e cell w : Prop := exists t c,
  alive w t /\ fs_base (w_tcb w) = a /\ w_group w = SHARED /\ SIGNAL t = None /\
  DEFERRED t = def /\ (TASK t = mkTask None (Some c) false /\ cx_stack c = K) /\
  BOOTSTRAP t = None /\
  ERRNO_LOCATION t = Some g /\ (on_thread w s -> blocked (w_kernel w) s = true) /\
  errno_at w (a, g) = e /\ w_heap w !! h = cell /\ w_hooked w = true /\ w_uc w = None /\
  in_time T (w_clock w).

#[local] Instance boot_stable b loc grp s D e cell : Stable (boot b loc grp s D e cell).
Proof.
  apply inert_stable.
  - intros w (t & c & Hb). split; [|apply Hb]. intros s' Hs'.
    destruct Hb as (_ & _ & Hs & _ & _ & Hblk & _). congruence.
  - intros w w' (t & c & Hb) Hq Hc. exists t, c. quiet_fields Hq.
  - intros w (t & c & Hb). apply Hb.
Qed.

Lemma ended_no_signal def s e cell w : ended def s e cell w -> thread_signal_of w = Err tt.
Proof.
  intros (t & c & [Ht Hl] & _ & _ & Hs & _). unfold thread_signal_of.
  by rewrite Ht, Hl, Hs.
Qed.

#[local] Instance ended_stable def s e cell : Stable (ended def s e cell).
Proof.
  apply inert_stable.
  - intros w Hw. split; [|by destruct Hw as (t & c & Hw); apply Hw]. intros s' Hs'.
    by rewrite (ended_no_signal _ _ _ _ _ Hw) in Hs'.
  - intros w w' (t & c & Hb) Hq Hc. exists t, c. quiet_fields Hq.
  - intros w (t & c & Hb). apply Hb.
Qed.

Lemma boot_view s grp D e cell w :
  boot None (Some g) grp s D e cell w -> view_sig s false grp e cell w.
Proof. intros (t & c & Hb). split; [exists t, s, c|]; naive_solver. Qed.

(** An update of the thread-local variables during the bootstrap. *)
Lemma boot_put_tls b loc b' loc' grp s D D' e cell w t t' :
  boot b loc grp s D e cell w -> alive w t ->
  SIGNAL t' = SIGNAL t -> DEFERRED t' = DEFERRED t -> TASK t' = TASK t -> BOOTSTRAP t' = b' ->
  ERRNO_LOCATION t' = loc' -> D' (DEADLINE t') -> tls_destroyed t' = false ->
  boot b' loc' grp s D' e cell (put_tls t' w).
Proof.
  intros (t0 & c & Ht0 & Hfs & Hs & Hb) Ht HS HD HT HB HE HDL Hl.
  assert (t0 = t) as -> by (destruct Ht, Ht0; congruence).
  exists t', c. split; [by eapply alive_put|]. split; [done|].
  split; [|rewrite HD, HT; naive_solver].
  unfold thread_signal_of in *. rewrite cur_tls_put_eq. destruct Ht as [Ht Hd].
  rewrite Ht in *. simpl. by rewrite HS, Hl, Hd in *.
Qed.

Lemma boot_alive b loc grp s D e cell w :
  boot b loc grp s D e cell w -> exists t, alive w t /\ BOOTSTRAP t = b /\
    ERRNO_LOCATION t = loc /\ D (DEADLINE t) /\ DEFERRED t = false /\ fs_base (w_tcb w) = a /\
    thread_signal_of w = Ok s /\ in_time T (w_clock w).
Proof. intros (t & c & Hb). exists t. naive_solver. Qed.

(** A budget that leaves the deadline representable: no limit, or not too far away. *)
Definition fits (us : Z) : Prop := 0 <= us /\ (U64 <= us * 1000 \/ until T + us * 1000 <= U64).

Lemma boot_set_group grp' b loc grp s D e cell w :
  boot b loc grp s D e cell w -> boot b loc grp' s D e cell (set_group grp' w).
Proof. intros (t & c & Hb). exists t, c. naive_solver. Qed.

(** Enabling preemption on the way into the function. *)
Lemma wp_enable {A} loc s D e cell (k : result (option Signal) unit -> prog A) Φ Ψ w :
  boot None loc SHARED s D e cell w ->
  (forall w, view false false g e cell w -> wp (k (Ok (Some s))) Φ Ψ w) ->
  wp (enable_preemption (Some g) ≫= k) Φ Ψ w.
Proof.
  intros Hb Hk. eapply wp_seq with (Q := fun r w => r = Ok (Some s) /\
    view false false g e cell w); [|intros r w1 [-> Hv1]; by apply Hk].
  unfold enable_preemption. set (B grp := boot None (Some g) grp s D e cell).
  eapply wp_seq with (Q := fun _ => B SHARED).
  { unfold errno_group. apply (wp_with_tls _ _ (boot None loc SHARED s D e cell)); [done|].
    intros w1 Hb1. destruct (boot_alive _ _ _ _ _ _ _ _ Hb1) as (t & Ht & HB & _ & HD & _).
    exists t. split; [done|]. rewrite law_errno_location. cbn [fst snd].
    apply (wp_act _ _ _ _ _ _ _ (B SHARED)); [eapply boot_put_tls; try done; apply Ht|].
    intros w2 Hb2. by apply (wp_ret _ _ _ _ _ _ (B SHARED)). }
  intros er w1 Hb1. apply (wp_read _ _ (B SHARED)); [done|]. intros w2 Hb2.
  generalize (errno_at w2 (errno_loc w2)). intros er2.
  eapply wp_seq with (Q := fun u w => u = Ok (Some s) /\ B g w).
  { apply (wp_write _ _ (B SHARED)); [done|]. intros w3 Hb3.
    apply (wp_read _ _ (B g)); [by eapply boot_set_group|]. intros w4 Hb4.
    apply (wp_ret _ _ _ _ _ _ (B g)); [done|]. intros w5 Hb5.
    by destruct (boot_alive _ _ _ _ _ _ _ _ Hb4) as (t & _ & _ & _ & _ & _ & _ & -> & _). }
  intros u w3 [-> Hb3]. cbv beta iota.
  apply (wp_with_tls _ _ (B g)); [done|]. intros w4 Hb4.
  destruct (boot_alive _ _ _ _ _ _ _ _ Hb4) as (t & Ht & HB & HE & HD & Hdef & _).
  exists t. split; [done|]. cbn [fst snd]. rewrite Hdef. cbv iota.
  match goal with |- wp (mret ?u ≫= ?k) ?Φ ?Ψ ?w => change (wp (k u) Φ Ψ w) end. cbv beta iota.
  eapply wp_seq with (Q := fun _ => view false false g e cell).
  { eapply (wp_mask _ _ true _ _ _ _ _ (view_sig s false g e cell)); [done| |].
    - eapply boot_view with (D := D). eapply boot_put_tls; try done; apply Ht.
    - intros w5 Hv5 _. by eapply (wp_ret _ _ _ _ _ _ (view false false g e cell)). }
  intros [] w5 Hv5.
  match goal with |- wp (_ ≫= ?k) ?Φ ?Ψ ?w => change (wp (k tt) Φ Ψ w) end. cbv beta.
  by eapply (wp_ret _ _ _ _ _ _ (view false false g e cell)).
Qed.

(** The last steps of disabling it. *)
Lemma wp_leave s e cell P `{!Stable P} Ψ w :
  P w ->
  (forall w, P w -> exists blk def, view blk def SHARED e cell w /\
     (on_thread w s -> blocked (w_kernel w) s = true)) ->
  wp (_ ← put_local (set_SIGNAL None); put_local (set_DEFERRED false))
    (fun _ => ended false s e cell) Ψ w.
Proof.
  intros HP Hview. apply (wp_with_tls _ _ P); [done|]. intros w1 HP1.
  destruct (Hview w1 HP1) as (blk & def & (t & s' & c & Ht & Hfs & Hs' & _ & Hg & Hb & Hd &
    (HT & _ & HK) & HB & HE & He & Hrest) & Hblk).
  exists t. split; [done|]. cbn [fst snd].
  apply wp_with_tls_last with (P := ended def s e cell); [apply _| |].
  { exists (set_SIGNAL None t), c. split; [eapply alive_put; [done|apply Ht]|]. naive_solver. }
  clear - H0 T_u64 g_own. intros w (t & c & Ht & Hrest). exists t. split; [done|].
  apply (wp_ret _ _ _ _ _ _ (ended false s e cell)); [|done].
  exists (set_DEFERRED false t), c. split; [eapply alive_put; [done|apply Ht]|]. naive_solver.
Qed.

(** Blocking another thread's signal. *)
Lemma in_shared_mask_other m s s1 e cell w :
  in_shared_at a g h K T s1 e cell w -> s1 <> s ->
  (forall s', s' <> Kill -> set_has m s' =
     mask_spec Block (blocked (w_kernel w) s') (set_has (set_add set_empty s) s')) ->
  in_shared_at a g h K T s1 e cell (set_kernel (set_mask m (w_kernel w)) w).
Proof.
  intros [Hv Hs] Hne Hm. split; [|done].
  assert (forall blk def, view blk def SHARED e cell w ->
    view blk def SHARED e cell (set_kernel (set_mask m (w_kernel w)) w)) as Hkeep.
  { intros blk def Hv1. destruct (view_signal _ _ _ _ _ _ Hv1) as (s' & Hs' & Hk & _).
    assert (s' = s1) as -> by congruence. eapply view_mask; [exact Hv1 | done |].
    rewrite Hm, law_add, bool_decide_false, law_empty by congruence. cbn [mask_spec orb].
    rewrite orb_false_r.
    destruct Hv1 as (t & s' & c & _ & _ & Hs'' & _ & _ & Hb & _). congruence. }
  destruct Hv; [left|right]; auto.
Qed.

(** Disabling preemption on the way out.  The signal [s] that is blocked is the one that was
    unblocked when the function was started; it is not the thread's own if the function has moved
    to another thread. *)
Lemma wp_disable s e cell Ψ w :
  view false false g e cell w ->
  wp (disable_preemption (Some s)) (fun _ => ended false s e cell) Ψ w.
Proof.
  intros Hv. unfold disable_preemption, group_thread_set.
  apply (wp_write _ _ (view false false g e cell)); [done|]. intros w1 Hv1.
  destruct (view_signal _ _ _ _ _ _ Hv1) as (s1 & Hs1 & _ & _).
  eapply wp_seq with (Q := fun _ w => (exists def, view_sig s def SHARED e cell w) \/
    (exists s1, s1 <> s /\ in_shared_at a g h K T s1 e cell w)).
  { apply (wp_mask_any _ _ _ (in_shared_at a g h K T s1 e cell)).
    - split; [left; by eapply view_set_group | done].
    - intros w2 m Hv2 Hm. destruct (decide (s1 = s)) as [->|Hne].
      + destruct (in_shared_block _ _ _ _ _ Hv2 Hm) as [def Hv3].
        apply (wp_ret _ _ _ _ _ _ (view_sig s def SHARED e cell)); eauto.
      + pose proof (in_shared_mask_other _ _ _ _ _ _ Hv2 Hne Hm) as Hv3.
        apply (wp_ret _ _ _ _ _ _ (in_shared_at a g h K T s1 e cell)); eauto. }
  intros [] w2 [[def Hv2]|(s2 & Hne & Hv2)].
  - apply (wp_leave s e cell (view_sig s def SHARED e cell)); [done|]. intros w3 [Hv3 Hs3].
    exists true, def. split; [done|]. intros _.
    destruct Hv3 as (t & s' & c & _ & _ & Hs' & _ & _ & Hb & _). congruence.
  - apply (wp_leave s e cell (in_shared_at a g h K T s2 e cell)); [done|]. intros w3 [Hv3 Hs3].
    assert (exists blk def, view blk def SHARED e cell w3) as (blk & def & Hv4)
      by (destruct Hv3; eauto). exists blk, def. split; [done|]. intros Hon.
    destruct (view_signal _ _ _ _ _ _ Hv4) as (s' & Hs' & _ & Hon').
    pose proof (on_thread_inj _ _ _ Hon Hon'). congruence.
Qed.

(** [schedule] runs the function to its end and switches preemption off again. *)
Lemma wp_call_function u loc s D e w :
  boot None loc SHARED s D e (Some (Function u)) w ->
  wp (call_function h g) (fun _ => ended false s (ueval u e).2 (Some (Return (ueval u e).1)))
    (fun _ _ => False) w.
Proof.
  intros Hb. unfold call_function. set (cell := Some (Function u)) in *.
eapply wp_enable; [exact Hb|]. intros w3 Hv3. cbv iota.
  apply wp_assert; [done|].
  eapply wp_seq; [by apply wp_closure|]. intros r w4 [_ Hv4].
  set (e' := (ueval u e).2) in *. set (cell' := Some (Return (ueval u e).1)) in *.
  eapply wp_seq; [by apply wp_disable|]. intros [] w5 Hv5.
  apply (wp_with_tls _ _ (ended false s e' cell')); [done|]. intros w6 Hv6.
  pose proof Hv6 as (t6 & c6 & Ht6 & _ & _ & _ & _ & [HT6 _] & _).
  exists t6. split; [done|]. cbn [fst snd]. rewrite put_tls_same by apply Ht6.
  rewrite HT6. apply wp_assert_last; [done|].
  by apply (wp_ret _ _ _ _ _ _ (ended false s e' cell')).
Qed.
End Transparency.
