(* ===== verification/Oneshot.v ===== *)
(** * Running on the oneshot stack

    What can come of entering the oneshot stack, for the first time through [schedule] or again
    after a pause: the function finishes with the result it would have computed undisturbed, or
    it is paused and can be continued.  In both cases preemption is off and everything that is
    not the function's is as it was. *)

From S2P Require Import Prelude Signal Reusable Gotcha Pools Timer Tcb World Preemption Linger.
From S2P Require Import Handler Frame Errno Interference Transparency.

Section Inert.
Context `{PlatformLaws}.
Implicit Types (w : world).

Lemma deliver_all_inert l w :
  inert w -> exists w', deliver_all l w = (Done false, w') /\ quiet w w'.
Proof.
  revert w. induction l as [|s l IH]; intros w Hi; [by exists w|].
  simpl. unfold gets, mbind, comp_bind. cbv beta iota.
  destruct (deliverable (w_kernel w) s) eqn:Hd; simpl; [|by apply IH].
  pose proof (inert_irrelevant _ _ Hi Hd) as Hs. rewrite (deliver_irrelevant _ _ Hs).
  pose proof (block_other_quiet _ _ Hs) as Hq.
  destruct (IH _ (inert_quiet _ _ Hi Hq)) as (w' & Hl & Hq').
  exists w'. split; [exact Hl | by etransitivity].
Qed.

(** A steady clock does not go back. *)
Definition forward (T : span) w w' : Prop := steady T = true -> w_clock w <= w_clock w'.

(** No signal makes an inert thread leave. *)
Lemma interrupt_inert T env w :
  inert w -> clock_ok T (w_clock w) env -> exists w' env',
    interrupt env w = ((Done false, w'), env') /\ quiet w w' /\ forward T w w' /\
    in_time T (w_clock w') /\ clock_ok T (w_clock w') env'.
Proof.
  intros Hi Hc. unfold interrupt. generalize NOTIFICATION_SIGNALS as l. intros l.
  destruct env as [|e env].
  - destruct (deliver_all_inert l w Hi) as (w' & Hl & Hq). exists w', [].
    rewrite Hl. apply (deliver_all_clock (fun _ => True)) in Hl. unfold forward. rewrite Hl.
    by split_and!.
  - destruct Hc as (_ & Hdt & Hc). rewrite <- advance_clock in Hc.
    pose proof (advance_quiet w e) as Ha.
    destruct (deliver_all_inert l _ (inert_quiet _ _ Hi Ha)) as (w' & Hl & Hq). exists w', env.
    rewrite Hl. apply (deliver_all_clock (fun _ => True)) in Hl. unfold forward. rewrite Hl.
    split_and!; [done | by etransitivity | | by eapply clock_ok_now | done].
    intros Hst. rewrite advance_clock. specialize (Hdt Hst). lia.
Qed.

Lemma interrupt_clock T env w b w' env' :
  interrupt env w = ((Done b, w'), env') -> clock_ok T (w_clock w) env ->
  clock_ok T (w_clock w') env' /\ forward T w w'.
Proof.
  unfold interrupt, forward. generalize NOTIFICATION_SIGNALS as l. intros l. destruct env as [|e env].
  - intros [= Hl <-] Hc. by rewrite (deliver_all_clock (fun _ => True) _ _ _ _ Hl).
  - intros [= Hl <-] (_ & Hdt & Hc). rewrite (deliver_all_clock (fun _ => True) _ _ _ _ Hl).
    rewrite advance_clock. split; [done|]. intros Hst. specialize (Hdt Hst). lia.
Qed.

Lemma run_clock {A} T X (p : prog A) env w r w' env' :
  steps_in (kept X) p -> run p env w = (r, w', env') -> clock_ok T (w_clock w) env ->
  match r with Crashed _ => True | _ => clock_ok T (w_clock w') env' /\ forward T w w' end.
Proof.
  revert env w. induction p as [x|R f k IH|m|m|]; intros env w Hst; simpl;
    destruct (interrupt env w) as [[[[]| | |] w1] env1] eqn:Hi;
    try (by intros [= <- <- <-]);
    try (intros [= <- <- <-] Hc; by eapply interrupt_clock).
  destruct Hst as [Hf Hk]. specialize (Hf w1). destruct (f w1) as [x w2]. simpl in Hf.
  intros Hr Hc. destruct (interrupt_clock _ _ _ _ _ _ Hi Hc) as [Hc1 Hw1].
  rewrite <- (proj1 Hf) in Hc1. pose proof (IH _ _ _ (Hk x) Hr Hc1) as Hx.
  unfold forward in *. rewrite (proj1 Hf) in Hx.
  destruct r as [?|?|?]; try done; destruct Hx as [Hc2 Hw2]; (split; [done|]);
    intros Hst; specialize (Hw1 Hst); specialize (Hw2 Hst); lia.
Qed.
End Inert.

(** The deadline that [stamp] computes from a budget in microseconds. *)
Definition stamped (now us : Z) : Z := if us * 1000 <? U64 then now + us * 1000 else us.

Section Oneshot.
Context `{PlatformLaws}.
Context (a : Z) (g : Group) (h : nat) (s : Signal) (K : Reusable Stack) (T : span).
Hypothesis T_u64 : until T <= U64.
Hypothesis g_own : g <> SHARED.
Implicit Types (w : world).

(** [s] is the signal of the kernel thread that the function was started on. *)
Abbreviation view := (view a g h K T).
Abbreviation paused := (paused a g h K T).
Abbreviation boot := (boot a g h K T).
Abbreviation ended := (ended a g h K T).
Abbreviation wp := (wp a g h K T).

(** The rest of a paused function: whenever its view is restored, it will end with [r].  [b] says
    whether it may call [pause]. *)
Definition suspended (b : bool) (rest : prog unit) (e : Z) (cell : option Completion)
    (r : ThdResult) : Prop :=
  steps_in (kept (fun x => x = h)) rest /\ steps_own a rest (fun _ => True) /\
  steps_timed b h rest /\
  (forall u, cell = Some (Function u) -> b = true \/ never_pauses u) /\
  forall w, view false false g e cell w ->
    wp rest (fun _ w => exists e', ended false s e' (Some (Return r)) w) (fun _ _ => False) w.

(** The function's run changes nothing but its own, and time passes. *)
Definition moved w w' : Prop :=
  framed (fun x => x = h) w w' /\ foreign a w w' /\ forward T w w'.

#[export] Instance moved_trans : Transitive moved.
Proof.
  intros w1 w2 w3 (Hf1 & Ho1 & Hw1) (Hf2 & Ho2 & Hw2).
  split; [by etransitivity|]. split; [by etransitivity|]. intros Hs.
  specialize (Hw1 Hs). specialize (Hw2 Hs). clear - Hw1 Hw2. lia.
Qed.

Lemma put_tls_moved t w : moved w (put_tls t w).
Proof.
  split; [apply put_tls_framed|]. split; [by apply foreign_same|]. intros _. clear. simpl. lia.
Qed.

(** A time from [w] on. *)
Definition after w (now : Z) : Prop := in_time T now /\ (steady T = true -> w_clock w <= now).

Lemma after_moved w w' now : moved w w' -> after w' now -> after w now.
Proof.
  intros (_ & _ & Hw) [Ht Hn]. split; [done|]. intros Hs. specialize (Hw Hs). specialize (Hn Hs).
  clear - Hw Hn. lia.
Qed.

(** How a stay on the oneshot stack with deadline [d] ends. *)
Definition outcome (b : bool) (d : Z) (r : ThdResult) (x : stopped unit) w w' : Prop :=
  moved w w' /\ late b d w' /\
  match x with
  | Finished _ => exists e', ended false s e' (Some (Return r)) w'
  | Paused rest => exists e cell, paused e cell w' /\ suspended b rest e cell r
  | Crashed _ => False
  end.

Lemma run_outcome b d r p env w x w' env' :
  steps_in (kept (fun x => x = h)) p -> steps_own a p (fun _ => True) -> fs_base (w_tcb w) = a ->
  steps_timed b h p -> tame b h w -> late b d w ->
  wp p (fun _ w => exists e', ended false s e' (Some (Return r)) w) (fun _ _ => False) w ->
  clock_ok T (w_clock w) env -> run p env w = (x, w', env') ->
  outcome b d r x w w' /\ clock_ok T (w_clock w') env'.
Proof.
  intros Hst Hown Hfs Hti Htm Hd Hwp Hc Hr. pose proof (run_sound _ _ _ _ _ _ _ _ _ _ _ Hst Hwp Hc) as Hm.
  rewrite Hr in Hm. pose proof (run_framed _ _ _ _ _ _ _ Hst Hr) as Hf.
  pose proof (run_clock T _ _ _ _ _ _ _ Hst Hr Hc) as Hcw.
  pose proof (run_own _ _ _ _ _ _ _ _ Hown Hfs Hr) as Ho.
  pose proof (run_timed _ _ _ _ _ _ _ _ Hti Htm Hr) as Hl.
  destruct x as [[]|rest|[]]; try done.
  - destruct Hcw as [Hc' Hw]. split; [|done]. split; [done|]. split; [by apply Hl | done].
  - destruct Hcw as [Hc' Hfw], Hf as [Hf Hrest], Ho as [Ho Hrown], Hl as [Hl Htr], Hm as [(e & cell & Hp) Hw].
    split; [|done]. split; [done|]. split; [by apply Hl|]. exists e, cell. split; [done|].
    split_and!; try done.
    + intros u Hu. apply Hl in Htm. apply Htm. subst cell.
      by destruct Hp as (t & s' & c & y & _ & _ & _ & _ & _ & _ & _ & _ & _ & _ & _ & Hh & _).
    + intros w1 Hv. apply Hw. by exists e, cell.
Qed.

(** Entering the function again. *)
Lemma run_suspended b d rest e cell r env w x w' env' :
  suspended b rest e cell r -> view false false g e cell w -> late b d w ->
  clock_ok T (w_clock w) env -> run rest env w = (x, w', env') ->
  outcome b d r x w w' /\ clock_ok T (w_clock w') env'.
Proof.
  intros (Hst & Hown & Hti & Htm & Hwp) Hv Hd. apply run_outcome; try done; [| |by apply Hwp].
  { by destruct Hv as (t & s' & c & _ & ? & _). }
  intros u. destruct Hv as (t & s' & c & _ & _ & _ & _ & _ & _ & _ & _ & _ & _ & _ & -> & _).
  apply Htm.
Qed.

(** ** Entering it for the first time *)

Lemma boot_inert bs loc grp D e cell w : boot bs loc grp s D e cell w -> inert w.
Proof.
  intros (t & c & _ & _ & Hs & _ & _ & Hblk & _) s' Hs'. congruence.
Qed.

(** Until preemption is enabled, nothing happens between two actions but the passing of time. *)
Lemma run_boot_act {A R} (f : world -> R * world) (k : R -> prog A) bs loc grp D e cell env w :
  boot bs loc grp s D e cell w -> clock_ok T (w_clock w) env -> exists w1 env1,
    boot bs loc grp s D e cell w1 /\ clock_ok T (w_clock w1) env1 /\
    moved w w1 /\ run (PAct f k) env w = run (k (f w1).1) env1 (f w1).2.
Proof.
  intros Hb Hc.
  destruct (interrupt_inert T env w (boot_inert _ _ _ _ _ _ _ Hb) Hc)
    as (w1 & env1 & Hint & Hq & Hw & Ht1 & Hc1).
  exists w1, env1. split_and!; [ | done | | ].
  2: { split; [by eapply interrupt_framed|]. split; [by eapply interrupt_foreign | done]. }
  - destruct Hb as (t & c & Hb). exists t, c. quiet_fields Hq.
  - simpl. rewrite Hint. by destruct (f w1).
Qed.

(** Make the next step of the run in [Hr] that way. *)
Ltac boot_step Hr Hb Hc :=
  match type of Hr with run ?p ?env ?w = _ =>
    let p' := eval hnf in p in
    match p' with PAct ?f ?k =>
      let w1 := fresh "w" in let env1 := fresh "env" in let Hb1 := fresh "Hb" in
      let Hc1 := fresh "Hc" in let Hf := fresh "Hf" in let Heq := fresh "Heq" in
      destruct (run_boot_act f k _ _ _ _ _ _ _ _ Hb Hc) as (w1 & env1 & Hb1 & Hc1 & Hf & Heq);
      change p with p' in Hr; rewrite Heq in Hr; clear Heq Hb Hc; rename Hb1 into Hb;
      rename Hc1 into Hc; cbv beta in Hr
    end
  end.

(** The last action of [stamp]. *)
Lemma run_put_deadline {A} (k : unit -> prog A) d D loc grp e cell env w out :
  boot None loc grp s D e cell w -> clock_ok T (w_clock w) env ->
  run (put_local (set_DEADLINE d) ≫= k) env w = out -> exists w1 env1,
    boot None loc grp s (fun x => x = d) e cell w1 /\
    clock_ok T (w_clock w1) env1 /\ moved w w1 /\ run (k tt) env1 w1 = out.
Proof.
  intros Hb Hc Hr. boot_step Hr Hb Hc.
  destruct (boot_alive _ _ _ _ _ _ _ _ _ _ _ _ _ Hb) as (t & [Ht Hl] & HB & HE & _).
  rewrite Ht, Hl in Hr. eexists _, _. split_and!; [| | |exact Hr].
  - eapply boot_put_tls; try done.
  - done.
  - etransitivity; [exact Hf | apply put_tls_moved].
Qed.

Lemma run_stamp {A} (k : unit -> prog A) us loc grp e cell env w out :
  boot None loc grp s (fun d => d = us) e cell w -> clock_ok T (w_clock w) env -> fits T us ->
  run (stamp ≫= k) env w = out -> exists w1 env1 now,
    boot None loc grp s (fun d => d = stamped now us) e cell w1 /\
    clock_ok T (w_clock w1) env1 /\ after w now /\ moved w w1 /\
    run (k tt) env1 w1 = out.
Proof.
  intros Hb Hc [Hpos Hfit] Hr. boot_step Hr Hb Hc.
  destruct (boot_alive _ _ _ _ _ _ _ _ _ _ _ _ _ Hb)
    as (t & [Ht Hl] & HB & HE & Hd & _ & _ & _ & Hti).
  rewrite Ht, Hl, put_tls_same in Hr by done. cbn [fst snd] in Hr. rewrite Hd in Hr.
  unfold stamped. cbn [prog_bind] in Hr. unfold checked_mul in Hr.
  destruct (Z.ltb_spec (us * 1000) U64).
  - boot_step Hr Hb Hc.
    destruct (boot_alive _ _ _ _ _ _ _ _ _ _ _ _ _ Hb) as (_ & _ & _ & _ & _ & _ & _ & _ & Hti1).
    pose proof Hti1 as Hti2. unfold in_time in Hti2. cbn [fst snd prog_bind] in Hr.
    destruct (Z.ltb_spec (w_clock w1) 0); [lia|].
    pose proof (Z.div_mod (w_clock w1) 1000000000 ltac:(done)) as Hdm.
    pose proof (Z.mod_pos_bound (w_clock w1) 1000000000 ltac:(done)) as Hmod.
    rewrite arith_u64_small in Hr by (unfold is_u64; lia). cbn [prog_bind mbind mret prog_ret] in Hr.
    rewrite arith_u64_small in Hr by (unfold is_u64; lia). cbn [prog_bind mbind mret prog_ret] in Hr.
    rewrite arith_u64_small in Hr by (unfold is_u64; lia). cbn [prog_bind mbind mret prog_ret] in Hr.
    eapply run_put_deadline in Hr as (w2 & env2 & Hb2 & Hc2 & Hf2 & Hr); [|exact Hb | exact Hc].
    exists w2, env2, (w_clock w1). split_and!; try done.
    + destruct Hb2 as (t2 & c2 & Hb2). exists t2, c2. split_and!; try apply Hb2.
      transitivity (w_clock w1 mod 1000000000 + w_clock w1 / 1000000000 * 1000000000 + us * 1000);
        [apply Hb2 | lia].
    + eapply after_moved; [exact Hf|]. eapply after_moved; [eassumption|]. done.
    + by do 2 (etransitivity; [eassumption|]).
  - eapply run_put_deadline in Hr as (w2 & env2 & Hb2 & Hc2 & Hf2 & Hr); [|exact Hb | exact Hc].
    exists w2, env2, (w_clock w0). split_and!; try done; [|by etransitivity].
    by eapply after_moved; [exact Hf|].
Qed.

Lemma run_schedule b u us loc e env w x w' env' :
  boot (Some (h, g)) loc SHARED s (fun d => d = us) e (Some (Function u)) w ->
  fits T us -> b = true \/ never_pauses u ->
  clock_ok T (w_clock w) env -> run schedule env w = (x, w', env') ->
  exists now, after w now /\ outcome b (stamped now us) (ueval u e).1 x w w' /\
    clock_ok T (w_clock w') env'.
Proof.
  intros Hb Hfit Hu Hc Hr. boot_step Hr Hb Hc.
  destruct (boot_alive _ _ _ _ _ _ _ _ _ _ _ _ _ Hb) as (t & [Ht Hl] & HB & HE & Hd & _).
  rewrite Ht, Hl, HB in Hr. cbn [fst snd prog_bind] in Hr.
  eapply run_stamp with (us := us) in Hr as (w1 & env1 & now & Hb1 & Hc1 & Hnow & Hf1 & Hr);
    [| eapply boot_put_tls; done | done | done].
  exists now. split.
  { eapply after_moved; [exact Hf|]. eapply after_moved; [apply put_tls_moved | exact Hnow]. }
  destruct (boot_alive _ _ _ _ _ _ _ _ _ _ _ _ _ Hb1) as (t1 & [Ht1 _] & _ & _ & Hd1 & _).
  eapply run_outcome with (b := b) (d := stamped now us) in Hr as [Ho Hc2].
  - split; [|exact Hc2]. destruct Ho as [Hf2 Ho]. split; [|exact Ho].
    etransitivity; [exact Hf|]. etransitivity; [apply put_tls_moved|].
    etransitivity; [exact Hf1 | exact Hf2].
  - by apply kept_call_function.
  - apply own_call_function.
  - by destruct Hb1 as (t2 & c2 & _ & ? & _).
  - apply timed_call_function.
  - intros u' Hu'. destruct Hb1 as (t2 & c2 & Hb1). assert (u' = u) as -> by naive_solver. done.
  - exists t1. auto.
  - eapply wp_mono with (Ψ := fun _ _ => False)
      (Φ := fun _ => ended false s (ueval u e).2 (Some (Return (ueval u e).1)));
      [by eauto | done |]. by eapply wp_call_function.
  - done.
Qed.
End Oneshot.
