(* ===== verification/Caller.v ===== *)
(** * Code on the caller's stack

    Rules for the code that runs while no preemptible function does: [launch], [resume] and what
    they call.  Time passes and signals become pending between its steps, but none is delivered.
    The assertion [at_] describes the world around one preemptible function. *)

From S2P Require Import Prelude Signal Reusable Gotcha Pools Timer Tcb World Preemption Linger.
From S2P Require Import Handler Frame Errno Interference Transparency Oneshot.

(** ** Pools that work *)

Definition usable {X B} (o : once (Pool Mutex X B)) : Prop :=
  exists p vec, o = OnceDone p /\ holds p vec.
Definition stacks_ok (o : once stack_pool) : Prop := o = OnceNew \/ usable o.
Definition stores_ok (o : once (Mutex (list (option ThreadControlBlock)))) : Prop :=
  exists c l, o = OnceDone c /\ try_into_inner c = Ok l.

(** A pool that took [v] back. *)
Definition took_back {X B} (o o' : once (Pool Mutex X B)) (v : X) : Prop :=
  exists p vec p', o = OnceDone p /\ holds p vec /\ o' = OnceDone p' /\ holds p' (vec ++ [v]) /\
    pool_env p' = pool_env p.
Definition store_took_back (o o' : once (Mutex (list (option ThreadControlBlock))))
    (v : option ThreadControlBlock) : Prop :=
  exists c l c', o = OnceDone c /\ try_into_inner c = Ok l /\
    o' = OnceDone c' /\ try_into_inner c' = Ok (l ++ [v]).

Lemma took_back_usable {X B} (o o' : once (Pool Mutex X B)) (v : X) :
  took_back o o' v -> usable o'.
Proof. intros (p & vec & p' & _ & _ & -> & Hp & _). by exists p', (vec ++ [v]). Qed.
Lemma store_took_back_ok o o' v : store_took_back o o' v -> stores_ok o'.
Proof. intros (c & l & c' & _ & _ & -> & Hc). by exists c', (l ++ [v]). Qed.

Lemma drop_took_back {X B} (o : once (Pool Mutex X B)) (v : X) :
  usable o -> exists o', with_static (Reusable_drop (mkReusable (Some v))) o = (Done tt, o') /\
    took_back o o' v.
Proof.
  intros (p & vec & -> & Hp). eexists. split.
  - unfold with_static. rewrite (drop_run _ _ _ Hp). reflexivity.
  - eexists _, _, _. split_and!; [done..| |done]. by eapply holds_release.
Qed.

(** *** Who holds the values of a pool *)

Section Held.
Context {X B : Type} (builder : comp B (option X)) (b0 : B).
Implicit Types (o : once (Pool Mutex X B)) (p : Pool Mutex X B).

(** A static pool, never used or such that [out] are the values that are lent. *)
Definition pool_held (out : list X) o : Prop :=
  (o = OnceNew /\ out = []) \/
  exists p, o = OnceDone p /\ conserved builder b0 {| s_pool := p; s_out := out |}.

Lemma pool_held_usable out p : pool_held out (OnceDone p) -> usable (OnceDone p).
Proof. intros [[[=] _]|(p' & [= <-] & vec & l & Hp & _)]. by exists p, vec. Qed.

(** It does not matter in which order the values are listed. *)
#[export] Instance pool_held_perm : Proper ((≡ₚ) ==> (=) ==> impl) pool_held.
Proof.
  intros l1 l2 Hl o _ <- [[-> ->]|(p & -> & vec & l & Hp & He & Hperm)].
  - left. by apply Permutation_nil_l in Hl.
  - right. exists p. split; [done|]. exists vec, l. split_and!; try done. simpl in *.
    by rewrite <- Hl.
Qed.

(** A new pool, and one filled in advance. *)
Lemma pool_held_new : pool_held [] (OnceDone (pool_new b0)).
Proof. right. eexists. split; [done|]. exists [], []. split; [apply holds_new|]. split; [constructor | done]. Qed.
Lemma pool_held_filled p vec :
  holds p vec -> emits builder b0 vec (pool_env p) -> pool_held [] (OnceDone p).
Proof. intros Hp He. right. exists p. split; [done|]. by exists vec, vec. Qed.

Lemma pool_held_lend out p v p' :
  pool_held out (OnceDone p) -> try_from builder p = (Done (Ok (mkReusable (Some v))), p') ->
  pool_held (v :: out) (OnceDone p').
Proof.
  intros [[[=] _]|(p1 & [= <-] & Hc)] Ht. right. exists p'. split; [done|].
  eapply pool_step_conserved; [exact Hc|]. by eapply step_lend.
Qed.

Lemma pool_held_back v out o o' :
  pool_held (v :: out) o -> took_back o o' v -> pool_held out o'.
Proof.
  intros [[_ Hnil]|(p & -> & vec & l & Hp & He & Hperm)] (p1 & vec1 & p' & Ho & Hp1 & -> & Hp' & Henv);
    [done|]. simplify_eq. simpl in Hp, He, Hperm. unfold holds in Hp, Hp1. rewrite Hp in Hp1. simplify_eq.
  right. exists p'. split; [done|]. exists (vec1 ++ [v]), l. split; [done|]. simpl. rewrite Henv.
  split; [done|]. rewrite <- Hperm. solve_Permutation.
Qed.

Lemma pool_held_distinct out o :
  (forall l b, emits builder b0 l b -> NoDup l) -> pool_held out o -> NoDup out.
Proof.
  intros Hb [[_ ->]|(p & _ & vec & l & _ & He & Hperm)]; [constructor|].
  apply Hb in He. simpl in Hperm. rewrite <- Hperm in He. by apply NoDup_app in He as (? & _).
Qed.
End Held.

Lemma store_return_took_back o v :
  stores_ok o -> exists o', localstore_return (mkReusable (Some v)) o = (Done tt, o') /\
    store_took_back o o' v.
Proof.
  intros ([x []] & l & -> & Hc); [done|]. eexists. split; [reflexivity|].
  simpl in Hc. simplify_eq. eexists _, _, _. split; [done|]. split; [done|]. by split.
Qed.

Lemma stack_try_from (p : stack_pool) vec :
  holds p vec -> exists st p' vec',
    try_from stack_builder p = (Done (Ok (mkReusable (Some st))), p') /\ holds p' vec'.
Proof.
  intros Hp. destruct vec as [|st vec _] using rev_ind.
  - eexists _, _, _. split; [by eapply (try_from_build stack_builder) | by eapply holds_release].
  - eexists _, _, _. split; [by apply try_from_reuse | by eapply holds_release].
Qed.

Lemma alloc_stack_ok `{Gotcha} o :
  stacks_ok o -> exists st o', alloc_stack o = (Done (mkReusable (Some st)), o') /\ usable o'.
Proof.
  intros [->|(p & vec & -> & Hp)].
  - destruct (prealloc_fill (C := Mutex) stack_builder Group_limit O)
      as (p & vec & Hpre & Hp & _); [intros b; by eexists _, _|].
    destruct (stack_try_from p vec Hp) as (st & p' & vec' & Ht & Hp').
    exists st. eexists. split; [|by exists p', vec'].
    unfold alloc_stack, alloc_stack_init. rewrite Hpre. unfold mbind, comp_bind. simpl.
    by rewrite Ht.
  - destruct (stack_try_from p vec Hp) as (st & p' & vec' & Ht & Hp').
    exists st. eexists. split; [|by exists p', vec'].
    unfold alloc_stack, mbind, comp_bind. simpl. by rewrite Ht.
Qed.

(** The stacks that are lent. *)
Definition stacks_held : list Stack -> once stack_pool -> Prop := pool_held stack_builder O.

Lemma alloc_stack_held `{Gotcha} out o st o' :
  alloc_stack o = (Done (mkReusable (Some st)), o') -> stacks_held out o -> stacks_held (st :: out) o'.
Proof.
  intros Ho Hh.
  assert (exists p, stacks_held out (OnceDone p) /\
    (call_once alloc_stack_init o).2 = OnceDone p /\ (call_once alloc_stack_init o).1 = Done tt)
    as (p & Hp & H2 & H1).
  { destruct Hh as [[-> ->]|(p & -> & Hc)].
    - destruct (prealloc_fill (C := Mutex) stack_builder Group_limit O)
        as (p & vec & Hpre & Hp & _ & He); [intros b; by eexists _, _|].
      exists p. unfold call_once, alloc_stack_init. rewrite Hpre. split; [|done].
      by eapply pool_held_filled.
    - exists p. split; [right; eauto | done]. }
  unfold alloc_stack, mbind, comp_bind in Ho. destruct (call_once alloc_stack_init o) as [x o1].
  simpl in H1, H2. subst x o1. unfold with_static in Ho.
  destruct (try_from stack_builder p) as [x p'] eqn:Ht.
  destruct x as [[[v]|]| | |]; simpl in Ho; try done. injection Ho as -> <-.
  by eapply pool_held_lend.
Qed.

(** ** Weakest preconditions on the machine *)

Section Mwp.
Context `{PlatformLaws}.
Implicit Types (w : world).

(** The computation returns or panics; it neither aborts nor becomes undefined. *)
Definition mwp {A} (m : comp machine A) (Φ : A -> machine -> Prop)
    (Ψ : string -> machine -> Prop) (μ : machine) : Prop :=
  match m μ with
  | (Done x, μ') => Φ x μ'
  | (Panicked msg, μ') => Ψ msg μ'
  | _ => False
  end.

Lemma mwp_bind {A B} (m : comp machine A) (k : A -> comp machine B) Φ Ψ μ :
  mwp m (fun x => mwp (k x) Φ Ψ) Ψ μ -> mwp (m ≫= k) Φ Ψ μ.
Proof. unfold mwp, mbind, comp_bind. by destruct (m μ) as [[] ?]. Qed.

Lemma mwp_ret {A} (x : A) (Φ : A -> machine -> Prop) Ψ μ : Φ x μ -> mwp (mret x) Φ Ψ μ.
Proof. done. Qed.

Lemma mwp_mono {A} (m : comp machine A) (Φ Φ' : A -> machine -> Prop)
    (Ψ Ψ' : string -> machine -> Prop) μ :
  mwp m Φ Ψ μ -> (forall x μ, Φ x μ -> Φ' x μ) -> (forall x μ, Ψ x μ -> Ψ' x μ) ->
  mwp m Φ' Ψ' μ.
Proof. unfold mwp. destruct (m μ) as [[] ?]; eauto. Qed.

Lemma mwp_try {A B E} (m : comp machine (result A E)) (k : A -> comp machine (result B E))
    Φ Ψ μ :
  mwp m (fun r => match r with Ok x => mwp (k x) Φ Ψ | Err e => Φ (Err e) end) Ψ μ ->
  mwp (try_bind m k) Φ Ψ μ.
Proof.
  intros Hm. apply mwp_bind. eapply mwp_mono; [exact Hm| |done]. by intros [].
Qed.

(** A computation that does not panic needs no cleanup. *)
Lemma mwp_unwinding {A} cleanup (m : comp machine A) Φ Ψ μ :
  mwp m Φ (fun _ _ => False) μ -> mwp (unwinding cleanup m) Φ Ψ μ.
Proof. unfold mwp, unwinding. by destruct (m μ) as [[] ?]. Qed.

Lemma mwp_expect {A B} (x : A) msg (k : A -> comp machine B) Φ Ψ μ :
  mwp (k x) Φ Ψ μ -> mwp (expect (Some x) msg ≫= k) Φ Ψ μ.
Proof. done. Qed.

Lemma mwp_update {B} id f c (k : unit -> comp machine B) Φ Ψ w sv env lg :
  mwp (k tt) Φ Ψ (mkMachine w sv env (<[id := LContinuation (f c)]> lg)) ->
  mwp (update_continuation id f ≫= k) Φ Ψ
    (mkMachine w sv env (<[id := LContinuation c]> lg)).
Proof.
  intros Hk. unfold mwp, update_continuation, mbind, comp_bind, modify, set_lingers. simpl.
  by rewrite alter_insert_eq.
Qed.
End Mwp.

Section Exec.
Context `{Platform}.
Implicit Types (w : world) (t : tls).

Lemma exec_with_tls_last {A} (f : tls -> A * tls) w t :
  cur_tls w = Some t -> tls_destroyed t = false ->
  exec (with_tls f) w = (Done (f t).1, put_tls (f t).2 w).
Proof. intros Ht Hd. simpl. rewrite Ht, Hd. by destruct (f t). Qed.

Lemma exec_call_last {S A} proj inj (m : comp S A) w x s :
  m (proj w) = (Done x, s) -> exec (call proj inj m) w = (Done x, inj s w).
Proof. intros Hm. simpl. by rewrite Hm. Qed.

Lemma exec_get_tls_last {A} (f : tls -> A) w t :
  cur_tls w = Some t -> tls_destroyed t = false -> exec (get_tls f) w = (Done (f t), w).
Proof.
  intros Ht Hd. unfold get_tls. erewrite exec_with_tls_last by done. simpl.
  by rewrite put_tls_same.
Qed.

Lemma exec_debug_assert_last b msg w :
  b = true -> exec (debug_assert b msg) w = (Done tt, w).
Proof. intros ->. unfold debug_assert. by rewrite andb_false_r. Qed.
End Exec.

(** ** The world around one preemptible function *)

(** ** Threads that are, or can be, set up *)

Section Thread.
Context `{PlatformLaws}.
Implicit Types (w : world).

(** The thread's preemption signal is [s], and it is blocked. *)
Definition prepared (s : Signal) (tid : RealThreadId) w : Prop :=
  (exists ps, w_signalers w !! tid = Some ps /\ value (ps_signal ps) = Some s) /\
  blocked (w_kernel w) s = true.

(** The thread has never resumed a function; it would be assigned [s], and the kernel would grant
    it the handler and the timer. *)
Definition unprepared (s : Signal) (tid : RealThreadId) w : Prop :=
  w_signalers w !! tid = None /\
  (exists p vec, assign_signal (w_signals w) = (Done (Ok (mkReusable (Some s))), OnceDone p) /\
     holds p vec) /\
  (forall k, exists tm k', ps_configure s preempt_addr QUANTUM_MICROSECS k = (Done (Ok tm), k')).

Lemma prepared_quiet s tid w w' : prepared s tid w -> quiet w w' -> prepared s tid w'.
Proof.
  intros [Hps Hb] Hq. split; [by rewrite (q_signalers _ _ Hq) | by apply (q_blocked _ _ Hq)].
Qed.
Lemma unprepared_quiet s tid w w' : unprepared s tid w -> quiet w w' -> unprepared s tid w'.
Proof.
  unfold unprepared. intros Hu Hq. by rewrite (q_signalers _ _ Hq), (q_signals _ _ Hq).
Qed.
End Thread.

Section Around.
Context `{PlatformLaws}.
(** The function's thread-control block, libset and boxed closure; the thread's signal and the
    block of its own; the world at the start; what is assumed of the clock, and a time that has
    passed. *)
Context (a : Z) (g : Group) (h : nat) (s : Signal) (f : Z) (w0 : world) (T : span) (since : Z).
Hypothesis s_maskable : s <> Kill.
Implicit Types (w : world) (t : tls).

(** [fs] is the installed block, [grp] the libset, [t] the function's thread-local variables, [e]
    its [errno], [cell] its closure; [hk] says whether the thread is known to be set up and the hook
    to be registered, and whether the pool of stacks is known to be in use. *)
Record at_ (hk : bool * bool) (fs : Z) (grp : Group) t (e : Z) (cell : option Completion) w : Prop := {
  at_fs : fs_base (w_tcb w) = fs;
  at_group : w_group w = grp;
  at_locals : locals <$> blocks (w_tcb w) !! a = Some t;
  at_live : forall x, live (w_tcb w0) x -> live (w_tcb w) x;
  at_thread : prepared s (w_tid w0) w \/ hk.1 = false /\ unprepared s (w_tid w0) w;
  at_errno : errno_at w (a, g) = e;
  at_heap : w_heap w !! h = cell;
  at_uc : w_uc w = None;
  at_hooked : hk.1 = true -> w_hooked w = true;
  at_time : in_time T (w_clock w);
  at_since : steady T = true -> since <= w_clock w;
  at_stacks : stacks_ok (w_stacks w);
  at_usable : hk.2 = true -> usable (w_stacks w);
  at_groups : usable (w_groups w);
  at_stores : stores_ok (w_localstores w);
  at_tid : w_tid w = w_tid w0;
  at_others : forall x, x <> a ->
    locals <$> blocks (w_tcb w) !! x = locals <$> blocks (w_tcb w0) !! x;
  at_errnos : forall loc, loc.1 <> a -> errno_at w loc = errno_at w0 loc;
  at_closures : forall x, x <> h -> w_heap w !! x = w_heap w0 !! x;
  at_boxed : is_Some (w_heap w0 !! h) -> is_Some (w_heap w !! h);
  at_pools : w_groups w = w_groups w0 /\ w_localstores w = w_localstores w0 /\
    w_stacks w = w_stacks w0;
}.

Lemma at_prepared hk fs grp t e cell w :
  at_ hk fs grp t e cell w -> hk.1 = true -> prepared s (w_tid w0) w.
Proof. intros [] Hhk. destruct at_thread0 as [|[]]; [done | congruence]. Qed.
Lemma at_blocked hk fs grp t e cell w :
  at_ hk fs grp t e cell w -> hk.1 = true -> blocked (w_kernel w) s = true.
Proof. intros Hat Hhk. by apply (at_prepared _ _ _ _ _ _ _ Hat). Qed.

Lemma at_quiet hk fs grp t e cell w w' :
  at_ hk fs grp t e cell w -> quiet w w' -> forward T w w' -> in_time T (w_clock w') ->
  at_ hk fs grp t e cell w'.
Proof.
  intros Hat Hq Hw Hc. destruct Hat.
  split; rewrite ?(q_tcb _ _ Hq), ?(q_group _ _ Hq), ?(q_signalers _ _ Hq), ?(q_stacks _ _ Hq),
    ?(q_groups _ _ Hq), ?(q_localstores _ _ Hq), ?(q_heap _ _ Hq), ?(q_hooked _ _ Hq),
    ?(q_errno _ _ Hq), ?(q_tid _ _ Hq); try done;
    [destruct at_thread0 as [?|[]] | by apply (q_uc _ _ Hq) | |].
  { left. by eapply prepared_quiet. }
  { right. split; [done|]. by eapply unprepared_quiet. }
  - intros Hs. specialize (Hw Hs). specialize (at_since0 Hs). lia.
  - intros loc Hl. rewrite (q_errno _ _ Hq). by apply at_errnos0.
Qed.

(** Between two steps of the caller, time passes. *)
Lemma mwp_at {A B} hk fs grp t e cell (p : prog A) (k : A -> comp machine B) Φ Ψ w sv env lg :
  at_ hk fs grp t e cell w -> clock_ok T (w_clock w) env ->
  (forall w env, at_ hk fs grp t e cell w -> clock_ok T (w_clock w) env ->
     exists x w', exec p w = (Done x, w') /\ mwp (k x) Φ Ψ (mkMachine w' sv env lg)) ->
  mwp (main p ≫= k) Φ Ψ (mkMachine w sv env lg).
Proof.
  intros Hat Hc Hk. apply mwp_bind. unfold mwp, main, main_tick, mbind, comp_bind.
  destruct env as [|ev env]; simpl.
  - unfold zoom. simpl. destruct (Hk w [] Hat Hc) as (x & w' & Hx & Hm). by rewrite Hx.
  - destruct Hc as (_ & Hdt & Hc). rewrite <- advance_clock in Hc.
    unfold zoom. simpl. destruct (Hk (advance ev w) env) as (x & w' & Hx & Hm); [|done|].
    + eapply at_quiet; [done | apply advance_quiet | | by eapply clock_ok_now].
      intros Hs. rewrite advance_clock. specialize (Hdt Hs). lia.
    + by rewrite Hx.
Qed.

Lemma mwp_at_last {A} hk fs grp t e cell (p : prog A) Φ Ψ w sv env lg :
  at_ hk fs grp t e cell w -> clock_ok T (w_clock w) env ->
  (forall w env, at_ hk fs grp t e cell w -> clock_ok T (w_clock w) env ->
     exists x w', exec p w = (Done x, w') /\ Φ x (mkMachine w' sv env lg)) ->
  mwp (main p) Φ Ψ (mkMachine w sv env lg).
Proof.
  intros Hat Hc Hk.
  assert (mwp (main p ≫= mret) Φ Ψ (mkMachine w sv env lg)) as Hm.
  { eapply mwp_at; [done|done|]. intros w1 env1 Hat1 Hc1.
    destruct (Hk w1 env1 Hat1 Hc1) as (x & w' & Hx & HΦ). by exists x, w'. }
  unfold mwp, mbind, comp_bind in *. by destruct (main p _) as [[] ?].
Qed.

(** *** Updates *)

Lemma at_cur hk grp t e cell w : at_ hk a grp t e cell w -> cur_tls w = Some t.
Proof. intros []. unfold cur_tls. by rewrite at_fs0. Qed.

Lemma at_grounded hk grp t e cell w : at_ hk a grp t e cell w -> grounded (w_tcb w).
Proof.
  intros []. unfold grounded. rewrite at_fs0. by destruct (blocks (w_tcb w) !! a); [eexists|].
Qed.

Lemma at_put_tls t' hk grp t e cell w :
  at_ hk a grp t e cell w -> at_ hk a grp t' e cell (put_tls t' w).
Proof.
  intros Hat. pose proof (at_cur _ _ _ _ _ _ Hat) as Hcur. destruct Hat. split; try done.
  - rewrite <- (cur_tls_put _ t' _ Hcur). unfold cur_tls. simpl. by rewrite at_fs0.
  - intros x Hx. destruct (at_live0 x Hx) as (b & Hb & Hl). unfold live. simpl.
    destruct (decide (x = fs_base (w_tcb w))) as [->|].
    + rewrite lookup_alter_eq, Hb. simpl. by eexists.
    + rewrite lookup_alter_ne by done. by exists b.
  - intros x Hx. simpl. rewrite lookup_alter_ne by congruence. by apply at_others0.
Qed.

Lemma at_set_group grp' hk fs grp t e cell w :
  at_ hk fs grp t e cell w -> at_ hk fs grp' t e cell (set_group grp' w).
Proof. intros []. by split. Qed.

Lemma at_hook hk fs grp t e cell w :
  at_ hk fs grp t e cell w -> prepared s (w_tid w0) w ->
  at_ (true, hk.2) fs grp t e cell (set_hooked true w).
Proof. intros [] Hp. split; try done. by left. Qed.

Lemma at_set_errno e' hk fs grp t e cell w :
  at_ hk fs grp t e cell w ->
  at_ hk fs grp t e' cell (set_errnos (<[(a, g) := e']> (w_errno w)) w).
Proof.
  intros []. split; try done.
  - unfold errno_at. simpl. by rewrite lookup_insert_eq.
  - intros loc Hl. rewrite <- at_errnos0 by done. unfold errno_at. simpl.
    rewrite lookup_insert_ne; [done|]. by intros <-.
Qed.

Lemma at_set_mask m hk fs grp t e cell w :
  at_ hk fs grp t e cell w -> set_has m s = true ->
  at_ hk fs grp t e cell (set_kernel (set_mask m (w_kernel w)) w).
Proof.
  intros [] Hm. split; try done. destruct at_thread0 as [[Hps _]|Hu]; [by left | by right].
Qed.

Lemma at_set_heap x hk fs grp t e cell w :
  at_ hk fs grp t e cell w ->
  at_ hk fs grp t e (Some x) (set_heap (<[h := x]> (w_heap w)) w).
Proof.
  intros []. split; try done; simpl; rewrite ?lookup_insert_eq; [done | | by eexists].
  intros y Hy. rewrite lookup_insert_ne by done. by apply at_closures0.
Qed.

Lemma at_install hk grp t e cell w :
  at_ hk f grp t e cell w -> at_ hk a grp t e cell (set_tcb (installed a (w_tcb w)) w).
Proof.
  intros []. split; try done; cbn [set_tcb w_tcb].
  - by rewrite installed_locals.
  - intros x Hx. by apply installed_live, at_live0.
  - intros x Hx. rewrite installed_locals. by apply at_others0.
Qed.

Lemma at_uninstall hk grp t e cell w :
  at_ hk a grp t e cell w -> at_ hk f grp t e cell (set_tcb (set_fs f (w_tcb w)) w).
Proof. intros []. by split. Qed.

(** *** Across a run on the oneshot stack *)

Lemma at_framed grp t e cell w w' t' e' cell' :
  at_ (true, true) a grp t e cell w -> moved a h T w w' ->
  cur_tls w' = Some t' -> w_group w' = SHARED -> blocked (w_kernel w') s = true ->
  errno_at w' (a, g) = e' -> w_heap w' !! h = cell' -> w_hooked w' = true -> w_uc w' = None ->
  in_time T (w_clock w') ->
  at_ (true, true) a SHARED t' e' cell' w'.
Proof.
  intros Hat (Hf & Ho & Hfw) Ht Hg Hb He Hh Hk Hu Hti. unfold cur_tls in Ht.
  pose proof (at_prepared _ _ _ _ _ _ _ Hat eq_refl) as [Hps _]. destruct Hat.
  split; rewrite ?(f_fs _ _ _ Hf), ?(f_signalers _ _ _ Hf), ?(f_stacks _ _ _ Hf),
    ?(f_groups _ _ _ Hf), ?(f_localstores _ _ _ Hf), ?(f_tid _ _ _ Hf); try done.
  - by rewrite <- Ht, (f_fs _ _ _ Hf), at_fs0.
  - intros x Hx. destruct (at_live0 x Hx) as (b & Hb' & Hl).
    pose proof (f_words _ _ _ Hf x) as Hw. rewrite Hb' in Hw. simpl in Hw.
    destruct (blocks (w_tcb w') !! x) as [b'|] eqn:Hx'; [|done].
    exists b'. split; [done|]. simpl in Hw. congruence.
  - left. split; [by rewrite (f_signalers _ _ _ Hf) | done].
  - intros Hs. specialize (Hfw Hs). specialize (at_since0 Hs). lia.
  - intros x Hx. rewrite (f_blocks _ _ _ Hf) by congruence. by apply at_others0.
  - intros loc Hl. destruct (Ho at_fs0) as [_ He']. rewrite He' by done. by apply at_errnos0.
  - intros x Hx. rewrite (f_heap _ _ _ Hf) by done. by apply at_closures0.
  - intros Hx. by apply (f_boxed _ _ _ Hf), at_boxed0.
Qed.

(** The thread's signal, while the function's block is installed. *)
Lemma at_thread_signal hk grp t e cell w :
  at_ hk a grp t e cell w -> hk.1 = true -> SIGNAL t = Some (w_tid w0) ->
  tls_destroyed t = false -> thread_signal_of w = Ok s.
Proof.
  intros Hat Hhk HS Hl. unfold thread_signal_of. rewrite (at_cur _ _ _ _ _ _ Hat), Hl, HS.
  destruct (at_prepared _ _ _ _ _ _ _ Hat Hhk) as [(ps & -> & ->) _]. done.
Qed.
End Around.

(** *** When the function gets a stack, or gives it back *)

Lemma at_set_stacks `{PlatformLaws} a g h s w0 T since o hk fs grp t e cell w :
  at_ a g h s w0 T since hk fs grp t e cell w -> usable o ->
  at_ a g h s (set_stacks o w0) T since (hk.1, true) fs grp t e cell (set_stacks o w).
Proof.
  intros [] Ho. split; try done; [by right|]. destruct at_pools0 as (? & ? & _). done.
Qed.

(** *** When the function is gone *)

(** A world without the closure [h], with libset [g] and block [a] back in their pools. *)
Definition free_all (h : nat) `{Platform} o1 o2 (w : world) : world :=
  set_localstores o2 (set_groups o1 (set_heap (delete h (w_heap w)) w)).
Definition released (a : Z) (g : Group) (h : nat) `{Platform} (w w' : world) : Prop :=
  exists o1 o2, took_back (w_groups w) o1 g /\
    store_took_back (w_localstores w) o2 (Some (Some (Mut a))) /\ w' = free_all h o1 o2 w.

Lemma at_free `{PlatformLaws} a g h s w0 T since hk fs grp t e cell w o1 o2 :
  at_ a g h s w0 T since hk fs grp t e cell w -> usable o1 -> stores_ok o2 ->
  at_ a g h s (free_all h o1 o2 w0) T since hk fs grp t e None (free_all h o1 o2 w).
Proof.
  intros [] Ho1 Ho2. split; try done; simpl; rewrite ?lookup_delete_eq; try done.
  - intros y Hy. rewrite !lookup_delete_ne by done. by apply at_closures0.
  - by destruct at_pools0 as (_ & _ & ?).
Qed.

(** The time of the world itself has passed. *)
Lemma at_now `{PlatformLaws} a g h s w0 T since hk fs grp t e cell w :
  at_ a g h s w0 T since hk fs grp t e cell w ->
  at_ a g h s w0 T (w_clock w) hk fs grp t e cell w.
Proof. intros []. split; try done. Qed.
