(* ===== verification/Setup.v ===== *)
(** * Preparing a kernel thread for preemption

    What [thread_setup] and [PreemptionSignal] of preemption.rs do to the kernel and to the pool of
    signals, and how [stamp] of linger.rs turns a budget into a deadline. *)

From S2P Require Import Prelude Signal Reusable Gotcha Pools Timer Tcb World Preemption Linger.
From S2P Require Import Handler Interference Oneshot Caller.

Section Setup.
Context `{PlatformLaws}.
Implicit Types (w : world) (t : tls) (s : Signal) (k : kernel).

(** The timer's setting: every [quantum] microseconds. *)
Definition periodic (quantum : Z) : itimerspec :=
  {| it_interval := {| tv_sec := 0; tv_nsec := quantum * 1000 |};
     it_value := {| tv_sec := 0; tv_nsec := quantum * 1000 |} |}.

(** The kernel prepared to interrupt the thread with [s] by timer [tm]. *)
Record configured s (handler quantum : Z) (tm : Timer) k k' : Prop := {
  cf_action : k_actions k' = <[c_int s :=
    Sigaction_new handler set_empty (Z.lor SA_SIGINFO SA_RESTART)]> (k_actions k);
  cf_mask : forall s', s' <> Kill -> blocked k' s' = bool_decide (s = s') || blocked k s';
  cf_new : k_timers k !! tm = None;
  cf_timers : k_timers k' = <[tm := {| kt_clock := CLOCK_REALTIME; kt_event := Sigevent_signal s;
    kt_setting := Some (0, periodic quantum) |}]> (k_timers k);
  cf_pending : k_pending k' = k_pending k;
}.

Lemma sigaction_run s sa k : exists r k', sigaction s (ASigaction sa) k = (Done r, k') /\
  (is_ok r = true -> k' = set_actions (<[c_int s := sa]> (k_actions k)) k).
Proof.
  unfold sigaction. simpl. destruct (c_sigaction _ _ k) as [code k'] eqn:Hc.
  destruct (Z.eqb_spec code 0) as [->|]; eexists _, _; (split; [done|]); [|done].
  intros _. by eapply law_sigaction_set.
Qed.

Lemma timer_create_run clockid sevp k : exists r k', timer_create clockid sevp k = (Done r, k').
Proof. unfold timer_create. destruct (c_timer_create _ _ k) as [[]]. case_match; eauto. Qed.
Lemma timer_settime_run tm absolute new k : exists r k',
  timer_settime tm absolute new k = (Done r, k').
Proof. unfold timer_settime. destruct (c_timer_settime _ _ _ k) as []. case_match; eauto. Qed.

(** A period of [quantum] microseconds is a number of nanoseconds that the kernel's type has. *)
Definition in_range (quantum : Z) : Prop := 0 <= quantum /\ quantum * 1000 < I64.

Lemma as_i64_quantum quantum : in_range quantum -> as_i64 quantum = quantum.
Proof. intros [? ?]. apply as_i64_small. unfold is_i64, I64 in *. lia. Qed.

Lemma mul_i64_quantum {A D} quantum (f : Z -> comp A D) x :
  in_range quantum -> (mul_i64 quantum 1000 ≫= f) x = f (quantum * 1000) x.
Proof.
  intros [? ?]. unfold mul_i64. rewrite (proj2 (Z.leb_le _ _)) by (unfold I64 in *; lia).
  by rewrite (proj2 (Z.ltb_lt _ _)).
Qed.

(** The steps of [PreemptionSignal::new]; they return, and if all is well the kernel is ready. *)
Lemma ps_configure_run s handler quantum k : in_range quantum -> exists r k',
  ps_configure s handler quantum k = (Done r, k') /\
  match r with Ok tm => configured s handler quantum tm k k' | Err _ => True end.
Proof.
  intros Hq. unfold ps_configure. cbv zeta.
  set (sa := Sigaction_new _ _ _).
  destruct (sigaction_run s sa k) as ([old|e] & k1 & H1 & Hk1);
    [rewrite (try_bind_ok _ _ _ _ _ H1) | rewrite (try_bind_err _ _ _ _ _ H1); by eexists _, _].
  specialize (Hk1 eq_refl).
  destruct (pthread_sigmask_run Block (set_add set_empty s) k1) as (m & H2 & Hm).
  rewrite (try_bind_ok _ _ _ _ _ H2).
  destruct (timer_create_run Real (Sigevent_signal s) (set_mask m k1)) as ([tm|e] & k3 & H3);
    [rewrite (try_bind_ok _ _ _ _ _ H3) | rewrite (try_bind_err _ _ _ _ _ H3); by eexists _, _].
  rewrite as_i64_quantum, !mul_i64_quantum by done.
  destruct (timer_settime_run tm false (periodic quantum) k3) as ([[]|e] & k4 & H4);
    [rewrite (try_bind_ok _ _ _ _ _ H4) | rewrite (try_bind_err _ _ _ _ _ H4); by eexists _, _].
  eexists _, _. split; [done|].
  apply timer_create_ok in H3 as [Hnew ->]. apply timer_settime_ok in H4 as (t & Ht & ->).
  simpl in Ht. rewrite lookup_insert_eq in Ht. simplify_eq. split; try done.
  - intros s' Hs'. unfold blocked. simpl. rewrite Hm by done. simpl. unfold blocked. simpl.
    by rewrite law_add, law_empty, orb_false_r, orb_comm.
  - simpl. by rewrite insert_insert_eq.
Qed.

(** The pool of signals after [s] is dropped into it. *)
Definition returned_to (p : signal_pool) (vec : list Signal) s : once signal_pool :=
  OnceDone (mkPool (release (allocated p) (vec ++ [s])) (pool_env p)).

(** [PreemptionSignal::new], when the pool hands out [s]. *)
Lemma PreemptionSignal_new_run s handler quantum p vec o k :
  assign_signal o = (Done (Ok (mkReusable (Some s))), OnceDone p) -> holds p vec -> in_range quantum ->
  exists r k', PreemptionSignal_new handler quantum (o, k) =
    (Done r, (if is_ok r then OnceDone p else returned_to p vec s, k')) /\
    match r with
    | Ok ps => value (ps_signal ps) = Some s /\ configured s handler quantum (ps_timer ps) k k'
    | Err _ => True
    end.
Proof.
  intros Ho Hp Hq. unfold PreemptionSignal_new.
  erewrite comp_bind_done; [|unfold on_signals, zoom; cbn [fst snd]; rewrite Ho; reflexivity].
  erewrite comp_bind_done by reflexivity. erewrite comp_bind_done by reflexivity.
  destruct (ps_configure_run s handler quantum k Hq) as (r & k' & Hr & Hc).
  erewrite comp_bind_done; [|apply unwinding_done; unfold on_kernel, zoom; cbn [fst snd]; rewrite Hr;
    reflexivity].
  destruct r as [tm|e]; [by eexists (Ok _), k'|].
  eexists (Err e), k'. split; [|done]. erewrite comp_bind_done; [reflexivity|].
  unfold on_signals, zoom, with_static. cbn [fst snd]. by rewrite (drop_run _ _ _ Hp).
Qed.

(** Setting a thread up again costs nothing: no signal is taken, and the kernel is not
    called; only the newly installed block's [SIGNAL] is pointed at the thread. *)
Lemma thread_setup_again thread handler quantum ps w t :
  w_signalers w !! thread = Some ps -> alive w t ->
  exec (thread_setup thread handler quantum) w =
    (Done (Ok tt), set_hooked true (put_tls (set_SIGNAL (Some thread) t) w)).
Proof.
  intros Hn [Ht Hd]. unfold thread_setup. rewrite exec_read, Hn. cbn [is_some]. cbv iota.
  rewrite exec_ret. by rewrite (exec_put_local _ _ _ t).
Qed.

(** A thread that is not set up yet, when the kernel grants everything. *)
Lemma thread_setup_granted thread s w t :
  unprepared s thread w -> alive w t -> exists o ps k',
    exec (thread_setup thread preempt_addr QUANTUM_MICROSECS) w =
      (Done (Ok tt), set_hooked true (put_tls (set_SIGNAL (Some thread) t)
         (set_signalers (<[thread := ps]> (w_signalers w)) (set_kernel k' (set_signals o w))))) /\
    value (ps_signal ps) = Some s /\
    configured s preempt_addr QUANTUM_MICROSECS (ps_timer ps) (w_kernel w) k'.
Proof.
  intros (Hn & (p & vec & Ho & Hp) & Hok) [Ht Hd].
  destruct (PreemptionSignal_new_run s preempt_addr QUANTUM_MICROSECS p vec _ (w_kernel w) Ho Hp ltac:(done))
    as ([ps|e] & k' & Hr & Hc); last first.
  { destruct (Hok (w_kernel w)) as (tm & k2 & Hk2). unfold PreemptionSignal_new in Hr.
    erewrite comp_bind_done in Hr
      by (unfold on_signals, zoom; cbn [fst snd]; rewrite Ho; reflexivity).
    do 2 (erewrite comp_bind_done in Hr by reflexivity).
    by erewrite comp_bind_done in Hr
      by (apply unwinding_done; unfold on_kernel, zoom; cbn [fst snd]; rewrite Hk2; reflexivity). }
  exists (OnceDone p), ps, k'. split; [|done]. unfold thread_setup. rewrite exec_read, Hn.
  cbn [is_some].
  erewrite exec_bind_done; [|erewrite exec_call by exact Hr; cbv iota; rewrite exec_write; reflexivity].
  cbv iota. by rewrite (exec_put_local _ _ _ t) by done.
Qed.

(** ** Claims *)

(** C22: The first time a kernel thread is set up, and the pool of signals hands out [s], the
    thread gets [s] as its preemption signal: the handler is registered for it, it is blocked in
    the calling thread, and a real-time timer that nobody else has fires it every [quantum]
    microseconds, if that many nanoseconds fit in an [i64]; the installed block's [SIGNAL] refers to the thread and libgotcha's hook is
    registered.  If one of the calls fails, the error is returned and [s] is back in the pool. *)
Theorem thread_setup_first thread handler quantum s p vec w t :
  w_signalers w !! thread = None -> alive w t ->
  assign_signal (w_signals w) = (Done (Ok (mkReusable (Some s))), OnceDone p) -> holds p vec ->
  in_range quantum ->
  match exec (thread_setup thread handler quantum) w with
  | (Done (Ok _), w') => exists ps,
      w_signalers w' = <[thread := ps]> (w_signalers w) /\ value (ps_signal ps) = Some s /\
      configured s handler quantum (ps_timer ps) (w_kernel w) (w_kernel w') /\
      w_signals w' = OnceDone p /\ cur_tls w' = Some (set_SIGNAL (Some thread) t) /\
      thread_signal_of w' = Ok s /\ w_hooked w' = true
  | (Done (Err _), w') =>
      w_signals w' = returned_to p vec s /\ w_signalers w' = w_signalers w /\
      w_tcb w' = w_tcb w /\ w_hooked w' = w_hooked w
  | _ => False
  end.
Proof.
  intros Hn [Ht Hd] Ho Hp Hq. unfold thread_setup. rewrite exec_read, Hn. cbn [is_some].
  destruct (PreemptionSignal_new_run s handler quantum p vec _ (w_kernel w) Ho Hp Hq)
    as (r & k' & Hr & Hc).
  destruct r as [ps|e].
  - erewrite exec_bind_done; [|erewrite exec_call by exact Hr; cbv iota; rewrite exec_write; reflexivity].
    cbv iota. rewrite (exec_put_local _ _ _ t) by done. rewrite exec_write.
    destruct Hc as [Hs Hc]. exists ps.
    match goal with |- _ /\ _ /\ _ /\ _ /\ cur_tls ?w' = _ /\ _ =>
      assert (cur_tls w' = Some (set_SIGNAL (Some thread) t)) as Ht'
        by (change (cur_tls w') with (cur_tls (put_tls (set_SIGNAL (Some thread) t) w)); tls_now)
    end.
    split_and!; try done. unfold thread_signal_of. rewrite Ht'. simpl.
    by rewrite Hd, lookup_insert_eq, Hs.
  - by erewrite exec_bind_done; [|erewrite exec_call by exact Hr; reflexivity].
Qed.

(** C24: Dropping a [PreemptionSignal] returns the signal to the pool and deletes the timer, but
    leaves the handler registered: [sigaction] with a null action only queries.  A later holder
    of the signal finds [preempt] still installed for it. *)
Theorem PreemptionSignal_drop_keeps_handler s tm p vec k k' :
  holds p vec -> timer_delete tm k = (Done (Ok tt), k') ->
  PreemptionSignal_drop (mkPS (mkReusable (Some s)) tm) (OnceDone p, k) =
    (Done tt, (returned_to p vec s, k')) /\
  k_timers k' = delete tm (k_timers k) /\ handled k' s = handled k s.
Proof.
  intros Hp Hdel. unfold PreemptionSignal_drop. cbn [ps_timer ps_signal].
  split; [|by apply timer_delete_ok in Hdel as ->].
  erewrite comp_bind_done; [|unfold on_kernel, zoom; cbn [fst snd]; rewrite Hdel; reflexivity].
  erewrite comp_bind_done by reflexivity.
  erewrite comp_bind_done;
    [|unfold on_kernel, zoom; cbn [fst snd]; rewrite sigaction_null; reflexivity].
  unfold on_signals, zoom, with_static. cbn [fst snd]. by rewrite (drop_run _ _ _ Hp).
Qed.

(** ** Deadlines *)

(** The nanoseconds of a budget do not fit in a [u64], so that [stamp] takes the budget itself for the
    deadline; or they do, but their sum with the time does not. *)
Definition huge (us : Z) : Prop := U64 <= us * 1000.
Definition beyond (us now : Z) : Prop := us * 1000 < U64 <= now + us * 1000.

Lemma exec_stamp_huge us w t :
  alive w t -> DEADLINE t = us -> huge us -> exec stamp w = (Done tt, put_tls (set_DEADLINE us t) w).
Proof.
  intros [Ht Hd] Hus Hbig. unfold stamp. rewrite (exec_get_tls _ _ _ t) by done. rewrite Hus.
  unfold checked_mul, huge in *. destruct (Z.ltb_spec (us * 1000) U64); [lia|]. rewrite exec_ret.
  by erewrite exec_put_local_last by done.
Qed.

Lemma exec_stamp_ahead us w t :
  alive w t -> DEADLINE t = us -> 0 <= us -> 0 <= w_clock w -> w_clock w + us * 1000 < U64 ->
  exec stamp w = (Done tt, put_tls (set_DEADLINE (w_clock w + us * 1000) t) w).
Proof.
  intros [Ht Hd] Hus Hu Hc Hsum. unfold stamp. rewrite (exec_get_tls _ _ _ t) by done.
  rewrite Hus. unfold checked_mul. destruct (Z.ltb_spec (us * 1000) U64); [|lia].
  erewrite exec_bind_done; [by apply exec_put_local_last|].
  rewrite exec_nsnow by (unfold is_u64; lia). by rewrite arith_u64_small by (unfold is_u64; lia).
Qed.

Lemma exec_stamp_beyond us w t :
  alive w t -> DEADLINE t = us -> is_u64 us -> is_u64 (w_clock w) -> beyond us (w_clock w) ->
  exec stamp w =
    if debug_assertions then (Panicked "attempt to add with overflow", w)
    else (Done tt, put_tls (set_DEADLINE (w_clock w + us * 1000 - U64) t) w).
Proof.
  intros [Ht Hd] Hus Hu Hc [Hlt Hge]. unfold stamp. rewrite (exec_get_tls _ _ _ t) by done.
  rewrite Hus. unfold checked_mul. destruct (Z.ltb_spec (us * 1000) U64); [|lia].
  rewrite exec_bind. destruct debug_assertions eqn:Hdbg.
  - erewrite comp_bind_panicked; [done|]. rewrite exec_nsnow by done. unfold arith_u64.
    destruct (Z.ltb_spec (w_clock w + us * 1000) U64); [lia|]. by rewrite Hdbg.
  - erewrite comp_bind_done; [by erewrite exec_put_local_last by done|].
    rewrite exec_nsnow by done. unfold arith_u64.
    destruct (Z.ltb_spec (w_clock w + us * 1000) U64); [lia|]. rewrite Hdbg. cbn. do 2 f_equal.
    unfold wrap_u64, is_u64 in *. rewrite <- (Z.mod_add _ (-1)) by done. rewrite Z.mod_small; lia.
Qed.

(** C23: When a deadline is over as soon as it is set.  [stamp] turns a budget [us] into a deadline [d]
    in any case but one: in a debug build it panics if the time and the budget add up to more than a
    [u64] holds.  A signal that arrives at once finds [d] over if the budget is 0, as it should; but
    also if the budget has too many nanoseconds for a [u64] and is, as a number, not above the present
    time, and in a release build if the sum overflows.  Every other budget lies ahead, the largest one
    included. *)
Theorem stamp_due us w t :
  alive w t -> DEADLINE t = us -> is_u64 us -> is_u64 (w_clock w) ->
  match exec stamp w with
  | (Done _, w') => exists d, w' = put_tls (set_DEADLINE d t) w /\
      (d <= w_clock w <-> us = 0 \/ huge us /\ us <= w_clock w \/ beyond us (w_clock w))
  | (Panicked _, w') => debug_assertions = true /\ beyond us (w_clock w) /\ w' = w
  | _ => False
  end.
Proof.
  intros Hw Hus Hu Hc. unfold is_u64 in *. destruct (Z.le_gt_cases U64 (us * 1000)) as [Hbig|Hfit].
  - rewrite (exec_stamp_huge us w t) by done. exists us. split; [done|].
    unfold huge, beyond, U64 in *. lia.
  - destruct (Z.le_gt_cases U64 (w_clock w + us * 1000)) as [Hover|Hsum].
    + rewrite (exec_stamp_beyond us w t) by done. destruct debug_assertions; [done|].
      eexists. split; [done|]. unfold huge, beyond, U64 in *. lia.
    + rewrite (exec_stamp_ahead us w t) by (done || lia). eexists. split; [done|].
      unfold huge, beyond. lia.
Qed.
End Setup.
