(* ===== verification/Resume.v ===== *)
(** * Resuming a preemptible function

    The whole of [resume], on a thread that has been set up for preemption or is set up on the way:
    the function ends with the result it computes undisturbed, or it is paused in a state from which
    it can be resumed; and the caller gets back its thread-control block, its libset and its blocked
    signal. *)

From S2P Require Import Prelude Signal Reusable Gotcha Pools Timer Tcb World Preemption Linger.
From S2P Require Import Handler Frame Errno Interference Transparency Oneshot Caller Setup.

(** The context operations succeed. *)
Definition no_failures `{Platform} : Prop :=
  forall c, makecontext_err c = None /\ restorecontext_err c = None /\ sigsetcontext_err c = None.

(** ** Stacks *)

Section Stacks.
Context `{Platform}.
Implicit Types (w : world).

(** The stack on which a function was paused. *)
Definition stack_of (c : Continuation) : option Stack :=
  cx ← checkpoint (stateful c); value (cx_stack cx).

(** Of the stacks that are lent, one function had [K] and now has [K']. *)
Definition restocked (K K' : option Stack) (o o' : once stack_pool) : Prop :=
  forall out, stacks_held (option_list K ++ out) o -> stacks_held (option_list K' ++ out) o'.
Definition stocked (K K' : option Stack) w w' : Prop :=
  exists o, restocked K K' (w_stacks w) o /\ w' = set_stacks o w.

Lemma stocked_refl K w : stocked K K w w.
Proof. exists (w_stacks w). split; [by intros out | by destruct w]. Qed.
Lemma stocked_trans K1 K2 K3 w1 w2 w3 :
  stocked K1 K2 w1 w2 -> stocked K2 K3 w2 w3 -> stocked K1 K3 w1 w3.
Proof. intros (o & Ho & ->) (o' & Ho' & ->). exists o'. split; [|done]. intros out Hout. by apply Ho', Ho. Qed.
End Stacks.

Section Run.
Context `{PlatformLaws}.
Context (a : Z) (g : Group) (h : nat) (s : Signal) (f : Z) (w0 : world) (T : span) (since : Z).
Hypothesis s_maskable : s <> Kill.
Hypothesis T_u64 : until T <= U64.
Hypothesis g_own : g <> SHARED.
Hypothesis calls_work : no_failures.
Implicit Types (w : world) (t : tls) (K : Reusable Stack).

Abbreviation at_of w1 := (at_ a g h s w1 T).
Abbreviation at_from := (at_of w0).
Abbreviation at_ := (at_ a g h s w0 T since).

(** ** Entering the oneshot stack *)

Lemma at_on_thread hk fs grp t e cell w :
  at_ hk fs grp t e cell w -> hk.1 = true -> on_thread w s.
Proof.
  intros Hat Hhk. destruct (at_prepared _ _ _ _ _ _ _ _ _ _ _ _ _ _ Hat Hhk) as [(ps & Hps & Hs) _].
  exists ps. by rewrite (at_tid _ _ _ _ _ _ _ _ _ _ _ _ _ _ Hat).
Qed.

Lemma at_boot K hk bs t e cell us w c :
  at_ hk a SHARED t e cell w -> hk.1 = true -> SIGNAL t = Some (w_tid w0) -> DEFERRED t = false ->
  TASK t = mkTask None (Some c) false -> cx_code c = CallSite -> cx_stack c = K ->
  BOOTSTRAP t = bs -> DEADLINE t = us -> tls_destroyed t = false ->
  boot a g h K T bs (ERRNO_LOCATION t) SHARED s (fun d => d = us) e cell w.
Proof.
  intros Hat Hhk HS HD HT Hcode HK HB Hfit Hl.
  pose proof (at_cur _ _ _ _ _ _ _ _ _ _ _ _ _ Hat) as Hcur.
  pose proof (at_thread_signal _ _ _ _ _ _ _ _ _ _ _ _ _ Hat Hhk HS Hl) as Hsig.
  pose proof (at_blocked _ _ _ _ _ _ _ _ _ _ _ _ _ _ Hat Hhk) as Hblk.
  pose proof (at_on_thread _ _ _ _ _ _ _ Hat Hhk) as Hon. destruct Hat.
  exists t, c. split_and!; try done. by apply at_hooked.
Qed.

Lemma at_view K t e cell w c m :
  at_ (true, true) a g t e cell w -> SIGNAL t = Some (w_tid w0) -> DEFERRED t = false ->
  TASK t = mkTask None (Some c) false -> cx_code c = CallSite -> cx_stack c = K ->
  BOOTSTRAP t = None -> ERRNO_LOCATION t = Some g -> tls_destroyed t = false ->
  set_has m s = false ->
  view a g h K T false false g e cell (set_kernel (set_mask m (w_kernel w)) w).
Proof.
  intros Hat HS HD HT Hcode HK HB HE Hl Hm.
  pose proof (at_cur _ _ _ _ _ _ _ _ _ _ _ _ _ Hat) as Hcur.
  pose proof (at_thread_signal _ _ _ _ _ _ _ _ _ _ _ _ _ Hat eq_refl HS Hl) as Hsig.
  pose proof (at_on_thread _ _ _ _ _ _ _ Hat eq_refl) as Hon.
  destruct Hat. exists t, s, c. split_and!; try done. by apply at_hooked.
Qed.

(** The thread-local variables of a function that does not run. *)
Definition parked t : Prop :=
  SIGNAL t = None /\ DEFERRED t = false /\ BOOTSTRAP t = None /\ tls_destroyed t = false.

(** A time during the call. *)
Definition in_call (now : Z) : Prop := in_time T now /\ (steady T = true -> since <= now).

Lemma at_in_call hk fs grp t e cell w : at_ hk fs grp t e cell w -> in_call (w_clock w).
Proof. intros []. done. Qed.

(** A paused function's deadline: [us] microseconds after a time [now] during the call, or reset by
    [pause] if the function may call it; at the time [over] it had passed. *)
Definition expired (b : bool) (us over : Z) t : Prop := exists now,
  in_call now /\ in_time T over /\ DEADLINE t <= over /\
  (DEADLINE t = stamped now us \/ b = true /\ DEADLINE t = 0).

(** The rest of a paused function that can be continued here: it ends by blocking the signal of the
    thread it was started on, which is this thread's or else is blocked with the mask that the linked
    context restores. *)
Definition masks (s0 : Signal) : Prop := s0 = s \/ link_restores_mask = true.
Definition continuable K b rest e cell r : Prop :=
  exists s0, masks s0 /\ suspended a g h s0 K T b rest e cell r.

(** Where a run on the oneshot stack leaves the machine, [n] being the computation it took up. *)
Definition landed b us K (r : ThdResult) (n : nat) (sv sv' : gmap nat (prog unit)) w : Prop :=
  exists t e cell over, at_from over (true, true) a SHARED t e cell w /\ parked t /\
  ERRNO_LOCATION t = Some g /\
  ((exists c, TASK t = mkTask None (Some c) false /\ cx_stack c = K /\
      cell = Some (Return r) /\ sv' = delete n sv) \/
   (exists e' m n' rest,
      TASK t = mkTask (Some e') (Some (mkContext K m (Saved n'))) (DEADLINE t =? 0) /\
      delete n sv !! n' = None /\ sv' = <[n' := rest]> (delete n sv) /\
      continuable K b rest e' cell r /\ expired b us over t)).

Lemma moved_mask m w : moved a h T w (set_kernel m w).
Proof. split; [by split|]. split; [by apply foreign_same|]. intros _. simpl. lia. Qed.

(** The linked context takes over, with the mask [home]. *)
Definition linked (home : sigset_t) w : world :=
  if link_restores_mask then set_kernel (set_mask home (w_kernel w)) w else w.

Lemma outcome_finished s0 home K b d r u w w' t e cell grp :
  at_ (true, true) a grp t e cell w -> masks s0 -> set_has home s = true ->
  outcome a g h s0 K T b d r (Finished u) w w' ->
  exists t' c e', at_ (true, true) a SHARED t' e' (Some (Return r)) (linked home w') /\ parked t' /\
    ERRNO_LOCATION t' = Some g /\ TASK t' = mkTask None (Some c) false /\ cx_stack c = K.
Proof.
  intros Hat Hs0 Hhome (Hf & _ & e' & t' & c & [Ht Hl] & _ & Hg & HS & HD & [HT HK] & HB & HE & Hb &
    He & Hh & Hk & Hu & Hti).
  exists t', c, e'. split; [|done]. unfold linked, masks in *. destruct link_restores_mask.
  - eapply at_framed; [exact Hat | etransitivity; [exact Hf | apply moved_mask] | done..].
  - destruct Hs0 as [->|]; [|done]. eapply at_framed; [exact Hat | done | done | done | | done..].
    apply Hb. pose proof (at_on_thread _ _ _ _ _ _ _ Hat eq_refl) as Hon. unfold on_thread.
    by rewrite (f_signalers _ _ _ (proj1 Hf)), (f_tid _ _ _ (proj1 Hf)).
Qed.

Lemma outcome_paused s0 K b us now r rest w w' t e cell grp :
  at_ (true, true) a grp t e cell w -> in_call now -> masks s0 ->
  outcome a g h s0 K T b (stamped now us) r (Paused rest) w w' ->
  exists t' c e' e1 cell', at_from (w_clock w') (true, true) a SHARED t' e1 cell' w' /\ parked t' /\
    ERRNO_LOCATION t' = Some g /\ TASK t' = mkTask (Some e') (Some c) (DEADLINE t' =? 0) /\
    cx_stack c = K /\ continuable K b rest e' cell' r /\ expired b us (w_clock w') t'.
Proof.
  intros Hat Hnow Hs0 (Hf & Hlate & e' & cell' & (t' & s' & c & y & [Ht Hl] & _ & Hg & HS & HD & HT &
    [_ HK] & [Hy Hdue] & HB & HE & [Hon' Hb] & Hh & Hk & Hu & Hti) & Hsus). subst y.
  pose proof (at_on_thread _ _ _ _ _ _ _ Hat eq_refl) as Hon. unfold on_thread in Hon'.
  rewrite (f_signalers _ _ _ (proj1 Hf)), (f_tid _ _ _ (proj1 Hf)) in Hon'.
  pose proof (on_thread_inj _ _ _ Hon Hon'). subst s'.
  exists t', c, e'. eexists _, cell'. split; [by eapply at_now, at_framed|].
  split_and!; try done; [by exists s0|].
  destruct Hlate as (t1 & Ht1 & Hlate). assert (t1 = t') as -> by congruence.
  by exists now.
Qed.

(** The mask with which the computation starts does not matter to the frame. *)
Lemma outcome_mask s0 K b d r x m w w' :
  outcome a g h s0 K T b d r x (set_kernel m w) w' -> outcome a g h s0 K T b d r x w w'.
Proof. intros [Hf' Ho]. split; [etransitivity; [apply moved_mask | done] | done]. Qed.

(** [sigsetcontext], into a computation whose every run has a proper outcome. *)
Lemma mwp_enter s0 b us K r grp t e cell msk n body w sv env lg Ψ :
  at_ (true, true) a grp t e cell w -> masks s0 -> clock_ok T (w_clock w) env -> tls_destroyed t = false ->
  TASK t = mkTask None (Some (mkContext K msk (Saved n))) false -> sv !! n = Some body ->
  (forall home w env x w' env',
     at_ (true, true) a grp (set_TASK (mkTask None (Some (mkContext K home CallSite)) false) t) e cell w ->
     clock_ok T (w_clock w) env ->
     run body env (set_kernel (set_mask msk (w_kernel w)) w) = (x, w', env') ->
     exists now, in_call now /\ outcome a g h s0 K T b (stamped now us) r x w w' /\
       clock_ok T (w_clock w') env') ->
  mwp sigsetcontext (fun o μ => o = None /\ exists w' env' sv',
      μ = mkMachine w' sv' env' lg /\ clock_ok T (w_clock w') env' /\ landed b us K r n sv sv' w') Ψ
    (mkMachine w sv env lg).
Proof.
  intros Hat Hs0 Hc Hl HT Hn Hrun. unfold sigsetcontext. apply mwp_bind. unfold mwp at 1. simpl.
  destruct (calls_work (w_clock w)) as (_ & _ & ->).
  eapply mwp_at; [exact Hat | done |]. intros w1 env1 Hat1 Hc1.
  eexists _, _. split; [eapply exec_get_tls_last; [by eapply at_cur | done]|]. rewrite HT.
  apply mwp_bind. unfold mwp at 1. simpl. rewrite Hn.
  eapply mwp_at; [exact Hat1 | done |]. intros w2 env2 Hat2 Hc2.
  eexists _, _. split; [eapply exec_put_local_last; [by eapply at_cur | done]|]. cbv beta. rewrite HT.
  apply mwp_bind. unfold mwp at 1. simpl.
  apply mwp_bind. unfold mwp at 1. simpl.
  apply mwp_bind. unfold mwp at 1. simpl.
  set (home := k_mask (w_kernel w1)). set (t2 := set_TASK _ t).
  set (w3 := put_tls t2 w2).
  assert (at_ (true, true) a grp t2 e cell w3) as Hat3 by by eapply at_put_tls.
  match goal with |- context [run body ?e ?w] => destruct (run body e w) as [[x w4] env4] eqn:Hr end.
  destruct (Hrun home w3 env2 x w4 env4 Hat3 Hc2 Hr) as (now & Hnow & Ho & Hc4).
  apply mwp_bind. unfold mwp at 1. simpl. unfold set_env, set_world, set_saved. simpl.
  destruct x as [[]|rest|]; [| |by destruct Ho as (_ & _ & [])].
  - destruct (outcome_finished _ home _ _ _ _ _ _ _ _ _ _ _ Hat3 Hs0
      (at_blocked _ _ _ _ _ _ _ _ _ _ _ _ _ _ Hat1 eq_refl) Ho)
      as (t4 & c4 & e4 & Hat4 & Hp & HE & HT4 & HK).
    assert (landed b us K r n sv (delete n sv) (linked home w4)) as Hland.
    { exists t4, e4, (Some (Return r)), since. split_and!; try done; left. by exists c4. }
    unfold linked in Hland. apply mwp_bind. destruct link_restores_mask; unfold mwp; simpl;
      (split; [done|]); eexists _, _, _; (split; [reflexivity|]); done.
  - destruct (outcome_paused _ _ _ _ _ _ _ _ _ _ _ _ _ Hat3 Hnow Hs0 Ho) as
      (t4 & c4 & e4 & e1 & cell4 & Hat4 & Hp & HE & HT4 & HK & Hsus).
    apply mwp_bind. unfold mwp at 1. simpl. set (n' := fresh (dom (delete n sv))).
    eapply mwp_at; [exact Hat4 | done |]. intros w5 env5 Hat5 Hc5.
    eexists _, _. split; [eapply exec_put_local_last; [by eapply at_cur | apply Hp]|].
    cbv beta. rewrite ?HT4. unfold mwp. simpl. split; [done|]. eexists _, _, _.
    split; [reflexivity|]. split; [done|].
    eexists _, _, _, _. split; [by eapply at_put_tls|]. split; [exact Hp|]. split; [exact HE|].
    right. exists e4, (cx_mask c4), n', rest. split; [by rewrite <- HK|]. split; [|done].
    apply not_elem_of_dom. apply is_fresh.
Qed.

(** ** [switch_stack] *)

Lemma exec_stamp w t :
  cur_tls w = Some t -> tls_destroyed t = false -> in_time T (w_clock w) -> fits T (DEADLINE t) ->
  exec stamp w = (Done tt, put_tls (set_DEADLINE (stamped (w_clock w) (DEADLINE t)) t) w).
Proof.
  intros Ht Hl Hc [Hpos Hfit]. unfold in_time in Hc. unfold stamped.
  destruct (Z.ltb_spec (DEADLINE t * 1000) U64); [apply exec_stamp_ahead | apply exec_stamp_huge];
    (done || unfold huge; lia).
Qed.

(** A function about to start: its context runs [schedule], its closure is in [BOOTSTRAP]. *)
Lemma mwp_scope_fresh b us K u t e c n w sv env lg Ψ :
  at_ (true, true) a SHARED t e (Some (Function u)) w -> clock_ok T (w_clock w) env ->
  SIGNAL t = Some (w_tid w0) -> DEFERRED t = false -> TASK t = Task_default ->
  BOOTSTRAP t = Some (h, g) -> DEADLINE t = us -> fits T us -> b = true \/ never_pauses u ->
  tls_destroyed t = false -> cx_stack c = K -> cx_code c = Saved n -> set_has (cx_mask c) s = true ->
  sv !! n = Some schedule ->
  mwp (switch_scope None g c) (fun o μ => o = None /\ exists w' env' sv',
      μ = mkMachine w' sv' env' lg /\ clock_ok T (w_clock w') env' /\
      landed b us K (ueval u e).1 n sv sv' w') Ψ (mkMachine w sv env lg).
Proof.
  intros Hat Hc HS HD HT HB Hus Hfit Hu Hl HK Hcode Hm Hn. unfold switch_scope.
  eapply mwp_at; [exact Hat | done |]. intros w1 env1 Hat1 Hc1.
  eexists _, _. split; [eapply exec_with_tls_last; [by eapply at_cur | done]|].
  cbv beta. rewrite HT. cbn [checkpoint Task_default fst snd].
  apply mwp_bind, mwp_ret, mwp_bind, mwp_ret, mwp_bind.
  destruct c as [st msk cd]. simpl in HK, Hcode, Hm. subst st cd. eapply mwp_mono.
  - eapply mwp_enter with (s0 := s) (r := (ueval u e).1) (us := us) (b := b);
      [by eapply at_put_tls, Hat1 | by left | done | done | done | exact Hn |].
    intros home w2 env2 x w3 env3 Hat2 Hc2 Hr.
    eapply run_schedule with (us := us) (b := b) in Hr as (now & Hnow & Ho & Hc3);
      [ | done.. | eapply at_boot; [by apply at_set_mask | done..] | done | done | done].
    exists now. split_and!; [ | eapply outcome_mask, Ho | done].
    destruct Hnow as [Hnow Hafter]. split; [done|]. intros Hs. specialize (Hafter Hs).
    pose proof (at_since _ _ _ _ _ _ _ _ _ _ _ _ _ _ Hat2 Hs) as Hs2. simpl in Hafter.
    clear - Hafter Hs2. lia.
  - intros o μ [-> Hland]. done.
  - done.
Qed.

(** The thread-local variables just before the jump into a paused function. *)
Record poised us (c : Context) t' : Prop := {
  po_signal : SIGNAL t' = Some (w_tid w0);
  po_deferred : DEFERRED t' = false;
  po_task : exists msk, TASK t' = mkTask None (Some (mkContext (cx_stack c) msk (cx_code c))) false /\
    set_has msk s = false;
  po_bootstrap : BOOTSTRAP t' = None;
  po_location : ERRNO_LOCATION t' = Some g;
  po_deadline : exists now, in_call now /\ DEADLINE t' = stamped now us;
  po_alive : tls_destroyed t' = false;
}.

(** The jump, and what [switch_scope] makes of its failure. *)
Definition jump : comp machine (option Z) :=
  failure ← sigsetcontext;
  match failure with
  | None => mret None
  | Some f => e ← expect f "resume(): continuation is invalid"; mret (Some e)
  end.

(** A paused function: preemption is set up again around its context. *)
Lemma mwp_scope_poised us t e0 e cell c w sv env lg Φ Ψ :
  at_ (true, true) a SHARED t e0 cell w -> clock_ok T (w_clock w) env ->
  SIGNAL t = Some (w_tid w0) -> DEFERRED t = false -> TASK t = Task_default ->
  BOOTSTRAP t = None -> ERRNO_LOCATION t = Some g -> DEADLINE t = us -> fits T us ->
  tls_destroyed t = false ->
  (forall t' w env, at_ (true, true) a g t' e cell w -> clock_ok T (w_clock w) env ->
     poised us c t' -> mwp jump Φ Ψ (mkMachine w sv env lg)) ->
  mwp (switch_scope (Some e) g c) Φ Ψ (mkMachine w sv env lg).
Proof.
  intros Hat Hc HS HD HT HB HE Hus Hfit Hl Hjump. unfold switch_scope.
  eapply mwp_at; [exact Hat | done |]. intros w1 env1 Hat1 Hc1.
  eexists _, _. split; [eapply exec_with_tls_last; [by eapply at_cur | done]|].
  cbv beta. rewrite HT. cbn [checkpoint errno yielded Task_default fst snd].
  apply mwp_bind, mwp_ret, mwp_bind.
  set (t1 := set_TASK (mkTask None (Some c) false) t).
  eapply mwp_at; [eapply at_put_tls with (t' := t1), Hat1 | done |]. intros w2 env2 Hat2 Hc2.
  eexists _, _. split; [reflexivity|].
  rewrite (at_thread_signal _ _ _ _ _ _ _ _ _ _ _ _ _ Hat2) by done.
  eapply mwp_at; [exact Hat2 | done |]. intros w3 env3 Hat3 Hc3.
  destruct (pthread_sigmask_run Block (set_add set_empty s) (w_kernel w3)) as (m & Hm & Hspec).
  eexists _, _. split; [by eapply exec_call_last|]. cbv beta iota zeta.
  set (old := k_mask (w_kernel w3)).
  assert (set_has m s = true) as Hms.
  { rewrite Hspec by done. simpl. rewrite set_add_same. apply orb_true_r. }
  eapply mwp_at; [by eapply at_set_mask, Hms; exact Hat3 | done |]. intros w4 env4 Hat4 Hc4.
  eexists _, _. split; [eapply exec_put_local_last; [by eapply at_cur | done]|].
  cbn [t1 TASK set_TASK errno checkpoint yielded fmap option_fmap option_map].
  set (t4 := set_TASK (mkTask None (Some (mkContext (cx_stack c) (set_del old s) (cx_code c))) false) t1).
  eapply mwp_at; [eapply at_put_tls with (t' := t4), Hat4 | done |]. intros w5 env5 Hat5 Hc5.
  eexists _, _. split; [eapply exec_stamp; [by eapply at_cur | done | apply Hat5 | by rewrite <- Hus in Hfit]|].
  set (t5 := set_DEADLINE _ t4).
  eapply mwp_at; [eapply at_put_tls with (t' := t5), Hat5 | done |]. intros w6 env6 Hat6 Hc6.
  eexists _, _. split; [reflexivity|].
  eapply mwp_at; [eapply at_set_group with (grp' := g), Hat6 | done |]. intros w7 env7 Hat7 Hc7.
  eexists _, _. split; [reflexivity|]. apply mwp_ret.
  assert (errno_loc w7 = (a, g)) as ->.
  { destruct Hat7. unfold errno_loc. by rewrite at_fs, at_group, law_errno_sel. }
  eapply (Hjump t5); [eapply at_set_errno with (e' := e), Hat7 | done |]. split; try done.
  - eexists. split; [done | apply set_del_same].
  - exists (w_clock w5). split; [by eapply at_in_call | simpl; by rewrite Hus].
Qed.

Lemma mwp_scope_paused b us K r t e0 e cell c n rest w sv env lg Ψ :
  at_ (true, true) a SHARED t e0 cell w -> clock_ok T (w_clock w) env ->
  SIGNAL t = Some (w_tid w0) -> DEFERRED t = false -> TASK t = Task_default ->
  BOOTSTRAP t = None -> ERRNO_LOCATION t = Some g -> DEADLINE t = us -> fits T us ->
  tls_destroyed t = false -> cx_stack c = K -> cx_code c = Saved n ->
  sv !! n = Some rest -> continuable K b rest e cell r ->
  mwp (switch_scope (Some e) g c) (fun o μ => o = None /\ exists w' env' sv',
      μ = mkMachine w' sv' env' lg /\ clock_ok T (w_clock w') env' /\
      landed b us K r n sv sv' w') Ψ (mkMachine w sv env lg).
Proof.
  intros Hat Hc HS HD HT HB HE Hus Hfit Hl HK Hcode Hn (s0 & Hs0 & Hsus).
  eapply mwp_scope_poised; [done..|]. clear t w env Hat Hc HS HD HT HB HE Hus Hl.
  intros t w env Hat Hc [HS HD (msk & HT & Hmsk) HB HE (now & Hnow & Hdl) Hl].
  rewrite HK, Hcode in HT. apply mwp_bind. eapply mwp_mono.
  - eapply mwp_enter with (r := r) (b := b) (us := us);
      [exact Hat | exact Hs0 | done | done | exact HT | exact Hn |].
    intros home w8 env8 x w9 env9 Hat8 Hc8 Hr.
    eapply run_suspended with (d := stamped now us) in Hr as [Ho Hc9];
      [ | exact Hsus | eapply at_view; [exact Hat8 | done..] | | done].
    + exists now. split_and!; [done | eapply outcome_mask, Ho | done].
    + eexists. split; [exact (at_cur _ _ _ _ _ _ _ _ _ _ _ _ _ Hat8)|]. left. simpl. by rewrite Hdl.
  - intros o μ [-> Hland]. done.
  - done.
Qed.

(** What [switch_stack] leaves: the function's block is still installed, and it has its stack unless
    it finished. *)
Definition switched b us K r n sv c id lg (fin : bool) (μ : machine) : Prop :=
  exists w env sv' t e cell task over w1,
    μ = mkMachine w sv' env (<[id := LContinuation (set_stateful task c)]> lg) /\
    clock_ok T (w_clock w) env /\ stocked (value K) (if fin then None else value K) w0 w1 /\
    at_of w1 over (true, true) a SHARED t e cell w /\
    parked t /\ ERRNO_LOCATION t = Some g /\ TASK t = Task_default /\
    if fin then errno task = None /\ checkpoint task = None /\ cell = Some (Return r) /\
                sv' = delete n sv
    else exists e' m n' rest,
      task = mkTask (Some e') (Some (mkContext K m (Saved n'))) (DEADLINE t =? 0) /\
      delete n sv !! n' = None /\ sv' = <[n' := rest]> (delete n sv) /\
      continuable K b rest e' cell r /\ expired b us over t.

Lemma mwp_switch_stack b us st r n c id task cx w sv env lg Ψ :
  checkpoint task = Some cx ->
  (forall c', mwp (switch_scope (errno task) g cx) (fun o μ => o = None /\ exists w' env' sv',
      μ = mkMachine w' sv' env' (<[id := LContinuation c']> lg) /\
      clock_ok T (w_clock w') env' /\
      landed b us (mkReusable (Some st)) r n sv sv' w') Ψ
    (mkMachine w sv env (<[id := LContinuation c']> lg))) ->
  mwp (switch_stack id task g) (fun x μ => exists fin, x = Ok fin /\
      switched b us (mkReusable (Some st)) r n sv c id lg fin μ) Ψ
    (mkMachine w sv env (<[id := LContinuation c]> lg)).
Proof.
  intros Hcx Hscope. unfold switch_stack. rewrite Hcx. apply mwp_expect, mwp_update, mwp_bind.
  unfold mwp at 1. cbn [get m_world].
  destruct (calls_work (w_clock w)) as (_ & -> & _). apply mwp_bind.
  eapply mwp_mono; [apply Hscope | | done]. clear Hscope. clear w env.
  intros o μ (-> & w & env & sv' & -> & Hc & t & e & cell & over & Hat & Hp & HE & Hland).
  eapply mwp_at; [exact Hat | done |]. clear w env Hat Hc. intros w env Hat Hc.
  eexists _, _. split; [eapply exec_with_tls_last; [by eapply at_cur | apply Hp]|].
  cbn [fst snd]. set (t' := set_TASK Task_default t).
  assert (at_from over (true, true) a SHARED t' e cell (put_tls t' w)) as Hat'
    by by eapply at_put_tls.
  destruct Hland as [(c2 & HT & HK & -> & ->) | (e' & m & n' & rest & HT & Hn' & -> & Hsus)];
    rewrite HT; cbn [errno is_some]; apply mwp_update.
  - eapply mwp_at; [exact Hat' | done |]. intros w1 env1 Hat1 Hc1.
    unfold drop_task, drop_context. cbn [checkpoint]. rewrite HK.
    destruct (drop_took_back (w_stacks w1) st) as (o' & Ho & Hback);
      [by apply (at_usable _ _ _ _ _ _ _ _ _ _ _ _ _ _ Hat1)|].
    eexists _, _. split; [by eapply exec_call_last|]. apply mwp_ret. exists true.
    split; [done|]. eexists _, _, _, t', e, _, _, over, (set_stacks o' w0). split; [reflexivity|].
    split; [done|]. split; [|split; [|done]].
    + exists o'. split; [|done]. intros out Hout. eapply pool_held_back; [exact Hout|].
      destruct (at_pools _ _ _ _ _ _ _ _ _ _ _ _ _ _ Hat1) as (_ & _ & <-). done.
    + eapply (at_set_stacks _ _ _ _ _ _ _ _ (true, true)); [done | by eapply took_back_usable].
  - apply mwp_ret. exists false. split; [done|]. eexists _, _, _, t', e, _, _, over, w0.
    split; [reflexivity|]. split; [done|]. split; [apply stocked_refl|].
    split; [done|]. split_and!; try done; try apply Hp.
    by exists e', m, n', rest.
Qed.

(** ** The function's state between two calls of [resume] *)

(** The computation set aside for a continuation. *)
Definition slot (c : Continuation) : option nat :=
  match checkpoint (stateful c) with Some (mkContext _ _ (Saved n)) => Some n | _ => None end.

(** A continuation that will end with [r]: not started yet, or paused.  [b] says whether the
    function may call [pause]. *)
Definition resumable b (c : Continuation) t e cell (sv : gmap nat (prog unit)) (r : ThdResult)
  : Prop :=
  (stateful c = Task_default /\ exists u, cell = Some (Function u) /\ r = (ueval u e).1 /\
     (b = true \/ never_pauses u)) \/
  (exists e' st m n rest y,
     stateful c = mkTask (Some e') (Some (mkContext (mkReusable (Some st)) m (Saved n))) y /\
     sv !! n = Some rest /\ ERRNO_LOCATION t = Some g /\
     continuable (mkReusable (Some st)) b rest e' cell r).

(** Only the continuation's own slot changes, and its new slot was free. *)
Definition slots_kept (c c' : Continuation) (sv sv' : gmap nat (prog unit)) : Prop :=
  (forall m, slot c <> Some m -> slot c' <> Some m -> sv' !! m = sv !! m) /\
  (forall m, slot c' = Some m -> slot c = Some m \/ sv !! m = None).

End Run.

Section Resume.
Context `{PlatformLaws}.
Context (a : Z) (g : Group) (h : nat) (s : Signal) (f : Z) (w0 : world) (T : span) (since : Z).
Hypothesis s_maskable : s <> Kill.
Hypothesis T_u64 : until T <= U64.
Hypothesis g_own : g <> SHARED.
Hypothesis calls_work : no_failures.
Implicit Types (w : world) (t : tls).

Abbreviation at_of w1 := (at_ a g h s w1 T).
Abbreviation at_ := (Caller.at_ a g h s w0 T since).
Abbreviation expired := (expired T since).
Abbreviation resumable := (resumable a g h s T).

(** What is left of a call once [switch_stack] has returned whether the function [finished]. *)
Definition settled b us c sv r id lg (finished : bool) (μ : machine) : Prop :=
  exists w env sv' t e cell task over w1,
    μ = mkMachine w sv' env (<[id := LContinuation (set_stateful task c)]> lg) /\
    clock_ok T (w_clock w) env /\ stocked (stack_of c) (stack_of (set_stateful task c)) w0 w1 /\
    at_of w1 over (true, true) a SHARED t e cell w /\
    parked t /\ TASK t = Task_default /\ slots_kept c (set_stateful task c) sv sv' /\
    if finished then errno task = None /\ checkpoint task = None /\ cell = Some (Return r)
    else resumable b (set_stateful task c) t e cell sv' r /\ is_some (errno task) = true /\
         yielded task = (DEADLINE t =? 0) /\ expired b us over t.

Lemma switched_settled w2 b us st r n sv0 sv c c0 id lg fin μ :
  switched a g h s w2 T since b us (mkReusable (Some st)) r n sv c id lg fin μ ->
  stocked (stack_of c0) (Some st) w0 w2 ->
  (forall task, set_stateful task c = set_stateful task c0) ->
  (forall m, m <> n -> sv !! m = sv0 !! m) -> slot c0 = Some n \/ slot c0 = None /\ sv0 !! n = None ->
  settled b us c0 sv0 r id lg fin μ.
Proof.
  intros (w & env & sv' & t & e & cell & task & over & w1 & -> & Hc & Hst & Hat & Hp & HE & HT & Hb)
    Hst0 Hcc Hsv Hn.
  exists w, env, sv', t, e, cell, task, over, w1. rewrite Hcc. split_and!; try done; try apply Hp.
  - eapply stocked_trans; [exact Hst0|]. unfold stack_of. cbn [stateful set_stateful].
    destruct fin; [by destruct Hb as (_ & -> & _)|]. by destruct Hb as (e' & m' & n' & rest & -> & _).
  - destruct fin.
    + destruct Hb as (_ & Hcp & _ & ->). unfold slots_kept, slot. simpl. rewrite Hcp.
      split; [|done]. intros m Hm _. destruct (decide (m = n)) as [->|].
      * rewrite lookup_delete_eq. destruct Hn as [Hn|[_ Hn]]; done.
      * rewrite lookup_delete_ne by done. by apply Hsv.
    + destruct Hb as (e' & m' & n' & rest & -> & Hn' & -> & _). unfold slots_kept, slot. simpl.
      split.
      * intros m Hm Hm'. rewrite lookup_insert_ne by congruence.
        destruct (decide (m = n)) as [->|].
        -- rewrite lookup_delete_eq. destruct Hn as [Hn|[_ Hn]]; done.
        -- rewrite lookup_delete_ne by done. by apply Hsv.
      * intros m [= <-]. destruct (decide (n' = n)) as [->|]; [naive_solver|]. right.
        rewrite lookup_delete_ne in Hn' by done. by rewrite <- Hsv.
  - destruct fin; [naive_solver|].
    destruct Hb as (e' & m' & n' & rest & -> & Hn' & -> & Hsus & Hexp).
    split_and!; try done. right. exists e', st, m', n', rest, (DEADLINE t =? 0). split_and!; try done.
    by rewrite lookup_insert_eq.
Qed.

(** ** With the function's block installed *)

Lemma exec_setup_thread hk t e cell w :
  at_ hk a SHARED t e cell w -> tls_destroyed t = false ->
  exists w', exec (setup_thread (w_tid w0)) w = (Done (Ok tt), w') /\ w_clock w' = w_clock w /\
    at_ (true, hk.2) a SHARED (set_SIGNAL (Some (w_tid w0)) t) e cell w'.
Proof.
  intros Hat Hl. pose proof (at_cur _ _ _ _ _ _ _ _ _ _ _ _ _ Hat) as Hcur.
  set (t' := set_SIGNAL _ t).
  assert (forall k sg sn, prepared s (w_tid w0) (set_signalers sn (set_kernel k (set_signals sg w))) ->
    at_ hk a SHARED t e cell (set_signalers sn (set_kernel k (set_signals sg w)))) as Hother.
  { intros k sg sn Hp. destruct Hat. split; try done. by left. }
  destruct (at_thread _ _ _ _ _ _ _ _ _ _ _ _ _ _ Hat) as [Hp|[_ Hu]].
  - exists (set_hooked true (put_tls t' w)). split_and!; [|done|].
    + destruct Hp as [(ps & Hps & _) _]. by eapply thread_setup_again.
    + apply at_hook; [by eapply at_put_tls | exact Hp].
  - destruct (thread_setup_granted _ _ _ t Hu) as (o & ps & k' & Hx & Hs & Hcf); [done|].
    eexists. split_and!; [exact Hx | done |].
    assert (prepared s (w_tid w0)
      (set_signalers (<[w_tid w0 := ps]> (w_signalers w)) (set_kernel k' (set_signals o w)))) as Hp.
    { split; simpl; [exists ps; by rewrite lookup_insert_eq|].
      by rewrite (cf_mask _ _ _ _ _ _ Hcf), bool_decide_eq_true_2. }
    apply at_hook; [by eapply at_put_tls, Hother | exact Hp].
Qed.

(** [setup_stack] makes a context that runs [schedule]. *)
Lemma mwp_setup_stack hk t e cell w sv env lg Ψ :
  at_ hk a SHARED t e cell w -> clock_ok T (w_clock w) env -> hk.1 = true ->
  mwp setup_stack (fun x μ => exists w' env' st m,
      let n := fresh (dom sv) in
      x = Ok (Some (mkContext (mkReusable (Some st)) m (Saved n))) /\
      set_has m s = true /\ μ = mkMachine w' (<[n := schedule]> sv) env' lg /\
      clock_ok T (w_clock w') env' /\ exists w1, stocked None (Some st) w0 w1 /\
      w_tid w1 = w_tid w0 /\ at_of w1 since (hk.1, true) a SHARED t e cell w') Ψ
    (mkMachine w sv env lg).
Proof.
  intros Hat Hc Hhk. unfold setup_stack. eapply mwp_at; [exact Hat | done |].
  clear w env Hat Hc. intros w env Hat Hc.
  destruct (alloc_stack_ok (w_stacks w)) as (st & o & Ho & Hu);
    [exact (at_stacks _ _ _ _ _ _ _ _ _ _ _ _ _ _ Hat)|].
  eexists _, _. split; [by eapply exec_call_last|].
  apply mwp_bind. unfold mwp at 1. cbn [get m_world m_saved].
  match goal with |- context [makecontext_err ?c] => destruct (calls_work c) as (-> & _ & _) end.
  unfold mwp. simpl. eexists _, _, st, _. split; [reflexivity|].
  split; [exact (at_blocked _ _ _ _ _ _ _ _ _ _ _ _ _ _ Hat Hhk)|]. split; [reflexivity|].
  split; [done|]. exists (set_stacks o w0). split; [|split; [done|]; by apply at_set_stacks].
  exists o. split; [|done]. intros out.
  destruct (at_pools _ _ _ _ _ _ _ _ _ _ _ _ _ _ Hat) as (_ & _ & <-). by eapply alloc_stack_held.
Qed.

(** The rest of [resume_installed], once the task is known. *)
Lemma mwp_run_task b hk c us id t e cell r w sv env lg Ψ :
  at_ hk a SHARED t e cell w -> clock_ok T (w_clock w) env ->
  hk = (true, is_some (errno (stateful c))) -> 
  SIGNAL t = Some (w_tid w0) -> DEFERRED t = false -> TASK t = Task_default ->
  BOOTSTRAP t = None -> tls_destroyed t = false -> functional c = h ->
  resumable b c t e cell sv r -> fits T us ->
  mwp (task ←? (if is_none (errno (stateful c)) then
             cx ←? setup_stack;
             let task := mkTask (errno (stateful c)) cx (yielded (stateful c)) in
             _ ← update_continuation id (set_stateful task);
             no_fun ← main (with_tls (fun t =>
               (BOOTSTRAP t, set_BOOTSTRAP (Some (functional c, g)) t)));
             _ ← main (debug_assert (is_none no_fun)
                   "resume(): bootstraps without an intervening schedule()");
             mret (Ok task)
           else mret (Ok (stateful c)));
       _ ← main (put_local (set_DEADLINE us));
       switch_stack id task g)
    (fun x μ => exists fin, x = Ok fin /\ settled b us c sv r id lg fin μ) Ψ
    (mkMachine w sv env (<[id := LContinuation c]> lg)).
Proof.
  intros Hat Hc -> HS HD HT HB Hl Hh Hres Hfit. apply mwp_try.
  destruct Hres as [(Hst & u & -> & -> & Hu) | (e' & st & m & n & rest & y & Hst & Hn & HE & Hsus)];
    rewrite Hst in *; cbn [errno is_none is_some negb Task_default] in *.
  - apply mwp_try. eapply mwp_mono; [by eapply mwp_setup_stack| |done].
    clear w env Hat Hc. cbv iota zeta.
    intros x μ (w & env & st & m & -> & Hm & -> & Hc & w1 & Hst1 & Htid & Hat).
    rewrite <- Htid in HS.
    set (n := fresh (dom sv)) in *.
    apply mwp_update. eapply mwp_at; [exact Hat | done |]. clear w env Hat Hc. intros w env Hat Hc.
    eexists _, _. split; [eapply exec_with_tls_last; [by eapply at_cur | done]|].
    cbn [fst snd]. rewrite HB, Hh. set (t1 := set_BOOTSTRAP (Some (h, g)) t).
    eapply mwp_at; [eapply at_put_tls with (t' := t1), Hat | done |].
    clear w env Hat Hc. intros w env Hat Hc.
    eexists _, _. split; [by apply exec_debug_assert_last|]. apply mwp_ret.
    eapply mwp_at; [exact Hat | done |]. clear w env Hat Hc. intros w env Hat Hc.
    eexists _, _. split; [eapply exec_put_local_last; [by eapply at_cur | done]|].
    set (t2 := set_DEADLINE us t1).
    assert (sv !! n = None) as Hn by apply not_elem_of_dom, is_fresh.
    eapply mwp_mono; [eapply (mwp_switch_stack a g h s w1 T since calls_work)
      with (r := (ueval u e).1) (n := n) (st := st) (b := b) (us := us); [reflexivity|] | |done].
    + intros c'. eapply (mwp_scope_fresh a g h s w1 T since s_maskable T_u64 g_own calls_work) with (t := t2);
        [eapply at_put_tls with (t' := t2), Hat | done..|]. by rewrite lookup_insert_eq.
    + intros x μ (fin & -> & Hsw). exists fin. split; [done|].
      eapply switched_settled; [exact Hsw | | done | |].
      * unfold stack_of. by rewrite Hst.
      * intros k Hk. by rewrite lookup_insert_ne.
      * right. split; [|done]. unfold slot. by rewrite Hst.
  - apply mwp_ret. eapply mwp_at; [exact Hat | done |].
    clear w env Hat Hc. intros w env Hat Hc.
    eexists _, _. split; [eapply exec_put_local_last; [by eapply at_cur | done]|].
    set (t2 := set_DEADLINE us t).
    eapply mwp_mono; [eapply (mwp_switch_stack a g h s w0 T since calls_work)
      with (r := r) (n := n) (st := st) (b := b) (us := us); [reflexivity|] | |done].
    + intros c'. eapply (mwp_scope_paused a g h s w0 T since s_maskable g_own calls_work) with (t := t2);
        [eapply at_put_tls with (t' := t2), Hat | done..].
    + intros x μ (fin & -> & Hsw). exists fin. split; [done|].
      eapply switched_settled; [exact Hsw | | done | done |].
      { unfold stack_of. rewrite Hst. apply stocked_refl. }
      left. unfold slot. by rewrite Hst.
Qed.

Lemma mwp_resume_installed b hk c us id t e cell r w sv env lg Ψ :
  at_ hk a SHARED t e cell w -> clock_ok T (w_clock w) env ->
  hk.2 = is_some (errno (stateful c)) -> parked t -> TASK t = Task_default ->
  functional c = h -> resumable b c t e cell sv r -> fits T us ->
  mwp (resume_installed id c (w_tid w0) g us)
    (fun x μ => exists fin, x = Ok fin /\ settled b us c sv r id lg fin μ) Ψ
    (mkMachine w sv env (<[id := LContinuation c]> lg)).
Proof.
  intros Hat Hc Hhk (_ & HD & HB & Hl) HT Hh Hres Hfit. unfold resume_installed.
  eapply mwp_at; [exact Hat | done |]. clear w env Hat Hc. intros w env Hat Hc.
  destruct (exec_setup_thread _ _ _ _ _ Hat Hl) as (w' & Hx & Hcl & Hat').
  eexists _, _. split; [exact Hx|]. cbv iota. apply mwp_bind, mwp_ret.
  cbv zeta. rewrite Hhk in Hat'. eapply mwp_run_task; [exact Hat' | by rewrite Hcl | done..].
Qed.

(** ** Completion *)

(** The continuation gives back what it owns. *)
Lemma exec_drop_finished c t e cell over w2 w :
  at_of w2 over (true, true) f SHARED t e cell w -> errno (stateful c) = None ->
  checkpoint (stateful c) = None -> functional c = h -> value (group c) = Some g ->
  value (tls_block c) = Some (Some (Some (Mut a))) ->
  exists w' w1, exec (drop_continuation c) w = (Done tt, w') /\ w_clock w' = w_clock w /\
    released a g h w2 w1 /\ at_of w1 over (true, true) f SHARED t e None w'.
Proof.
  intros Hat Herr Hcp Hh Hg Hx. unfold drop_continuation. rewrite exec_is_preemptible.
  pose proof (at_group _ _ _ _ _ _ _ _ _ _ _ _ _ _ Hat) as ->.
  rewrite (proj2 (is_shared_true _) eq_refl). cbn [negb]. rewrite andb_false_r, Herr.
  cbn [is_some]. unfold drop_fields, drop_task. rewrite Hcp, Hh.
  do 2 erewrite exec_dropping by reflexivity.
  destruct (group c) as [g']. destruct (tls_block c) as [x']. simpl in Hg, Hx. subst g' x'.
  destruct (drop_took_back (w_groups w) g) as (o1 & Ho1 & Hu1);
    [exact (at_groups _ _ _ _ _ _ _ _ _ _ _ _ _ _ Hat)|].
  unfold drop_group. erewrite exec_dropping by by apply exec_call_last.
  destruct (store_return_took_back (w_localstores w) (Some (Some (Mut a)))) as (o2 & Ho2 & Hu2);
    [exact (at_stores _ _ _ _ _ _ _ _ _ _ _ _ _ _ Hat)|].
  unfold drop_localstore. erewrite exec_call_last by exact Ho2.
  destruct (at_pools _ _ _ _ _ _ _ _ _ _ _ _ _ _ Hat) as (Hpg & Hps & _).
  exists (free_all h o1 o2 w), (free_all h o1 o2 w2). split; [done|]. split; [done|]. split.
  - exists o1, o2. rewrite <- Hpg, <- Hps. done.
  - eapply at_free; [done | by eapply took_back_usable | by eapply store_took_back_ok].
Qed.

(** ** [resume] *)

(** The continuation owns its closure, its libset and its thread-control block. *)
Definition owns (c : Continuation) : Prop :=
  functional c = h /\ value (group c) = Some g /\ value (tls_block c) = Some (Some (Some (Mut a))).

(** The kernel and the linker accept the blocks involved. *)
Definition installable : Prop :=
  live (w_tcb w0) a /\ live (w_tcb w0) f /\ arch_get_fs f = 0 /\ arch_set_fs a = 0 /\
  arch_set_fs f = 0 /\ has_ctype_init g = true.

(** The world that the frame of a [Linger] refers to: the function may have got a stack; once it is
    over, what it owned has been given back. *)
Definition stack_left (l : Linger) : option Stack :=
  match l with LContinuation c => stack_of c | _ => None end.
Definition frame_of (c : Continuation) (l : Linger) w1 : Prop :=
  exists w2, stocked (stack_of c) (stack_left l) w0 w2 /\
    if is_continuation l then w1 = w2 else released a g h w2 w1.

(** The world and machine after the call: whatever happened, the caller's block, the shared
    libset and the blocked signal are back. *)
Definition returned b us c id sv lg (l : Linger) t e cell (μ : machine) : Prop :=
  exists w env sv' over w1, μ = mkMachine w sv' env (<[id := l]> lg) /\
    clock_ok T (w_clock w) env /\ frame_of c l w1 /\
    at_of w1 over (true, true) f SHARED t e cell w /\ parked t /\ TASK t = Task_default /\
    match l with
    | LContinuation c' => owns c' /\ slots_kept c c' sv sv' /\
        is_some (errno (stateful c')) = true /\ yielded (stateful c') = (DEADLINE t =? 0) /\
        expired b us over t
    | _ => forall m, slot c <> Some m -> sv' !! m = sv !! m
    end.

(** What [resume] does with a function that will end with [r]. *)
Definition resume_post b us c id sv lg (r : ThdResult) (x : result unit Z) (μ : machine) : Prop :=
  x = Ok tt /\ exists t e cell,
    (exists v, r = Ok v /\ returned b us c id sv lg (LCompletion v) t e cell μ /\ cell = None) \/
    (exists c', returned b us c id sv lg (LContinuation c') t e cell μ /\
       resumable b c' t e cell (m_saved μ) r).
Definition resume_panic b us c id sv lg (r : ThdResult) (msg : string) (μ : machine) : Prop :=
  r = Err msg /\ exists t e, returned b us c id sv lg LPoison t e None μ.

(** [*fun = ...] after the function finished. *)
Lemma mwp_assign_linger id l c t e cell over w2 w sv env lg Φ Ψ :
  at_of w2 over (true, true) f SHARED t e cell w -> clock_ok T (w_clock w) env ->
  errno (stateful c) = None -> checkpoint (stateful c) = None -> functional c = h ->
  value (group c) = Some g -> value (tls_block c) = Some (Some (Some (Mut a))) ->
  (forall w env w1, released a g h w2 w1 -> at_of w1 over (true, true) f SHARED t e None w ->
     clock_ok T (w_clock w) env -> Φ tt (mkMachine w sv env (<[id := l]> lg))) ->
  mwp (assign_linger id l) Φ Ψ (mkMachine w sv env (<[id := LContinuation c]> lg)).
Proof.
  intros Hat Hc Herr Hcp Hh Hg Hx HΦ. unfold assign_linger.
  apply mwp_bind. unfold mwp at 1. cbn [gets m_lingers]. unfold gets. cbn [m_lingers].
  rewrite lookup_insert_eq.
  apply mwp_bind. unfold mwp at 1, modify, set_lingers. cbn [m_lingers m_world m_saved m_env].
  rewrite insert_insert_eq. eapply mwp_at_last; [exact Hat | done |].
  clear w env Hat Hc. intros w env Hat Hc. cbn [drop_linger].
  edestruct exec_drop_finished as (w' & w1 & Hd & Hcl & Hrel & Hat'); [exact Hat | done..|].
  eexists _, _. split; [exact Hd|]. eapply HΦ; [done..|]. by rewrite Hcl.
Qed.

(** The function has finished: its result is retrieved and takes the continuation's place. *)
Lemma mwp_retrieve b us c c2 id r t e over w2 w sv sv' env lg :
  at_of w2 over (true, true) f SHARED t e (Some (Return r)) w -> clock_ok T (w_clock w) env ->
  stocked (stack_of c) None w0 w2 -> parked t -> TASK t = Task_default ->
  owns c2 -> errno (stateful c2) = None -> checkpoint (stateful c2) = None ->
  (forall m, slot c <> Some m -> sv' !! m = sv !! m) ->
  mwp (retval ← main (closure_call h true);
       v ← expect retval "resume(): return value was already retrieved";
       match v with
       | Ok v => _ ← assign_linger id (LCompletion v); mret (Ok tt)
       | Err msg => _ ← assign_linger id LPoison; panic msg
       end) (resume_post b us c id sv lg r) (resume_panic b us c id sv lg r)
    (mkMachine w sv' env (<[id := LContinuation c2]> lg)).
Proof.
  intros Hat Hc Hst Hp HT (Hh & Hg & Ht) Herr Hcp Hsv.
  eapply mwp_at; [exact Hat | done |]. clear w env Hat Hc. intros w env Hat Hc.
  unfold closure_call. eexists _, _. split.
  { simpl. rewrite (at_heap _ _ _ _ _ _ _ _ _ _ _ _ _ _ Hat). reflexivity. }
  apply mwp_expect. apply (at_set_heap _ _ _ _ _ _ _ Empty) in Hat.
  destruct r as [v|msg]; apply mwp_bind;
    (eapply mwp_assign_linger with (c := c2); [exact Hat | done | done.. |]);
    clear w env Hat Hc; intros w env w1 Hrel Hat Hc.
  - apply mwp_ret. split; [done|]. exists t, e, None. left. exists v. split; [done|].
    split; [|done]. exists w, env, sv', over, w1. split_and!; try done. by exists w2.
  - split; [done|]. exists t, e. exists w, env, sv', over, w1. split_and!; try done. by exists w2.
Qed.

(** A continuation whose thread-control block has been taken out. *)
Definition stripped (c : Continuation) : Continuation := set_tls_block (mkReusable (Some None)) c.

(** [resume] once the function's block is installed. *)
Definition resume_rest (id : nat) (c : Continuation) (guard : ThreadControlBlockGuard)
    (thread : RealThreadId) (us : Z) : comp machine (result unit Z) :=
  finished ←? with_guard guard (resume_installed id c thread g us);
  t ←? main (on_tcb (uninstall guard));
  _ ← update_continuation id (set_tls_block (mkReusable (Some (Some t))));
  if finished : bool then
    retval ← main (closure_call (functional c) true);
    v ← expect retval "resume(): return value was already retrieved";
    match v with
    | Ok v => _ ← assign_linger id (LCompletion v); mret (Ok tt)
    | Err msg => _ ← assign_linger id LPoison; panic msg
    end
  else mret (Ok tt).

Lemma mwp_resume_entry hk c us id t e cell w sv env lg Φ Ψ :
  at_ hk f SHARED t e cell w -> clock_ok T (w_clock w) env -> owns c -> installable ->
  (forall w env, at_ hk a SHARED t e cell w -> clock_ok T (w_clock w) env ->
     mwp (resume_rest id (stripped c) (mkGuard (Some (Mut a)) (Some (Ref f))) (w_tid w0) us) Φ Ψ
       (mkMachine w sv env (<[id := LContinuation (stripped c)]> lg))) ->
  mwp (resume id us) Φ Ψ (mkMachine w sv env (<[id := LContinuation c]> lg)).
Proof.
  intros Hat Hc (Hh & Hg & Ht) (Hla & Hlf & Hget & Hseta & Hsetf & Hctype) Hrest.
  unfold resume. eapply mwp_at; [exact Hat | done |]. clear w env Hat Hc. intros w env Hat Hc.
  eexists _, _. split; [reflexivity|].
  pose proof (at_group _ _ _ _ _ _ _ _ _ _ _ _ _ _ Hat) as ->.
  rewrite (proj2 (is_shared_true _) eq_refl).
  eapply mwp_at; [exact Hat | done |]. clear w env Hat Hc. intros w env Hat Hc.
  eexists _, _. split; [by apply exec_debug_assert_last|].
  apply mwp_bind. unfold mwp at 1, gets. cbn [m_lingers]. rewrite lookup_insert_eq. cbv iota.
  unfold deref. rewrite Hg. apply mwp_expect.
  eapply mwp_at; [exact Hat | done |]. clear w env Hat Hc. intros w env Hat Hc.
  eexists _, _. split; [reflexivity|].
  pose proof (at_tid _ _ _ _ _ _ _ _ _ _ _ _ _ _ Hat) as ->.
  rewrite Ht. apply mwp_expect, mwp_update, mwp_expect, mwp_try.
  eapply mwp_at_last; [exact Hat | done |]. clear w env Hat Hc. intros w env Hat Hc.
  pose proof (at_fs _ _ _ _ _ _ _ _ _ _ _ _ _ _ Hat) as Hfs.
  assert (forall x, live (w_tcb w0) x -> live (w_tcb w) x) as Hlive
    by exact (at_live _ _ _ _ _ _ _ _ _ _ _ _ _ _ Hat).
  eexists _, _. split.
  { eapply exec_call_last, install_run; rewrite ?Hfs; auto. }
  rewrite Hfs. cbv beta iota.
  apply (Hrest _ env); [by eapply at_install | done].
Qed.

Lemma mwp_resume b hk c us id t e cell r w sv env lg :
  at_ hk f SHARED t e cell w -> clock_ok T (w_clock w) env ->
  hk.2 = is_some (errno (stateful c)) -> parked t -> TASK t = Task_default ->
  owns c -> installable -> resumable b c t e cell sv r -> fits T us ->
  mwp (resume id us) (resume_post b us c id sv lg r) (resume_panic b us c id sv lg r)
    (mkMachine w sv env (<[id := LContinuation c]> lg)).
Proof.
  intros Hat Hc Hhk Hp HT Hown Hi Hres Hfit.
  eapply mwp_resume_entry; [done..|]. clear w env Hat Hc. intros w env Hat Hc.
  destruct Hown as (Hh & Hg & Ht), Hi as (_ & _ & _ & _ & Hsetf & _).
  set (c1 := stripped c). unfold resume_rest, with_guard. apply mwp_try, mwp_bind, mwp_unwinding.
  eapply mwp_mono; [eapply mwp_resume_installed with (c := c1) (r := r) (b := b) (Ψ := fun _ _ => False);
    [exact Hat | done..] | | done].
  clear w env Hat Hc Hhk Hp HT Hres t e cell.
  intros x μ (fin & -> & w & env & sv' & t & e & cell & task & over & w2 & -> & Hc & Hst & Hat & Hp &
    HT & Hsk & Hb).
  cbv beta iota. apply mwp_ret, mwp_try.
  eapply mwp_at_last; [exact Hat | done |]. clear w env Hat Hc. intros w env Hat Hc.
  eexists _, _. split; [eapply exec_call_last, uninstall_run; [by eapply at_grounded | done]|]. cbv iota beta.
  apply at_uninstall with (f := f) in Hat. apply mwp_update. set (c2 := set_tls_block _ _).
  assert (owns c2) as Hown2 by done.
  destruct fin.
  - destruct Hb as (Herr & Hcp & ->). change (functional c1) with (functional c). rewrite Hh.
    assert (stack_of (set_stateful task c1) = None) as Hnone
      by (unfold stack_of; cbn; by rewrite Hcp).
    rewrite Hnone in Hst. eapply mwp_retrieve with (c2 := c2); [exact Hat | done..|].
    intros m Hm. apply Hsk; [done|]. unfold slot. simpl. by rewrite Hcp.
  - destruct Hb as (Hres & Herr & Hy & Hexp). apply mwp_ret. split; [done|].
    exists t, e, cell. right. exists c2. split; [|done]. eexists _, env, sv', over, w2.
    split_and!; try done. by exists w2.
Qed.
End Resume.
