(* ===== verification/Ownership.v ===== *)
(** * Who owns the libsets and the thread-control blocks

    The pools of libsets and of thread-control blocks, seen together with the functions that hold
    their values: what is held and what is idle is distinct, and an idle block is fit for the next
    function.  Assigning and giving back keep this. *)

From S2P Require Import Prelude Signal Reusable Gotcha Pools Timer Tcb World Preemption Linger.
From S2P Require Import Handler Frame Interference Transparency Oneshot Caller Resume.

(** ** Libsets *)

Section Libsets.
Context `{GotchaLaws}.
Implicit Types (o : once group_pool) (owned : list Group).

(** The functions hold the libsets in [owned]. *)
Definition groups_held : list Group -> once group_pool -> Prop := pool_held group_builder gotcha_init.

(** libgotcha has no libset beyond [n]. *)
Definition libsets_end (n : nat) : Prop := exists l st st',
  emits group_builder gotcha_init l st /\ length l = n /\ group_builder st = (Done None, st').

Lemma groups_held_distinct owned o : groups_held owned o -> NoDup owned /\ SHARED ∉ owned.
Proof.
  intros Ho. split; [eapply pool_held_distinct; [|exact Ho]; by intros l b [? _] % law_groups|].
  destruct Ho as [[_ ->]|(p & _ & vec & l & _ & He & Hperm)]; [set_solver|].
  apply law_groups in He as [_ Hsh]. simpl in Hperm. rewrite <- Hperm in Hsh. set_solver.
Qed.

(** What [assign_group] does: it hands out a libset that nobody holds, or there is none left. *)
Lemma assign_group_held owned o : groups_held owned o ->
  (exists g o', assign_group o = (Done (Ok (mkReusable (Some g))), o') /\
     groups_held (g :: owned) o' /\ usable o') \/
  (exists o', assign_group o = (Done (Err None), o') /\ groups_held owned o' /\ usable o' /\
     libsets_end (length owned)).
Proof.
  intros Ho. assert (exists p, groups_held owned (OnceDone p) /\
    assign_group o = with_static (try_from group_builder) (OnceDone p)) as (p & Hc & ->).
  { destruct Ho as [[-> ->]|(p & -> & Hc)]; [|exists p; split; [right; eauto | done]].
    exists (pool_new gotcha_init). split; [apply pool_held_new | done]. }
  pose proof Hc as [[[=] _]|(p1 & [= <-] & vec & l & Hp & He & Hperm)].
  simpl in Hp, He, Hperm. unfold with_static.
  assert (forall g p', try_from group_builder p = (Done (Ok (mkReusable (Some g))), p') ->
    groups_held (g :: owned) (OnceDone p') /\ usable (OnceDone p')) as Hlend.
  { intros g p' Ht. assert (groups_held (g :: owned) (OnceDone p')) as Hg by by eapply pool_held_lend.
    split; [done|]. by eapply pool_held_usable. }
  destruct vec as [|g vec _] using rev_ind.
  - destruct (group_builder (pool_env p)) as [x st] eqn:Hb.
    assert (x = Done (fst (Group_new (pool_env p)))) as ->.
    { unfold group_builder in Hb. by destruct (Group_new (pool_env p)); simplify_eq/=. }
    destruct (fst (Group_new (pool_env p))) as [g|].
    + left. pose proof (try_from_build _ _ _ _ Hp Hb) as Ht. rewrite Ht.
      eexists _, _. split; [done|]. by apply Hlend.
    + right. pose proof (try_from_exhausted _ _ _ Hp Hb) as Ht. rewrite Ht.
      assert (groups_held owned (OnceDone (mkPool (release (allocated p) []) st))) as Hg.
      { destruct Hc as [[[=] _]|(p1 & [= <-] & Hc)]. right. eexists. split; [done|].
        eapply pool_step_conserved; [exact Hc | by eapply step_refuse]. }
      eexists. split; [done|]. split; [done|]. split; [by eapply pool_held_usable|].
      exists l, (pool_env p), st. split; [done|]. split; [|done].
      by rewrite <- Hperm, app_nil_r.
  - left. pose proof (try_from_reuse group_builder _ _ _ Hp) as Ht. rewrite Ht.
    eexists _, _. split; [done|]. by apply Hlend.
Qed.
End Libsets.

(** ** Thread-control blocks *)

Section Stores.
Context `{PlatformLaws}.
(** The blocks that belong to the threads of the process, and those that were allocated before
    libinger was used. *)
Context (F Old : Z -> Prop).
Implicit Types (w : world) (s : tcb_state tls).
Abbreviation stores := (once (Mutex (list (option ThreadControlBlock)))).

(** The kernel and the linker grant what libinger asks for. *)
Record obliging : Prop := {
  ob_allocate : forall used, exists x ws, dl_allocate_tls used = Some (x, ws);
  ob_get : forall f, F f -> arch_get_fs f = 0;
  ob_home : forall f, F f -> arch_set_fs f = 0;
  ob_set : forall used x ws, dl_allocate_tls used = Some (x, ws) -> arch_set_fs x = 0;
  ob_ctype : forall g, has_ctype_init g = true;
  ob_renew : forall g, Group_renew g = true;
}.

(** The threads' blocks are there. *)
Definition homes s : Prop := forall f, F f -> live s f.
Lemma homes_grown s s' : homes s -> grown s s' -> homes s'.
Proof. intros Hh Hg f Hf. eapply grown_live; [exact Hg | by apply Hh]. Qed.

(** A block that a function may be given: libinger's variables in it are [t]. *)
Record idle s (x : Z) (t : tls) : Prop := {
  id_live : live s x;
  id_locals : locals <$> blocks s !! x = Some t;
  id_parked : parked t;
  id_task : TASK t = Task_default;
  id_home : ~ F x;
  id_set : arch_set_fs x = 0;
}.

Definition mine (x : Z) : option ThreadControlBlock := Some (Some (Mut x)).

(** The blocks in the pool. *)
Definition pooled (o : stores) (l : list Z) : Prop :=
  (o = OnceNew /\ l = []) \/ exists c, o = OnceDone c /\ try_into_inner c = Ok (mine <$> l).

(** Every allocated block is accounted for: it is older than the pool, or in [l]. *)
Definition accounted (l : list Z) s : Prop := forall x, is_Some (blocks s !! x) -> Old x \/ x ∈ l.

(** The functions hold the blocks in [owned]; they and the idle blocks in the pool are distinct, and
    there are no others. *)
Definition stores_held (owned : list Z) (o : stores) s : Prop :=
  Forall (fun x => ~ F x /\ arch_set_fs x = 0 /\ live s x) owned /\
  exists l, pooled o l /\ (o = OnceNew -> owned = []) /\ NoDup (owned ++ l) /\
    Forall (fun x => exists t, idle s x t) l /\ accounted (owned ++ l) s.

#[export] Instance stores_held_perm : Proper ((≡ₚ) ==> (=) ==> (=) ==> impl) stores_held.
Proof.
  intros l1 l2 Hl o _ <- s _ <- [Hall (l & Hp & Hnew & Hnd & Hi & Hacc)]. split; [by rewrite <- Hl|].
  exists l. split_and!; [done | | by rewrite <- Hl | done |].
  - intros Ho. apply Hnew in Ho as ->. by apply Permutation_nil_l in Hl.
  - intros x Hx. rewrite <- Hl. by apply Hacc.
Qed.

Lemma stores_held_distinct owned o s : stores_held owned o s -> NoDup owned.
Proof.
  intros [_ (l & _ & _ & Hnd & _)]. by apply NoDup_app in Hnd as [? _].
Qed.

Lemma idle_grown s s' x t : idle s x t -> grown s s' -> idle s' x t.
Proof. intros [] Hg. split; try done; [by eapply grown_live | by eapply grown_locals]. Qed.

(** One new block. *)
Lemma build_block s : obliging -> homes s -> exists x s',
  localstore_builder tls0 s = (Done (Some (mine x)), s') /\ grown s s' /\
  blocks s !! x = None /\ idle s' x tls0 /\
  forall y, is_Some (blocks s' !! y) -> y = x \/ is_Some (blocks s !! y).
Proof.
  intros Hob Hlf. destruct (ob_allocate Hob (dom (blocks s))) as (x & ws & Ha).
  pose proof (law_allocate _ _ _ Ha) as [Hn Hlen]. apply not_elem_of_dom in Hn.
  unfold localstore_builder, new, mbind, comp_bind. rewrite Ha. eexists x, _.
  split; [done|]. split; [split; [done|]|split; [done|split]].
  - intros y b Hy. simpl. rewrite lookup_insert_ne; congruence.
  - split; try done; simpl.
    + eexists. simpl. split; [by rewrite lookup_insert_eq|]. simpl. by rewrite !length_insert.
    + by rewrite lookup_insert_eq.
    + intros (b & Hb & _) % Hlf. congruence.
    + by eapply ob_set.
  - intros y. simpl. destruct (decide (y = x)) as [->|]; [by left|]. rewrite lookup_insert_ne by done.
    by right.
Qed.

(** What the builder makes over a number of calls. *)
Lemma built_blocks s l s' : obliging -> homes s -> emits (localstore_builder tls0) s l s' ->
  grown s s' /\ exists xs, l = mine <$> xs /\ NoDup xs /\
    Forall (fun x => blocks s !! x = None /\ idle s' x tls0) xs /\
    forall y, is_Some (blocks s' !! y) -> y ∈ xs \/ is_Some (blocks s !! y).
Proof.
  intros Hob Hlf He. induction He as [s | s v s1 l s2 Hb He IH | s s1 l s2 Hb He IH].
  - split; [done|]. exists []. split_and!; [done | constructor | constructor | by right].
  - destruct (build_block s Hob Hlf) as (x & s1' & Hb' & Hg & Hn & Hi & Hnew).
    rewrite Hb in Hb'. simplify_eq. destruct IH as (Hg2 & xs & -> & Hnd & Hall & Hxs);
      [by eapply homes_grown|]. split; [by etransitivity|]. exists (x :: xs). split_and!; [done| | |].
    + constructor; [|done]. intros Hin. rewrite Forall_forall in Hall.
      apply Hall in Hin as [Hx _]. destruct (id_live _ _ _ Hi) as (b & Hb' & _). congruence.
    + constructor; [split; [done | by eapply idle_grown]|].
      eapply Forall_impl; [exact Hall|]. intros y [Hy ?]. split; [|done].
      destruct (blocks s !! y) as [b|] eqn:Hb'; [|done]. apply Hg in Hb'. congruence.
    + intros y Hy. rewrite elem_of_cons. apply Hxs in Hy as [|Hy]; [by auto|].
      apply Hnew in Hy as [|]; auto.
  - destruct (build_block s Hob Hlf) as (x & s1' & Hb' & _). rewrite Hb in Hb'. done.
Qed.

(** The pool of blocks is in use: [l] are idle. *)
Definition stored owned (c : Mutex (list (option ThreadControlBlock))) (l : list Z) s : Prop :=
  try_into_inner c = Ok (mine <$> l) /\ NoDup (owned ++ l) /\
  Forall (fun x => exists t, idle s x t) l /\ accounted (owned ++ l) s.

Lemma localstores_init_held owned o s :
  obliging -> homes s -> stores_held owned o s ->
  exists c l s', localstores_init tls0 (o, s) = (Done tt, (OnceDone c, s')) /\ grown s s' /\
    stored owned c l s'.
Proof.
  intros Hob Hlf [_ (l & [[-> ->]|(c & -> & Hc)] & Hnew & Hnd0 & Hall0 & Hacc)]; [|by exists c, l, s].
  rewrite Hnew in Hacc |- * by done. clear Hnd0 Hall0.
  destruct (prealloc_fill (C := Mutex) (localstore_builder tls0) Group_limit s)
    as (p & vec & Hpre & Hp & _ & He).
  { intros s1. unfold localstore_builder, new, mbind, comp_bind.
    destruct (ob_allocate Hob (dom (blocks s1))) as (x & ws & ->). by eexists _, _. }
  destruct (built_blocks _ _ _ Hob Hlf He) as (Hg & xs & -> & Hnd & Hall & Hxs).
  exists (allocated p), xs, (pool_env p). split; [|split; [done|split; [done|split; [done|split]]]].
  - unfold localstores_init, with_localstores. change (mkPool _ s) with
      (pool_new (C := Mutex) (T := option ThreadControlBlock) s). by rewrite Hpre.
  - eapply Forall_impl; [exact Hall|]. intros x [_ ?]. by exists tls0.
  - intros y Hy. apply Hxs in Hy as [|Hy]; [by right|]. left.
    apply Hacc in Hy as [|[] % elem_of_nil]; done.
Qed.

(** What [alloc_localstore] does: it lends a block that nobody holds, an idle or a new one. *)
Lemma alloc_localstore_held owned o s :
  obliging -> homes s -> stores_held owned o s -> exists x t o' s',
    alloc_localstore tls0 (o, s) = (Done (mkReusable (Some (mine x))), (o', s')) /\
    grown s s' /\ stores_ok o' /\ x ∉ owned /\ idle s' x t /\ stores_held (x :: owned) o' s'.
Proof.
  intros Hob Hlf Hst. pose proof Hst as [Hown _].
  destruct (localstores_init_held _ _ _ Hob Hlf Hst) as
    (c & l & s1 & Hi & Hg1 & Hc & Hnd & Hall & Hacc).
  assert (exists x t l' c' s', localstores_lend tls0 (OnceDone c, s1) =
      (Done (mkReusable (Some (mine x))), (OnceDone c', s')) /\ grown s1 s' /\
    try_into_inner c' = Ok (mine <$> l') /\ idle s' x t /\ NoDup (x :: owned ++ l') /\
    Forall (fun x => exists t, idle s' x t) l' /\ accounted (x :: owned ++ l') s')
    as (x & t & l' & c' & s' & Hl & Hg2 & Hc' & Hx & Hnd' & Hall' & Hacc').
  { unfold localstores_lend, with_localstores. destruct l as [|x l _] using rev_ind.
    - destruct (build_block s1 Hob) as (x & s' & Hb & Hg2 & Hn & Hx & Hnew);
        [by eapply homes_grown|].
      rewrite (try_from_build (C := Mutex) _ (mkPool c s1) _ _ Hc Hb).
      eexists x, tls0, [], _, s'. split; [done|]. split_and!; try done.
      + exact (into_release _ c _ [] Hc).
      + constructor; [|done]. rewrite app_nil_r. intros Hin. rewrite Forall_forall in Hown.
        apply Hown in Hin as (_ & _ & b & Hb' & _). apply Hg1 in Hb'. congruence.
      + intros y Hy. rewrite elem_of_cons. apply Hnew in Hy as [|Hy]; [by auto|].
        apply Hacc in Hy as [|]; auto.
    - rewrite fmap_app in Hc. change (mine <$> [x]) with [mine x] in Hc.
      rewrite (try_from_reuse (C := Mutex) _ (mkPool c s1) _ _ Hc).
      apply Forall_app in Hall as [Hall Hx]. apply Forall_singleton in Hx as [t Hx].
      eexists x, t, l, _, s1. split; [done|]. split_and!; try done.
      + exact (into_release _ c _ (mine <$> l) Hc).
      + by rewrite app_assoc, Permutation_app_comm in Hnd.
      + intros y Hy. apply Hacc in Hy as [|Hy]; [by left | right]. set_solver. }
  exists x, t, (OnceDone c'), s'. apply NoDup_cons in Hnd' as [Hxn Hnd'].
  assert (grown s s') as Hg by by etransitivity.
  split_and!; try done.
  - unfold alloc_localstore. by rewrite (comp_bind_done _ _ _ _ _ Hi), Hl.
  - by eexists _, _.
  - set_solver.
  - split.
    + constructor; [by split_and!; apply Hx|]. eapply Forall_impl; [exact Hown|].
      intros y (? & ? & ?). split_and!; try done. by eapply grown_live.
    + exists l'. split_and!; [right; by exists c' | done | by constructor | done | done].
Qed.

(** A block given back. *)
Lemma stores_held_back x t owned o o' s :
  stores_held (x :: owned) o s -> store_took_back o o' (mine x) -> idle s x t ->
  stores_held owned o' s.
Proof.
  intros [Hown (l & [[-> _]|(c & -> & Hc)] & Hnew & Hnd & Hall & Hacc)]
    (c1 & v1 & c' & Ho & Hc1 & -> & Hc') Hx; [by specialize (Hnew eq_refl)|].
  simplify_eq. rewrite Hc in Hc1. simplify_eq. split; [by apply Forall_cons in Hown as [_ ?]|].
  exists (l ++ [x]). split_and!.
  - right. exists c'. by rewrite fmap_app.
  - done.
  - by rewrite app_assoc, Permutation_app_comm.
  - apply Forall_app. split; [done|]. apply Forall_singleton. by exists t.
  - intros y Hy. apply Hacc in Hy as [|Hy]; [by left | right]. set_solver.
Qed.

(** Idle and owned blocks, when nothing happens to them. *)
Lemma stores_held_same owned o s s' :
  stores_held owned o s -> (forall x, live s x -> live s' x) ->
  (forall x t, x ∉ owned -> locals <$> blocks s !! x = Some t -> locals <$> blocks s' !! x = Some t) ->
  (forall x, x ∉ owned -> is_Some (blocks s' !! x) -> is_Some (blocks s !! x)) ->
  stores_held owned o s'.
Proof.
  intros [Hown (l & Hp & Hnew & Hnd & Hall & Hacc)] Hl Hloc Hsub. split.
  - eapply Forall_impl; [exact Hown|]. intros x (? & ? & ?). auto.
  - exists l. split_and!; try done.
    + rewrite Forall_forall in Hall |- *. intros x Hx.
      destruct (Hall x Hx) as [t []]. exists t. split; try done; [by apply Hl|].
      apply Hloc; [|done]. intros Hin. apply NoDup_app in Hnd as (_ & Hd & _). by apply (Hd x).
    + intros x Hx. destruct (decide (x ∈ owned)) as [Hin|Hout].
      * right. apply elem_of_app. by left.
      * by apply Hacc, Hsub.
Qed.
End Stores.
