(* ===== verification/Contract.v ===== *)
(** * The contract of a preemptible function

    What a client of libinger may rely on, however the preemption signals fall: the function's
    result is the one it would compute undisturbed, budgets are respected, and a call of [resume]
    leaves the calling thread as it was. *)

From S2P Require Import Prelude Signal Reusable Gotcha Pools Timer Tcb World Preemption Linger.
From S2P Require Import Handler Frame Interference Transparency Oneshot Caller Resume.

Section Pending.
Context `{PlatformLaws}.
(** The thread's signal and thread-control block; what is assumed of the clock. *)
Context (s : Signal) (f : Z) (T : span).
Implicit Types (w : world) (t : tls).

(** At [id] the machine [μ] holds a function that will end with [r]; [b] says whether it may call
    [pause].  The function may not have been started yet, or it is paused; and the thread may not
    have resumed any function before, as long as a signal is available for it. *)
Record pending_at (a : Z) (g : Group) (h : nat) (c : Continuation) (b : bool) (id : nat)
    (r : ThdResult) (t : tls) (μ : machine) : Prop := {
  p_linger : m_lingers μ !! id = Some (LContinuation c);
  p_group : g <> SHARED;
  p_clock : clock_ok T (w_clock (m_world μ)) (m_env μ);
  p_owns : owns a g h c;
  p_installable : installable a g f (m_world μ);
  p_parked : parked t;
  p_task : TASK t = Task_default;
  p_around : exists e cell,
    at_ a g h s (m_world μ) T (w_clock (m_world μ)) (false, is_some (errno (stateful c))) f SHARED t e cell
      (m_world μ) /\
    resumable a g h s T b c t e cell (m_saved μ) r;
}.
Definition pending_fn b id r μ : Prop := exists a g h c t, pending_at a g h c b id r t μ.

(** A function with this state is paused in a call that started at the time [since]: why, and for
    how long it was let run. *)
Definition paused_after b us since id t μ : Prop := exists c over,
  m_lingers μ !! id = Some (LContinuation c) /\ is_some (errno (stateful c)) = true /\
  yielded (stateful c) = (DEADLINE t =? 0) /\ expired T since b us over t /\
  (steady T = true -> over <= w_clock (m_world μ)).

(** The thread between two calls: its own block is installed, it is in the shared libset and it is
    or can be set up. *)
Record ground w : Prop := {
  gr_fs : fs_base (w_tcb w) = f;
  gr_group : w_group w = SHARED;
  gr_thread : prepared s (w_tid w) w \/ unprepared s (w_tid w) w;
  gr_uc : w_uc w = None;
  gr_time : in_time T (w_clock w);
  gr_stacks : stacks_ok (w_stacks w);
}.

(** What one function's call leaves alone: everything but the blocks in [A] and the closures in
    [X]. *)
Record beside (A : Z -> Prop) (X : nat -> Prop) (μ μ' : machine) : Prop := {
  be_ground : ground (m_world μ');
  be_clock : clock_ok T (w_clock (m_world μ')) (m_env μ');
  be_live : forall x, live (w_tcb (m_world μ)) x -> live (w_tcb (m_world μ')) x;
  be_locals : forall x l, ~ A x -> locals <$> blocks (w_tcb (m_world μ)) !! x = Some l ->
    locals <$> blocks (w_tcb (m_world μ')) !! x = Some l;
  be_errno : forall loc, ~ A loc.1 -> errno_at (m_world μ') loc = errno_at (m_world μ) loc;
  be_heap : forall x, ~ X x -> w_heap (m_world μ') !! x = w_heap (m_world μ) !! x;
  be_usable : usable (w_stacks (m_world μ)) -> usable (w_stacks (m_world μ'));
  be_groups : usable (w_groups (m_world μ)) -> usable (w_groups (m_world μ'));
  be_stores : stores_ok (w_localstores (m_world μ)) -> stores_ok (w_localstores (m_world μ'));
}.

(** What surrounds the function after a call of [resume] that leaves [l], and the computations set
    aside for the other functions. *)
Definition slot_of (l : Linger) : option nat :=
  match l with LContinuation c => slot c | _ => None end.
Record left_around a g h (c : Continuation) (l : Linger) (μ μ' : machine) : Prop := {
  la_world : exists t e cell over w1, frame_of a g h (m_world μ) c l w1 /\
    at_ a g h s w1 T over (true, true) f SHARED t e cell (m_world μ') /\ parked t /\
    TASK t = Task_default /\ (is_continuation l = false -> cell = None);
  la_clock : clock_ok T (w_clock (m_world μ')) (m_env μ');
  la_saved : forall m rest, m_saved μ !! m = Some rest -> slot c <> Some m ->
    m_saved μ' !! m = Some rest;
  la_slot : forall m, slot_of l = Some m -> slot c = Some m \/ m_saved μ !! m = None;
}.

(** The frame of an assertion can start at its own world. *)
Lemma at_rebase a g h w0 over hk fs grp t e cell w :
  at_ a g h s w0 T over hk fs grp t e cell w -> w_tid w = w_tid w0 ->
  at_ a g h s w T (w_clock w) (false, hk.2) fs grp t e cell w.
Proof.
  intros [] Htid. split; try done. rewrite Htid. destruct at_thread as [|[]]; [by left | by right].
Qed.

Lemma at_ground a g h w0 over hk t e cell w :
  at_ a g h s w0 T over hk f SHARED t e cell w -> ground w.
Proof.
  intros []. split; try done. rewrite at_tid. destruct at_thread as [|[]]; [by left | by right].
Qed.

(** What a frame refers to is the world at the start, but for what was given back. *)
Lemma frame_same a g h c l w0 w1 :
  frame_of a g h w0 c l w1 -> w_tid w1 = w_tid w0 /\ w_tcb w1 = w_tcb w0 /\
    (forall loc, errno_at w1 loc = errno_at w0 loc) /\
    (forall x, x <> h -> w_heap w1 !! x = w_heap w0 !! x).
Proof.
  intros (w2 & (o & _ & ->) & Hfr). destruct (is_continuation l); [by subst|].
  destruct Hfr as (o1 & o2 & _ & _ & ->). split_and!; try done.
  intros x Hx. simpl. by rewrite lookup_delete_ne.
Qed.

Lemma left_beside a g h c l μ μ' :
  left_around a g h c l μ μ' -> beside (fun x => x = a) (fun x => x = h) μ μ'.
Proof.
  intros [(t & e & cell & over & w1 & Hfr & Hat & _) Hc _ _].
  destruct (frame_same _ _ _ _ _ _ _ Hfr) as (Htid & Htcb & Herr & Hhp).
  pose proof (at_ground _ _ _ _ _ _ _ _ _ _ Hat) as Hg. destruct Hat. split; try done.
  - intros x Hx. apply at_live. by rewrite Htcb.
  - intros x y Hx Hy. rewrite at_others by done. by rewrite Htcb.
  - intros loc Hl. by rewrite at_errnos.
  - intros x Hx. rewrite at_closures by done. by apply Hhp.
  - intros _. by apply at_usable.
Qed.

(** No block but the function's own comes into being. *)
Lemma left_blocks a g h c l μ μ' x :
  left_around a g h c l μ μ' -> x <> a -> is_Some (blocks (w_tcb (m_world μ')) !! x) ->
  is_Some (blocks (w_tcb (m_world μ)) !! x).
Proof.
  intros [(t & e & cell & over & w1 & Hfr & Hat & _) _ _ _] Hx [b Hb].
  destruct (frame_same _ _ _ _ _ _ _ Hfr) as (_ & <- & _).
  pose proof (at_others _ _ _ _ _ _ _ _ _ _ _ _ _ _ Hat x Hx) as Ho. rewrite Hb in Ho.
  by destruct (blocks (w_tcb w1) !! x); [eexists|].
Qed.

End Pending.

Section Moving.
Context `{PlatformLaws}.
Context (s : Signal) (f : Z) (T : span).
Implicit Types (w : world) (t : tls).

Lemma continuable_elsewhere s1 a g h K b rest e cell r :
  masks s1 s -> continuable a g h s1 T K b rest e cell r -> continuable a g h s T K b rest e cell r.
Proof.
  intros Hs (s0 & Hs0 & Hc). exists s0. split; [|done]. unfold masks in *.
  destruct Hs as [->|]; [done | by right].
Qed.

(** A function that is left alone stays as it is, also on another thread than the one with the signal
    [s1] and the block [f1]. *)
Lemma pending_moved s1 f1 A X a g h c b id r t μ μ' :
  pending_at s1 f1 T a g h c b id r t μ -> masks s1 s ->
  live (w_tcb (m_world μ)) f /\ arch_get_fs f = 0 /\ arch_set_fs f = 0 ->
  beside s f T A X μ μ' -> ~ A a -> ~ X h ->
  m_lingers μ' !! id = Some (LContinuation c) ->
  (forall n rest, slot c = Some n -> m_saved μ !! n = Some rest -> m_saved μ' !! n = Some rest) ->
  pending_at s f T a g h c b id r t μ'.
Proof.
  intros [Hl Hg _ Ho Hi Hp HT (e & cell & Hat & Hres)] Hs (Hlf & Hget & Hset) [] Ha Hh Hl' Hsv.
  split; try done.
  - destruct Hi as (Hla & _ & _ & Hi & _ & Hct). split_and!; try done; by apply be_live0.
  - exists e, cell. destruct be_ground0, Hat. split.
    + split; try done.
      * by apply be_locals0.
      * destruct gr_thread0; [by left | by right].
      * rewrite be_errno0; done.
      * rewrite be_heap0; done.
      * intros Hu. by apply be_usable0, at_usable.
      * by apply be_groups0.
      * by apply be_stores0.
    + destruct Hres as [Hfr | (e' & st & m & n & rest & y & Hst & Hn & Hrest)]; [by left|].
      right. exists e', st, m, n, rest, y. split_and!; try done; try apply Hrest.
      * apply Hsv; [unfold slot; by rewrite Hst | done].
      * by eapply continuable_elsewhere, Hrest.
Qed.

Lemma pending_beside A X a g h c b id r t μ μ' :
  pending_at s f T a g h c b id r t μ -> beside s f T A X μ μ' -> ~ A a -> ~ X h ->
  m_lingers μ' !! id = Some (LContinuation c) ->
  (forall n rest, slot c = Some n -> m_saved μ !! n = Some rest -> m_saved μ' !! n = Some rest) ->
  pending_at s f T a g h c b id r t μ'.
Proof.
  intros Hp. pose proof (p_installable _ _ _ _ _ _ _ _ _ _ _ _ Hp) as (_ & Hi).
  apply pending_moved with (1 := Hp); [by left | tauto].
Qed.

End Moving.

Section Contract.
Context `{PlatformLaws}.
Context (s : Signal) (f : Z) (T : span).
Hypothesis s_maskable : s <> Kill.
Hypothesis T_u64 : until T <= U64.
Hypothesis calls_work : no_failures.
Implicit Types (w : world) (t : tls).
Abbreviation pending_at := (pending_at s f T).
Abbreviation pending_fn := (pending_fn s f T).
Abbreviation beside := (beside s f T).
Abbreviation left_around := (left_around s f T).
Abbreviation paused_after := (paused_after T).

(** Everything about one call of [resume]. *)
Lemma resume_pending a g h c b id r t us μ :
  pending_at a g h c b id r t μ -> fits T us ->
  mwp (resume id us)
    (fun x μ' => x = Ok tt /\
       (exists l, m_lingers μ' = <[id := l]> (m_lingers μ) /\ left_around a g h c l μ μ') /\
       ((exists v, r = Ok v /\ m_lingers μ' = <[id := LCompletion v]> (m_lingers μ)) \/
        (exists c' t', pending_at a g h c' b id r t' μ' /\
           m_lingers μ' = <[id := LContinuation c']> (m_lingers μ) /\
           paused_after b us (w_clock (m_world μ)) id t' μ')))
    (fun msg μ' => r = Err msg /\
       (exists l, m_lingers μ' = <[id := l]> (m_lingers μ) /\ left_around a g h c l μ μ') /\
       m_lingers μ' = <[id := LPoison]> (m_lingers μ)) μ.
Proof.
  intros [Hl Hg Hc Ho Hi Hp HT (e & cell & Hat & Hres)] Hfit.
  destruct μ as [w sv env lg]. cbn [m_world m_saved m_env m_lingers] in *.
  rewrite <- (insert_id _ _ _ Hl) at 1.
  assert (forall l t e cell μ', returned a g h s f w T (w_clock w) b us c id sv lg l t e cell μ' ->
    (is_continuation l = false -> cell = None) -> exists l, m_lingers μ' = <[id := l]> lg /\
      left_around a g h c l (mkMachine w sv env lg) μ') as Hund.
  { intros l t1 e1 cell1 μ' (w' & env' & sv' & over & w1 & -> & Hc' & Hfr & Hat' & Hp' & HT' & Hsl) Hcell.
    exists l. split; [done|]. split; [by exists t1, e1, cell1, over, w1 | done | |];
      cbn [m_saved].
    - intros m rest Hm Hs.
      destruct l as [v|c'|]; [by rewrite Hsl | | by rewrite Hsl].
      destruct Hsl as (_ & [Hkeep Hnew] & _). rewrite Hkeep; [done | done |].
      intros Hs'. destruct (Hnew m Hs'); congruence.
    - intros m Hm. destruct l as [v|c'|]; try done. by apply Hsl. }
  eapply mwp_mono; [eapply mwp_resume with (w0 := w) (b := b) (r := r) (f := f); done| |].
  - intros x μ' (-> & t' & e' & cell' & [(v & -> & Hret & ->) | (c' & Hret & Hres')]).
    + split; [done|]. split; [by eapply Hund|]. left. exists v. split; [done|].
      by destruct Hret as (w' & env' & sv' & over & w1 & -> & _).
    + split; [done|]. split; [by eapply Hund|]. right. exists c', t'.
      destruct Hret as (w' & env' & sv' & over & w1 & -> & Hc' & Hfr & Hat' & Hp' & HT' & Ho' & _ &
        He' & Hy & Hx). destruct Hfr as (w2 & (o & _ & ->) & Hfr). cbn in Hfr. subst w1.
      cbn [m_lingers m_saved] in *. split_and!; [|done|].
      * split; cbn [m_world m_saved m_env m_lingers]; try done.
        -- by rewrite lookup_insert_eq.
        -- destruct Hi as (Hla & Hlf & Hi). split_and!; try apply Hi;
             by apply (at_live _ _ _ _ _ _ _ _ _ _ _ _ _ _ Hat').
        -- exists e', cell'. rewrite He'. split; [|done].
           eapply (at_rebase _ _ _ _ _ _ _ (true, true)); [done|].
           exact (at_tid _ _ _ _ _ _ _ _ _ _ _ _ _ _ Hat').
      * exists c', over. cbn [m_lingers m_world]. rewrite lookup_insert_eq.
        split_and!; try done. exact (at_since _ _ _ _ _ _ _ _ _ _ _ _ _ _ Hat').
  - intros msg μ' (-> & t' & e' & Hret). split; [done|]. split; [by eapply Hund|].
    by destruct Hret as (w' & env' & sv' & over & w1 & -> & _).
Qed.

(** One function's call leaves another function alone. *)
Lemma resume_keeps_pending a g h c b id r t a2 g2 h2 c2 b2 id2 r2 t2 us μ x μ' :
  pending_at a g h c b id r t μ -> pending_at a2 g2 h2 c2 b2 id2 r2 t2 μ ->
  id <> id2 -> a <> a2 -> h <> h2 -> (forall n, slot c2 = Some n -> slot c <> Some n) ->
  fits T us -> resume id us μ = (x, μ') ->
  pending_at a2 g2 h2 c2 b2 id2 r2 t2 μ'.
Proof.
  intros Hp Hp2 Hid Ha Hh Hslot Hfit Hr.
  pose proof (resume_pending _ _ _ _ _ _ _ _ _ _ Hp Hfit) as Hm. unfold mwp in Hm.
  rewrite Hr in Hm.
  assert (exists l, m_lingers μ' = <[id := l]> (m_lingers μ) /\ left_around a g h c l μ μ')
    as (l & Hl & Hla) by (destruct x as [x|msg| |]; naive_solver).
  eapply pending_beside; [exact Hp2 | by eapply left_beside | congruence | congruence | |].
  - rewrite Hl, lookup_insert_ne by done. by apply Hp2.
  - intros n rest Hn Hs. apply (la_saved _ _ _ _ _ _ _ _ _ _ Hla); [done | by apply Hslot].
Qed.

(** ** Claims *)

(** C2: Preemption is transparent.  However often the preemption signal interrupts it, a function
    that undisturbed would end with [r] either completes with the value of [r], or panics with the
    message of [r] and poisons the [Linger], or is paused and still will end with [r]; [resume]
    never fails, aborts the process or becomes undefined. *)
Theorem resume_refines b id r us μ :
  pending_fn b id r μ -> fits T us ->
  match resume id us μ with
  | (Done (Ok _), μ') =>
      (exists v, r = Ok v /\ m_lingers μ' !! id = Some (LCompletion v)) \/ pending_fn b id r μ'
  | (Panicked msg, μ') => r = Err msg /\ m_lingers μ' !! id = Some LPoison
  | _ => False
  end.
Proof.
  intros (a & g & h & c & t & Hp) Hfit.
  pose proof (resume_pending _ _ _ _ _ _ _ _ _ _ Hp Hfit) as Hm. unfold mwp in Hm.
  destruct (resume id us μ) as [[x|msg| |] μ']; try done.
  - destruct Hm as (-> & _ & [(v & -> & ->)|(c' & t' & Hp' & _)]).
    + left. exists v. by rewrite lookup_insert_eq.
    + right. by exists a, g, h, c', t'.
  - destruct Hm as (-> & _ & ->). by rewrite lookup_insert_eq.
Qed.

(** C6: A call of [resume] leaves the calling thread as it found it, whether the function
    completed, panicked or was paused: its thread-control block is installed, it is in the shared
    libset, its preemption signal is blocked, no handler context is left over, and no
    thread-local variable or [errno] of another block and no other boxed closure has changed. *)
Theorem resume_restores_caller a g h c b id r t us μ x μ' :
  pending_at a g h c b id r t μ -> fits T us -> resume id us μ = (x, μ') ->
  fs_base (w_tcb (m_world μ')) = f /\ w_group (m_world μ') = SHARED /\
  blocked (w_kernel (m_world μ')) s = true /\ w_uc (m_world μ') = None /\
  (forall y, y <> a -> locals <$> blocks (w_tcb (m_world μ')) !! y =
     locals <$> blocks (w_tcb (m_world μ)) !! y) /\
  (forall y grp, y <> a -> errno_at (m_world μ') (y, grp) = errno_at (m_world μ) (y, grp)) /\
  (forall y, y <> h -> w_heap (m_world μ') !! y = w_heap (m_world μ) !! y).
Proof.
  intros Hp Hfit Hr. pose proof (resume_pending _ _ _ _ _ _ _ _ _ _ Hp Hfit) as Hm.
  unfold mwp in Hm. rewrite Hr in Hm.
  assert (exists l, left_around a g h c l μ μ')
    as (l & [(t' & e & cell & over & w1 & Hfr & Hat & _) _ _ _])
    by (destruct x as [x|msg| |]; naive_solver).
  destruct (frame_same _ _ _ _ _ _ _ Hfr) as (_ & Htcb & Herr & Hhp).
  pose proof (at_blocked _ _ _ _ _ _ _ _ _ _ _ _ _ _ Hat eq_refl) as Hb. destruct Hat.
  split_and!; try done.
  - intros y Hy. by rewrite at_others, Htcb.
  - intros y grp Hy. by rewrite at_errnos, Herr.
  - intros y Hy. by rewrite at_closures, Hhp.
Qed.

(** C7: A function is not preempted before its budget is over: if the wall clock is not set back
    and [resume] returns with the function paused though it did not yield, then at least [us]
    microseconds have passed between the call and the return (unless the budget was too large to be
    expressed in nanoseconds).  Only a function that calls [pause], or a budget of 0 at the epoch,
    can make [yielded] true. *)
Theorem resume_respects_budget b id r us μ x μ' c' :
  pending_fn b id r μ -> fits T us -> us * 1000 < U64 -> steady T = true ->
  resume id us μ = (Done x, μ') -> m_lingers μ' !! id = Some (LContinuation c') ->
  if yielded (stateful c') then b = true \/ us = 0 /\ w_clock (m_world μ) <= 0
  else w_clock (m_world μ) + us * 1000 <= w_clock (m_world μ').
Proof.
  intros (a & g & h & c & t & Hp) Hfit Hbig Hst Hr Hc'.
  pose proof (resume_pending _ _ _ _ _ _ _ _ _ _ Hp Hfit) as Hm. unfold mwp in Hm.
  rewrite Hr in Hm. destruct Hm as (_ & _ & [(v & _ & Hl)|(c2 & t' & _ & Hl & Hpa)]).
  { rewrite Hl, lookup_insert_eq in Hc'. done. }
  destruct Hpa as (c3 & over & Hc3 & _ & Hy & (now & [Hnow Hin] & _ & Hdue & Hd) & Hover).
  assert (c3 = c') as -> by congruence. specialize (Hin Hst). specialize (Hover Hst).
  rewrite Hy. unfold stamped in Hd. destruct Hfit as [Hpos _]. unfold in_time in Hnow.
  destruct (Z.ltb_spec (us * 1000) U64); [|lia].
  destruct (Z.eqb_spec (DEADLINE t') 0) as [Hz|Hz], Hd as [Hd|[Hb Hd]]; try lia.
  by left.
Qed.

(** C8: With an unlimited budget (the documentation's [max_value()]: more than the clock can reach
    and too large to be converted to nanoseconds), [resume] runs a function that does not call
    [pause] to completion: it returns the function's value, or panics with its message, and never
    leaves the function paused. *)
Theorem resume_unlimited_completes id r us μ :
  pending_fn false id r μ -> U64 <= us * 1000 -> until T <= us -> 0 <= us ->
  match resume id us μ with
  | (Done (Ok _), μ') => exists v, r = Ok v /\ m_lingers μ' !! id = Some (LCompletion v)
  | (Panicked msg, μ') => r = Err msg /\ m_lingers μ' !! id = Some LPoison
  | _ => False
  end.
Proof.
  intros (a & g & h & c & t & Hp) Hus HT Hpos. assert (fits T us) as Hfit by (split; auto).
  pose proof (resume_pending _ _ _ _ _ _ _ _ _ _ Hp Hfit) as Hm. unfold mwp in Hm.
  destruct (resume id us μ) as [[x|msg| |] μ']; try done.
  - destruct Hm as (-> & _ & [(v & -> & ->)|(c' & t' & _ & _ & Hpa)]).
    { exists v. by rewrite lookup_insert_eq. }
    destruct Hpa as (c3 & over & _ & _ & _ & (now & _ & Hnow' & Hdue & [Hd|[? _]]) & _); [|done].
    unfold stamped in Hd. destruct (Z.ltb_spec (us * 1000) U64); [lia|].
    unfold in_time in Hnow'. lia.
  - destruct Hm as (-> & _ & ->). by rewrite lookup_insert_eq.
Qed.

(** C10: No budget makes [resume] a no-op, 0 included: a function that has not started is entered, it
    gets a stack, and afterwards it has completed, has panicked, or is suspended in the middle, with
    the computation that is left kept under the address that its checkpoint names. *)
Theorem resume_enters b id r us μ c x μ' :
  pending_fn b id r μ -> fits T us ->
  m_lingers μ !! id = Some (LContinuation c) -> errno (stateful c) = None ->
  resume id us μ = (x, μ') ->
  match m_lingers μ' !! id with
  | Some (LCompletion v) => r = Ok v
  | Some LPoison => exists msg, r = Err msg
  | Some (LContinuation c') => exists e st m n rest,
      stateful c' = mkTask (Some e) (Some (mkContext (mkReusable (Some st)) m (Saved n)))
                      (yielded (stateful c')) /\
      m_saved μ !! n = None /\ m_saved μ' !! n = Some rest
  | None => False
  end.
Proof.
  intros (a & g & h & c0 & t & Hp) Hfit Hc Hfr Hr.
  assert (c0 = c) as -> by (pose proof (p_linger _ _ _ _ _ _ _ _ _ _ _ _ Hp); congruence).
  assert (slot c = None) as Hslot.
  { destruct (p_around _ _ _ _ _ _ _ _ _ _ _ _ Hp) as (e & cell & _ &
      [[Hs _] | (e' & st & m & n & rest & y & Hs & _)]); unfold slot; rewrite Hs in *; done. }
  pose proof (resume_pending _ _ _ _ _ _ _ _ _ _ Hp Hfit) as Hm. unfold mwp in Hm.
  rewrite Hr in Hm. destruct x as [x|msg| |]; try done.
  - destruct Hm as (_ & (l & Hl & Hla) & [(v & -> & ->)|(c' & t' & Hp' & Hc' & Hpa)]).
    { by rewrite lookup_insert_eq. }
    assert (l = LContinuation c') as ->.
    { rewrite Hl in Hc'. apply (f_equal (lookup id)) in Hc'. rewrite !lookup_insert_eq in Hc'. congruence. }
    rewrite Hc', lookup_insert_eq. destruct Hpa as (c2 & _ & Hc2 & He & _).
    rewrite Hc', lookup_insert_eq in Hc2. injection Hc2 as <-.
    destruct (p_around _ _ _ _ _ _ _ _ _ _ _ _ Hp') as (e & cell & _ &
      [[Hs _] | (e' & st & m & n & rest & y & Hs & Hn & _)]); [by rewrite Hs in He|].
    exists e', st, m, n, rest. rewrite Hs. split_and!; try done.
    destruct (la_slot _ _ _ _ _ _ _ _ _ _ Hla n); [|congruence|done].
    unfold slot_of, slot. by rewrite Hs.
  - destruct Hm as (-> & _ & ->). rewrite lookup_insert_eq. by eexists.
Qed.

(** C9: Preemptible functions do not interfere: a call of [resume] on one function leaves another
    one, paused or not yet started, ready to be resumed, with the same state and the same result to
    come, as long as the two own different thread-control blocks, closures and contexts. *)
Theorem resume_keeps_others a g h c b id r t a2 g2 h2 c2 b2 id2 r2 t2 us μ x μ' :
  pending_at a g h c b id r t μ -> pending_at a2 g2 h2 c2 b2 id2 r2 t2 μ ->
  id <> id2 -> a <> a2 -> h <> h2 -> (forall n, slot c2 = Some n -> slot c <> Some n) ->
  fits T us -> resume id us μ = (x, μ') ->
  pending_at a2 g2 h2 c2 b2 id2 r2 t2 μ'.
Proof. apply resume_keeps_pending. Qed.
End Contract.

Section Passing.
Context `{PlatformLaws}.
Implicit Types (w : world) (μ : machine).

(** Time has passed, and nothing else has happened. *)
Definition passed w env w' env' : Prop :=
  quiet w w' /\ forall T, clock_ok T (w_clock w) env -> clock_ok T (w_clock w') env'.

Lemma passed_refl w env : passed w env w env.
Proof. by split. Qed.
Lemma passed_trans w1 env1 w2 env2 w3 env3 :
  passed w1 env1 w2 env2 -> passed w2 env2 w3 env3 -> passed w1 env1 w3 env3.
Proof. intros [Hq1 Hc1] [Hq2 Hc2]. split; [by etransitivity | auto]. Qed.
Lemma passed_heap hp w env w' env' :
  passed w env w' env' -> passed (set_heap hp w) env (set_heap hp w') env'.
Proof. intros [[] Hc]. split; [by split | exact Hc]. Qed.
Lemma passed_groups o w env w' env' :
  passed w env w' env' -> passed (set_groups o w) env (set_groups o w') env'.
Proof. intros [[] Hc]. split; [by split | exact Hc]. Qed.

(** A step of the caller's code, after some time has passed. *)
Lemma main_passed {A} (p : prog A) μ : exists w env, passed (m_world μ) (m_env μ) w env /\
  main p μ = ((exec p w).1, mkMachine (exec p w).2 (m_saved μ) env (m_lingers μ)).
Proof.
  destruct μ as [w sv env lg]. unfold main, main_tick, mbind, comp_bind.
  destruct env as [|e env]; simpl; unfold zoom; simpl.
  - exists w, []. split; [apply passed_refl|]. by destruct (exec p w).
  - exists (advance e w), env. split; [|by destruct (exec p (advance e w))].
    split; [apply advance_quiet|]. intros T (_ & _ & Hc). by rewrite advance_clock.
Qed.

Lemma main_run {A} (p : prog A) μ : exists w env, quiet (m_world μ) w /\
  main p μ = ((exec p w).1, mkMachine (exec p w).2 (m_saved μ) env (m_lingers μ)).
Proof. destruct (main_passed p μ) as (w & env & [Hq _] & Hm). eauto. Qed.

(** Code that changes nothing. *)
Lemma main_pure {A} (p : prog A) x μ :
  (forall w, quiet (m_world μ) w -> exec p w = (Done x, w)) -> exists w env,
    passed (m_world μ) (m_env μ) w env /\
    main p μ = (Done x, mkMachine w (m_saved μ) env (m_lingers μ)).
Proof.
  intros Hp. destruct (main_passed p μ) as (w & env & Hq & Hm). exists w, env. split; [done|].
  by rewrite Hm, (Hp w (proj1 Hq)).
Qed.

(** The check with which [launch] and [resume] begin. *)
Lemma checked_run {A} msg (k : unit -> comp machine A) μ :
  w_group (m_world μ) = SHARED -> exists w env, passed (m_world μ) (m_env μ) w env /\
    (p ← main is_preemptible; _ ← main (debug_assert (negb p) msg); k tt) μ =
      k tt (mkMachine w (m_saved μ) env (m_lingers μ)).
Proof.
  intros Hg. destruct (main_pure is_preemptible false μ) as (w1 & env1 & Hq1 & Hm1).
  { intros w Hq. simpl. by rewrite (q_group _ _ Hq), Hg, (proj2 (is_shared_true _) eq_refl). }
  erewrite comp_bind_done by exact Hm1.
  destruct (main_pure (debug_assert (negb false) msg) tt
    (mkMachine w1 (m_saved μ) env1 (m_lingers μ))) as (w2 & env2 & Hq2 & Hm2);
    [intros w Hq; by apply exec_debug_assert_last|].
  erewrite comp_bind_done by exact Hm2. exists w2, env2. split; [by eapply passed_trans | done].
Qed.

End Passing.

Ltac checked Hg w env Hp :=
  lazymatch goal with |- context [main (debug_assert _ ?msg) ≫= ?k] =>
    let Hm := fresh in
    edestruct (checked_run msg k) as (w & env & Hp & Hm); [exact Hg|]; rewrite Hm; clear Hm end.

Section Settled.
Context `{PlatformLaws}.
Implicit Types (w : world) (μ : machine).

(** [resume] of a function that has completed or panicked. *)
Lemma resume_settled_run id us μ l :
  m_lingers μ !! id = Some l -> is_continuation l = false -> w_group (m_world μ) = SHARED ->
  exists w env, passed (m_world μ) (m_env μ) w env /\
    resume id us μ = (Done (Ok tt), mkMachine w (m_saved μ) env (m_lingers μ)).
Proof.
  intros Hl Hc Hg. unfold resume.
  checked Hg w env Hp. exists w, env. split; [exact Hp|].
  erewrite comp_bind_done by reflexivity. simpl. rewrite Hl. by destruct l.
Qed.

End Settled.
