(* ===== verification/Launch.v ===== *)
(** * Launching a preemptible function

    [launch] when a libset and a thread-control block are available: the new [Linger] satisfies the
    contract of Contract.v, and the others are not disturbed; and what happens when the libsets are
    used up. *)

From S2P Require Import Prelude Signal Reusable Gotcha Pools Timer Tcb World Preemption Linger.
From S2P Require Import Handler Frame Interference Transparency Oneshot Caller Resume Contract.

Section Launch.
Context `{PlatformLaws}.
Context (s : Signal) (f : Z) (T : span).
Hypothesis s_maskable : s <> Kill.
Hypothesis T_u64 : until T <= U64.
Hypothesis calls_work : no_failures.
Implicit Types (w : world) (t : tls) (μ : machine).

(** The thread can launch a function, and would give it libset [g] and the thread-control block at
    [a], in which libinger's variables are [t]. *)
Record ready a g t w : Prop := {
  r_fs : fs_base (w_tcb w) = f;
  r_group : w_group w = SHARED;
  r_thread : prepared s (w_tid w) w \/ unprepared s (w_tid w) w;
  r_uc : w_uc w = None;
  r_stacks : stacks_ok (w_stacks w);
  r_libset : exists o, assign_group (w_groups w) = (Done (Ok (mkReusable (Some g))), o) /\ usable o;
  r_store : exists o tcb,
    alloc_localstore tls0 (w_localstores w, w_tcb w) =
      (Done (mkReusable (Some (Some (Some (Mut a))))), (o, tcb)) /\ stores_ok o /\
    fs_base tcb = f /\ live tcb a /\ live tcb f /\ locals <$> blocks tcb !! a = Some t;
}.

(** What the linker and the kernel say about them. *)
Definition fit_for_use a g t : Prop :=
  g <> SHARED /\ parked t /\ TASK t = Task_default /\ arch_get_fs f = 0 /\ arch_set_fs a = 0 /\
  arch_set_fs f = 0 /\ has_ctype_init g = true.

Lemma ready_quiet a g t w w' : ready a g t w -> quiet w w' -> ready a g t w'.
Proof.
  intros [] Hq. split; rewrite ?(q_tcb _ _ Hq), ?(q_group _ _ Hq),
    ?(q_stacks _ _ Hq), ?(q_groups _ _ Hq), ?(q_localstores _ _ Hq), ?(q_tid _ _ Hq); try done;
    [|by apply (q_uc _ _ Hq)].
  destruct r_thread0; [left; by eapply prepared_quiet | right; by eapply unprepared_quiet].
Qed.

(** The caller's steps, on an assertion that quiet interference keeps. *)
Lemma mwp_quiet {A B} (P : world -> Prop) (p : prog A) (k : A -> comp machine B) Φ Ψ w sv env lg :
  (forall w w', P w -> quiet w w' -> P w') -> P w -> clock_ok T (w_clock w) env ->
  (forall w' env, P w' -> quiet w w' -> clock_ok T (w_clock w') env -> exists x w1,
     exec p w' = (Done x, w1) /\ mwp (k x) Φ Ψ (mkMachine w1 sv env lg)) ->
  mwp (main p ≫= k) Φ Ψ (mkMachine w sv env lg).
Proof.
  intros HP Hw Hc Hk. apply mwp_bind. unfold mwp, main, main_tick, mbind, comp_bind.
  destruct env as [|ev env]; simpl; unfold zoom; simpl.
  - destruct (Hk w [] Hw) as (x & w1 & Hx & Hm); [done|done|]. by rewrite Hx.
  - destruct Hc as (_ & _ & Hc). rewrite <- advance_clock in Hc.
    destruct (Hk (advance ev w) env) as (x & w1 & Hx & Hm);
      [by eapply HP, advance_quiet | apply advance_quiet | done |]. by rewrite Hx.
Qed.

Lemma mwp_quiet_last {A} (P : world -> Prop) (p : prog A) Φ Ψ w sv env lg :
  (forall w w', P w -> quiet w w' -> P w') -> P w -> clock_ok T (w_clock w) env ->
  (forall w' env, P w' -> quiet w w' -> clock_ok T (w_clock w') env -> exists x w1,
     exec p w' = (Done x, w1) /\ Φ x (mkMachine w1 sv env lg)) ->
  mwp (main p) Φ Ψ (mkMachine w sv env lg).
Proof.
  intros HP Hw Hc Hk.
  assert (mwp (main p ≫= mret) Φ Ψ (mkMachine w sv env lg)) as Hm
    by by eapply mwp_quiet.
  unfold mwp, mbind, comp_bind in *. by destruct (main p _) as [[] ?].
Qed.

(** What the beginning of [launch] does not touch. *)
Definition like w0 w : Prop :=
  w_tcb w = w_tcb w0 /\ w_stacks w = w_stacks w0 /\ w_groups w = w_groups w0 /\
  w_localstores w = w_localstores w0 /\ forall loc, errno_at w loc = errno_at w0 loc.

(** The worlds between the steps of [launch] in [w0]: the closure is boxed in [hp]; then the libset
    is assigned, so that the pool [gs] has become [o]. *)
Definition boxed a g t hp w0 w : Prop := ready a g t w /\ w_heap w = hp /\ like w0 w.
Definition assigned a g t hp w0 gs o w : Prop :=
  boxed a g t hp w0 (set_groups gs w) /\ w_groups w = o.

Lemma boxed_quiet a g t hp w0 w w' : boxed a g t hp w0 w -> quiet w w' -> boxed a g t hp w0 w'.
Proof.
  intros (Hr & Hh & Hl) Hq. split_and!.
  - by eapply ready_quiet.
  - by rewrite (q_heap _ _ Hq).
  - unfold like. rewrite (q_tcb _ _ Hq), (q_stacks _ _ Hq), (q_groups _ _ Hq),
      (q_localstores _ _ Hq). split_and!; try apply Hl.
    intros loc. rewrite (q_errno _ _ Hq). apply Hl.
Qed.

Lemma assigned_quiet a g t hp w0 gs o w w' :
  assigned a g t hp w0 gs o w -> quiet w w' -> assigned a g t hp w0 gs o w'.
Proof.
  intros [Hb Ho] Hq. split; [|by rewrite (q_groups _ _ Hq)].
  eapply boxed_quiet; [exact Hb|]. by destruct Hq.
Qed.

(** Move on to the world after the time that passed. *)
Ltac step_in w env Hb Hc :=
  let w' := fresh "w" in let env' := fresh "env" in
  let Hb' := fresh "Hb" in let Hc' := fresh "Hc" in
  intros w' env' Hb' _ Hc'; clear Hb Hc; clear dependent w; clear env;
  rename w' into w; rename env' into env; rename Hb' into Hb; rename Hc' into Hc.

(** What a machine has in addition once a function [u] is initialized: the [Linger] at [id], with
    its closure at [h]. *)
Record initialized u h c id μ μ' : Prop := {
  i_lingers : m_lingers μ' = <[id := LContinuation c]> (m_lingers μ);
  i_new : m_lingers μ !! id = None;
  i_heap : w_heap (m_world μ') = <[h := Function u]> (w_heap (m_world μ));
  i_unused : w_heap (m_world μ) !! h = None;
  i_stateful : stateful c = Task_default;
  i_tcb : grown (w_tcb (m_world μ)) (w_tcb (m_world μ'));
  i_stacks : w_stacks (m_world μ') = w_stacks (m_world μ);
  i_errno : forall loc, errno_at (m_world μ') loc = errno_at (m_world μ) loc;
  i_saved : m_saved μ' = m_saved μ;
  i_boxed : functional c = h;
  i_group : exists g, group c = mkReusable (Some g) /\
    assign_group (w_groups (m_world μ)) = (Done (Ok (group c)), w_groups (m_world μ'));
  i_store : alloc_localstore tls0 (w_localstores (m_world μ), w_tcb (m_world μ)) =
    (Done (tls_block c), (w_localstores (m_world μ'), w_tcb (m_world μ')));
}.

(** Once the libset and the block are there, the function is ready to be resumed. *)
Lemma assigned_initialized b u a g t h id gs o o2 tcb w0 w sv env0 env lg :
  fit_for_use a g t -> assigned a g t (<[h := Function u]> (w_heap w0)) w0 gs o w ->
  assign_group gs = (Done (Ok (mkReusable (Some g))), o) -> usable o ->
  alloc_localstore tls0 (w_localstores w, w_tcb w) =
    (Done (mkReusable (Some (Some (Some (Mut a))))), (o2, tcb)) ->
  stores_ok o2 -> fs_base tcb = f -> live tcb a -> live tcb f ->
  locals <$> blocks tcb !! a = Some t ->
  w_heap w0 !! h = None -> lg !! id = None -> clock_ok T (w_clock w) env ->
  b = true \/ never_pauses u ->
  let c := mkContinuation h Task_default (mkReusable (Some g))
             (mkReusable (Some (Some (Some (Mut a))))) in
  let μ' := mkMachine (set_tcb tcb (set_localstores o2 w)) sv env (<[id := LContinuation c]> lg) in
  pending_at s f T a g h c b id (ueval u (errno_at w0 (a, g))).1 t μ' /\
  initialized u h c id (mkMachine w0 sv env0 lg) μ'.
Proof.
  intros (Hg & Hp & HT & Hget & Hseta & Hsetf & Hct) [(Hr & Hh & Htcb & Hst & Hgr & Hls & He) Hgs]
    Ho Hus Ho2 Hok Hfs Hla Hlf Hloc Hfresh Hid Hc Hu. simpl in Hh, Htcb, Hst, Hgr, Hls, He.
  destruct Hr. split.
  - split; cbn [m_world m_saved m_env m_lingers]; try done; [by rewrite lookup_insert_eq|].
    exists (errno_at w0 (a, g)), (Some (Function u)). split; [|left; split; [done|]; by exists u].
    split; try done; simpl in *; try (by subst).
    + destruct r_thread0 as [Hth|Hth]; [left; exact Hth | right; split; [done | exact Hth]].
    + exact (He (a, g)).
    + by rewrite Hh, lookup_insert_eq.
    + by eapply clock_ok_now.
  - split; cbn [m_world m_saved m_env m_lingers]; try done; simpl.
    + apply alloc_localstore_grown in Ho2. by rewrite <- Htcb.
    + exists g. split; [done|]. by rewrite <- Hgr, Hgs.
    + by rewrite <- Htcb, <- Hls.
Qed.

(** Everything up to the first [resume]. *)
Lemma mwp_launch b u us a g t e Φ Ψ μ :
  ready a g t (m_world μ) -> fit_for_use a g t -> clock_ok T (w_clock (m_world μ)) (m_env μ) ->
  errno_at (m_world μ) (a, g) = e -> b = true \/ never_pauses u ->
  (forall μ' h c id, pending_at s f T a g h c b id (ueval u e).1 t μ' ->
     initialized u h c id μ μ' ->
     mwp (if negb (us =? 0) then
            r ← unwinding (forget_linger id) (resume id us);
            match r with
            | Ok _ => mret (Ok id)
            | Err e => _ ← forget_linger id; mret (Err e)
            end
          else mret (Ok id)) Φ Ψ μ') ->
  mwp (launch u us) Φ Ψ μ.
Proof.
  intros Hr Hfit Hc He Hu Hk.
  destruct μ as [w sv env lg]. cbn [m_world m_env m_lingers] in *.
  set (w0 := w) in Hk, He. set (env0 := env) in Hk. clearbody env0.
  assert (boxed a g t (w_heap w0) w0 w) as Hb by done.
  clearbody w0. set (hp := w_heap w0) in *. clear Hr. unfold launch.
  eapply mwp_quiet; [apply boxed_quiet | exact Hb | done |].
  step_in w env Hb Hc. eexists _, _. split; [reflexivity|].
  pose proof (r_group _ _ _ _ (proj1 Hb)) as ->. rewrite (proj2 (is_shared_true _) eq_refl).
  eapply mwp_quiet; [apply boxed_quiet | exact Hb | done |].
  step_in w env Hb Hc. eexists _, _. split; [by apply exec_debug_assert_last|].
  eapply mwp_quiet; [apply boxed_quiet | exact Hb | done |].
  step_in w env Hb Hc. eexists _, _. split; [reflexivity|]. cbv zeta.
  cbn [fst snd]. destruct Hb as (Hr & Hh & Hlike). rewrite Hh. set (h := fresh (dom hp)).
  set (hp' := <[h := Function u]> hp).
  assert (boxed a g t hp' w0 (set_heap hp' w)) as Hb by (split; [by destruct Hr | done]).
  change (clock_ok T (w_clock (set_heap hp' w)) env) in Hc. clear Hr Hh Hlike.
  set (w1 := set_heap hp' w) in *. clearbody w1. clear w. rename w1 into w.
  apply mwp_bind, mwp_unwinding.
  eapply mwp_quiet_last; [apply boxed_quiet | exact Hb | done |]. step_in w env Hb Hc.
  destruct (r_libset _ _ _ _ (proj1 Hb)) as (o & Ho & Hus).
  eexists _, _. split.
  { eapply exec_call_last. erewrite comp_bind_done by exact Ho. reflexivity. }
  assert (assigned a g t hp' w0 (w_groups w) o (set_groups o w)) as Hb2.
  { split; [|done]. eapply boxed_quiet; [exact Hb|]. by split. }
  change (clock_ok T (w_clock (set_groups o w)) env) in Hc. clear Hb. rename Hb2 into Hb.
  set (gs := w_groups w) in *. set (w1 := set_groups o w) in *. clearbody w1 gs. clear w.
  rename w1 into w.
  apply mwp_bind, mwp_unwinding.
  eapply mwp_quiet_last; [apply assigned_quiet | exact Hb | done |]. step_in w env Hb Hc.
  destruct (r_store _ _ _ _ (proj1 (proj1 Hb))) as (o2 & tcb & Ho2 & Hok & Hfs & Hla & Hlf & Hloc).
  eexists _, _. split; [by eapply exec_call_last|].
  apply mwp_bind. unfold mwp at 1. cbn [get m_world m_saved m_env m_lingers]. cbv zeta.
  apply mwp_bind. unfold mwp at 1. cbn [put set_lingers m_world m_saved m_env m_lingers].
  edestruct assigned_initialized with (h := h) (id := fresh (dom lg)) (b := b); [exact Hfit | exact Hb | done..
    | apply not_elem_of_dom, is_fresh | apply not_elem_of_dom, is_fresh | done | done |].
  subst e. eapply Hk; done.
Qed.

(** A panic runs the cleanup. *)
Lemma mwp_unwinding_panic {A} cleanup (m : comp machine A) Φ Ψ μ :
  mwp m Φ (fun msg => mwp cleanup (fun _ => Ψ msg) (fun _ _ => False)) μ ->
  mwp (unwinding cleanup m) Φ Ψ μ.
Proof.
  unfold mwp, unwinding. destruct (m μ) as [[] μ1]; try done.
  by destruct (cleanup μ1) as [[] ?].
Qed.

(** Forgetting a [Linger] that holds nothing. *)
Lemma mwp_forget_poison id lg (Φ : unit -> machine -> Prop) Ψ μ :
  m_lingers μ = <[id := LPoison]> lg -> lg !! id = None ->
  (forall w env, Φ tt (mkMachine w (m_saved μ) env lg)) ->
  mwp (forget_linger id) Φ Ψ μ.
Proof.
  intros Hl Hid HΦ. unfold forget_linger. apply mwp_bind. unfold mwp at 1, gets.
  rewrite Hl, lookup_insert_eq. apply mwp_bind. unfold mwp at 1, modify, set_lingers.
  rewrite Hl, delete_insert_id by done. cbn [drop_linger]. unfold mwp.
  destruct (main_run (mret tt) (mkMachine (m_world μ) (m_saved μ) (m_env μ) lg))
    as (w & env & _ & ->). apply HΦ.
Qed.

(** [launch] with a budget of 0, and with another one. *)
Lemma launch_zero_run b u a g t μ :
  ready a g t (m_world μ) -> fit_for_use a g t -> clock_ok T (w_clock (m_world μ)) (m_env μ) ->
  b = true \/ never_pauses u ->
  exists id h c μ', launch u 0 μ = (Done (Ok id), μ') /\ m_lingers μ !! id = None /\
    pending_at s f T a g h c b id (ueval u (errno_at (m_world μ) (a, g))).1 t μ' /\
    m_lingers μ' = <[id := LContinuation c]> (m_lingers μ) /\
    w_heap (m_world μ') = <[h := Function u]> (w_heap (m_world μ)).
Proof.
  intros Hr Hfit Hc Hu.
  assert (mwp (launch u 0) (fun x μ' => exists id h c, x = Ok id /\ m_lingers μ !! id = None /\
    pending_at s f T a g h c b id (ueval u (errno_at (m_world μ) (a, g))).1 t μ' /\
    m_lingers μ' = <[id := LContinuation c]> (m_lingers μ) /\
    w_heap (m_world μ') = <[h := Function u]> (w_heap (m_world μ))) (fun _ _ => False) μ) as Hm.
  { eapply mwp_launch with (b := b); [done..|]. intros μ' h c id Hp [].
    apply mwp_ret. by exists id, h, c. }
  unfold mwp in Hm. destruct (launch u 0 μ) as [[x| | |] μ']; try done.
  destruct Hm as (id & h & c & -> & Hm). by exists id, h, c, μ'.
Qed.

Lemma launch_run b u us a g t r μ :
  ready a g t (m_world μ) -> fit_for_use a g t -> clock_ok T (w_clock (m_world μ)) (m_env μ) ->
  b = true \/ never_pauses u -> fits T us -> us <> 0 ->
  (ueval u (errno_at (m_world μ) (a, g))).1 = r ->
  mwp (launch u us) (fun x μ' => exists id, x = Ok id /\ m_lingers μ !! id = None /\
      ((exists v, r = Ok v /\ m_lingers μ' = <[id := LCompletion v]> (m_lingers μ)) \/
       (exists h c t', pending_at s f T a g h c b id r t' μ' /\ exists since, paused_after T b us since id t' μ')))
    (fun msg μ' => r = Err msg /\ m_lingers μ' = m_lingers μ) μ.
Proof.
  intros Hr Hfit Hc Hu Hfits Hus <-. set (r := (ueval u _).1).
  eapply mwp_launch with (b := b); [done..|]. intros μ' h c id Hp [Hl Hid _ _ _ _ _ _ _ _ _ _].
  apply Z.eqb_neq in Hus. rewrite Hus. cbn [negb]. apply mwp_bind, mwp_unwinding_panic.
  eapply mwp_mono; [by eapply resume_pending| |].
  - intros x μ'' (-> & _ & Hx). apply mwp_ret. exists id. split; [done|]. split; [done|].
    destruct Hx as [(v & Hv & Hl2) | (c' & t' & Hp' & _ & Hpa)].
    + left. exists v. split; [exact Hv|]. by rewrite Hl2, Hl, insert_insert_eq.
    + right. exists h, c', t'. eauto.
  - intros msg μ'' (Hv & _ & Hl2). eapply mwp_forget_poison; [|exact Hid|by intros w env].
    by rewrite Hl2, Hl, insert_insert_eq.
Qed.

(** ** Other functions *)

Lemma initialized_beside a g h c b id r t u μ μ' :
  pending_at s f T a g h c b id r t μ' -> initialized u h c id μ μ' ->
  beside s f T (fun _ => False) (fun x => x = h) μ μ'.
Proof.
  intros [_ _ Hc _ _ _ _ (e & cell & Hat & _)] [].
  pose proof (at_ground _ _ _ _ _ _ _ _ _ _ _ _ _ Hat) as Hg. destruct Hat. split; try done.
  - intros x. by apply grown_live.
  - intros x l _. by apply grown_locals.
  - intros x Hx. by rewrite i_heap0, lookup_insert_ne.
  - by rewrite i_stacks0.
Qed.

(** No libset is left. *)
Definition out_of_libsets w : Prop := exists x o, assign_group (w_groups w) = (Done (Err x), o).

Lemma launch_exhausted_run u us x o μ :
  w_group (m_world μ) = SHARED -> assign_group (w_groups (m_world μ)) = (Done (Err x), o) ->
  exists w env, passed (set_groups o (m_world μ)) (m_env μ) w env /\
    launch u us μ = (Panicked "launch(): too many active timed functions",
      mkMachine w (m_saved μ) env (m_lingers μ)).
Proof.
  intros Hg Ho. unfold launch. checked Hg w2 env2 Hp2. set (μ2 := mkMachine _ _ _ _).
  destruct (main_passed (act (fun w => let p := fresh (dom (w_heap w)) in
    (p, set_heap (<[p := Function u]> (w_heap w)) w))) μ2) as (w3 & env3 & Hp3 & Hm3).
  erewrite comp_bind_done by exact Hm3. cbv zeta. set (h := fresh (dom (w_heap w3))).
  pose proof (passed_trans _ _ _ _ _ _ Hp2 Hp3) as Hp. clear Hm3 Hp2 Hp3.
  set (μ3 := mkMachine _ _ _ _).
  match goal with |- context [main (call w_groups set_groups ?m)] =>
    destruct (main_passed (call w_groups set_groups m) μ3) as (w4 & env4 & Hp4 & Hm4) end.
  match type of Hm4 with context [exec ?q w4] =>
    assert (exec q w4 = (Panicked "launch(): too many active timed functions", set_groups o w4))
      as Hx4 end.
  { simpl. unfold mbind, comp_bind. rewrite (q_groups _ _ (proj1 Hp4)). simpl.
    by rewrite (q_groups _ _ (proj1 Hp)), Ho. }
  rewrite Hx4 in Hm4. set (μ4 := mkMachine _ _ _ _) in Hm4.
  match goal with |- context [unwinding (main ?q) _] =>
    destruct (main_passed q μ4) as (w5 & env5 & Hp5 & Hm5) end.
  erewrite comp_bind_panicked; [|unfold unwinding; rewrite Hm4; simpl; rewrite Hm5; reflexivity].
  eexists _, _. split; [|reflexivity]. cbn [exec write act fst snd].
  rewrite (q_heap _ _ (proj1 Hp5)). cbn [μ4 m_world w_heap set_groups fst snd].
  rewrite (q_heap _ _ (proj1 Hp4)). cbn [μ3 m_world w_heap set_heap exec act fst snd].
  rewrite delete_insert_id by apply not_elem_of_dom, is_fresh.
  eapply passed_trans; [eapply passed_groups, Hp|].
  apply (passed_heap (w_heap w3)) in Hp5. apply (passed_groups o), (passed_heap (w_heap w3)) in Hp4.
  eapply passed_trans; [|exact Hp5]. by destruct w3.
Qed.

(** ** Claims *)

(** C15: With a budget of 0, [launch] initializes the function but does not invoke it: it succeeds,
    the closure is boxed with the function still in it, and the new [Linger], at an address that
    was not in use, is ready to be resumed and will end with the function's result. *)
Theorem launch_zero_defers b u a g t μ :
  ready a g t (m_world μ) -> fit_for_use a g t -> clock_ok T (w_clock (m_world μ)) (m_env μ) ->
  b = true \/ never_pauses u ->
  exists id h c μ', launch u 0 μ = (Done (Ok id), μ') /\ m_lingers μ !! id = None /\
    pending_at s f T a g h c b id (ueval u (errno_at (m_world μ) (a, g))).1 t μ' /\
    m_lingers μ' = <[id := LContinuation c]> (m_lingers μ) /\
    w_heap (m_world μ') = <[h := Function u]> (w_heap (m_world μ)).
Proof. apply launch_zero_run. Qed.

(** C14: [launch] with a nonzero budget runs the function as [resume] does: it returns the new
    [Linger], completed with the function's value or paused and still to end with its result; or
    the function panics, the panic propagates and the [Linger] is gone; it never fails, aborts or
    becomes undefined. *)
Theorem launch_refines b u us a g t μ :
  ready a g t (m_world μ) -> fit_for_use a g t -> clock_ok T (w_clock (m_world μ)) (m_env μ) ->
  b = true \/ never_pauses u -> fits T us -> us <> 0 ->
  let r := (ueval u (errno_at (m_world μ) (a, g))).1 in
  match launch u us μ with
  | (Done (Ok id), μ') => m_lingers μ !! id = None /\
      ((exists v, r = Ok v /\ m_lingers μ' = <[id := LCompletion v]> (m_lingers μ)) \/
       pending_fn s f T b id r μ')
  | (Panicked msg, μ') => r = Err msg /\ m_lingers μ' = m_lingers μ
  | _ => False
  end.
Proof.
  intros Hr Hfit Hc Hu Hfits Hus.
  pose proof (launch_run _ _ _ _ _ _ _ _ Hr Hfit Hc Hu Hfits Hus eq_refl) as Hm. cbv zeta in *.
  unfold mwp in Hm. destruct (launch u us μ) as [[x|msg| |] μ']; try done.
  destruct Hm as (id & -> & Hid & [Hv|(h & c & t' & Hp & _)]); split; try done; [by left|].
  right. by exists a, g, h, c, t'.
Qed.

(** C16: When all libsets are in use, [launch] panics with "too many active timed functions" and
    leaks nothing: the boxed closure is freed and no [Linger] exists that did not before. *)
Theorem launch_exhausted u us μ :
  w_group (m_world μ) = SHARED -> out_of_libsets (m_world μ) ->
  exists μ', launch u us μ = (Panicked "launch(): too many active timed functions", μ') /\
    m_lingers μ' = m_lingers μ /\ m_saved μ' = m_saved μ /\
    w_heap (m_world μ') = w_heap (m_world μ).
Proof.
  intros Hg (x & o & Ho).
  destruct (launch_exhausted_run u us _ _ _ Hg Ho) as (w & env & [Hq _] & ->).
  eexists. split; [reflexivity|]. split_and!; [done | done |]. exact (q_heap _ _ Hq).
Qed.
End Launch.
