(* ===== verification/Preempt.v ===== *)
(** * Preempting, deferring and yielding

    The handler's decision, and what follows from it: a due signal stops the function before its
    next action, a preemption that was deferred by a nonpreemptible call happens right after it,
    and [pause] yields. *)

From S2P Require Import Prelude Signal Reusable Gotcha Pools Timer Tcb World Preemption Linger.
From S2P Require Import Handler Frame Interference Transparency Oneshot Caller Resume.

Section Preempt.
Context `{PlatformLaws}.
Implicit Types (w : world) (t : tls) (s : Signal).

(** ** The handler's decision *)

(** What should happen when the signal [s] arrives. *)
Inductive verdict : Set := Ignore | Defer | Continue_ | Stop.

#[export] Instance verdict_eq_dec : EqDecision verdict.
Proof. solve_decision. Defined.

Definition decide_preemption s w t : verdict :=
  if bool_decide (thread_signal_of w = Ok s) then
    if bool_decide (w_group w = SHARED) then Defer
    else if DEADLINE t <=? w_clock w then Stop else Continue_
  else Ignore.

(** Everything but the signal mask, the pending signals, the thread-local variables and the [errno]
    that the handler finds. *)
Record same_around w w' : Prop := {
  sa_clock : w_clock w' = w_clock w;
  sa_actions : k_actions (w_kernel w') = k_actions (w_kernel w);
  sa_timers : k_timers (w_kernel w') = k_timers (w_kernel w);
  sa_errno : forall loc, loc <> errno_loc w -> errno_at w' loc = errno_at w loc;
  sa_fs : fs_base (w_tcb w') = fs_base (w_tcb w);
  sa_blocks : forall y, y <> fs_base (w_tcb w) ->
    blocks (w_tcb w') !! y = blocks (w_tcb w) !! y;
  sa_signalers : w_signalers w' = w_signalers w;
  sa_heap : w_heap w' = w_heap w;
  sa_hooked : w_hooked w' = w_hooked w;
}.

(** The effect of each verdict. *)
Definition carried_out s w t w' (v : verdict) : Prop :=
  pending (w_kernel w') s = false /\ w_uc w' = None /\ same_around w w' /\
  (v <> Stop -> errno_at w' (errno_loc w) = errno_at w (errno_loc w)) /\
  match v with
  | Ignore =>
      w_group w' = w_group w /\ cur_tls w' = Some t /\
      (forall s', blocked (w_kernel w') s' = bool_decide (s = s') || blocked (w_kernel w) s')
  | Continue_ =>
      w_group w' = w_group w /\ cur_tls w' = Some t /\
      (forall s', blocked (w_kernel w') s' = blocked (w_kernel w) s')
  | Defer =>
      w_group w' = w_group w /\ cur_tls w' = Some (set_DEFERRED true t) /\
      (forall s', blocked (w_kernel w') s' = bool_decide (s = s') || blocked (w_kernel w) s')
  | Stop => exists c,
      checkpoint (TASK t) = Some c /\ w_group w' = SHARED /\
      cur_tls w' = Some (disabled (set_TASK (mkTask (Some (errno_at w (errno_loc w)))
        (Some (mkContext (cx_stack c) (k_mask (w_kernel w)) Interrupted))
        (DEADLINE t =? 0)) t)) /\
      (forall s', blocked (w_kernel w') s' = bool_decide (s = s') || set_has (cx_mask c) s')
  end.

(** A thread on which a preemptible function is active. *)
Record active c w t : Prop := {
  ac_alive : alive w t;
  ac_clock : is_u64 (w_clock w);
  ac_checkpoint : checkpoint (TASK t) = Some c;
  ac_callsite : cx_code c = CallSite;
}.

Lemma same_around_put t w w' : same_around w w' -> same_around w (put_tls t w').
Proof.
  intros []. split; try done. intros y Hy. unfold put_tls. simpl.
  rewrite lookup_alter_ne by congruence. auto.
Qed.

Lemma touched_errno w loc : errno_at (touch_errno w) loc = errno_at w loc.
Proof. apply errno_at_restored. Qed.

Lemma same_around_touch w w' : same_around w w' -> same_around w (touch_errno w').
Proof. intros []. split; try done. intros loc Hl. rewrite touched_errno. auto. Qed.

Lemma clobbered_elsewhere w loc : loc <> errno_loc w -> errno_at (clobbered w) loc = errno_at w loc.
Proof. intros Hl. unfold errno_at, clobbered. simpl. by rewrite lookup_insert_ne. Qed.

Lemma unpend_pending s w : pending (w_kernel (unpend s w)) s = false.
Proof.
  unfold pending. apply bool_decide_eq_false. simpl. rewrite list_elem_of_filter. naive_solver.
Qed.

(** C17: The signal handler carries out its decision, whatever its own library calls do to [errno]:
    a signal that is not the thread's own is only blocked; the thread's own signal defers the
    preemption if the function is inside a nonpreemptible call, changes nothing (not even [errno])
    before the deadline, and at the deadline stops the function: the interrupted context and [errno] are saved in the task, the
    yield is recorded, and control goes to the call site, in the shared libset, with the call
    site's signal mask and the preemption signal blocked. *)
Theorem preempt_carries_out s c w t :
  active c w t ->
  exists w', deliver s w = (Done (bool_decide (decide_preemption s w t = Stop)), w') /\
    carried_out s w t w' (decide_preemption s w t).
Proof.
  intros [Ht Hc Hcp Hcs]. unfold decide_preemption.
  destruct (bool_decide_reflect (thread_signal_of w = Ok s)) as [Hs|Hs];
    [destruct (bool_decide_reflect (w_group w = SHARED)) as [Hg|Hg];
     [|destruct (Z.leb_spec (DEADLINE t) (w_clock w))]|].
  - rewrite (deliver_shared s w t) by done. eexists. split; [by rewrite bool_decide_false|].
    split; [exact (unpend_pending s w)|]. split; [done|]. split.
    { by apply same_around_put, same_around_touch. }
    split; [intros _; exact (touched_errno _ _) | split; [done|]].
    split; [autorewrite with tls; by rewrite (proj1 Ht) | intros s'; apply law_add].
  - rewrite (deliver_due s w t c) by done. eexists. split; [by rewrite bool_decide_true|].
    split; [exact (unpend_pending s w)|]. split; [done|].
    split; [apply same_around_put; split; try done; apply clobbered_elsewhere|]. split; [done|].
    exists c. split; [done|]. split; [done|].
    split; [apply cur_tls_put with (t := t), (proj1 Ht) | intros s'; apply law_add].
  - rewrite (deliver_early s w t) by done. eexists. split; [by rewrite bool_decide_false|].
    split; [exact (unpend_pending s w)|]. split; [done|].
    split; [by apply same_around_touch|]. split; [intros _; exact (touched_errno _ _)|].
    split; [done|]. split; [autorewrite with tls; exact (proj1 Ht) | done].
  - rewrite deliver_irrelevant by done. eexists. split; [by rewrite bool_decide_false|].
    split; [exact (unpend_pending s w)|]. split; [done|].
    split; [by apply same_around_touch|]. split; [intros _; exact (touched_errno _ _)|].
    split; [done|]. split; [autorewrite with tls; exact (proj1 Ht) | intros s'; apply law_add].
Qed.

(** ** A due signal *)

(** The function runs preemptibly, and its signal can be delivered. *)
Record armed s c w t : Prop := {
  ar_active : alive w t /\ checkpoint (TASK t) = Some c /\ cx_code c = CallSite;
  ar_own : thread_signal_of w = Ok s;
  ar_group : w_group w <> SHARED;
  ar_deliverable : deliverable (w_kernel w) s = true;
}.

(** The time of the next interruption point. *)
Definition next_time (env : list tick) w : Z :=
  match env with [] => w_clock w | e :: _ => w_clock w + dt e end.

(** The task after the function was stopped: [m] is the signal mask it continues with. *)
Definition stopped_task c w t (m : sigset_t) : Task :=
  mkTask (Some (errno_at w (errno_loc w))) (Some (mkContext (cx_stack c) m Interrupted))
    (DEADLINE t =? 0).
Definition stopped_in s c w t w' : Prop := exists m,
  cur_tls w' = Some (disabled (set_TASK (stopped_task c w t m) t)) /\
  set_has m s = false /\ w_group w' = SHARED /\ blocked (w_kernel w') s = true /\
  w_uc w' = None.

(** Interference that leaves the own signal pending keeps the function armed. *)
Lemma armed_quiet s c w t w' :
  armed s c w t -> quiet w w' -> pending (w_kernel w') s = true -> armed s c w' t.
Proof.
  intros [(Ht & Hcp) Hs Hg Hd] Hq Hp. unfold deliverable, handled in Hd.
  apply andb_true_iff in Hd as [[_ Hb]%andb_true_iff Hh]. split.
  - split; [by eapply quiet_alive | done].
  - by rewrite (quiet_thread_signal _ _ Hq).
  - by rewrite (q_group _ _ Hq).
  - unfold deliverable, handled. rewrite (q_actions _ _ Hq), Hp, Hh, (q_own _ _ Hq) by done.
    by rewrite Hb.
Qed.

Lemma pending_unpend_other s s' w :
  s <> s' -> pending (w_kernel w) s = true -> pending (w_kernel (unpend s' w)) s = true.
Proof.
  unfold pending. rewrite !bool_decide_eq_true. simpl. intros Hne Hp.
  apply list_elem_of_filter. split; [|done]. intros Heq. by apply Hne, c_int_inj.
Qed.

Lemma armed_pending s c w t : armed s c w t -> pending (w_kernel w) s = true.
Proof. intros [_ _ _ Hd]. unfold deliverable in Hd. by destruct (pending _ _). Qed.

Lemma stopped_in_quiet s c w t w1 w' :
  quiet w w1 -> stopped_in s c w1 t w' -> stopped_in s c w t w'.
Proof.
  intros Hq (m & Hst). exists m. unfold stopped_task, errno_loc in *.
  by rewrite (q_errno _ _ Hq), (q_tcb _ _ Hq), (q_group _ _ Hq) in Hst.
Qed.

Lemma deliver_all_due s c t l w :
  armed s c w t -> is_u64 (w_clock w) -> DEADLINE t <= w_clock w -> s ∈ l ->
  exists w', deliver_all l w = (Done true, w') /\ stopped_in s c w t w'.
Proof.
  revert w. induction l as [|s' l IH]; intros w Ha Hc Hd Hin; [by apply elem_of_nil in Hin|].
  simpl. unfold gets, mbind, comp_bind. cbv beta iota.
  destruct (decide (s' = s)) as [->|Hne].
  - destruct Ha as [(Ht & Hcp & Hcs) Hs Hg Hdel]. rewrite Hdel.
    rewrite (deliver_due s w t c) by done. simpl. eexists. split; [done|].
    exists (k_mask (w_kernel w)). split_and!; try done.
    + apply cur_tls_put with (t := t), (proj1 Ht).
    + unfold deliverable, blocked in Hdel. by destruct (set_has _ _); [rewrite andb_false_r in Hdel|].
    + apply set_add_same.
  - apply elem_of_cons in Hin as [?|Hin]; [congruence|].
    destruct (deliverable (w_kernel w) s') eqn:Hd'; [|by apply IH].
    assert (thread_signal_of w <> Ok s') as Hi by (rewrite (ar_own _ _ _ _ Ha); congruence).
    pose proof (block_other_quiet _ _ Hi) as Hq.
    rewrite deliver_irrelevant by done. simpl.
    edestruct (IH _ (armed_quiet _ _ _ _ _ Ha Hq
      (pending_unpend_other s s' w ltac:(congruence) (armed_pending _ _ _ _ Ha))))
      as (w' & Hw' & Hst); [done..|].
    exists w'. split; [exact Hw' | by eapply stopped_in_quiet].
Qed.

Lemma raise_pending_mono n p x : x ∈ p -> x ∈ raise_pending n p.
Proof. unfold raise_pending. case_decide; set_solver. Qed.

Lemma advance_pending s e w :
  pending (w_kernel w) s = true -> pending (w_kernel (advance e w)) s = true.
Proof.
  unfold advance. intros Hp.
  assert (pending (w_kernel (set_clock (w_clock w + dt e) w)) s = true) as Hp1 by done.
  revert Hp1. generalize (set_clock (w_clock w + dt e) w) as w1.
  induction (raised e) as [|s' l IH]; intros w1 Hp1; [done|]. simpl. apply IH.
  unfold pending in *. rewrite bool_decide_eq_true in *. by apply raise_pending_mono.
Qed.

Lemma interrupt_due s c t env w :
  armed s c w t -> s ∈ NOTIFICATION_SIGNALS -> is_u64 (next_time env w) ->
  DEADLINE t <= next_time env w -> exists w' env',
    interrupt env w = ((Done true, w'), env') /\ stopped_in s c w t w'.
Proof.
  intros Ha Hin Hc Hd. unfold interrupt. destruct env as [|e env]; simpl in Hc, Hd.
  - destruct (deliver_all_due _ _ _ _ _ Ha Hc Hd Hin) as (w' & -> & Hst). by exists w', [].
  - pose proof (advance_quiet w e) as Hq. rewrite <- advance_clock in Hc, Hd.
    assert (armed s c (advance e w) t) as Ha'
      by (eapply armed_quiet; [done..|]; by eapply advance_pending, armed_pending).
    destruct (deliver_all_due _ _ _ _ _ Ha' Hc Hd Hin) as (w' & -> & Hst).
    exists w', env. split; [done | by eapply stopped_in_quiet].
Qed.

Lemma run_due {A} s c t (p : prog A) env w :
  armed s c w t -> s ∈ NOTIFICATION_SIGNALS -> is_u64 (next_time env w) ->
  DEADLINE t <= next_time env w -> exists w' env',
    run p env w = (Paused p, w', env') /\ stopped_in s c w t w'.
Proof.
  intros Ha Hin Hc Hd. destruct (interrupt_due _ _ _ _ _ Ha Hin Hc Hd) as (w' & env' & Hi & Hst).
  exists w', env'. split; [|done]. destruct p; simpl; by rewrite Hi.
Qed.

(** C18: A timed-out function is stopped at once: when its signal can be delivered and its
    deadline is over by the next interruption point, it does not take another step, whatever
    other signals arrive; the rest of its computation is kept as it is, along with its [errno],
    and [yielded] is set only if the deadline was reset by [pause]. *)
Theorem due_signal_stops {A} s c t (p : prog A) env w :
  armed s c w t -> s ∈ NOTIFICATION_SIGNALS -> is_u64 (next_time env w) ->
  DEADLINE t <= next_time env w -> exists w' env',
    run p env w = (Paused p, w', env') /\ stopped_in s c w t w'.
Proof. apply run_due. Qed.

(** ** Deferred preemption *)

(** The function runs its own code, in its own libset. *)
Record in_function s c w t : Prop := {
  if_alive : alive w t;
  if_checkpoint : checkpoint (TASK t) = Some c /\ cx_code c = CallSite;
  if_own : thread_signal_of w = Ok s;
  if_notification : s ∈ NOTIFICATION_SIGNALS;
  if_handled : handled (w_kernel w) s = true;
  if_group : w_group w <> SHARED;
  if_errno : is_some (ERRNO_LOCATION t) = true;
}.

Lemma exec_thread_signal {B} (k : result Signal unit -> prog B) w :
  exec (thread_signal ≫= k) w = exec (k (thread_signal_of w)) w.
Proof. done. Qed.

Lemma exec_mask {B} un s (k : result unit Z -> prog B) w : exists m,
  exec (mask un s ≫= k) w = exec (k (Ok tt)) (set_wmask m w) /\
  forall s', s' <> Kill ->
    set_has m s' = mask_spec un (blocked (w_kernel w) s') (bool_decide (s = s')).
Proof.
  destruct (pthread_sigmask_run un (set_add set_empty s) (w_kernel w)) as (m & Hm & Hs).
  exists m. split.
  - unfold mask, syscall. rewrite exec_bind. erewrite comp_bind_done; [reflexivity|].
    erewrite exec_call by exact Hm. done.
  - intros s' Hk. rewrite Hs by done. by rewrite law_add, law_empty, orb_false_r.
Qed.

(** The hook raises the signal again and unblocks it. *)
Lemma exec_hook_deferred s c w t :
  in_function s c w t -> DEFERRED t = true -> exists w1,
    exec resume_preemption w = (Done tt, w1) /\ armed s c w1 (set_DEFERRED false t) /\
    w_clock w1 = w_clock w.
Proof.
  intros [[Ht Hd] [Hcp Hcs] Hs Hn Hh Hg He] Hdef.
  pose proof (NOTIFICATION_SIGNALS_maskable _ Hn) as Hk.
  destruct (ERRNO_LOCATION t) as [g|] eqn:Hloc; [|done].
  set (w2 := put_tls (set_DEFERRED false t) w).
  set (w3 := set_kernel (set_pending (raise_pending (c_int s) (k_pending (w_kernel w2)))
         (w_kernel w2)) w2).
  destruct (exec_mask Unblock s (fun _ : result unit Z => mret tt) w3) as (m & Hm & Hspec).
  assert (thread_signal_of w2 = Ok s) as Hs2.
  { unfold thread_signal_of, w2 in *. autorewrite with tls. rewrite Ht in *. simpl in *.
    by rewrite Hd in *. }
  assert (exists es, exec resume_preemption w = (Done tt, set_errnos es (set_wmask m w3)))
    as [es Hes].
  { unfold resume_preemption. setoid_rewrite exec_bind.
    enough (exists es x, exec (enable_preemption None) w = (Done x, set_errnos es (set_wmask m w3)))
      as (es & x & Hx) by (exists es; by erewrite comp_bind_done by exact Hx).
    unfold enable_preemption. erewrite exec_bind_done; last first.
    { unfold errno_group. rewrite (exec_with_tls _ _ _ t) by done. cbn [fst snd]. rewrite Hloc.
      rewrite put_tls_same by done. reflexivity. }
    unfold errno_get. rewrite exec_read, exec_ret.
    rewrite (exec_with_tls _ _ _ t) by done. cbn [fst snd]. rewrite Hdef. cbv iota.
    fold w2. erewrite exec_bind_done; last first.
    { rewrite exec_thread_signal, Hs2. cbn [default]. cbv iota zeta. unfold syscall.
      erewrite exec_call by apply pthread_kill_run. reflexivity. }
    cbv iota beta. fold w3. erewrite exec_bind_done by exact Hm. case_match.
    - rewrite exec_write. by eexists _, _.
    - rewrite exec_ret. exists (w_errno w3), (Ok (Some s)). reflexivity. }
  eexists. split; [exact Hes|]. split; [|done]. split.
  - split; [|done]. split; [unfold w3, w2; tls_now | done].
  - exact Hs2.
  - done.
  - unfold deliverable. apply andb_true_iff. split; [|exact Hh]. apply andb_true_iff. split.
    + unfold pending. apply bool_decide_eq_true. simpl. unfold raise_pending.
      case_decide; set_solver.
    + unfold blocked. simpl. rewrite Hspec by done. simpl.
      by rewrite bool_decide_true, andb_false_r.
Qed.

(** C19: A deferred preemption is not lost: when a nonpreemptible call during which the signal
    arrived returns, libgotcha's hook raises the signal again and unblocks it, and if the
    deadline is over the function is stopped before its next step, with the deferral cleared. *)
Theorem deferred_preemption_happens {A} s c t (p : prog A) env w :
  in_function s c w t -> DEFERRED t = true ->
  is_u64 (next_time env w) -> DEADLINE t <= next_time env w -> exists w1 w' env',
    exec resume_preemption w = (Done tt, w1) /\ run p env w1 = (Paused p, w', env') /\
    stopped_in s c w1 (set_DEFERRED false t) w'.
Proof.
  intros Hb Hdef Hc Hd. destruct (exec_hook_deferred _ _ _ _ Hb Hdef) as (w1 & Hx & Ha & Hck).
  assert (next_time env w1 = next_time env w) as Hn by (destruct env; simpl; by rewrite Hck).
  destruct (run_due _ _ _ p env w1 Ha) as (w' & env' & Hr & Hst);
    [by destruct Hb | by rewrite Hn.. |]. by exists w1, w', env'.
Qed.

(** ** Yielding *)

Lemma thread_signal_put t t' w :
  alive w t -> tls_destroyed t' = false -> SIGNAL t' = SIGNAL t ->
  thread_signal_of (put_tls t' w) = thread_signal_of w.
Proof.
  intros [Ht Hd] Hd' Hs. unfold thread_signal_of. autorewrite with tls. rewrite Ht. simpl.
  by rewrite Hd, Hd', Hs.
Qed.

(** [pause] as the function calls it, up to the hook. *)
Lemma exec_pause_call s c w t :
  in_function s c w t -> w_hooked w = true -> exists w1,
    exec (shared_call pause) w = exec (resume_preemption ≫= fun _ => mret tt) w1 /\
    in_function s c w1 (set_DEFERRED true (set_DEADLINE 0 t)) /\ w_clock w1 = w_clock w.
Proof.
  intros [[Ht Hd] [Hcp Hcs] Hs Hn Hh Hg He] Hhk.
  set (t1 := set_DEADLINE 0 t). set (w1 := put_tls t1 (set_group SHARED w)).
  assert (thread_signal_of w1 = Ok s) as Hs1.
  { unfold w1. erewrite thread_signal_put with (t := t); try done. }
  destruct (exec_mask Block s (fun _ : result unit Z => mret tt) w1) as (m & Hm & Hspec).
  set (t2 := set_DEFERRED true t1).
  assert (exec pause (set_group SHARED w) = (Done tt, put_tls t2 (set_wmask m w1))) as Hp.
  { unfold pause. rewrite (exec_put_local _ _ _ t) by done. fold t1 w1.
    unfold defer_preemption. rewrite exec_is_preemptible. simpl negb.
    rewrite exec_debug_assert by done. erewrite exec_bind_done; last first.
    { rewrite exec_thread_signal, Hs1. exact Hm. }
    erewrite exec_put_local_last; [reflexivity | unfold w1; tls_now | done]. }
  exists (set_group (w_group w) (put_tls t2 (set_wmask m w1))). split; [|split; [|done]].
  - unfold shared_call, group_thread_get, group_thread_set. rewrite exec_read, exec_write.
    erewrite exec_bind_done by exact Hp. rewrite exec_write, exec_read. simpl w_hooked.
    rewrite Hhk. done.
  - split; try done.
    + split; [unfold w1; tls_now | done].
    + change (thread_signal_of (put_tls t2 (set_wmask m w1)) = Ok s). rewrite <- Hs1.
      rewrite (thread_signal_put t1); [done | | done..]. split; [unfold w1; tls_now | done].
Qed.

(** C20: [pause] yields: when a function calls it, the function is stopped as soon as the call
    returns, whatever is left of its budget, and [yielded] tells the caller that it was the
    function's own wish. *)
Theorem pause_yields {A} s c t (p : prog A) env w :
  in_function s c w t -> w_hooked w = true -> is_u64 (next_time env w) ->
  exists w1 w' env' t',
    exec (shared_call pause) w = (Done tt, w1) /\ run p env w1 = (Paused p, w', env') /\
    cur_tls w' = Some t' /\ yielded (TASK t') = true /\ is_some (errno (TASK t')) = true /\
    DEFERRED t' = false /\ w_group w' = SHARED.
Proof.
  intros Hf Hhk Hc. destruct (exec_pause_call _ _ _ _ Hf Hhk) as (w0 & Hp & Hf0 & Hck0).
  destruct (exec_hook_deferred _ _ _ _ Hf0 eq_refl) as (w1 & Hx & Ha & Hck).
  assert (next_time env w1 = next_time env w) as Hn
    by (destruct env; simpl; by rewrite Hck, Hck0).
  destruct (run_due _ _ _ p env w1 Ha) as (w' & env' & Hr & (m & Ht' & _ & Hg & _));
    [by destruct Hf0 | by rewrite Hn | rewrite Hn; apply Hc |].
  exists w1, w', env'. eexists. rewrite Hp. erewrite exec_bind_done by exact Hx.
  by split_and!.
Qed.
End Preempt.
