(* ===== verification/Cancel.v ===== *)
(** * Cancellation

    What becomes of a function's resources when its [Linger] is dropped. *)

From S2P Require Import Prelude Signal Reusable Gotcha Pools Timer Tcb World Preemption Linger.
From S2P Require Import Handler Frame Interference Transparency Oneshot Caller Resume Contract.

Section Cancel.
Context `{PlatformLaws}.
Implicit Types (w : world) (μ : machine).

(** A continuation that owns everything it was launched with; [st] is its stack. *)
Record whole (c : Continuation) (g : Group) (st : Stack) (v : option ThreadControlBlock) : Prop := {
  wh_group : group c = mkReusable (Some g);
  wh_tls : tls_block c = mkReusable (Some v);
  wh_stack : exists cx, checkpoint (stateful c) = Some cx /\ cx_stack cx = mkReusable (Some st);
}.

(** What dropping it gives back. *)
Record given_back (c : Continuation) g st v w w' : Prop := {
  gb_heap : w_heap w' = delete (functional c) (w_heap w);
  gb_group : took_back (w_groups w) (w_groups w') g;
  gb_stack : took_back (w_stacks w) (w_stacks w') st;
  gb_store : store_took_back (w_localstores w) (w_localstores w') v;
  gb_tcb : w_tcb w' = w_tcb w;
  gb_kernel : w_kernel w' = w_kernel w;
  gb_libset : w_group w' = w_group w;
}.

Lemma exec_drop_fields c g st v w :
  whole c g st v -> usable (w_groups w) -> usable (w_stacks w) -> stores_ok (w_localstores w) ->
  exists o1 o2 o, exec (drop_fields c) w = (Done tt, free_all (functional c) o1 o2 (set_stacks o w)) /\
    took_back (w_groups w) o1 g /\ store_took_back (w_localstores w) o2 v /\
    took_back (w_stacks w) o st.
Proof.
  intros [Hg Ht (cx & Hcx & Hst)] Hug Hus Hls.
  destruct (drop_took_back (w_stacks w) st Hus) as (o & Ho & Hb).
  destruct (drop_took_back (w_groups w) g Hug) as (o1 & Ho1 & Hb1).
  destruct (store_return_took_back _ v Hls) as (o2 & Ho2 & Hb2).
  unfold drop_fields. erewrite exec_dropping by reflexivity. unfold drop_task. rewrite Hcx.
  unfold drop_context. rewrite Hst. erewrite exec_dropping by by apply exec_call_last.
  unfold drop_group. rewrite Hg. erewrite exec_dropping by by apply exec_call_last.
  unfold drop_localstore. rewrite Ht. erewrite exec_call_last by exact Ho2. by exists o1, o2, o.
Qed.

(** The destructor of a paused continuation. *)
Lemma drop_paused_run c g st v w :
  whole c g st v -> is_some (errno (stateful c)) = true -> w_group w = SHARED ->
  usable (w_groups w) -> usable (w_stacks w) -> stores_ok (w_localstores w) ->
  exists o1 o2 o, exec (drop_linger (LContinuation c)) w =
      (if Group_renew g then Done tt
       else Panicked "libinger: failed to reinitialize library group",
       free_all (functional c) o1 o2 (set_stacks o w)) /\
    took_back (w_groups w) o1 g /\ store_took_back (w_localstores w) o2 v /\
    took_back (w_stacks w) o st.
Proof.
  intros Hw He Hsh Hug Hus Hls.
  destruct (exec_drop_fields c g st v w) as (o1 & o2 & o & Hx & Hgb); [done..|].
  exists o1, o2, o. split; [|done]. cbn [drop_linger]. unfold drop_continuation.
  rewrite exec_is_preemptible, Hsh, (proj2 (is_shared_true _) eq_refl).
  rewrite andb_false_r, He. rewrite (wh_group _ _ _ _ Hw).
  erewrite exec_bind_done by reflexivity. destruct (Group_renew g); [exact Hx|].
  by erewrite exec_bind_done by by apply exec_no_unwind_done.
Qed.

(** Of one that was never started. *)
Lemma drop_fresh_run c g v w :
  group c = mkReusable (Some g) -> tls_block c = mkReusable (Some v) ->
  stateful c = Task_default -> w_group w = SHARED ->
  usable (w_groups w) -> stores_ok (w_localstores w) ->
  exists o1 o2, exec (drop_linger (LContinuation c)) w =
      (Done tt, free_all (functional c) o1 o2 w) /\
    took_back (w_groups w) o1 g /\ store_took_back (w_localstores w) o2 v.
Proof.
  intros Hg Ht Hst Hsh Hug Hls. cbn [drop_linger]. unfold drop_continuation.
  rewrite exec_is_preemptible, Hsh, (proj2 (is_shared_true _) eq_refl), andb_false_r, Hst.
  destruct (drop_took_back (w_groups w) g Hug) as (o1 & Ho1 & Hb1).
  destruct (store_return_took_back _ v Hls) as (o2 & Ho2 & Hb2).
  cbn [is_some Task_default errno]. unfold drop_fields, drop_task.
  erewrite exec_dropping by reflexivity. rewrite Hst. cbn [checkpoint Task_default].
  erewrite exec_dropping by reflexivity. unfold drop_group. rewrite Hg.
  erewrite exec_dropping by by apply exec_call_last.
  unfold drop_localstore. rewrite Ht. erewrite exec_call_last by exact Ho2. by exists o1, o2.
Qed.

(** C21: Dropping a paused function cancels it: its closure is freed and its libset, stack and
    thread-control block go back to their pools, ready for the next function; the libset is
    reinitialized, and only if that fails does the drop panic, after having given everything
    back.  Nothing is installed or unblocked. *)
Theorem cancel_gives_back id c g st v μ :
  m_lingers μ !! id = Some (LContinuation c) -> whole c g st v ->
  is_some (errno (stateful c)) = true -> w_group (m_world μ) = SHARED ->
  usable (w_groups (m_world μ)) -> usable (w_stacks (m_world μ)) ->
  stores_ok (w_localstores (m_world μ)) ->
  exists w μ', quiet (m_world μ) w /\ given_back c g st v w (m_world μ') /\
    m_lingers μ' = delete id (m_lingers μ) /\ m_saved μ' = m_saved μ /\
    forget_linger id μ =
      (if Group_renew g then Done tt
       else Panicked "libinger: failed to reinitialize library group", μ').
Proof.
  intros Hl Hw He Hsh Hug Hus Hls. unfold forget_linger.
  erewrite comp_bind_done by reflexivity. erewrite comp_bind_done by reflexivity.
  cbv beta. rewrite Hl.
  destruct (main_run (drop_linger (LContinuation c))
    (set_lingers (delete id (m_lingers μ)) μ)) as (w & env & Hq & ->).
  destruct (drop_paused_run c g st v w) as (o1 & o2 & o & Hx & Hb1 & Hb2 & Hb);
    [done | done | by rewrite (q_group _ _ Hq) | by rewrite (q_groups _ _ Hq)
    | by rewrite (q_stacks _ _ Hq) | by rewrite (q_localstores _ _ Hq) |].
  eexists w, (mkMachine _ (m_saved μ) env (delete id (m_lingers μ))). rewrite Hx.
  split_and!; try done. by split.
Qed.

End Cancel.
