(* ===== verification/Failure.v ===== *)
(** * Failed calls of [resume]

    What a call of [resume] that returns an error leaves behind, whatever call of the kernel, the
    linker or libtimetravel failed; and what becomes of the caller when the jump into a paused
    function fails. *)

From S2P Require Import Prelude Signal Reusable Gotcha Pools Timer Tcb World Preemption Linger.
From S2P Require Import Handler Frame Interference Transparency Oneshot Caller Resume Contract.

(** ** What a computation keeps, and what it keeps when it returns an error *)

Section Keeps.
Context `{Platform}.
Implicit Types (P : machine -> Prop) (μ : machine).

Definition keeps P {A} (m : comp machine A) : Prop :=
  forall μ x μ', P μ -> m μ = (x, μ') -> P μ'.
Definition errs P {A E} (m : comp machine (result A E)) : Prop :=
  forall μ e μ', P μ -> m μ = (Done (Err e), μ') -> P μ'.

Lemma keeps_ret P {A} (x : A) : keeps P (mret x).
Proof. by intros μ y μ' HP [= _ <-]. Qed.
Lemma keeps_bind P {A D} (m : comp machine A) (k : A -> comp machine D) :
  keeps P m -> (forall x, keeps P (k x)) -> keeps P (m ≫= k).
Proof.
  intros Hm Hk μ y μ' HP. unfold mbind, comp_bind. destruct (m μ) as [[x| | |] μ1] eqn:Hx;
    intros Hy; simplify_eq; try (by eapply Hm). eapply Hk; [|exact Hy]. by eapply Hm.
Qed.
Lemma keeps_try P {A D E} (m : comp machine (result A E)) (k : A -> comp machine (result D E)) :
  keeps P m -> (forall x, keeps P (k x)) -> keeps P (try_bind m k).
Proof. intros Hm Hk. apply keeps_bind; [done|]. intros []; [done | apply keeps_ret]. Qed.
Lemma keeps_unwinding P {A} (c : comp machine unit) (m : comp machine A) :
  keeps P c -> keeps P m -> keeps P (unwinding c m).
Proof.
  intros Hc Hm μ y μ' HP. unfold unwinding. destruct (m μ) as [[x|msg| |] μ1] eqn:Hx;
    try (intros Hy; simplify_eq; by eapply Hm).
  destruct (c μ1) as [[] μ2] eqn:Hx2; intros Hy; simplify_eq; (eapply Hc; [|exact Hx2]); by eapply Hm.
Qed.
Lemma keeps_expect P {A} (o : option A) msg : keeps P (expect o msg).
Proof. destruct o; by intros μ y μ' HP [= _ <-]. Qed.
Lemma keeps_abort P {A} msg : keeps P (abort_process (A := A) msg).
Proof. by intros μ y μ' HP [= _ <-]. Qed.
Lemma keeps_get P {A} (k : machine -> comp machine A) :
  (forall μ, P μ -> keeps P (k μ)) -> keeps P (get ≫= k).
Proof. intros Hk μ y μ' HP. by apply Hk. Qed.
Lemma keeps_put P μ1 : P μ1 -> keeps P (put μ1).
Proof. by intros HP μ y μ' _ [= _ <-]. Qed.
Lemma keeps_modify P f : (forall μ, P μ -> P (f μ)) -> keeps P (modify f).
Proof. intros Hf μ y μ' HP [= _ <-]. auto. Qed.

Lemma errs_keeps P {A E} (m : comp machine (result A E)) : keeps P m -> errs P m.
Proof. intros Hm μ e μ' HP. by apply Hm. Qed.
Lemma errs_bind P {A D E} (m : comp machine A) (k : A -> comp machine (result D E)) :
  keeps P m -> (forall x, errs P (k x)) -> errs P (m ≫= k).
Proof.
  intros Hm Hk μ e μ' HP (x & μ1 & Hx & Hy) % bind_inv. eapply Hk; [|exact Hy]. by eapply Hm.
Qed.
Lemma errs_try P {A D E} (m : comp machine (result A E)) (k : A -> comp machine (result D E)) :
  keeps P m -> (forall x, errs P (k x)) -> errs P (try_bind m k).
Proof. intros Hm Hk. apply errs_bind; [done|]. intros []; [done | apply errs_keeps, keeps_ret]. Qed.
Lemma errs_never P {A E} (m : comp machine (result A E)) :
  (forall μ e μ', m μ <> (Done (Err e), μ')) -> errs P m.
Proof. intros Hm μ e μ' _ Hx. by destruct (Hm μ e μ'). Qed.
End Keeps.

(** ** The [Linger] *)

Section Strip.
Context `{PlatformLaws}.
Implicit Types (w : world) (μ : machine).

(** The continuation at [id] still has the closure and the libset of [c], but no block. *)
Definition strip_of (id : nat) (c : Continuation) μ : Prop :=
  exists task, m_lingers μ !! id = Some (LContinuation (set_stateful task (stripped c))).

Lemma main_lingers {A} (p : prog A) μ x μ' : main p μ = (x, μ') -> m_lingers μ' = m_lingers μ.
Proof. destruct (main_passed p μ) as (w & env & _ & ->). by intros [= _ <-]. Qed.

Lemma keeps_main id c {A} (p : prog A) : keeps (strip_of id c) (main p).
Proof. intros μ x μ' (task & Hl) Hx. exists task. by rewrite (main_lingers _ _ _ _ Hx). Qed.
Lemma keeps_stateful id c task :
  keeps (strip_of id c) (update_continuation id (set_stateful task)).
Proof.
  apply keeps_modify. intros μ (task' & Hl). exists task. unfold set_lingers. cbn [m_lingers].
  by rewrite lookup_alter_eq, Hl.
Qed.

Ltac keep := repeat (intros; lazymatch goal with
  | |- keeps _ (main _) => apply keeps_main
  | |- keeps _ (update_continuation _ (set_stateful _)) => apply keeps_stateful
  | |- keeps _ (mret _) => apply keeps_ret
  | |- keeps _ (expect _ _) => apply keeps_expect
  | |- keeps _ (abort_process _) => apply keeps_abort
  | |- keeps _ (get ≫= _) => apply keeps_get
  | |- keeps _ (put _) => apply keeps_put
  | |- keeps _ (modify _) => apply keeps_modify
  | |- keeps _ (try_bind _ _) => apply keeps_try
  | |- keeps _ (unwinding _ _) => apply keeps_unwinding
  | |- keeps _ (_ ≫= _) => apply keeps_bind
  | |- keeps _ (match ?x with _ => _ end) => destruct x
  | |- keeps _ (let _ := _ in _) => cbv zeta
  | |- strip_of _ _ _ => assumption
  end).

Lemma keeps_jump id c : keeps (strip_of id c) sigsetcontext.
Proof.
  unfold sigsetcontext. keep; by intros ??? HP [= _ <-].
Qed.

Lemma keeps_installed id c c' thread g us :
  keeps (strip_of id c) (resume_installed id c' thread g us).
Proof.
  unfold resume_installed, setup_stack, switch_stack, switch_scope.
  keep; apply keeps_jump.
Qed.

(** Once the block has been put back, [resume] does not return an error. *)
Lemma errs_rest id c c' guard thread g us :
  errs (strip_of id c) (resume_rest g id c' guard thread us).
Proof.
  unfold resume_rest, with_guard. apply errs_try.
  { keep. apply keeps_installed. }
  intros fin. apply errs_try; [keep|]. intros t. apply errs_never. intros μ e μ'.
  intros (x & μ1 & _ & Hr) % bind_inv. destruct fin; [|done].
  apply bind_inv in Hr as (y & μ2 & _ & Hr). apply bind_inv in Hr as (v & μ3 & _ & Hr).
  destruct v; by apply bind_inv in Hr as (z & μ4 & _ & Hr).
Qed.

(** The steps of [resume] up to the installation. *)
Lemma resume_to_install id us c g t μ :
  m_lingers μ !! id = Some (LContinuation c) -> value (group c) = Some g ->
  value (tls_block c) = Some t -> w_group (m_world μ) = SHARED ->
  exists w env, quiet (m_world μ) w /\
    resume id us μ = (t ← expect t "libinger: continuation with missing TCB";
      guard ←? main (on_tcb (install t g));
      resume_rest g id c guard (w_tid w) us)
      (mkMachine w (m_saved μ) env (<[id := LContinuation (stripped c)]> (m_lingers μ))).
Proof.
  intros Hl Hg Ht Hsh. unfold resume.
  checked Hsh w2 env2 Hp2. erewrite comp_bind_done by reflexivity.
  cbn [m_lingers m_saved]. rewrite Hl.
  erewrite comp_bind_done; [|unfold deref; rewrite Hg; reflexivity].
  destruct (main_run RealThreadId_current (mkMachine w2 (m_saved μ) env2 (m_lingers μ)))
    as (w3 & env3 & Hq3 & Hm3).
  erewrite comp_bind_done by exact Hm3.
  erewrite comp_bind_done; [|unfold deref; rewrite Ht; reflexivity].
  erewrite comp_bind_done by reflexivity.
  exists w3, env3. split; [by etransitivity; [exact (proj1 Hp2)|]|].
  unfold set_lingers. cbn [m_lingers m_saved m_world m_env exec RealThreadId_current read act snd].
  do 2 f_equal. apply map_eq. intros i. destruct (decide (i = id)) as [->|].
  - by rewrite lookup_alter_eq, Hl, lookup_insert_eq.
  - by rewrite lookup_alter_ne, lookup_insert_ne.
Qed.

(** A call that returned an error had taken the block out. *)
Lemma resume_error_strip id us c e μ μ1 :
  m_lingers μ !! id = Some (LContinuation c) -> resume id us μ = (Done (Err e), μ1) ->
  is_Some (value (group c)) /\ strip_of id c μ1.
Proof.
  intros Hl Hr. unfold resume in Hr.
  apply bind_inv in Hr as (p & μa & Ha & Hr). apply bind_inv in Hr as (u & μb & Hb & Hr).
  apply main_lingers in Ha, Hb. apply bind_inv in Hr as (l & μc & [= <- <-] & Hr).
  rewrite Hb, Ha, Hl in Hr.
  apply bind_inv in Hr as (g & μd & Hg & Hr). unfold deref in Hg.
  destruct (value (group c)) as [g'|]; [|done]. injection Hg as -> <-.
  apply bind_inv in Hr as (thread & μe & He & Hr). apply main_lingers in He.
  apply bind_inv in Hr as (t & μf & Ht & Hr). unfold deref in Ht.
  destruct (value (tls_block c)) as [t'|]; [|done]. injection Ht as -> <-.
  apply bind_inv in Hr as (u' & μg & [= _ <-] & Hr). split; [by eexists|].
  assert (strip_of id c (set_lingers (alter (fun l => match l with
      | LContinuation c => LContinuation (stripped c) | l => l end) id (m_lingers μe)) μe)) as Hs.
  { exists (stateful c). unfold set_lingers. cbn [m_lingers].
    rewrite lookup_alter_eq, He, Hb, Ha, Hl. by destruct c. }
  revert Hr. apply errs_bind; [apply keeps_expect | | exact Hs]. intros t1.
  apply errs_try; [apply keeps_main | intros guard; apply errs_rest].
Qed.

(** C25: A call of [resume] that returns an error spoils the function: whatever call of the kernel, the
    linker or libtimetravel failed, the [Linger] is left a continuation without a thread-control
    block, and the next [resume] of it from nonpreemptible code panics. *)
Theorem resume_error_strips id us us' c e μ μ1 :
  m_lingers μ !! id = Some (LContinuation c) -> resume id us μ = (Done (Err e), μ1) ->
  (exists task, m_lingers μ1 !! id = Some (LContinuation (set_stateful task (stripped c)))) /\
  (w_group (m_world μ1) = SHARED ->
     exists μ2, resume id us' μ1 = (Panicked "libinger: continuation with missing TCB", μ2)).
Proof.
  intros Hl Hr. destruct (resume_error_strip _ _ _ _ _ _ Hl Hr) as [[g Hg] (task & Hs)].
  split; [by exists task|]. intros Hsh.
  destruct (resume_to_install id us' _ g None μ1 Hs Hg eq_refl Hsh) as (w & env & _ & ->).
  eexists. by erewrite comp_bind_panicked by reflexivity.
Qed.
End Strip.

(** ** A failed jump into a paused function *)

Section Stranded.
Context `{PlatformLaws}.
Context (s : Signal) (f : Z) (T : span).
Hypothesis s_maskable : s <> Kill.
Hypothesis T_u64 : until T <= U64.
Hypothesis T_steady : steady T = true.
Implicit Types (w : world) (t : tls) (μ : machine).

(** At [id] the machine [μ] holds a paused function, whose [errno] is [e]: nothing is said of the
    computation that was set aside. *)
Record paused_at (a : Z) (g : Group) (h : nat) (c : Continuation) (id : nat) t (e : Z) μ : Prop := {
  pa_linger : m_lingers μ !! id = Some (LContinuation c);
  pa_group : g <> SHARED;
  pa_clock : clock_ok T (w_clock (m_world μ)) (m_env μ);
  pa_owns : owns a g h c;
  pa_installable : installable a g f (m_world μ);
  pa_parked : parked t;
  pa_task : TASK t = Task_default;
  pa_location : ERRNO_LOCATION t = Some g;
  pa_paused : exists cx y, stateful c = mkTask (Some e) (Some cx) y;
  pa_around : exists e0 cell,
    at_ a g h s (m_world μ) T (w_clock (m_world μ)) (false, true) f SHARED t e0 cell (m_world μ);
}.

(** Every paused function that the contract is about. *)
Lemma pending_paused a g h c b id r t μ :
  pending_at s f T a g h c b id r t μ -> is_some (errno (stateful c)) = true ->
  exists e, paused_at a g h c id t e μ.
Proof.
  intros [Hl Hg Hc Ho Hi Hp HT (e0 & cell & Hat & Hres)] Herr. rewrite Herr in Hat.
  destruct Hres as [[Hst _] | (e & st & m & n & rest & y & Hst & _ & HE & _)].
  - by rewrite Hst in Herr.
  - exists e. by split; eauto.
Qed.

(** From [now] on [sigsetcontext] returns [err]; [restorecontext] calls its closure. *)
Definition jumps_fail (now : Z) (err : Z) : Prop := forall x : Z, now <= x ->
  restorecontext_err x = None /\ sigsetcontext_err x = Some (Some err).

(** The thread after the call: its own block is installed again and the function's is gone, but it
    is still in the function's libset. *)
Record stranded (a : Z) (g : Group) w : Prop := {
  sd_group : w_group w = g;
  sd_fs : fs_base (w_tcb w) = f;
  sd_block : blocks (w_tcb w) !! a = None;
  sd_signal : blocked (w_kernel w) s = true;
}.

Section Call.
Context (a : Z) (g : Group) (h : nat) (w0 : world) (since err : Z).
Hypothesis g_own : g <> SHARED.
Hypothesis jumps : jumps_fail since err.
Abbreviation at_ := (Caller.at_ a g h s w0 T since).

Lemma mwp_jump_fails hk t e cell w sv env lg Ψ :
  at_ hk a g t e cell w ->
  mwp jump (fun o μ => o = Some err /\ μ = mkMachine w sv env lg) Ψ (mkMachine w sv env lg).
Proof.
  intros Hat. unfold jump, sigsetcontext, mwp, mbind, comp_bind, get. cbn [m_world].
  by rewrite (proj2 (jumps _ (at_since _ _ _ _ _ _ _ _ _ _ _ _ _ _ Hat T_steady))).
Qed.

(** The function's block is still installed when [resume_installed] returns the error. *)
Lemma mwp_installed_fails c us id t e e0 cx y cell w sv env lg Ψ :
  at_ (false, true) a SHARED t e0 cell w -> clock_ok T (w_clock w) env ->
  parked t -> TASK t = Task_default -> ERRNO_LOCATION t = Some g -> fits T us ->
  stateful c = mkTask (Some e) (Some cx) y ->
  mwp (resume_installed id c (w_tid w0) g us)
    (fun x μ => x = Err err /\ exists t w env lg',
       μ = mkMachine w sv env lg' /\ at_ (true, true) a g t e cell w /\
       clock_ok T (w_clock w) env) Ψ
    (mkMachine w sv env (<[id := LContinuation c]> lg)).
Proof.
  intros Hat Hc (_ & HD & HB & Hl) HT HE Hfit Hst. unfold resume_installed.
  eapply mwp_at; [exact Hat | done |]. clear w env Hat Hc. intros w env Hat Hc.
  edestruct exec_setup_thread as (w' & Hx & Hcl & Hat'); [exact s_maskable | exact Hat | exact Hl |].
  eexists _, _. split; [exact Hx|]. cbv iota. apply mwp_bind, mwp_ret. cbv zeta.
  rewrite Hst. cbn [errno is_none is_some negb]. apply mwp_try, mwp_ret.
  eapply mwp_at; [exact Hat' | by rewrite Hcl |]. clear w w' env Hx Hcl Hat Hat' Hc. intros w env Hat Hc.
  eexists _, _. split; [eapply exec_put_local_last; [by eapply at_cur | done]|].
  apply at_put_tls with (t' := set_DEADLINE us (set_SIGNAL (Some (w_tid w0)) t)) in Hat.
  unfold switch_stack. cbn [checkpoint errno yielded]. apply mwp_expect, mwp_update, mwp_bind.
  unfold mwp at 1. cbn [get m_world].
  rewrite (proj1 (jumps _ (at_since _ _ _ _ _ _ _ _ _ _ _ _ _ _ Hat T_steady))). apply mwp_bind.
  eapply mwp_scope_poised; [exact s_maskable | exact g_own | exact Hat | done..|].
  clear w env Hat Hc. intros t' w env Hat Hc _.
  eapply mwp_mono; [eapply mwp_jump_fails, Hat | | done]. intros o μ [-> ->].
  apply mwp_ret. split; [done|]. by eexists t', w, env, _.
Qed.

Lemma mwp_rest_fails c us id t e e0 cx y cell w sv env lg Ψ :
  at_ (false, true) a SHARED t e0 cell w -> clock_ok T (w_clock w) env ->
  parked t -> TASK t = Task_default -> ERRNO_LOCATION t = Some g -> fits T us ->
  stateful c = mkTask (Some e) (Some cx) y -> arch_set_fs f = 0 ->
  mwp (resume_rest g id c (mkGuard (Some (Mut a)) (Some (Ref f))) (w_tid w0) us)
    (fun x μ => x = Err err /\ stranded a g (m_world μ)) Ψ
    (mkMachine w sv env (<[id := LContinuation c]> lg)).
Proof.
  intros Hat Hc Hp HT HE Hfit Hst Hset. unfold resume_rest, with_guard.
  apply mwp_try, mwp_bind, mwp_unwinding. eapply mwp_mono;
    [eapply mwp_installed_fails with (Ψ := fun _ _ => False); [exact Hat | done..] | | done].
  clear t w env Hat Hc Hp HT HE. intros x μ (-> & t & w & env & lg' & -> & Hat & Hc).
  eapply mwp_at; [exact Hat | done |]. clear w env Hat Hc. intros w env Hat Hc.
  eexists _, _. split; [eapply exec_call_last, guard_drop_mut; [by eapply at_grounded | done]|]. apply mwp_ret.
  split; [done|]. pose proof (at_blocked _ _ _ _ _ _ _ _ _ _ _ _ _ _ Hat eq_refl) as Hb.
  destruct Hat. split; [done | done | | exact Hb]. cbn. apply lookup_delete_eq.
Qed.
End Call.

(** A stranded thread is taken for a preemptible function. *)
Lemma stranded_panics a g {A} msg (k : unit -> comp machine A) μ :
  stranded a g (m_world μ) -> g <> SHARED -> debug_assertions = true ->
  exists μ', (p ← main is_preemptible; main (debug_assert (negb p) msg) ≫= k) μ = (Panicked msg, μ').
Proof.
  intros Hs Hg Hd. destruct (main_passed is_preemptible μ) as (w & env & Hp & Hm).
  erewrite comp_bind_done; [|rewrite Hm; cbn; reflexivity].
  rewrite (q_group _ _ (proj1 Hp)), (sd_group _ _ _ Hs).
  destruct (is_shared g) eqn:Hsh; [by apply is_shared_true in Hsh|]. cbn [negb].
  match goal with |- exists _, (_ ≫= k) ?μ1 = _ =>
    destruct (main_passed (debug_assert false msg) μ1) as (w2 & env2 & _ & Hm2) end.
  eexists. erewrite comp_bind_panicked; [reflexivity|]. rewrite Hm2.
  unfold debug_assert. by rewrite Hd.
Qed.

(** C26: When the jump into a paused function fails, [resume] returns the error with the thread's own
    block installed again and the function's block freed, but it leaves the thread in the function's
    libset: nothing on this path undoes the switch that precedes the jump.  In a debug build every
    later call of [launch] and [resume] on this thread then panics. *)
Theorem failed_jump_strands a g h c id t e err us μ :
  paused_at a g h c id t e μ -> fits T us -> jumps_fail (w_clock (m_world μ)) err ->
  exists μ1, resume id us μ = (Done (Err err), μ1) /\ stranded a g (m_world μ1) /\
    (debug_assertions = true ->
       (forall id' us', exists μ2, resume id' us' μ1 =
          (Panicked "resume(): called from preemptible function", μ2)) /\
       (forall u us', exists μ2, launch u us' μ1 =
          (Panicked "launch(): called from preemptible function", μ2))).
Proof.
  intros [Hl Hg Hc Ho Hi Hp HT HE (cx & y & Hst) (e0 & cell & Hat)] Hfit Hj.
  assert (mwp (resume id us) (fun x μ1 => x = Err err /\ stranded a g (m_world μ1))
    (fun _ _ => False) μ) as Hm.
  { destruct μ as [w sv env lg]. cbn [m_world m_env m_lingers] in *.
    rewrite <- (insert_id _ _ _ Hl).
    eapply mwp_resume_entry; [exact Hat | done..|]. clear Hat Hc. intros w1 env1 Hat Hc.
    eapply mwp_rest_fails; [exact Hg | exact Hj | exact Hat | done..|].
    apply Hi. }
  unfold mwp in Hm. destruct (resume id us μ) as [[x|msg| |] μ1]; try done.
  destruct Hm as [-> Hs]. exists μ1. split_and!; [done | done |]. intros Hd.
  split; intros; by eapply stranded_panics.
Qed.
End Stranded.
