(* ===== verification/Session.v ===== *)
(** * Sessions: what a client of the library can do, and what it can see

    A client launches, resumes and drops functions in whatever order it likes, from whichever of its
    threads it likes, one call after the other.  Its view of the library is a map from [Linger]s to
    what has become of them; what each call may return and do to this map is a small transition
    system, the specification. *)

From S2P Require Import Prelude Signal Reusable Gotcha Pools Timer Tcb World Preemption Linger.
From S2P Require Import Handler Frame Interference Transparency Oneshot Caller Resume Ownership.

(** ** What a client does *)

Inductive op : Type :=
| OLaunch (fun_ : ucode) (us : Z)
| OResume (id : nat) (us : Z)
| ODrop (id : nat).

(** ** What it can observe *)

(** A function that will end with [r], one that has ended with [v], one that has panicked. *)
Inductive status : Type :=
| Running (r : ThdResult)
| Completed (v : Z)
| Poisoned.

Definition is_running (x : status) : bool := match x with Running _ => true | _ => false end.
Definition running (σ : gmap nat status) : nat :=
  size (filter (fun kv => is_running kv.2 = true) σ).

Section Spec.
Context `{Platform}.

(** [perform o] returns the address of the [Linger] it is about. *)
Definition perform (o : op) : comp machine (result nat Z) :=
  match o with
  | OLaunch u us => launch u us
  | OResume id us =>
      r ← resume id us;
      match r with Ok _ => mret (Ok id) | Err e => mret (Err e) end
  | ODrop id => _ ← forget_linger id; mret (Ok id)
  end.

(** What a call may return, and what it makes of the client's view. *)
Inductive allowed (σ : gmap nat status) : op -> exit (result nat Z) -> gmap nat status -> Prop :=
| may_launch u us id e :
    σ !! id = None ->
    allowed σ (OLaunch u us) (Done (Ok id)) (<[id := Running (ueval u e).1]> σ)
| may_launch_complete u us id e v :
    us <> 0 -> σ !! id = None -> (ueval u e).1 = Ok v ->
    allowed σ (OLaunch u us) (Done (Ok id)) (<[id := Completed v]> σ)
| may_launch_panic u us e msg :
    us <> 0 -> (ueval u e).1 = Err msg -> allowed σ (OLaunch u us) (Panicked msg) σ
| may_refuse u us :
    libsets_end (running σ) ->
    allowed σ (OLaunch u us) (Panicked "launch(): too many active timed functions") σ
| may_pause id us r :
    σ !! id = Some (Running r) -> allowed σ (OResume id us) (Done (Ok id)) σ
| may_complete id us v :
    σ !! id = Some (Running (Ok v)) ->
    allowed σ (OResume id us) (Done (Ok id)) (<[id := Completed v]> σ)
| may_panic id us msg :
    σ !! id = Some (Running (Err msg)) ->
    allowed σ (OResume id us) (Panicked msg) (<[id := Poisoned]> σ)
| may_ignore id us x :
    σ !! id = Some x -> is_running x = false -> allowed σ (OResume id us) (Done (Ok id)) σ
| may_drop id :
    is_Some (σ !! id) -> allowed σ (ODrop id) (Done (Ok id)) (delete id σ).

(** A client has only the [Linger]s it was given; budgets must not overflow the clock. *)
Definition issued (T : span) {X} (known : gmap nat X) (o : op) : Prop :=
  match o with
  | OLaunch _ us => fits T us
  | OResume id us => is_Some (known !! id) /\ fits T us
  | ODrop id => is_Some (known !! id)
  end.

(** What belongs to a kernel thread: its identity, the thread-control block that its %fs points to,
    the signals that it blocks and the ones that are pending for it. *)
Record kthread : Type := mkThread {
  th_tid : RealThreadId; th_fs : Z; th_mask : sigset_t; th_pending : list Z;
}.

(** Another thread of the process makes the next call.  Between two calls a thread is in the shared
    libset and in no handler; everything else is shared by the threads. *)
Definition on_cpu (th : kthread) (w : world) : world :=
  mkWorld (w_clock w) (set_pending (th_pending th) (set_mask (th_mask th) (w_kernel w))) (w_group w)
    (w_errno w) (mkTcb (th_fs th) (blocks (w_tcb w)) (dtors_run (w_tcb w))) (th_tid th) (w_signalers w)
    (w_signals w) (w_groups w) (w_stacks w) (w_localstores w) (w_heap w) (w_hooked w) (w_uc w).
Definition switch_thread (th : kthread) (μ : machine) : machine :=
  mkMachine (on_cpu th (m_world μ)) (m_saved μ) (m_env μ) (m_lingers μ).

(** The thread can call the library: the signal [s] that it was assigned is blocked, as the library
    left it, or it has none yet and can get [s]. *)
Definition may_call (s : Signal) w : Prop :=
  s <> Kill /\ (prepared s (w_tid w) w \/ unprepared s (w_tid w) w).

(** A session: the calls with what they returned.  A client may go on after a panic; and it may go on
    from another thread, one whose block is among [F], if returning to a linked context restores the
    signal mask. *)
Inductive session (F : Z -> Prop) (T : span) (μ : machine)
  : list (op * exit (result nat Z)) -> machine -> Prop :=
| session_start : session F T μ [] μ
| session_call l μ1 o x μ2 :
    session F T μ l μ1 -> issued T (m_lingers μ1) o -> perform o μ1 = (x, μ2) ->
    session F T μ (l ++ [(o, x)]) μ2
| session_switch l μ1 th s :
    session F T μ l μ1 -> link_restores_mask = true -> F (th_fs th) ->
    may_call s (m_world (switch_thread th μ1)) -> session F T μ l (switch_thread th μ1).

Inductive spec_session : list (op * exit (result nat Z)) -> gmap nat status -> Prop :=
| spec_start : spec_session [] ∅
| spec_call l σ o x σ' :
    spec_session l σ -> allowed σ o x σ' -> spec_session (l ++ [(o, x)]) σ'.
End Spec.

(** ** What the specification says about results *)

Section Results.
Context `{Platform}.

(** The functions that a session launched successfully, at [id]. *)
Definition launched (l : list (op * exit (result nat Z))) (id : nat) (u : ucode) : Prop :=
  exists us, (OLaunch u us, Done (Ok id)) ∈ l.

Lemma launched_app l l' id u : launched l id u -> launched (l ++ l') id u.
Proof. intros [us Hin]. exists us. apply elem_of_app. by left. Qed.

Definition yields (l : list (op * exit (result nat Z))) (id : nat) (r : ThdResult) : Prop :=
  exists u e, launched l id u /\ (ueval u e).1 = r.

Lemma yields_app l l' id r : yields l id r -> yields (l ++ l') id r.
Proof. intros (u & e & Hl & Hr). exists u, e. split; [by apply launched_app | done]. Qed.

Lemma yields_launch l u us id e : yields (l ++ [(OLaunch u us, Done (Ok id))]) id (ueval u e).1.
Proof. exists u, e. split; [|done]. exists us. apply elem_of_app. right. by left. Qed.

(** What the client knows about a result. *)
Definition ends_with (x : status) (r : ThdResult) : Prop :=
  match x with
  | Running r' => r' = r
  | Completed v => r = Ok v
  | Poisoned => exists msg, r = Err msg
  end.

(** Every result that the client has seen, or will see, is one that a function it launched
    computes. *)
Lemma spec_results l σ id x :
  spec_session l σ -> σ !! id = Some x -> exists r, ends_with x r /\ yields l id r.
Proof.
  intros Hl. revert id x. induction Hl as [|l σ o y σ' Hl IH Ha]; intros id x Hx.
  { by rewrite lookup_empty in Hx. }
  assert (forall id x, σ !! id = Some x -> exists r, ends_with x r /\ yields (l ++ [(o, y)]) id r)
    as IH'.
  { intros id' x' Hx'. destruct (IH id' x' Hx') as (r & ? & ?). exists r. split; [done|].
    by apply yields_app. }
  destruct Ha as [u us id' e|u us id' e v _ _ Hr|u us e msg|u us|id' us r|id' us v Hr
    |id' us msg Hr|id' us z|id'];
    try (by apply IH').
  - apply lookup_insert_Some in Hx as [[<- <-]|[_ Hx]]; [|by apply IH'].
    eexists. split; [done|]. apply yields_launch.
  - apply lookup_insert_Some in Hx as [[<- <-]|[_ Hx]]; [|by apply IH'].
    exists (Ok v). split; [done|]. rewrite <- Hr. apply yields_launch.
  - apply lookup_insert_Some in Hx as [[<- <-]|[_ Hx]]; [|by apply IH'].
    apply IH' in Hr as (r & <- & ?). by exists (Ok v).
  - apply lookup_insert_Some in Hx as [[<- <-]|[_ Hx]]; [|by apply IH'].
    apply IH' in Hr as (r & <- & ?). exists (Err msg). split; [by exists msg | done].
  - apply lookup_delete_Some in Hx as [_ Hx]. by apply IH'.
Qed.

(** A call ends in the way it should: it succeeds; or it panics because libsets have run out, or
    with the message of a function that the client launched or is launching. *)
Definition well_ended (l : list (op * exit (result nat Z))) (o : op) (x : exit (result nat Z)) : Prop :=
  match x with
  | Done (Ok id) => match o with OLaunch _ _ => True | OResume id' _ | ODrop id' => id' = id end
  | Panicked msg =>
      match o with
      | OLaunch u us => msg = "launch(): too many active timed functions" \/
          us <> 0 /\ exists e, (ueval u e).1 = Err msg
      | OResume id _ => yields l id (Err msg)
      | ODrop _ => False
      end
  | _ => False
  end.

Lemma spec_well_ended l σ o x σ' :
  spec_session l σ -> allowed σ o x σ' -> well_ended l o x.
Proof.
  intros Hl Ha. destruct Ha as [| |u us e msg| | | |id us msg Hr| |]; simpl; eauto.
  destruct (spec_results _ _ _ _ Hl Hr) as (r & <- & Hy). done.
Qed.

Lemma spec_session_prefix l1 o x l2 σ :
  spec_session (l1 ++ (o, x) :: l2) σ -> well_ended l1 o x.
Proof.
  revert σ. induction l2 as [|[o2 x2] l2 IH] using rev_ind; intros σ Hs; inversion Hs as [Hn|l σ1 o' x' σ' Hl Ha Hn].
  - by destruct l1.
  - apply app_inj_tail in Hn as [-> [= -> ->]]. by eapply spec_well_ended.
  - by destruct l1.
  - change ((o, x) :: l2 ++ [(o2, x2)]) with (((o, x) :: l2) ++ [(o2, x2)]) in Hn.
    rewrite app_assoc in Hn. apply app_inj_tail in Hn as [-> _]. by eapply IH.
Qed.
End Results.
