(* ===== verification/Custody.v ===== *)
(** * Custody: any number of preemptible functions

    The invariant that says which function owns which libset, thread-control block, closure and
    context, and what the client sees of it; launching, resuming and dropping keep it, and do what
    the specification of Session.v allows. *)

From S2P Require Import Prelude Signal Reusable Gotcha Pools Timer Tcb World Preemption Linger.
From S2P Require Import Handler Frame Interference Transparency Oneshot Caller Resume Ownership.
From S2P Require Import Contract Launch Cancel Session.

(** ** Who owns what *)

Section Custody.
Context `{PlatformLaws}.
(** The blocks of the process's threads, and those that are older than the library's pool; the signal
    and the block of the thread that makes the calls; what is assumed of the clock. *)
Context (F Old : Z -> Prop) (s : Signal) (f : Z) (T : span).
Implicit Types (w : world) (t : tls) (μ : machine) (σ : gmap nat status).

(** A function that has not ended: its [Linger]; its thread-control block, libset and closure; its
    continuation, its result to come and its thread-local variables. *)
Record deed : Type := mkDeed {
  d_id : nat; d_a : Z; d_g : Group; d_h : nat; d_c : Continuation; d_r : ThdResult; d_t : tls;
}.

(** The function is ready to be resumed. *)
Definition held μ (d : deed) : Prop :=
  pending_at s f T (d_a d) (d_g d) (d_h d) (d_c d) true (d_id d) (d_r d) (d_t d) μ /\
  is_Some (w_heap (m_world μ) !! d_h d).

(** The stacks that functions are paused on. *)
Definition stacks_of (ds : list deed) : list Stack := ds ≫= fun d => option_list (stack_of (d_c d)).

(** The client's view of one [Linger]. *)
Definition told (ds : list deed) σ (id : nat) (l : option Linger) : Prop :=
  match l with
  | None => σ !! id = None
  | Some (LCompletion v) => σ !! id = Some (Completed v)
  | Some LPoison => σ !! id = Some Poisoned
  | Some (LContinuation _) => exists d, d ∈ ds /\ d_id d = id /\ σ !! id = Some (Running (d_r d))
  end.

(** The state of the library between two calls. *)
Record inv (ds : list deed) σ μ : Prop := {
  v_ground : ground s f T (m_world μ);
  v_clock : clock_ok T (w_clock (m_world μ)) (m_env μ);
  v_home : homes F (w_tcb (m_world μ));
  v_held : Forall (held μ) ds;
  v_ids : NoDup (d_id <$> ds);
  v_closures : NoDup (d_h <$> ds);
  v_heap : forall x, is_Some (w_heap (m_world μ) !! x) -> x ∈ d_h <$> ds;
  v_slots : forall d1 d2 n, d1 ∈ ds -> d2 ∈ ds -> slot (d_c d1) = Some n ->
    slot (d_c d2) = Some n -> d1 = d2;
  v_groups : groups_held (d_g <$> ds) (w_groups (m_world μ));
  v_stores : stores_held F Old (d_a <$> ds) (w_localstores (m_world μ)) (w_tcb (m_world μ));
  v_stacks : stacks_held (stacks_of ds) (w_stacks (m_world μ));
  v_told : forall id, told ds σ id (m_lingers μ !! id);
}.

Lemma inv_perm ds ds' σ μ : ds ≡ₚ ds' -> inv ds σ μ -> inv ds' σ μ.
Proof.
  intros Hp []. split; try done.
  - by rewrite <- Hp.
  - by rewrite <- Hp.
  - by rewrite <- Hp.
  - intros x Hx. rewrite <- Hp. by apply v_heap0.
  - intros d1 d2 n. rewrite <- Hp. apply v_slots0.
  - by rewrite <- Hp.
  - by rewrite <- Hp.
  - unfold stacks_of. by rewrite <- Hp.
  - intros id. specialize (v_told0 id). unfold told in *.
    destruct (m_lingers μ !! id) as [[]|]; try done. setoid_rewrite <- Hp. done.
Qed.

(** The client's view is right. *)
Lemma inv_known ds σ μ id : inv ds σ μ -> is_Some (m_lingers μ !! id) <-> is_Some (σ !! id).
Proof.
  intros Hv. pose proof (v_told _ _ _ Hv id) as Ht. unfold told in Ht.
  destruct (m_lingers μ !! id) as [[v|c|]|]; [| destruct Ht as (d & _ & _ & Ht) | |];
    rewrite Ht; split; intros [? ?]; solve [done | by eexists].
Qed.

Lemma told_settled ds σ id l x :
  told ds σ id l -> σ !! id = Some x -> is_running x = false ->
  exists y, l = Some y /\ is_continuation y = false.
Proof.
  unfold told. destruct l as [[v|c|]|]; intros Ht Hx Hr; [by eexists | | by eexists | congruence].
  destruct Ht as (d & _ & _ & Ht). rewrite Hx in Ht. by simplify_eq.
Qed.

Lemma inv_front ds σ μ d : inv ds σ μ -> d ∈ ds -> exists ds', ds ≡ₚ d :: ds' /\ inv (d :: ds') σ μ.
Proof.
  intros Hv [ds' Hp] % elem_of_Permutation. exists ds'. split; [done|]. by eapply inv_perm.
Qed.

Lemma inv_running ds σ μ id r :
  inv ds σ μ -> σ !! id = Some (Running r) ->
  exists d ds', inv (d :: ds') σ μ /\ d_id d = id /\ d_r d = r.
Proof.
  intros Hv Hr. pose proof (v_told _ _ _ Hv id) as Ht. unfold told in Ht.
  destruct (m_lingers μ !! id) as [[v|c|]|]; [congruence | | congruence..].
  destruct Ht as (d & Hd & <- & Ht). apply (inv_front _ _ _ _ Hv) in Hd as (ds' & _ & Hv').
  exists d, ds'. split; [done|]. split; [done|]. congruence.
Qed.

Lemma inv_count ds σ μ : inv ds σ μ -> running σ = length ds.
Proof.
  intros Hv. unfold running. rewrite <- size_dom, <- (length_fmap d_id).
  rewrite <- (size_list_to_set (C := gset nat) (d_id <$> ds)) by by eapply v_ids. f_equal.
  apply set_eq. intros id. rewrite elem_of_dom, elem_of_list_to_set, list_elem_of_fmap.
  pose proof (v_told _ _ _ Hv id) as Ht. split.
  - intros [x Hx]. apply map_lookup_filter_Some in Hx as [Hx Hr]. simpl in Hr.
    unfold told in Ht. destruct (m_lingers μ !! id) as [[]|]; simplify_eq; [by destruct x..|].
    destruct Ht as (d & Hd & <- & _). eauto.
  - intros (d & -> & Hd). pose proof (v_held _ _ _ Hv) as Hall. rewrite Forall_forall in Hall.
    destruct (Hall _ Hd) as [Hp _]. unfold told in Ht.
    rewrite (p_linger _ _ _ _ _ _ _ _ _ _ _ _ Hp) in Ht. destruct Ht as (d' & _ & _ & Ht).
    exists (Running (d_r d')). by apply map_lookup_filter_Some.
Qed.

(** The client's view of the other [Linger]s. *)
Lemma told_elsewhere ds ds' σ σ' id l :
  told ds σ id l -> σ' !! id = σ !! id -> (forall d, d ∈ ds -> d_id d = id -> d ∈ ds') ->
  told ds' σ' id l.
Proof.
  unfold told. intros Ht -> Hd. destruct l as [[v|c|]|]; try done.
  destruct Ht as (d & Hin & Hid & Ht). exists d. auto.
Qed.

(** The computation set aside for a function is there. *)
Lemma held_saved μ d n : held μ d -> slot (d_c d) = Some n -> is_Some (m_saved μ !! n).
Proof.
  intros [[_ _ _ _ _ _ _ (e & cell & _ & Hres)] _] Hn. unfold slot in Hn.
  destruct Hres as [[Hs _]|(e' & st & m & n' & rest & y & Hs & Hn' & _)]; rewrite Hs in Hn; [done|].
  simpl in Hn. simplify_eq. by eexists.
Qed.

(** Functions that are left alone. *)
Lemma held_beside A X ds μ μ' :
  Forall (held μ) ds -> beside s f T A X μ μ' ->
  Forall (fun d => ~ A (d_a d) /\ ~ X (d_h d) /\
    m_lingers μ' !! d_id d = m_lingers μ !! d_id d /\
    forall n rest, slot (d_c d) = Some n -> m_saved μ !! n = Some rest ->
      m_saved μ' !! n = Some rest) ds ->
  Forall (held μ') ds.
Proof.
  intros Hh Hb Hd. rewrite !Forall_forall in *. intros d Hin.
  destruct (Hh d Hin) as [Hp Hx], (Hd d Hin) as (Ha & Hx' & Hl & Hsv). split.
  - eapply pending_beside; try done. rewrite Hl. by apply Hp.
  - by rewrite (be_heap _ _ _ _ _ _ _ Hb).
Qed.

(** One function is different from the others. *)
Lemma inv_others d ds σ μ : inv (d :: ds) σ μ ->
  Forall (fun d' => d_a d' <> d_a d /\ d_h d' <> d_h d /\ d_id d' <> d_id d /\
    (forall n, slot (d_c d') = Some n -> slot (d_c d) <> Some n) /\ d_g d' <> d_g d /\
    forall st, stack_of (d_c d') = Some st -> stack_of (d_c d) <> Some st) ds.
Proof.
  intros []. apply Forall_forall. intros d' Hd'. rewrite !fmap_cons in *.
  apply NoDup_cons in v_ids0 as [Hid _].  apply NoDup_cons in v_closures0 as [Hh _].
  apply stores_held_distinct, NoDup_cons in v_stores0 as [Ha _].
  apply groups_held_distinct in v_groups0 as [[Hg _] % NoDup_cons _].
  rewrite list_elem_of_fmap in Ha. rewrite list_elem_of_fmap in Hid. rewrite list_elem_of_fmap in Hh.
  rewrite list_elem_of_fmap in Hg. split_and!; [naive_solver..| |naive_solver|]; last first.
  { intros st Hst Hst'. apply pool_held_distinct in v_stacks0; [|by intros l b [_ ?] % stack_builder_emits].
    unfold stacks_of in v_stacks0. rewrite bind_cons, Hst' in v_stacks0.
    apply NoDup_cons in v_stacks0 as [Hnin _]. apply Hnin, list_elem_of_bind.
    exists d'. rewrite Hst. split; [by left | done]. }
  intros n Hn Hn'. assert (d = d') as <- by by eapply v_slots0; [left | right | ..].
  apply Hid. eauto.
Qed.

(** The function of an unfinished [Linger]. *)
Lemma inv_owner ds σ μ id c :
  inv ds σ μ -> m_lingers μ !! id = Some (LContinuation c) ->
  exists d, d ∈ ds /\ d_id d = id /\ d_c d = c /\ held μ d.
Proof.
  intros Hv Hl. pose proof (v_told _ _ _ Hv id) as Ht. rewrite Hl in Ht.
  destruct Ht as (d & Hd & <- & _). pose proof (v_held _ _ _ Hv) as Hh.
  rewrite Forall_forall in Hh. specialize (Hh d Hd). exists d. split_and!; try done.
  destruct Hh as [Hp _]. pose proof (p_linger _ _ _ _ _ _ _ _ _ _ _ _ Hp) as Hl'. congruence.
Qed.

(** The library serves a client whose view is [σ]. *)
Definition serves σ μ : Prop := exists ds, inv ds σ μ.

Hypothesis s_maskable : s <> Kill.
Hypothesis T_u64 : until T <= U64.
Hypothesis calls_work : no_failures.
Hypothesis granted : obliging F.
Hypothesis f_home : F f.

(** ** Resuming *)

(** What a call of [resume] on [d] leaves of the invariant. *)
Lemma left_others d ds σ l μ μ' :
  inv (d :: ds) σ μ -> left_around s f T (d_a d) (d_g d) (d_h d) (d_c d) l μ μ' ->
  m_lingers μ' = <[d_id d := l]> (m_lingers μ) ->
  ground s f T (m_world μ') /\ homes F (w_tcb (m_world μ')) /\ Forall (held μ') ds /\
  stores_held F Old (d_a <$> d :: ds) (w_localstores (m_world μ)) (w_tcb (m_world μ')).
Proof.
  intros Hv Hla Hl. pose proof (left_beside _ _ _ _ _ _ _ _ _ _ Hla) as Hb.
  pose proof (inv_others _ _ _ _ Hv) as Ho. destruct Hv. split_and!.
  - by apply Hb.
  - intros y Hy. by apply (be_live _ _ _ _ _ _ _ Hb), v_home0.
  - eapply held_beside; [by inversion v_held0 | exact Hb |].
    eapply Forall_impl; [exact Ho|]. intros d' (Ha & Hh & Hid & Hs & _). split_and!; [done | done | |].
    + by rewrite Hl, lookup_insert_ne.
    + intros n rest Hn Hr. apply (la_saved _ _ _ _ _ _ _ _ _ _ Hla); auto.
  - eapply stores_held_same; [done | apply (be_live _ _ _ _ _ _ _ Hb)| |].
    + intros x t' Hx. apply (be_locals _ _ _ _ _ _ _ Hb). intros ->. apply Hx. by left.
    + intros x Hx. apply (left_blocks _ _ _ _ _ _ _ _ _ _ _ Hla). intros ->. apply Hx. by left.
Qed.

(** The function has ended. *)
Lemma left_ended d ds σ l x μ μ' :
  inv (d :: ds) σ μ -> left_around s f T (d_a d) (d_g d) (d_h d) (d_c d) l μ μ' ->
  m_lingers μ' = <[d_id d := l]> (m_lingers μ) ->
  (forall σ, σ !! d_id d = Some x -> told [] σ (d_id d) (Some l)) -> is_running x = false ->
  inv ds (<[d_id d := x]> σ) μ'.
Proof.
  intros Hv Hla Hl Hx Hr. destruct (left_others _ _ _ _ _ _ Hv Hla Hl) as (Hg & Hf & Hh & Hst).
  assert (is_continuation l = false) as Hc.
  { destruct l; try done. destruct (Hx {[d_id d := x]}) as (? & [] % elem_of_nil & _).
    apply lookup_singleton_eq. }
  destruct Hla as [(t & e & cell & over & w1 & Hfr & Hat & Hp & HT & Hcell) Hck _ _].
  destruct Hfr as (w2 & (o & Hrst & ->) & Hfr). rewrite Hc in Hfr.
  destruct Hfr as (o1 & o2 & Ho1 & Ho2 & ->).
  assert (stack_left l = None) as Hleft by by destruct l. rewrite Hleft in Hrst.
  destruct (at_pools _ _ _ _ _ _ _ _ _ _ _ _ _ _ Hat) as (Hpg & Hps & Hpk). simpl in Hpg, Hps, Hpk.
  pose proof (v_told _ _ _ Hv) as Htold.
  destruct Hv. rewrite fmap_cons in *. split; try done.
  - by apply NoDup_cons in v_ids0 as [_ ?].
  - by apply NoDup_cons in v_closures0 as [_ ?].
  - intros y. destruct (decide (y = d_h d)) as [->|Hy].
    + rewrite (at_heap _ _ _ _ _ _ _ _ _ _ _ _ _ _ Hat), Hcell by done. by intros [].
    + rewrite (at_closures _ _ _ _ _ _ _ _ _ _ _ _ _ _ Hat) by done. simpl.
      rewrite lookup_delete_ne by done. intros Hin. by apply v_heap0, elem_of_cons in Hin as [].
  - intros d1 d2 n H1 H2. apply v_slots0; by right.
  - rewrite Hpg. by eapply pool_held_back.
  - rewrite Hps. eapply stores_held_back; [exact Hst | exact Ho2|].
    destruct Hst as [Hown _]. apply Forall_cons in Hown as [(Hne & Hset & Hlive) _].
    split; try done. exact (at_locals _ _ _ _ _ _ _ _ _ _ _ _ _ _ Hat).
  - rewrite Hpk. by apply (Hrst (stacks_of ds)).
  - intros id. rewrite Hl. destruct (decide (id = d_id d)) as [->|Hid].
    + rewrite lookup_insert_eq. eapply told_elsewhere; [apply Hx, lookup_insert_eq | done | set_solver].
    + rewrite lookup_insert_ne by done. eapply told_elsewhere; [apply Htold | |].
      * by rewrite lookup_insert_ne.
      * intros d' [->|] % elem_of_cons ?; congruence.
Qed.

(** The function is paused. *)
Lemma left_paused d ds σ c t μ μ' :
  inv (d :: ds) σ μ -> left_around s f T (d_a d) (d_g d) (d_h d) (d_c d) (LContinuation c) μ μ' ->
  m_lingers μ' = <[d_id d := LContinuation c]> (m_lingers μ) ->
  pending_at s f T (d_a d) (d_g d) (d_h d) c true (d_id d) (d_r d) t μ' ->
  inv (mkDeed (d_id d) (d_a d) (d_g d) (d_h d) c (d_r d) t :: ds) σ μ'.
Proof.
  intros Hv Hla Hl Hpend. destruct (left_others _ _ _ _ _ _ Hv Hla Hl) as (Hg & Hf & Hh & Hst).
  destruct Hla as [(t' & e & cell & over & w1 & Hfr & Hat & Hp & HT & _) Hck _ Hslot].
  destruct Hfr as (w2 & (o & Hrst & ->) & Hfr). cbn in Hfr. subst w1.
  destruct (at_pools _ _ _ _ _ _ _ _ _ _ _ _ _ _ Hat) as (Hpg & Hps & Hpk). simpl in Hpg, Hps, Hpk.
  pose proof (v_told _ _ _ Hv) as Htold. pose proof (inv_others _ _ _ _ Hv) as Hoth.
  destruct Hv. split; try done.
  - constructor; [|done]. split; [done|]. apply (at_boxed _ _ _ _ _ _ _ _ _ _ _ _ _ _ Hat).
    by inversion v_held0 as [|? ? [_ ?]].
  - intros y Hy. rewrite fmap_cons. simpl. destruct (decide (y = d_h d)) as [->|Hne]; [by left|].
    apply v_heap0. by rewrite <- (at_closures _ _ _ _ _ _ _ _ _ _ _ _ _ _ Hat).
  - assert (forall d' n, d' ∈ ds -> slot (d_c d') = Some n -> slot c = Some n -> False) as Hno.
    { intros d' n Hd' Hn' Hn. rewrite Forall_forall in Hoth. apply Hoth in Hd' as Hd.
      destruct Hd as (_ & _ & _ & Hd & _). destruct (Hslot n Hn) as [Hs|Hs]; [by eapply Hd|].
      apply Forall_cons in v_held0 as [_ v_held0]. rewrite Forall_forall in v_held0.
      destruct (held_saved _ _ _ (v_held0 d' Hd') Hn') as [rest Hrest]. congruence. }
    intros d1 d2 n [->|H1] % elem_of_cons [->|H2] % elem_of_cons Hn1 Hn2; simpl in *;
      [done | by destruct (Hno d2 n) | by destruct (Hno d1 n) |].
    eapply v_slots0; try done; by right.
  - by rewrite Hpg.
  - by rewrite Hps.
  - rewrite Hpk. by apply (Hrst (stacks_of ds)).
  - intros id. rewrite Hl. destruct (decide (id = d_id d)) as [->|Hid].
    + rewrite lookup_insert_eq. eexists. split; [by left|]. split; [done|]. simpl.
      pose proof (Htold (d_id d)) as Ht. apply Forall_cons in v_held0 as [[Hpd _] _].
      rewrite (p_linger _ _ _ _ _ _ _ _ _ _ _ _ Hpd) in Ht.
      destruct Ht as (d' & [->|Hd'] % elem_of_cons & Hid & Ht); [done|].
      rewrite Forall_forall in Hoth. by apply Hoth in Hd' as (_ & _ & ? & _).
    + rewrite lookup_insert_ne by done. eapply told_elsewhere; [apply Htold | done |].
      intros d' [->|] % elem_of_cons ?; [done | by right].
Qed.

(** The client's view of a function that is held. *)
Lemma inv_view d ds σ μ : inv (d :: ds) σ μ -> σ !! d_id d = Some (Running (d_r d)).
Proof.
  intros Hv. pose proof (inv_others _ _ _ _ Hv) as Ho. destruct Hv.
  apply Forall_cons in v_held0 as [[Hp _] _]. specialize (v_told0 (d_id d)).
  rewrite (p_linger _ _ _ _ _ _ _ _ _ _ _ _ Hp) in v_told0.
  destruct v_told0 as (d' & [->|Hd'] % elem_of_cons & Hid & Ht); [done|].
  rewrite Forall_forall in Ho. by apply Ho in Hd' as (_ & _ & ? & _).
Qed.

(** [o] may end with [x]. *)
Definition served σ (o : op) (x : exit (result nat Z)) μ : Prop :=
  exists σ', allowed σ o x σ' /\ serves σ' μ.

Lemma insert_same {X} (m : gmap nat X) k x y : <[k := x]> m = <[k := y]> m -> x = y.
Proof. intros Hm. apply (f_equal (lookup k)) in Hm. rewrite !lookup_insert_eq in Hm. by simplify_eq. Qed.

Lemma mwp_resume_running d ds σ us μ :
  inv (d :: ds) σ μ -> fits T us ->
  mwp (resume (d_id d) us)
    (fun x μ' => x = Ok tt /\ served σ (OResume (d_id d) us) (Done (Ok (d_id d))) μ')
    (fun msg μ' => d_r d = Err msg /\ m_lingers μ' !! d_id d = Some LPoison /\
       serves (<[d_id d := Poisoned]> σ) μ') μ.
Proof.
  intros Hv Hfit. pose proof (inv_view _ _ _ _ Hv) as Hview.
  pose proof (v_held _ _ _ Hv) as Hh. apply Forall_cons in Hh as [[Hp _] _].
  eapply mwp_mono; [by eapply resume_pending| |].
  - intros x μ' (-> & (l & Hl & Hla) & Hx). split; [done|].
    destruct Hx as [(v & Hr & Hl')|(c' & t' & Hp' & Hl' & _)];
      pose proof Hl as Hl1; rewrite Hl' in Hl1; apply insert_same in Hl1 as <-.
    + exists (<[d_id d := Completed v]> σ). split; [apply may_complete; by rewrite <- Hr|].
      exists ds. by eapply left_ended.
    + exists σ. split; [by eapply may_pause|]. eexists. by eapply left_paused.
  - intros msg μ' (Hr & (l & Hl & Hla) & Hl').
    pose proof Hl as Hl1. rewrite Hl' in Hl1. apply insert_same in Hl1 as <-.
    split; [done|]. split; [by rewrite Hl, lookup_insert_eq|]. exists ds. by eapply left_ended.
Qed.

(** ** When nothing but time passes *)

Lemma inv_passed ds σ w env μ :
  inv ds σ μ -> passed (m_world μ) (m_env μ) w env ->
  inv ds σ (mkMachine w (m_saved μ) env (m_lingers μ)).
Proof.
  intros [] [Hq Hc]. specialize (Hc T v_clock0).
  assert (ground s f T w) as Hg.
  { destruct v_ground0 as [? ? Hth ? ? ?]. split; rewrite ?(q_tcb _ _ Hq), ?(q_group _ _ Hq), ?(q_stacks _ _ Hq),
      ?(q_tid _ _ Hq); try done; [| by apply (q_uc _ _ Hq) | by eapply clock_ok_now].
    destruct Hth; [left; by eapply prepared_quiet | right; by eapply unprepared_quiet]. }
  split; cbn [m_world m_env m_saved m_lingers]; try done;
    rewrite ?(q_groups _ _ Hq), ?(q_localstores _ _ Hq), ?(q_tcb _ _ Hq), ?(q_heap _ _ Hq),
      ?(q_stacks _ _ Hq); try done.
  eapply held_beside with (A := fun _ => False) (X := fun _ => False); [done | |].
  - split; cbn [m_world m_env]; try done;
      rewrite ?(q_groups _ _ Hq), ?(q_localstores _ _ Hq), ?(q_tcb _ _ Hq), ?(q_heap _ _ Hq),
        ?(q_stacks _ _ Hq); try done.
    intros loc _. apply (q_errno _ _ Hq).
  - apply Forall_forall. intros d _. cbn [m_lingers m_saved]. tauto.
Qed.

Lemma mwp_resume_settled id us x σ μ :
  serves σ μ -> σ !! id = Some x -> is_running x = false ->
  mwp (resume id us) (fun r μ' => r = Ok tt /\ serves σ μ') (fun _ _ => False) μ.
Proof.
  intros [ds Hv] Hx Hr.
  destruct (told_settled _ _ _ _ _ (v_told _ _ _ Hv id) Hx Hr) as (l & Hl & Hc).
  destruct (resume_settled_run id us μ l Hl Hc) as (w & env & Hp & Hm);
    [by apply (gr_group _ _ _ _ (v_ground _ _ _ Hv))|].
  unfold mwp. rewrite Hm. split; [done|]. exists ds. by eapply inv_passed.
Qed.

(** ** Dropping *)

(** The destructor gives back what the function holds. *)
Lemma exec_drop_held a g h c b t e cell sv r w0 over hk w :
  at_ a g h s w0 T over hk f SHARED t e cell w -> hk.2 = is_some (errno (stateful c)) ->
  owns a g h c -> resumable a g h s T b c t e cell sv r ->
  exists o1 o2 o, exec (drop_linger (LContinuation c)) w =
      (Done tt, free_all h o1 o2 (set_stacks o w)) /\
    took_back (w_groups w) o1 g /\ store_took_back (w_localstores w) o2 (mine a) /\
    stacks_ok o /\ (usable (w_stacks w) -> usable o) /\ restocked (stack_of c) None (w_stacks w) o.
Proof.
  intros Hat Hhk (Hh & Hg & Ht) Hres. subst h.
  assert (group c = mkReusable (Some g)) as Hg' by (destruct (group c); simpl in Hg; congruence).
  assert (tls_block c = mkReusable (Some (mine a))) as Ht'
    by (destruct (tls_block c); simpl in Ht; by subst).
  destruct Hat. destruct Hres as [[Hst _]|(e' & st & m & n & rest & y & Hst & _)].
  - destruct (drop_fresh_run c g (mine a) w) as (o1 & o2 & Hx & Hb1 & Hb2); [done..|].
    exists o1, o2, (w_stacks w). split; [rewrite Hx; by destruct w|]. split_and!; try done.
    intros out. unfold stack_of. by rewrite Hst.
  - rewrite Hst in Hhk. destruct (drop_paused_run c g st (mine a) w)
      as (o1 & o2 & o & Hx & Hb1 & Hb2 & Hb); try done.
    + split; try done. rewrite Hst. by eexists.
    + by rewrite Hst.
    + by apply at_usable.
    + rewrite (ob_renew _ granted) in Hx. pose proof (took_back_usable _ _ _ Hb).
      exists o1, o2, o. split_and!; [exact Hx | done | done | by right | done |].
      intros out. unfold stack_of. rewrite Hst. intros Hout. exact (pool_held_back _ _ st out _ _ Hout Hb).
Qed.

Lemma drop_held d ds σ w sv env lg :
  inv (d :: ds) σ (mkMachine w sv env lg) -> exists w',
    exec (drop_linger (LContinuation (d_c d))) w = (Done tt, w') /\
    inv ds (delete (d_id d) σ) (mkMachine w' sv env (delete (d_id d) lg)).
Proof.
  intros Hv. pose proof (inv_others _ _ _ _ Hv) as Ho. pose proof (v_told _ _ _ Hv) as Htold.
  destruct Hv. rewrite fmap_cons in *. apply Forall_cons in v_held0 as [[Hp Hbox] Hheld].
  destruct d as [id a g h c r t]. cbn [m_world m_saved m_env m_lingers d_id d_a d_g d_h d_c d_r d_t] in *.
  destruct Hp as [_ _ _ Hown _ Hpk HT (e & cell & Hat & Hres)].
  destruct (exec_drop_held _ _ _ _ _ _ _ _ _ _ _ _ _ _ Hat eq_refl Hown Hres)
    as (o1 & o2 & o & Hx & Hb1 & Hb2 & Hok & Hus & Hrst).
  eexists. split; [exact Hx|].
  assert (ground s f T (free_all h o1 o2 (set_stacks o w))) as Hg by by destruct v_ground0.
  split; cbn [m_world m_env m_saved m_lingers]; try done.
  - eapply held_beside with (A := fun _ => False) (X := fun x => x = h); [exact Hheld | |].
    + split; cbn [m_world m_env]; try done.
      * intros x Hne. simpl. by rewrite lookup_delete_ne.
      * intros _. by eapply took_back_usable.
      * intros _. by eapply store_took_back_ok.
    + eapply Forall_impl; [exact Ho|]. intros d' (Ha & Hh & Hid & Hs & _). cbn [m_lingers m_saved].
      split_and!; try done; [tauto|]. by rewrite lookup_delete_ne.
  - by apply NoDup_cons in v_ids0 as [_ ?].
  - by apply NoDup_cons in v_closures0 as [_ ?].
  - intros y. simpl. destruct (decide (y = h)) as [->|Hy].
    + rewrite lookup_delete_eq. by intros [].
    + rewrite lookup_delete_ne by done. intros Hin. by apply v_heap0, elem_of_cons in Hin as [].
  - intros d1 d2 n H1 H2. apply v_slots0; by right.
  - by eapply pool_held_back.
  - eapply stores_held_back; [exact v_stores0 | exact Hb2 |].
    destruct v_stores0 as [Hall _]. apply Forall_cons in Hall as [(Hne & Hset & Hla) _].
    split; try done. exact (at_locals _ _ _ _ _ _ _ _ _ _ _ _ _ _ Hat).
  - by apply (Hrst (stacks_of ds)).
  - intros id'. destruct (decide (id' = id)) as [->|Hid].
    + rewrite lookup_delete_eq. apply lookup_delete_eq.
    + rewrite lookup_delete_ne by done. eapply told_elsewhere; [apply Htold | |].
      * by rewrite lookup_delete_ne.
      * intros d' [->|] % elem_of_cons ?; simpl in *; congruence.
Qed.

(** A [Linger] that holds nothing is forgotten. *)
Lemma inv_forget id l ds σ w sv env lg :
  inv ds σ (mkMachine w sv env lg) -> lg !! id = Some l -> is_continuation l = false ->
  inv ds (delete id σ) (mkMachine w sv env (delete id lg)).
Proof.
  intros Hv Hl Hc. pose proof (v_told _ _ _ Hv) as Htold. destruct Hv.
  cbn [m_world m_saved m_env m_lingers] in *.
  assert (Forall (fun d => d_id d <> id) ds) as Hne.
  { eapply Forall_impl; [exact v_held0|]. intros d [Hp _] Hid.
    pose proof (p_linger _ _ _ _ _ _ _ _ _ _ _ _ Hp) as Hl'. cbn [m_lingers] in Hl'.
    rewrite Hid, Hl in Hl'. by simplify_eq. }
  split; cbn [m_world m_saved m_env m_lingers]; try done.
  - eapply held_beside with (A := fun _ => False) (X := fun _ => False); [exact v_held0 | by split |].
    eapply Forall_impl; [exact Hne|]. intros d Hid. cbn [m_lingers m_saved].
    split_and!; try tauto. by rewrite lookup_delete_ne.
  - intros id'. destruct (decide (id' = id)) as [->|Hid].
    + rewrite lookup_delete_eq. apply lookup_delete_eq.
    + rewrite lookup_delete_ne by done. eapply told_elsewhere; [apply Htold | | done].
      by rewrite lookup_delete_ne.
Qed.

(** [drop] of any [Linger] that the client has. *)
Lemma mwp_drop id σ μ :
  serves σ μ -> is_Some (σ !! id) ->
  mwp (forget_linger id) (fun _ => serves (delete id σ)) (fun _ _ => False) μ.
Proof.
  intros [ds Hv] [x Hx]. unfold forget_linger, mwp.
  erewrite comp_bind_done by reflexivity. erewrite comp_bind_done by reflexivity.
  assert (is_Some (m_lingers μ !! id)) as [l Hl] by (apply (inv_known _ _ _ _ Hv); by eexists).
  rewrite Hl. set (μ1 := set_lingers _ μ).
  destruct (main_passed (drop_linger l) μ1) as (w & env & Hp & ->).
  pose proof (inv_passed _ _ w env μ Hv Hp) as Hv'. destruct (is_running x) eqn:Hr.
  - destruct x as [r| |]; try done.
    destruct (inv_running _ _ _ _ _ Hv' Hx) as (d & ds' & Hv1 & <- & _).
    pose proof (v_held _ _ _ Hv1) as Hh. apply Forall_cons in Hh as [[Hpd _] _].
    pose proof (p_linger _ _ _ _ _ _ _ _ _ _ _ _ Hpd) as Hl1. cbn [m_lingers] in Hl1.
    assert (l = LContinuation (d_c d)) as -> by congruence.
    destruct (drop_held _ _ _ _ _ _ _ Hv1) as (w' & -> & Hv2). by exists ds'.
  - destruct (told_settled _ _ _ _ _ (v_told _ _ _ Hv id) Hx Hr) as (l' & Hl' & Hc).
    assert (l' = l) as -> by congruence. apply (inv_forget id l) in Hv'; [|done..].
    by destruct l as [v|c|]; try done; exists ds.
Qed.

(** ** Launching *)

(** A libset and a block are available. *)
Record available ds a g t w : Prop := {
  av_ready : ready s f a g t w;
  av_fit : fit_for_use f a g t;
  av_group : forall x o, assign_group (w_groups w) = (x, o) -> groups_held (g :: (d_g <$> ds)) o;
  av_store : forall x o tcb, alloc_localstore tls0 (w_localstores w, w_tcb w) = (x, (o, tcb)) ->
    stores_held F Old (a :: (d_a <$> ds)) o tcb;
}.

Lemma inv_available ds σ μ :
  inv ds σ μ -> (exists a g t, available ds a g t (m_world μ)) \/
  (exists o, assign_group (w_groups (m_world μ)) = (Done (Err None), o) /\
     groups_held (d_g <$> ds) o /\ usable o /\ libsets_end (length ds)).
Proof.
  intros []. destruct (assign_group_held _ _ v_groups0) as
    [(g & o1 & Hg & Hgh & Hgu)|(o & Ho & Hoh & Hou & Hend)].
  2: { right. exists o. by rewrite length_fmap in Hend. }
  left. destruct (alloc_localstore_held F Old _ _ _ granted v_home0 v_stores0) as
    (a & t & o2 & tcb & Hs & Hgrow & Hok & Ha & Hid & Hsh).
  exists a, g, t. apply groups_held_distinct in Hgh as Hd. destruct Hd as [_ Hshared].
  destruct Hid, v_ground0, granted. split.
  - split; try done; [by exists o1|]. exists o2, tcb. split_and!; try done.
    + by rewrite (proj1 Hgrow).
    + by eapply grown_live, v_home0.
  - split_and!; auto. intros ->. apply Hshared. by left.
  - intros x o Ho. rewrite Hg in Ho. by simplify_eq.
  - intros x o tcb' Ho. rewrite Hs in Ho. by simplify_eq.
Qed.

Lemma inv_launched ds σ a g h c id u r t μ μ' :
  inv ds σ μ -> available ds a g t (m_world μ) -> initialized u h c id μ μ' ->
  pending_at s f T a g h c true id r t μ' ->
  inv (mkDeed id a g h c r t :: ds) (<[id := Running r]> σ) μ' /\ σ !! id = None.
Proof.
  intros Hv Hav Hi Hp. pose proof (initialized_beside _ _ _ _ _ _ _ _ _ _ _ _ _ _ Hp Hi) as Hb.
  pose proof (i_new _ _ _ _ _ _ Hi) as Hnew. pose proof (i_unused _ _ _ _ _ _ Hi) as Hunused.
  pose proof (v_told _ _ _ Hv id) as Hn. rewrite Hnew in Hn. cbn in Hn. split; [|done].
  assert (Forall (fun d => d_id d <> id /\ d_h d <> h) ds) as Hne.
  { eapply Forall_impl; [by eapply v_held|]. intros d [Hpd [x Hx]].
    pose proof (p_linger _ _ _ _ _ _ _ _ _ _ _ _ Hpd) as Hl. split; intros <-; congruence. }
  pose proof (v_told _ _ _ Hv) as Htold. destruct Hv.
  destruct (i_group _ _ _ _ _ _ Hi) as (g' & _ & Hgr).
  pose proof (i_store _ _ _ _ _ _ Hi) as Hst. split.
  - by apply Hb.
  - by apply Hb.
  - intros y Hy. by apply (be_live _ _ _ _ _ _ _ Hb), v_home0.
  - constructor.
    + split; [done|]. simpl. rewrite (i_heap _ _ _ _ _ _ Hi), lookup_insert_eq. by eexists.
    + eapply held_beside; [exact v_held0 | exact Hb |]. eapply Forall_impl; [exact Hne|].
      intros d [Hid Hh]. rewrite (i_lingers _ _ _ _ _ _ Hi), (i_saved _ _ _ _ _ _ Hi).
      split_and!; try tauto. by rewrite lookup_insert_ne.
  - rewrite fmap_cons. constructor; [|done]. simpl. intros (d & Hid & Hd) % list_elem_of_fmap.
    rewrite Forall_forall in Hne. apply Hne in Hd as [? _]. congruence.
  - rewrite fmap_cons. constructor; [|done]. simpl. intros (d & Hh & Hd) % list_elem_of_fmap.
    rewrite Forall_forall in Hne. apply Hne in Hd as [_ ?]. congruence.
  - intros y. rewrite (i_heap _ _ _ _ _ _ Hi), fmap_cons, elem_of_cons.
    destruct (decide (y = h)) as [->|Hy]; [by left|]. rewrite lookup_insert_ne by done. auto.
  - assert (slot c = None) as Hs by (unfold slot; by rewrite (i_stateful _ _ _ _ _ _ Hi)).
    intros d1 d2 n [->|H1] % elem_of_cons [->|H2] % elem_of_cons Hn1 Hn2; simpl in *;
      [congruence..|]. by eapply v_slots0.
  - rewrite fmap_cons. by eapply av_group.
  - rewrite fmap_cons. by eapply av_store.
  - rewrite (i_stacks _ _ _ _ _ _ Hi). unfold stacks_of. rewrite bind_cons. unfold stack_of.
    simpl. by rewrite (i_stateful _ _ _ _ _ _ Hi).
  - intros id'. rewrite (i_lingers _ _ _ _ _ _ Hi). destruct (decide (id' = id)) as [->|Hid].
    + rewrite lookup_insert_eq. eexists. split; [by left|]. split; [done|].
      by rewrite lookup_insert_eq.
    + rewrite lookup_insert_ne by done. eapply told_elsewhere; [apply Htold | |].
      * by rewrite lookup_insert_ne.
      * intros d Hd _. by right.
Qed.

Lemma mwp_launch_served u us σ μ :
  serves σ μ -> fits T us ->
  mwp (launch u us) (fun x => served σ (OLaunch u us) (Done x))
    (fun msg => served σ (OLaunch u us) (Panicked msg)) μ.
Proof.
  intros [ds Hv] Hfit.
  destruct (inv_available _ _ _ Hv) as [(a & g & t & Hav)|(o & Ho & Hoh & Hou & Hend)].
  - eapply mwp_launch with (b := true);
      [done.. | by eapply av_ready | by eapply av_fit | by eapply v_clock | reflexivity | by left |].
    intros μ1 h c id Hp Hi. set (e := errno_at _ _) in Hp.
    destruct (inv_launched _ _ _ _ _ _ _ _ _ _ _ _ Hv Hav Hi Hp) as [Hv1 Hid].
    destruct (Z.eqb_spec us 0) as [->|Hus]; cbn [negb].
    { apply mwp_ret. eexists. split; [by apply may_launch|]. by eexists. }
    apply mwp_bind, mwp_unwinding_panic.
    pose proof (mwp_resume_running _ _ _ us _ Hv1 Hfit) as Hres. cbn [d_id d_r] in Hres.
    eapply mwp_mono; [exact Hres| |]; clear Hres.
    + intros x μ2 (-> & σ' & Ha & Hs). apply mwp_ret. exists σ'.
      split; [|done]. set (r := (ueval u e).1) in *.
      assert (<[id := Running r]> σ !! id = Some (Running r)) as Hr by apply lookup_insert_eq.
      inversion Ha as [| | | |? ? ? Hr'|? ? v Hr'| |? ? x Hr' Hx|]; subst; rewrite Hr in Hr'; simplify_eq.
      * by apply may_launch.
      * rewrite insert_insert_eq. by eapply may_launch_complete.
    + intros msg μ2 (Hr & _ & Hs).
      eapply mwp_mono; [eapply mwp_drop; [exact Hs|]| |done].
      { rewrite lookup_insert_eq. by eexists. }
      intros ? μ3 Hs3. exists σ. split; [by eapply may_launch_panic|].
      by rewrite !delete_insert_eq, delete_id in Hs3.
  - destruct (launch_exhausted_run u us None o μ) as (w & env & Hp & Hm);
      [apply (gr_group _ _ _ _ (v_ground _ _ _ Hv)) | done |].
    unfold mwp. rewrite Hm. exists σ. split.
    { apply may_refuse. by rewrite (inv_count _ _ _ Hv). }
    exists ds. apply (inv_passed _ _ _ _ (set_world (set_groups o (m_world μ)) μ)); [|exact Hp].
    destruct Hv. split; try done; cbn [m_world set_world]; [by destruct v_ground0|].
    eapply held_beside with (A := fun _ => False) (X := fun _ => False); [exact v_held0 | |].
    + split; try done. by destruct v_ground0.
    + apply Forall_forall. intros d _. cbn [m_lingers m_saved set_world]. tauto.
Qed.

(** ** Any call *)

Lemma mwp_perform o σ μ :
  serves σ μ -> issued T σ o ->
  mwp (perform o) (fun x => served σ o (Done x)) (fun msg => served σ o (Panicked msg)) μ.
Proof.
  intros Hs Hi. destruct o as [u us|id us|id]; cbn [perform]; [by apply mwp_launch_served | |].
  - destruct Hi as [[x Hx] Hfit]. apply mwp_bind. destruct (is_running x) eqn:Hr.
    + destruct x as [r| |]; try done. destruct Hs as [ds Hv].
      destruct (inv_running _ _ _ _ _ Hv Hx) as (d & ds' & Hv' & <- & Hd).
      eapply mwp_mono; [exact (mwp_resume_running _ _ _ us _ Hv' Hfit)| |].
      * intros y μ' (-> & Hy). by apply mwp_ret.
      * intros msg μ' (Hmsg & _ & Hμ'). eexists. split; [|exact Hμ'].
        apply may_panic. by rewrite Hx, <- Hd, Hmsg.
    + eapply mwp_mono; [exact (mwp_resume_settled id us x σ μ Hs Hx Hr)| |done].
      intros y μ' (-> & Hμ'). apply mwp_ret. exists σ. split; [by eapply may_ignore | done].
  - apply mwp_bind. eapply mwp_mono; [exact (mwp_drop id σ μ Hs Hi)| |done].
    intros y μ' Hμ'. apply mwp_ret. eexists. split; [by apply may_drop | exact Hμ'].
Qed.

(** A thread that has not used the library, in a process that has not. *)
Record fresh_process μ : Prop := {
  fp_ground : ground s f T (m_world μ);
  fp_clock : clock_ok T (w_clock (m_world μ)) (m_env μ);
  fp_home : homes F (w_tcb (m_world μ));
  fp_groups : w_groups (m_world μ) = OnceNew;
  fp_stacks : w_stacks (m_world μ) = OnceNew;
  fp_stores : w_localstores (m_world μ) = OnceNew;
  fp_heap : w_heap (m_world μ) = ∅;
  fp_lingers : m_lingers μ = ∅;
}.

Lemma fresh_serves μ :
  fresh_process μ -> (forall x, is_Some (blocks (w_tcb (m_world μ)) !! x) -> Old x) -> serves ∅ μ.
Proof.
  intros [] Hold. exists []. split; try done; try constructor.
  - intros x [y Hy]. rewrite fp_heap0 in Hy. by rewrite lookup_empty in Hy.
  - intros d1 d2 n Hd. by apply elem_of_nil in Hd.
  - done.
  - constructor.
  - exists []. split_and!; [by left | done | constructor | done | intros x Hx; left; by apply Hold].
  - done.
  - intros id. by rewrite fp_lingers0, lookup_empty.
Qed.

Lemma issued_known o σ μ : serves σ μ -> issued T (m_lingers μ) o -> issued T σ o.
Proof.
  intros [ds Hv]. destruct o as [u us|id us|id]; simpl; [done | |]; by rewrite (inv_known _ _ _ _ Hv).
Qed.

End Custody.

(** ** Whole sessions *)

Section Sessions.
Context `{PlatformLaws}.
Context (F Old : Z -> Prop) (T : span).
Hypothesis T_u64 : until T <= U64.
Hypothesis calls_work : no_failures.
Hypothesis granted : obliging F.
Implicit Types (μ : machine) (σ : gmap nat status).

(** A change of threads between two calls. *)
Lemma ground_switch s s' f th μ :
  ground s f T (m_world μ) -> may_call s' (m_world (switch_thread th μ)) ->
  ground s' (th_fs th) T (m_world (switch_thread th μ)).
Proof. intros [] [_ Hth]. by split. Qed.

Lemma beside_switch s s' f th μ :
  ground s f T (m_world μ) -> clock_ok T (w_clock (m_world μ)) (m_env μ) ->
  may_call s' (m_world (switch_thread th μ)) ->
  beside s' (th_fs th) T (fun _ => False) (fun _ => False) μ (switch_thread th μ).
Proof. intros Hg Hc Hm. split; try done. by eapply ground_switch. Qed.

Lemma inv_switch s s' f th ds σ μ :
  inv F Old s f T ds σ μ -> link_restores_mask = true -> F (th_fs th) ->
  may_call s' (m_world (switch_thread th μ)) -> inv F Old s' (th_fs th) T ds σ (switch_thread th μ).
Proof.
  intros [] Hlink Hf Hm. split; try done; [by eapply ground_switch | | by eapply stores_held_same].
  rewrite Forall_forall in v_held0 |- *. intros d [Hp Hx] % v_held0. split; [|done].
  eapply pending_moved; [exact Hp | by right | | by eapply beside_switch | tauto..| |].
  - split; [by apply v_home0|]. split; by apply granted.
  - by apply Hp.
  - tauto.
Qed.

(** The thread that makes the next call. *)
Definition served_on (s : Signal) (f : Z) σ μ : Prop := s <> Kill /\ F f /\ serves F Old s f T σ μ.

Lemma session_serves s f μ0 l μ :
  s <> Kill -> F f -> fresh_process F s f T μ0 -> session F T μ0 l μ ->
  (forall x, is_Some (blocks (w_tcb (m_world μ0)) !! x) -> Old x) ->
  exists s' f' σ, spec_session l σ /\ served_on s' f' σ μ.
Proof.
  intros Hkill Hhome Hf Hs Hold. induction Hs as [|l μ1 o x μ2 _ (s1 & f1 & σ & Hl & Hk & Hh & Hσ) Hi Ho
    |l μ1 th s1 _ (s2 & f2 & σ & Hl & _ & _ & ds & Hv) Hlink Hh Hm].
  - exists s, f, ∅. split; [constructor|]. split_and!; [done | done | by apply fresh_serves].
  - pose proof (mwp_perform F Old s1 f1 T Hk T_u64 calls_work granted Hh o σ μ1 Hσ
      (issued_known _ _ _ _ _ _ _ _ Hσ Hi)) as Hp. unfold mwp in Hp.
    rewrite Ho in Hp. assert (served F Old s1 f1 T σ o x μ2) as (σ' & Ha & Hs') by by destruct x.
    exists s1, f1, σ'. split; [by econstructor | done].
  - exists s1, (th_fs th), σ. split; [done|]. split_and!; [apply Hm | done |]. exists ds.
    by eapply inv_switch.
Qed.
End Sessions.
