(* ===== verification/Service.v ===== *)
(** * The service that the library provides

    Every session of a client in a fresh process, whatever the interleaving of its calls, of the
    threads that make them and of the preemption signals, is a run of the specification of
    Session.v; ownership is exclusive in every state it reaches, and nothing leaks. *)

From S2P Require Import Prelude Signal Reusable Gotcha Pools Timer Tcb World Preemption Linger.
From S2P Require Import Handler Frame Interference Transparency Oneshot Caller Resume Ownership.
From S2P Require Import Contract Launch Cancel Session Custody.

Section Claims.
Context `{PlatformLaws}.
(** The blocks of the process's threads; the first thread's signal and block. *)
Context (F : Z -> Prop) (s : Signal) (f : Z) (T : span).
Hypothesis s_maskable : s <> Kill.
Hypothesis f_home : F f.
Hypothesis T_u64 : until T <= U64.
Hypothesis calls_work : no_failures.
Hypothesis granted : obliging F.
Implicit Types (w : world) (μ : machine) (σ : gmap nat status).

(** What the client's view says about a [Linger]. *)
Definition seen (x : option status) (l : option Linger) : Prop :=
  match x, l with
  | None, None | Some (Running _), Some (LContinuation _) | Some Poisoned, Some LPoison => True
  | Some (Completed v), Some (LCompletion v') => v = v'
  | _, _ => False
  end.

(** The thread is its own again: its block is installed, it is in the shared libset and not in the
    handler. *)
Definition at_home w : Prop :=
  F (fs_base (w_tcb w)) /\ w_group w = SHARED /\ w_uc w = None.

(** The thread-control blocks that are allocated. *)
Definition present μ (x : Z) : Prop := is_Some (blocks (w_tcb (m_world μ)) !! x).

Lemma told_seen ds σ id l : told ds σ id l -> seen (σ !! id) l.
Proof.
  unfold told. destruct l as [[v|c|]|]; [intros -> | intros (d & _ & _ & ->) | intros -> ..]; done.
Qed.

(** The invariant of Custody.v holds after every session. *)
Lemma session_inv μ0 l μ :
  fresh_process F s f T μ0 -> session F T μ0 l μ -> exists s1 f1 σ ds,
    spec_session l σ /\ F f1 /\ inv F (present μ0) s1 f1 T ds σ μ.
Proof.
  intros Hf Hs. destruct (session_serves F (present μ0) T T_u64 calls_work granted _ _ _ _ _
    s_maskable f_home Hf Hs (fun _ Hx => Hx)) as (s1 & f1 & σ & Hl & _ & Hh & ds & Hv).
  by exists s1, f1, σ, ds.
Qed.

(** C1: Sessions refine the abstract specification.  A client launches, resumes and drops any
    number of functions, in any order and interleaved as it likes, going on after panics; a function
    that one thread has launched may be resumed and dropped by another, and preemption signals
    arrive whenever they like.  Then what the calls returned is a run of the specification
    [allowed], whose state is what the client's [Linger]s are in the end: no call aborts the process
    or becomes undefined, every function keeps its result however its calls are interleaved with the
    others', [launch] is refused only when as many functions are unfinished as there are libsets,
    and between two calls the thread that made the last one is its own again. *)
Theorem session_refines μ0 l μ :
  fresh_process F s f T μ0 -> session F T μ0 l μ ->
  exists σ, spec_session l σ /\ (forall id, seen (σ !! id) (m_lingers μ !! id)) /\
    at_home (m_world μ).
Proof.
  intros Hf Hs. destruct (session_inv _ _ _ Hf Hs) as (s1 & f1 & σ & ds & Hl & Hh & Hv). exists σ. split; [done|].
  split; [intros id; eapply told_seen, Hv|].
  destruct (v_ground _ _ _ _ _ _ _ _ Hv). split_and!; [congruence | done | done].
Qed.

(** C3: Results are right in every session: a call returns, or it panics because the libsets have
    run out or with the message of the function it runs; and a [Linger] that has completed holds the
    value that a function launched under its address computes undisturbed. *)
Theorem session_results μ0 l μ :
  fresh_process F s f T μ0 -> session F T μ0 l μ ->
  (forall l1 o x l2, l = l1 ++ (o, x) :: l2 -> well_ended l1 o x) /\
  (forall id v, m_lingers μ !! id = Some (LCompletion v) -> yields l id (Ok v)).
Proof.
  intros Hf Hs. destruct (session_inv _ _ _ Hf Hs) as (s1 & f1 & σ & ds & Hl & _ & Hv). split.
  - intros l1 o x l2 ->. by eapply spec_session_prefix.
  - intros id v Hid. pose proof (v_told _ _ _ _ _ _ _ _ Hv id) as Ht. rewrite Hid in Ht.
    destruct (spec_results _ _ _ _ Hl Ht) as (r & -> & Hy). done.
Qed.

(** C4: Ownership is exclusive in every reachable state: a function that has not ended owns a libset
    other than the shared one, a thread-control block other than the threads' own, and a boxed
    closure; and two of them share neither libset nor block nor closure nor stack nor context. *)
Theorem session_exclusive μ0 l μ id1 id2 c1 c2 :
  fresh_process F s f T μ0 -> session F T μ0 l μ ->
  m_lingers μ !! id1 = Some (LContinuation c1) -> m_lingers μ !! id2 = Some (LContinuation c2) ->
  exists a1 g1 a2 g2, owns a1 g1 (functional c1) c1 /\ owns a2 g2 (functional c2) c2 /\
    ~ F a1 /\ live (w_tcb (m_world μ)) a1 /\ g1 <> SHARED /\
    is_Some (w_heap (m_world μ) !! functional c1) /\
    (id1 <> id2 -> a1 <> a2 /\ g1 <> g2 /\ functional c1 <> functional c2 /\
       (forall n, slot c1 = Some n -> slot c2 <> Some n) /\
       (forall st, stack_of c1 = Some st -> stack_of c2 <> Some st)).
Proof.
  intros Hf Hs H1 H2. destruct (session_inv _ _ _ Hf Hs) as (s1 & f1 & σ & ds & _ & _ & Hv).
  destruct (inv_owner _ _ _ _ _ _ _ _ _ _ Hv H1) as (d1 & Hd1 & <- & <- & Hp1 & Hx1).
  destruct (inv_owner _ _ _ _ _ _ _ _ _ _ Hv H2) as (d2 & Hd2 & <- & <- & Hp2 & _).
  destruct (inv_front _ _ _ _ _ _ _ _ _ Hv Hd2) as (ds' & Hperm & Hv2).
  pose proof (inv_others _ _ _ _ _ _ _ _ _ Hv2) as Hoth. rewrite Forall_forall in Hoth.
  destruct (v_stores _ _ _ _ _ _ _ _ Hv) as [Hst _]. rewrite Forall_fmap, Forall_forall in Hst.
  destruct (Hst d1 Hd1) as (Hne & _ & Hlive).
  pose proof (p_owns _ _ _ _ _ _ _ _ _ _ _ _ Hp1) as Ho1.
  pose proof (p_owns _ _ _ _ _ _ _ _ _ _ _ _ Hp2) as Ho2.
  exists (d_a d1), (d_g d1), (d_a d2), (d_g d2). rewrite (proj1 Ho1), (proj1 Ho2).
  split_and!; try done; [apply Hp1|]. intros Hid.
  rewrite Hperm in Hd1. apply elem_of_cons in Hd1 as [->|Hd1]; [done|].
  destruct (Hoth d1 Hd1) as (? & ? & _ & ? & ? & ?). done.
Qed.

(** C5: Nothing leaks: in every reachable state the boxed closures are those of the functions that
    have not ended, and every thread-control block that the library has allocated belongs to one of
    them or is in its pool; and when there is no such function, then no closure is boxed, every
    libset, every stack and every thread-control block that was allocated since the process started
    is back in its pool (which has none of them twice), and the blocks are fit for the next
    function. *)
Theorem session_no_leaks μ0 l μ :
  fresh_process F s f T μ0 -> session F T μ0 l μ ->
  (forall h, is_Some (w_heap (m_world μ) !! h) ->
     exists id c, m_lingers μ !! id = Some (LContinuation c) /\ functional c = h) /\
  (forall x, present μ x -> present μ0 x \/
     (exists id c, m_lingers μ !! id = Some (LContinuation c) /\ value (tls_block c) = Some (mine x)) \/
     (exists vec, pooled (w_localstores (m_world μ)) vec /\ x ∈ vec)) /\
  ((forall id x, m_lingers μ !! id = Some x -> is_continuation x = false) ->
     w_heap (m_world μ) = ∅ /\ groups_held [] (w_groups (m_world μ)) /\
     stacks_held [] (w_stacks (m_world μ)) /\
     stores_held F (present μ0) [] (w_localstores (m_world μ)) (w_tcb (m_world μ))).
Proof.
  intros Hf Hs. destruct (session_inv _ _ _ Hf Hs) as (s1 & f1 & σ & ds & _ & _ & Hv).
  pose proof (v_held _ _ _ _ _ _ _ _ Hv) as Hh. rewrite Forall_forall in Hh. split; [|split].
  - intros h Hx. apply (v_heap _ _ _ _ _ _ _ _ Hv), list_elem_of_fmap in Hx as (d & -> & Hd).
    destruct (Hh d Hd) as [Hp _]. exists (d_id d), (d_c d). split; apply Hp.
  - intros x Hx. destruct (v_stores _ _ _ _ _ _ _ _ Hv) as [_ (vec & Hvec & _ & _ & _ & Hacc)].
    destruct (Hacc x Hx) as [Hold|Hin]; [by left|]. apply elem_of_app in Hin as [Hin|Hin].
    + apply list_elem_of_fmap in Hin as (d & -> & Hd). right. left. destruct (Hh d Hd) as [Hp _].
      exists (d_id d), (d_c d). split; apply Hp.
    + right. right. by exists vec.
  - intros Hall. destruct ds as [|d ds].
    + split_and!; [|by apply Hv..]. apply map_eq. intros x. rewrite lookup_empty.
      apply eq_None_not_Some. intros Hx. by apply (v_heap _ _ _ _ _ _ _ _ Hv), elem_of_nil in Hx.
    + destruct (Hh d) as [Hp _]; [by left|]. by specialize (Hall _ _ (p_linger _ _ _ _ _ _ _ _ _ _ _ _ Hp)).
Qed.
End Claims.
