(* ===== verification/Future.v ===== *)
(** * Preemptible functions as futures

    Models [src/future.rs].  A [PreemptiveFuture] owns a [Linger] and one end of a channel; [poll]
    sends a message and lets the function run for a while.  What the future needs from the rest of
    libinger is the interface [Engine], with the laws [EngineLaws]; [poll] is verified against them.
    Two engines satisfy them: the closure that [poll_fns] launches, as a small machine that follows
    its loop and shares the channel with the future; and [resume] on the machine of Linger.v, for
    functions that leave the channel alone while they run. *)

From S2P Require Import Prelude Signal Reusable Gotcha Pools Timer Tcb World Preemption Linger.
From S2P Require Import Handler Frame Interference Transparency Oneshot Caller Resume Contract.
From S2P Require Import Launch.

(** ** [std::sync::mpsc::sync_channel] *)

(** The buffer, the bound on its length, and whether the receiver is still there. *)
Record channel : Type := mkChannel {
  ch_buffer : list Z;
  ch_bound : nat;
  ch_receiver : bool;
}.
Definition sync_channel (bound : nat) : channel := mkChannel [] bound true.

(** [SyncSender::send]: [None] means that the call blocks until somebody receives. *)
Definition send (x : Z) : comp channel (option (result unit Z)) := fun c =>
  if negb (ch_receiver c) then (Done (Some (Err x)), c)
  else if (length (ch_buffer c) <? ch_bound c)%nat
  then (Done (Some (Ok tt)), mkChannel (ch_buffer c ++ [x]) (ch_bound c) true)
  else (Done None, c).

(** [Receiver::recv], when there is something to receive. *)
Definition recv (c : channel) : option (Z * channel) :=
  match ch_buffer c with
  | [] => None
  | x :: l => Some (x, mkChannel l (ch_bound c) (ch_receiver c))
  end.

(** ** What a future needs to know about a [Linger] *)

Inductive progress : Set := Completed (v : Z) | Suspended (yielded : bool) | Gone.

Class Engine (E H : Type) : Type := {
  (** [resume], during which the function may use the channel. *)
  eng_resume : H -> Z -> comp (E * channel) (result unit Z);
  (** What the [Linger] behind a handle is. *)
  eng_progress : H -> E -> progress;
  (** Dropping it. *)
  eng_drop : H -> comp (E * channel) unit;
}.

(** [launch] of the closure of [poll_fns], which owns the other end of the channel; with a budget of
    0 it is not started. *)
Class Launcher (E H : Type) : Type := { eng_launch : comp (E * channel) (result H Z) }.

(** What [resume] promises of a function that will end with [r]: it completes with the value of [r],
    it panics with its message, or it is suspended and will still end with [r]; and a function that
    has ended can be dropped.  A message in the channel does not change what it will end with. *)
Class EngineLaws (E H : Type) `{Engine E H} : Type := {
  affordable : Z -> Prop;
  ends : H -> ThdResult -> E * channel -> Prop;
  law_resume h us r st : ends h r st -> affordable us ->
    match eng_resume h us st with
    | (Done (Ok _), st') =>
        (exists v, r = Ok v /\ eng_progress h (fst st') = Completed v /\
           exists st2, eng_drop h st' = (Done tt, st2)) \/
        (exists y, eng_progress h (fst st') = Suspended y /\ ends h r st')
    | (Panicked m, st') => r = Err m /\ exists st2, eng_drop h st' = (Done tt, st2)
    | _ => False
    end;
  law_message h r e c x : ends h r (e, c) ->
    ends h r (e, mkChannel (ch_buffer c ++ [x]) (ch_bound c) (ch_receiver c));
}.

(** [std::task::Poll] of the future's output. *)
Inductive Poll (A : Type) : Type := Ready (a : A) | Pending.
Arguments Ready {A} a.
Arguments Pending {A}.

Section Future.
Context {E H : Type} `{Engine E H}.

(** [struct PreemptiveFuture].  [fut_poll] stands for what the field [poll] returns: a function that
    the closure of [poll_fns] calls when it receives it.  The sender [pre] is always there while the
    future is, so that [recv] cannot find the channel disconnected. *)
Record PreemptiveFuture : Type := mkFuture {
  fut_fun : option H;
  fut_us : Z;
  fut_poll : Z;
}.

(** The future, the rest of the program with the channel, and how often the waker was called. *)
Record fut_state : Type := mkFut {
  st_future : PreemptiveFuture;
  st_engine : E * channel;
  st_wakes : nat;
}.
Definition set_fun (h : option H) (s : fut_state) : fut_state :=
  mkFut (mkFuture h (fut_us (st_future s)) (fut_poll (st_future s))) (st_engine s) (st_wakes s).
Definition set_engine (e : E * channel) (s : fut_state) : fut_state :=
  mkFut (st_future s) e (st_wakes s).
Definition wake_by_ref (s : fut_state) : fut_state :=
  mkFut (st_future s) (st_engine s) (S (st_wakes s)).

Definition on_engine {A} (m : comp (E * channel) A) : comp fut_state A :=
  zoom st_engine set_engine m.
Definition on_channel {A} (m : comp channel A) : comp (E * channel) A :=
  zoom snd (fun c e => (fst e, c)) m.

(** [Future::poll].  [None]: the thread waits in [send] for the function it should be running. *)
Definition poll : comp fut_state (option (Poll (result Z Z))) :=
  fun_ ← gets (fun s => fut_fun (st_future s));
  _ ← modify (set_fun None);
  match fun_ with
  | Some fun_ =>
      msg ← gets (fun s => fut_poll (st_future s));
      sent ← on_engine (on_channel (send msg));
      match sent with
      | None => mret None
      | Some (Err _) => unwinding (on_engine (eng_drop fun_))
                          (panic "called `Result::unwrap()` on an `Err` value: SendError { .. }")
      | Some (Ok _) =>
          us ← gets (fun s => fut_us (st_future s));
          r ← unwinding (on_engine (eng_drop fun_)) (on_engine (eng_resume fun_ us));
          match r with
          | Err or => _ ← on_engine (eng_drop fun_); mret (Some (Ready (Err or)))
          | Ok _ =>
              p ← gets (fun s => eng_progress fun_ (fst (st_engine s)));
              match p with
              | Completed ready => _ ← on_engine (eng_drop fun_); mret (Some (Ready (Ok ready)))
              | _ =>
                  let timeout := negb (match p with Suspended y => y | _ => false end) in
                  _ ← modify (set_fun (Some fun_));
                  _ ← (if timeout then modify wake_by_ref else mret tt);
                  mret (Some Pending)
              end
          end
      end
  | None => mret (Some Pending)
  end.
(** [poll_fns]: the channel, the launch of the closure, the future.  [msg] stands for what the field
    [poll] will return. *)
Definition poll_fns `{Launcher E H} (msg us : Z) : comp (E * channel) (result PreemptiveFuture Z) :=
  _ ← on_channel (put (sync_channel 1));
  fun_ ←? eng_launch;
  mret (Ok (mkFuture (Some fun_) us msg)).

(** [poll_fn]: the message is a function that does nothing. *)
Definition nop : Z := 0.
Definition poll_fn `{Launcher E H} (us : Z) : comp (E * channel) (result PreemptiveFuture Z) :=
  poll_fns nop us.
End Future.
Arguments PreemptiveFuture H : clear implicits.
Arguments fut_state E H : clear implicits.

(** ** Polling *)

Section Polling.
Context {E H : Type} `{EngineLaws E H}.
Implicit Types (h : H) (e : E) (c : channel).

(** A future of the function behind [h], before it is polled. *)
Definition future_of h (us msg : Z) (st : E * channel) (wakes : nat) : fut_state E H :=
  mkFut (mkFuture (Some h) us msg) st wakes.

(** The channel takes another message; the channel with it. *)
Definition has_room c : Prop := ch_receiver c = true /\ (length (ch_buffer c) < ch_bound c)%nat.
Definition with_message (x : Z) c : channel := mkChannel (ch_buffer c ++ [x]) (ch_bound c) true.

Lemma send_room x c : has_room c -> send x c = (Done (Some (Ok tt)), with_message x c).
Proof. intros [Hr Hl]. unfold send. rewrite Hr. by apply Nat.ltb_lt in Hl as ->. Qed.

Lemma ends_message h r e c x : ends h r (e, c) -> has_room c -> ends h r (e, with_message x c).
Proof. intros He [Hr _]. unfold with_message. rewrite <- Hr. by apply law_message. Qed.

Lemma on_engine_run {A} (m : comp (E * channel) A) (st : fut_state E H) x q :
  m (st_engine st) = (x, q) -> on_engine m st = (x, set_engine q st).
Proof. intros Hm. unfold on_engine, zoom. by rewrite Hm. Qed.

(** [poll] up to the call of [resume]. *)
Lemma poll_sends h us msg e c n :
  has_room c ->
  poll (future_of h us msg (e, c) n) =
    (r ← unwinding (on_engine (eng_drop h)) (on_engine (eng_resume h us));
     match r with
     | Err or => _ ← on_engine (eng_drop h); mret (Some (Ready (Err or)))
     | Ok _ =>
         p ← gets (fun s => eng_progress h (fst (st_engine s)));
         match p with
         | Completed ready => _ ← on_engine (eng_drop h); mret (Some (Ready (Ok ready)))
         | _ =>
             let timeout := negb (match p with Suspended y => y | _ => false end) in
             _ ← modify (set_fun (Some h));
             _ ← (if timeout then modify wake_by_ref else mret tt);
             mret (Some Pending)
         end
     end) (mkFut (mkFuture None us msg) (e, with_message msg c) n).
Proof.
  intros Hc. unfold poll. do 2 (erewrite comp_bind_done by reflexivity). cbv beta iota.
  cbn [future_of st_future fut_fun]. erewrite comp_bind_done by reflexivity.
  erewrite comp_bind_done; [|unfold on_engine, on_channel, zoom; cbn; rewrite (send_room _ _ Hc);
    reflexivity].
  reflexivity.
Qed.

(** C27: Polling a future lets its function run once, with one more message in the channel.  If the
    function will end with [r], then a poll is ready with the value of [r], or propagates its panic,
    and the future has let go of the function; or it is pending, with the function and the channel as
    that one run has left them, the function still to end with [r], and the waker called exactly if
    the function timed out instead of yielding.  A poll never fails and, while there is room in the
    channel, never blocks. *)
Theorem poll_refines h r us msg e c n :
  ends h r (e, c) -> affordable us -> has_room c ->
  match poll (future_of h us msg (e, c) n) with
  | (Done (Some (Ready (Ok v))), st) =>
      r = Ok v /\ fut_fun (st_future st) = None /\ st_wakes st = n
  | (Done (Some Pending), st) => exists y q,
      eng_resume h us (e, with_message msg c) = (Done (Ok tt), q) /\
      eng_progress h (fst q) = Suspended y /\ ends h r q /\
      st = future_of h us msg q (if y then n else S n)
  | (Panicked m, st) => r = Err m /\ fut_fun (st_future st) = None /\ st_wakes st = n
  | _ => False
  end.
Proof.
  intros He Hus Hc. rewrite poll_sends by done.
  pose proof (law_resume h us r _ (ends_message h r e c msg He Hc) Hus) as Hl.
  set (st := mkFut _ _ _). destruct (eng_resume h us (e, with_message msg c)) as [x q] eqn:Hr.
  apply (on_engine_run _ st) in Hr. set (st' := set_engine q st) in Hr.
  destruct x as [[[]|or]|m| |]; try done.
  - erewrite comp_bind_done; [|by apply unwinding_done]. cbv beta iota.
    erewrite comp_bind_done by reflexivity.
    cbn [st' st_engine set_engine].
    destruct Hl as [(v & -> & Hp & q2 & Hd)|(y & Hp & He')]; rewrite Hp.
    + apply (on_engine_run _ st') in Hd. by erewrite comp_bind_done by exact Hd.
    + destruct y; by eexists _, q.
  - destruct Hl as (-> & q2 & Hd). apply (on_engine_run _ st') in Hd.
    erewrite comp_bind_panicked; [|unfold unwinding; rewrite Hr, Hd; reflexivity]. done.
Qed.
End Polling.

(** ** The machine as an engine *)

Section Machine.
Context `{PlatformLaws}.

Definition on_machine {A} (m : comp machine A) : comp (machine * channel) A :=
  zoom fst (fun μ e => (μ, snd e)) m.

(** [resume] and [drop] of a [Linger]; the functions of World.v do not use channels. *)
#[export] Instance machine_engine : Engine machine nat := {|
  eng_resume id us := on_machine (resume id us);
  eng_progress id μ :=
    match m_lingers μ !! id with
    | Some (LCompletion v) => Completed v
    | Some (LContinuation c) => Suspended (Linger_yielded (LContinuation c))
    | _ => Gone
    end;
  eng_drop id := on_machine (forget_linger id);
|}.

Context (s : Signal) (f : Z) (T : span) (b : bool).
Hypothesis s_maskable : s <> Kill.
Hypothesis T_u64 : until T <= U64.
Hypothesis calls_work : no_failures.

Lemma on_machine_run {A} (m : comp machine A) μ (c : channel) x μ' :
  m μ = (x, μ') -> on_machine m (μ, c) = (x, (μ', c)).
Proof. intros Hm. unfold on_machine, zoom. cbn [fst snd]. by rewrite Hm. Qed.

(** Forgetting a [Linger] that owns nothing. *)
Lemma forget_settled id l μ (c : channel) :
  m_lingers μ !! id = Some l -> is_continuation l = false ->
  exists st, eng_drop id (μ, c) = (Done tt, st).
Proof.
  intros Hl Hc. cbn [eng_drop machine_engine]. unfold on_machine, zoom. cbn [fst snd].
  unfold forget_linger. erewrite comp_bind_done by reflexivity.
  erewrite comp_bind_done by reflexivity. cbv beta. rewrite Hl.
  destruct (main_run (drop_linger l) (set_lingers (delete id (m_lingers μ)) μ))
    as (w & env & _ & ->). destruct l; [by eexists | done | by eexists].
Qed.

(** [resume] keeps the promise, whatever signals arrive: a pending function ends with its result. *)
Lemma machine_resumes id us r μ (c : channel) :
  pending_fn s f T b id r μ -> fits T us ->
  match eng_resume id us (μ, c) with
  | (Done (Ok _), st) =>
      (exists v, r = Ok v /\ eng_progress id (fst st) = Completed v /\
         exists st2, eng_drop id st = (Done tt, st2)) \/
      (exists y, eng_progress id (fst st) = Suspended y /\ pending_fn s f T b id r (fst st))
  | (Panicked m, st) => r = Err m /\ exists st2, eng_drop id st = (Done tt, st2)
  | _ => False
  end.
Proof.
  intros (a & g & h & k & t & Hp) Hfit.
  pose proof (resume_pending s f T s_maskable T_u64 calls_work _ _ _ _ _ _ _ _ _ _ Hp Hfit) as Hm.
  unfold mwp in Hm. cbn [eng_resume machine_engine].
  destruct (resume id us μ) as [x μ'] eqn:Hr. rewrite (on_machine_run _ _ c _ _ Hr).
  destruct x as [x|m| |]; try done.
  - destruct Hm as (-> & _ & [(v & -> & Hl) | (c' & t' & Hp' & Hl & _)]); cbn [fst eng_progress machine_engine];
      rewrite Hl, lookup_insert_eq.
    + left. exists v. split_and!; [done..|]. eapply forget_settled; [by rewrite Hl, lookup_insert_eq | done].
    + right. eexists. split; [done|]. by exists a, g, h, c', t'.
  - destruct Hm as (-> & _ & Hl). split; [done|].
    eapply forget_settled; [by rewrite Hl, lookup_insert_eq | done].
Qed.

Definition machine_laws : EngineLaws machine nat := {|
  affordable := fits T;
  ends id r st := pending_fn s f T b id r (fst st);
  law_resume id us r st := match st with (μ, c) => machine_resumes id us r μ c end;
  law_message id r μ c x Hp := Hp;
|}.
End Machine.

(** ** The loop of [poll_fns], as an engine *)

(** One turn of the loop after [recv]: how many steps the received function and the client's one
    take, and what the latter returns; [None] is [Poll::Pending]. *)
Record call_of_fun : Set := mkCall { work : nat; answer : option Z }.

(** Where the closure is: about to receive, inside the client's function, or done. *)
Inductive loop_pc : Set := AtRecv | InFun (left : nat) | Ended (v : Z).

(** The closure, the number of the next call, how it stopped the last time, and the number of
    steps that the signals will let it run each time. *)
Record loop : Type := mkLoop {
  lp_pc : loop_pc;
  lp_index : nat;
  lp_progress : progress;
  lp_turns : list nat;
}.

Section Loop.
Variable calls : nat -> call_of_fun.

(** One step of the closure.  The second component tells what stops it, if anything: it returns, or
    [pause]s before it receives again.  In an empty channel [recv] waits. *)
Definition loop_step (pc : loop_pc) (i : nat) (c : channel)
  : (loop_pc * nat * channel) * option progress :=
  match pc with
  | AtRecv =>
      match recv c with
      | Some (_, c') => ((InFun (work (calls i)), i, c'), None)
      | None => ((AtRecv, i, c), None)
      end
  | InFun (S n) => ((InFun n, i, c), None)
  | InFun O =>
      match answer (calls i) with
      | Some v => ((Ended v, i, c), Some (Completed v))
      | None => ((AtRecv, S i, c), Some (Suspended true))
      end
  | Ended v => ((Ended v, i, c), Some (Completed v))
  end.

(** At most [n] steps, until the closure ends, yields or times out. *)
Fixpoint loop_run (n : nat) (pc : loop_pc) (i : nat) (c : channel)
  : (loop_pc * nat * channel) * progress :=
  match n with
  | O => ((pc, i, c), Suspended false)
  | S n =>
      match loop_step pc i c with
      | (s, Some p) => (s, p)
      | ((pc', i', c'), None) => loop_run n pc' i' c'
      end
  end.

#[export] Instance loop_engine : Engine loop unit := {|
  eng_resume _ _ '(l, c) :=
    let '((pc, i, c'), p) := loop_run (hd O (lp_turns l)) (lp_pc l) (lp_index l) c in
    (Done (Ok tt), (mkLoop pc i p (tl (lp_turns l)), c'));
  eng_progress _ l := lp_progress l;
  eng_drop _ := mret tt;
|}.

(** The closure that [launch] boxes: it is about to receive its first message. *)
#[export] Instance loop_launcher : Launcher loop unit := {|
  eng_launch '(l, c) := (Done (Ok tt), (mkLoop AtRecv O (Suspended false) (lp_turns l), c));
|}.

(** The closure will end with [v]: the client's function says "pending" for a while, then [v]. *)
Definition will_end (v : Z) (pc : loop_pc) (i : nat) : Prop :=
  match pc with
  | Ended v' => v' = v
  | _ => exists n, (forall j, (j < n)%nat -> answer (calls (i + j)) = None) /\
           answer (calls (i + n)) = Some v
  end.

Lemma loop_step_end v pc i c :
  will_end v pc i ->
  match loop_step pc i c with
  | (_, Some (Completed v')) => v' = v
  | ((pc', i', _), _) => will_end v pc' i'
  end.
Proof.
  destruct pc as [|[|k]|v']; simpl; [by destruct (recv c) as [[]|] | | done | done].
  intros (n & Hn & Hv). destruct n as [|n].
  - rewrite Nat.add_0_r in Hv. by rewrite Hv.
  - pose proof (Hn O ltac:(lia)) as H0. rewrite Nat.add_0_r in H0. rewrite H0. exists n. split.
    + intros j Hj. rewrite <- (Hn (S j)) by lia. do 2 f_equal. lia.
    + rewrite <- Hv. do 2 f_equal. lia.
Qed.

Lemma loop_run_end v n pc i c :
  will_end v pc i ->
  match loop_run n pc i c with
  | (_, Completed v') => v' = v
  | ((pc', i', _), Suspended _) => will_end v pc' i'
  | _ => False
  end.
Proof.
  revert pc i c. induction n as [|n IH]; intros pc i c Hv; simpl; [done|].
  pose proof (loop_step_end v pc i c Hv) as Hs.
  destruct (loop_step pc i c) as [[[pc' i'] c'] [p|]] eqn:Hst; [|by apply IH].
  destruct p as [v'|y|]; [done | done |]. destruct pc as [|[|k]|]; simpl in Hst; repeat case_match; simplify_eq.
Qed.

(** The engine of the closure keeps the promise. *)
#[export] Instance loop_laws : EngineLaws loop unit.
Proof.
  refine {| affordable _ := True;
            ends _ r st := exists v, r = Ok v /\ will_end v (lp_pc (fst st)) (lp_index (fst st)) |}.
  - intros [] us r [l c] (v & -> & Hv) _. cbn [fst eng_resume loop_engine] in *.
    pose proof (loop_run_end v (hd O (lp_turns l)) _ _ c Hv) as Hr.
    destruct (loop_run _ _ _ c) as [[[pc i] c'] [v'|y|]]; cbn; [subst v' | | done].
    + left. exists v. split_and!; [done | done | by eexists].
    + right. exists y. split; [done|]. by exists v.
  - intros [] r e c x He. exact He.
Defined.

(** What [poll_fns] makes: an idle closure with an empty channel. *)
Lemma poll_fns_idle msg us l c v :
  will_end v AtRecv O -> exists e, poll_fns msg us (l, c) = (Done (Ok (mkFuture (Some tt) us msg)), e) /\
    snd e = sync_channel 1 /\ ends tt (Ok v) e.
Proof. intros Hv. eexists. split; [reflexivity|]. split; [done|]. by exists v. Qed.

(** The future of the closure, with [turns] to come. *)
Definition loop_future pc i turns (buffer : list Z) p us msg wakes : fut_state loop unit :=
  mkFut (mkFuture (Some tt) us msg) (mkLoop pc i p turns, mkChannel buffer 1 true) wakes.

(** Inside the client's function the closure leaves the channel alone. *)
Lemma loop_run_inside n k i c :
  (n <= k)%nat -> loop_run n (InFun k) i c = ((InFun (k - n), i, c), Suspended false).
Proof.
  revert k. induction n as [|n IH]; intros k Hk; simpl; [by rewrite Nat.sub_0_r|].
  destruct k as [|k]; [lia|]. simpl. apply IH. lia.
Qed.

Lemma loop_run_finish n k i c :
  (k < n)%nat -> loop_run n (InFun k) i c =
    match answer (calls i) with
    | Some v => ((Ended v, i, c), Completed v)
    | None => ((AtRecv, S i, c), Suspended true)
    end.
Proof.
  revert k. induction n as [|n IH]; intros k Hk; [lia|].
  destruct k as [|k]; simpl; [by destruct (answer (calls i))|]. apply IH. lia.
Qed.

(** A poll that finds room: the closure gets its next turn. *)
Lemma poll_loop pc i n turns p us msg wakes :
  poll (loop_future pc i (n :: turns) [] p us msg wakes) =
    let '((pc', i', c'), p') := loop_run n pc i (mkChannel [msg] 1 true) in
    let st fun_ := mkFut (mkFuture fun_ us msg) (mkLoop pc' i' p' turns, c') in
    match p' with
    | Completed v => (Done (Some (Ready (Ok v))), st None wakes)
    | Suspended true => (Done (Some Pending), st (Some tt) wakes)
    | _ => (Done (Some Pending), st (Some tt) (S wakes))
    end.
Proof.
  unfold poll, loop_future, unwinding, on_engine, on_channel, zoom, mbind, comp_bind, gets, modify.
  cbn. destruct (loop_run n pc i _) as [[[pc' i'] c'] [v|[]|]]; reflexivity.
Qed.

(** A poll that finds the channel full blocks. *)
Lemma poll_full pc i turns x p us msg wakes :
  fst (poll (loop_future pc i turns [x] p us msg wakes)) = Done None.
Proof. reflexivity. Qed.

(** [n] polls in a row, with their results. *)
Fixpoint polls (n : nat) (st : fut_state loop unit)
  : list (exit (option (Poll (result Z Z)))) * fut_state loop unit :=
  match n with
  | O => ([], st)
  | S n => let '(r, st') := poll st in
           let '(rs, st'') := polls n st' in (r :: rs, st'')
  end.

(** C28: A future makes progress as long as its function is not interrupted: if the function is
    given enough steps to finish each of its calls, and says "pending" [n] times before it is
    ready with [v], then the first [n] polls are pending without waking the task, and the next one
    is ready with [v]; the channel is empty again after every poll. *)
Theorem future_completes n i v p us msg wakes turns :
  (forall j, (j < n)%nat -> answer (calls (i + j)) = None) -> answer (calls (i + n)) = Some v ->
  length turns = S n ->
  (forall j t, turns !! j = Some t -> (work (calls (i + j)) + 2 <= t)%nat) ->
  exists l, polls (S n) (loop_future AtRecv i turns [] p us msg wakes) =
    (replicate n (Done (Some Pending)) ++ [Done (Some (Ready (Ok v)))],
     mkFut (mkFuture None us msg) (l, sync_channel 1) wakes).
Proof.
  revert i p turns. induction n as [|n IH]; intros i p turns Hpend Hready Hlen Hturns;
    (destruct turns as [|t turns]; [done|]);
    pose proof (Hturns O t eq_refl) as Ht; rewrite Nat.add_0_r in Ht;
    (destruct t as [|t]; [lia|]).
  - destruct turns; [|done]. rewrite Nat.add_0_r in Hready. cbn [polls].
    rewrite poll_loop. cbn [loop_run loop_step recv ch_buffer ch_bound ch_receiver].
    rewrite loop_run_finish by lia. rewrite Hready. by eexists.
  - pose proof (Hpend O ltac:(lia)) as Hp0. rewrite Nat.add_0_r in Hp0.
    destruct (IH (S i) (Suspended true) turns) as (l & Hl).
    + intros j Hj. rewrite <- (Hpend (S j)) by lia. do 2 f_equal. lia.
    + rewrite <- Hready. do 2 f_equal. lia.
    + simpl in Hlen. lia.
    + intros j t' Hj. specialize (Hturns (S j) t' Hj).
      by replace (S i + j)%nat with (i + S j)%nat by lia.
    + exists l. change (polls (S (S n)) ?st) with
        (let '(r, st') := poll st in let '(rs, st'') := polls (S n) st' in (r :: rs, st'')).
      rewrite poll_loop. cbn [loop_run loop_step recv ch_buffer ch_bound ch_receiver].
      rewrite loop_run_finish by lia. rewrite Hp0. cbv iota beta zeta.
      unfold loop_future in Hl. by rewrite Hl.
Qed.

(** C29: A future whose function times out twice within one call deadlocks: the two polls are
    pending and wake the task, but the message of the second one is still in the channel, so that
    the third poll waits forever for the function that only it could resume. *)
Theorem future_deadlocks i p us msg wakes n1 n2 turns :
  (n1 + n2 <= work (calls i))%nat ->
  exists st, polls 3 (loop_future AtRecv i (S n1 :: n2 :: turns) [] p us msg wakes) =
    ([Done (Some Pending); Done (Some Pending); Done None], st) /\ st_wakes st = S (S wakes).
Proof.
  intros Hw. cbn [polls]. rewrite poll_loop.
  cbn [loop_run loop_step recv ch_buffer ch_bound ch_receiver].
  rewrite loop_run_inside by lia. cbv iota beta zeta.
  change (mkFut _ _ (S wakes)) with
    (loop_future (InFun (work (calls i) - n1)) i (n2 :: turns) [] (Suspended false) us msg (S wakes)).
  rewrite poll_loop. rewrite loop_run_inside by lia. cbv iota beta zeta.
  change (mkFut _ _ (S (S wakes))) with
    (loop_future (InFun (work (calls i) - n1 - n2)) i turns [msg] (Suspended false) us msg
       (S (S wakes))).
  eexists. split; [reflexivity | done].
Qed.
End Loop.
