(* ===== verification/Ffi.v ===== *)
(** * The C interface

    Models [src/ffi.rs]: the functions that C programs call, with the flag that tells them whether
    a function has completed. *)

From S2P Require Import Prelude Signal Reusable Gotcha Pools Timer Tcb World Preemption Linger.
From S2P Require Import Handler Frame Interference Transparency Oneshot Caller Resume Contract.
From S2P Require Import Launch Cancel.

(** [struct Linger] of ffi.rs; the [Lingerer] is at an address. *)
Record ffi_Linger : Type := mkLinger {
  is_complete : bool;
  continuation : nat;
}.

Section Ffi.
Context `{PlatformLaws}.
Implicit Types (μ : machine) (timed : ffi_Linger).

(** Unwinding out of an [extern fn] is undefined behaviour. *)
Definition extern_fn {A} (m : comp machine A) : comp machine A := fun μ =>
  match m μ with (Panicked _, μ') => (Undefined, μ') | r => r end.

(** What the [Lingerer] at an address is. *)
Definition lingerer_completion (id : nat) μ : bool :=
  match m_lingers μ !! id with Some l => is_completion l | None => false end.
Definition lingerer_continuation (id : nat) μ : bool :=
  match m_lingers μ !! id with Some l => is_continuation l | None => false end.

(** [extern fn launch]: [fun_] is the C function applied to its argument. *)
Definition ffi_launch (fun_ : ucode) (us : Z) : comp machine ffi_Linger := extern_fn (
  timed ← launch fun_ us;
  match timed with
  | Ok id =>
      complete ← gets (lingerer_completion id);
      _ ← modify (fun μ => set_lingers (alter erase id (m_lingers μ)) μ);
      mret (mkLinger complete id)
  | Err _ => abort_process "abort"
  end).

(** [extern fn resume]: a null pointer is [None].  The result is [*timed] afterwards. *)
Definition ffi_resume (timed : option ffi_Linger) (us : Z) : comp machine ffi_Linger := extern_fn (
  match timed with
  | Some timed =>
      r ← resume (continuation timed) us;
      match r with
      | Err _ => abort_process "abort"
      | Ok _ =>
          complete ← gets (lingerer_completion (continuation timed));
          mret (mkLinger complete (continuation timed))
      end
  | None => abort_process "abort"
  end).

(** [extern fn cancel]. *)
Definition ffi_cancel (timed : option ffi_Linger) : comp machine ffi_Linger := extern_fn (
  match timed with
  | Some timed =>
      k ← gets (lingerer_continuation (continuation timed));
      if k : bool then
        _ ← assign_linger (continuation timed) (LCompletion 0);
        mret (mkLinger true (continuation timed))
      else mret timed
  | None => abort_process "abort"
  end).

(** [extern fn pause]. *)
Definition ffi_pause : prog unit := pause.

(** The flag says what the [Lingerer] is. *)
Definition in_step timed μ : Prop :=
  is_complete timed = lingerer_completion (continuation timed) μ.

Context (s : Signal) (f : Z) (T : span).
Hypothesis s_maskable : s <> Kill.
Hypothesis T_u64 : until T <= U64.
Hypothesis calls_work : no_failures.

(** C30: Through the C interface [resume] keeps the flag in step with the function: it is set
    exactly when the function has returned, and otherwise the function is still to end with the
    same result.  Only a function that panics, which C code cannot, makes the call undefined. *)
Theorem ffi_resume_in_step b timed r us μ :
  pending_fn s f T b (continuation timed) r μ -> fits T us ->
  match ffi_resume (Some timed) us μ with
  | (Done timed', μ') => in_step timed' μ' /\ continuation timed' = continuation timed /\
      if is_complete timed'
      then exists v, r = Ok v /\ m_lingers μ' !! continuation timed = Some (LCompletion v)
      else pending_fn s f T b (continuation timed) r μ'
  | (Undefined, _) => exists msg, r = Err msg
  | _ => False
  end.
Proof.
  intros (a & g & h & c & t & Hp) Hfit. unfold ffi_resume, extern_fn.
  pose proof (resume_pending s f T s_maskable T_u64 calls_work _ _ _ _ _ _ _ _ _ _ Hp Hfit) as Hm.
  unfold mwp in Hm. unfold mbind, comp_bind.
  destruct (resume (continuation timed) us μ) as [[x|msg| |] μ']; try done.
  - destruct Hm as (-> & _ & Hm). cbn. split; [done|]. split; [done|].
    unfold lingerer_completion.
    destruct Hm as [(v & -> & Hl) | (c' & t' & Hp' & Hl & _)]; rewrite Hl, lookup_insert_eq; simpl.
    + by exists v.
    + by exists a, g, h, c', t'.
  - destruct Hm as (-> & _). by exists msg.
Qed.

(** C31: Cancelling a paused function through the C interface completes it: the flag is set, the
    [Lingerer] becomes a completion, and the function's closure, libset, stack and thread-control
    block are given back; cancelling it again does nothing. *)
Theorem ffi_cancel_completes timed c g st v μ :
  m_lingers μ !! continuation timed = Some (LContinuation c) -> whole c g st v ->
  is_some (errno (stateful c)) = true -> w_group (m_world μ) = SHARED ->
  usable (w_groups (m_world μ)) -> usable (w_stacks (m_world μ)) ->
  stores_ok (w_localstores (m_world μ)) -> Group_renew g = true ->
  let timed' := mkLinger true (continuation timed) in
  exists w μ', quiet (m_world μ) w /\ given_back c g st v w (m_world μ') /\
    ffi_cancel (Some timed) μ = (Done timed', μ') /\
    m_lingers μ' = <[continuation timed := LCompletion 0]> (m_lingers μ) /\
    in_step timed' μ' /\ ffi_cancel (Some timed') μ' = (Done timed', μ').
Proof.
  intros Hl Hw He Hsh Hug Hus Hls Hrn. cbv zeta. set (id := continuation timed) in *.
  set (μ1 := set_lingers (<[id := LCompletion 0]> (m_lingers μ)) μ).
  destruct (main_run (drop_linger (LContinuation c)) μ1) as (w & env & Hq & Hm).
  destruct (drop_paused_run c g st v w) as (o1 & o2 & o & Hx & Hb1 & Hb2 & Hb);
    [done | done | by rewrite (q_group _ _ Hq) | by rewrite (q_groups _ _ Hq)
    | by rewrite (q_stacks _ _ Hq) | by rewrite (q_localstores _ _ Hq) |].
  rewrite Hrn in Hx. rewrite Hx in Hm. set (μ2 := mkMachine _ _ _ _) in Hm.
  exists w, μ2. split; [done|]. split; [by split|].
  assert (m_lingers μ2 !! id = Some (LCompletion 0)) as Hl2 by apply lookup_insert_eq.
  split; [|split; [done|]; split].
  - unfold ffi_cancel, extern_fn. erewrite comp_bind_done by reflexivity.
    unfold lingerer_continuation. fold id. rewrite Hl. cbn [is_continuation].
    erewrite comp_bind_done; [reflexivity|]. unfold assign_linger.
    erewrite comp_bind_done by reflexivity. erewrite comp_bind_done by reflexivity.
    rewrite Hl. exact Hm.
  - unfold in_step, lingerer_completion. cbn [continuation is_complete]. by rewrite Hl2.
  - unfold ffi_cancel, extern_fn. erewrite comp_bind_done by reflexivity.
    unfold lingerer_continuation. cbn [continuation]. by rewrite Hl2.
Qed.
End Ffi.
