(* ===== verification/Header.v ===== *)
(** * The C header

    Models [src/main.rs], which prints the declarations that C programs use, and the layout of the
    two declarations of one struct: [linger_t] in the header, [Linger] in [src/ffi.rs]. *)

From stdpp Require Import pretty.
From S2P Require Import Prelude.

(** ** Layout of C structs *)

(** The size and alignment of a type. *)
Record layout : Set := mkLayout { size_of : Z; align_of : Z }.

(** The next multiple of [al]. *)
Definition round_up (x al : Z) : Z := (x + (al - 1)) / al * al.

(** Where the fields are, and where the last one ends; the alignment of all. *)
Fixpoint place (fields : list layout) (from : Z) : list Z * Z :=
  match fields with
  | [] => ([], from)
  | l :: fields' =>
      let o := round_up from (align_of l) in
      let '(os, e) := place fields' (o + size_of l) in (o :: os, e)
  end.
Definition struct_align (fields : list layout) : Z :=
  foldr (fun l => Z.max (align_of l)) 1%Z fields.
Definition struct_layout (fields : list layout) : layout :=
  mkLayout (round_up (snd (place fields 0)) (struct_align fields)) (struct_align fields).

Lemma round_up_spec x al : 0 < al -> x <= round_up x al < x + al.
Proof.
  intros Hal. unfold round_up. pose proof (Z.div_mod (x + (al - 1)) al ltac:(lia)).
  pose proof (Z.mod_pos_bound (x + (al - 1)) al Hal). lia.
Qed.
Lemma round_up_1 x : round_up x 1 = x.
Proof. unfold round_up. rewrite Z.div_1_r. lia. Qed.

(** ** The declarations *)

(** The fields that the header declares: a [bool], and an array of bytes. *)
Inductive c_field : Type :=
| CBool (name : string)
| CBytes (name : string) (n : Z).

Definition field_layout (c : c_field) : layout :=
  match c with CBool _ => mkLayout 1 1 | CBytes _ n => mkLayout n 1 end.
Definition field_decl (c : c_field) : string :=
  match c with
  | CBool name => "bool " +:+ name +:+ ";"
  | CBytes name n => "uint8_t " +:+ name +:+ "[" +:+ pretty n +:+ "];"
  end%string.

(** [linger_t], given the size of [ffi::Linger]. *)
Definition linger_t (size : Z) : list c_field :=
  [CBool "is_complete"; CBytes "continuation" size].

(** [main]: what it prints, line by line. *)
Definition header_text (size : Z) : list string :=
  ["#ifndef LIBINGER_H_"; "#define LIBINGER_H_"; "";
   "#include <stdbool.h>"; "#include <stdint.h>"; "";
   "typedef struct {"] ++ (field_decl <$> linger_t size) ++ ["} linger_t;"; "";
   "linger_t launch(void (*)(void *), uint64_t, void *);";
   "void resume(linger_t *, uint64_t);";
   "void cancel(linger_t *);"; "";
   "void pause(void);"; "";
   "#endif"]%string.

(** [ffi::Linger], which is [repr(C)]: a [bool], and a [Lingerer] of which Rust decides the
    layout. *)
Definition rust_linger (lingerer : layout) : layout :=
  struct_layout [mkLayout 1 1; lingerer].

(** The struct that C programs allocate. *)
Definition c_linger (lingerer : layout) : layout :=
  struct_layout (field_layout <$> linger_t (size_of (rust_linger lingerer))).

Example header_declares : nth 8 (header_text 56) "" = "uint8_t continuation[56];".
Proof. reflexivity. Qed.

(** C32: The struct that the header declares has room for the one that the library writes, with the
    flag in the same place, whatever layout the compiler chooses for the [Lingerer]; but it is an
    array of bytes, so that C may place it where the library's struct must not be. *)
Theorem header_layout lingerer :
  1 < align_of lingerer ->
  1 + size_of lingerer <= size_of (rust_linger lingerer) < size_of (c_linger lingerer) /\
  head (fst (place [mkLayout 1 1; lingerer] 0)) =
    head (fst (place (field_layout <$> linger_t (size_of (rust_linger lingerer))) 0)) /\
  exists p, p mod align_of (c_linger lingerer) = 0 /\ p mod align_of (rust_linger lingerer) <> 0.
Proof.
  intros Hal. set (n := size_of (rust_linger lingerer)).
  assert (size_of (c_linger lingerer) = 1 + n) as ->.
  { unfold c_linger. cbn. fold n. by rewrite !round_up_1. }
  split; [|split; [done|]; exists 1].
  { unfold n, rust_linger. cbn [struct_layout place struct_align foldr size_of align_of fst snd].
    rewrite round_up_1, Z.add_0_l. pose proof (round_up_spec 1 (align_of lingerer) ltac:(lia)).
    pose proof (round_up_spec (round_up 1 (align_of lingerer) + size_of lingerer)
      (1 `max` (align_of lingerer `max` 1)) ltac:(lia)). lia. }
  split; [done|].
  unfold rust_linger. cbn [struct_layout align_of struct_align foldr].
  rewrite Z.mod_small by lia. done.
Qed.

(** With the layout of a [Lingerer] on x86-64. *)
Lemma header_layout_witness :
  1 + 48 <= size_of (rust_linger (mkLayout 48 8)) < size_of (c_linger (mkLayout 48 8)) /\
  exists p, p mod align_of (c_linger (mkLayout 48 8)) = 0 /\
    p mod align_of (rust_linger (mkLayout 48 8)) <> 0.
Proof.
  destruct (header_layout (mkLayout 48 8) ltac:(simpl; lia)) as (Hs & _ & Hp).
  split; [exact Hs | exact Hp].
Defined.
