(* ===== verification/Profiler.v ===== *)
(** * The profiler

    Models [src/profiler.rs]: a thread-local stopwatch that collects durations, and the handler for
    SIGINT that it registers.  The printing of the average when it is dropped is left at the two
    numbers that are divided. *)

From S2P Require Import Prelude Signal Reusable Gotcha Pools Timer Tcb World Preemption Linger.
From S2P Require Import Handler.

(** [struct Profiler]; [past] is a queue with its back at the end. *)
Record Profiler : Set := mkProfiler {
  past : list Z;
  present : Z;
}.
Definition Profiler_default : Profiler := mkProfiler [] 0.

Section Profiler.
Context `{Platform}.

(** What the profiler works on: the thread-local [PROFILER] and whether it is borrowed, the static
    [ONCE] of [begin], and the world. *)
Record prof_state : Type := mkProf {
  pr_slot : option Profiler;
  pr_borrowed : bool;
  pr_once : bool;
  pr_world : world;
}.

(** Code that runs with the profiler borrowed. *)
Abbreviation prof_code := (comp (Profiler * (bool * world))).

Definition on_world {A} (p : prog A) : prof_code A :=
  zoom (fun s => snd (snd s)) (fun w s => (fst s, (fst (snd s), w))) (exec p).
Definition set_profiler (p : Profiler) : prof_code unit := modify (fun s => (p, snd s)).

(** [with_profiler]. *)
Definition with_profiler {A} (fun_ : prof_code A) : comp prof_state A := fun s =>
  if pr_borrowed s then (Panicked "already borrowed: BorrowMutError", s)
  else
    let '(r, (p, (once, w))) :=
      fun_ (default Profiler_default (pr_slot s), (pr_once s, pr_world s)) in
    (r, mkProf (Some p) false once w).

(** [u64] subtraction. *)
Definition sub_u64 (x y : Z) : prog Z :=
  if y <=? x then mret (x - y)
  else if debug_assertions then PPanic "attempt to subtract with overflow"
  else mret (wrap_u64 (x - y)).

(** [Profiler::begin]; [interrupt] is the address of the handler. *)
Definition begin (interrupt : Z) : prof_code unit :=
  once ← gets (fun s => fst (snd s));
  _ ← (if once : bool then mret tt
       else _ ← on_world (syscall (sigaction Interrupt
                  (ASigaction (Sigaction_new interrupt set_empty 0))));
            modify (fun s => (fst s, (true, snd (snd s)))));
  now ← on_world nsnow;
  p ← gets fst;
  set_profiler (mkProfiler (past p) now).

(** [Profiler::end]. *)
Definition end_ : prof_code bool :=
  p ← gets fst;
  if negb (present p =? 0) then
    d ← on_world (now ← nsnow; sub_u64 now (present p));
    _ ← set_profiler (mkProfiler (vec_push (past p) d) 0);
    mret true
  else mret false.

(** [impl Drop for Profiler]: the sum and the length whose quotient is printed. *)
Fixpoint sum_u64 (l : list Z) (acc : Z) : prog Z :=
  match l with
  | [] => mret acc
  | x :: l' => acc ← arith_u64 (acc + x) "attempt to add with overflow"; sum_u64 l' acc
  end.
Definition Profiler_drop (p : Profiler) : prog (Z * Z) :=
  sum ← sum_u64 (past p) 0; mret (sum, Z.of_nat (length (past p))).

(** [fn interrupt], given the name of the current thread; [Some code] ends the process. *)
Definition profiler_interrupt (name : option string) : prog (option Z) :=
  match name with
  | None => PAbort "abort"
  | Some n =>
      if negb (String.eqb n "main") then mret (Some 100)
      else _ ← syscall (pthread_sigmask Block (set_add set_empty Interrupt)); mret None
  end.
End Profiler.

Section ProfilerFacts.
Context `{PlatformLaws}.

Lemma on_world_nsnow p once w :
  is_u64 (w_clock w) -> on_world nsnow (p, (once, w)) = (Done (w_clock w), (p, (once, w))).
Proof.
  intros Hc. unfold on_world, zoom. cbn [fst snd].
  pose proof (exec_nsnow (fun x => mret x) w Hc) as Hn. rewrite exec_bind in Hn.
  unfold mbind, comp_bind in Hn. destruct (exec nsnow w) as [[] w']; simplify_eq/=; done.
Qed.

(** The time between two readings of the clock. *)
Lemma on_world_elapsed p once w t0 :
  is_u64 (w_clock w) -> t0 <= w_clock w ->
  on_world (now ← nsnow; sub_u64 now t0) (p, (once, w)) =
    (Done (w_clock w - t0), (p, (once, w))).
Proof.
  intros Hc Ht. unfold on_world, zoom. cbn [fst snd]. rewrite exec_nsnow by done.
  unfold sub_u64. apply Z.leb_le in Ht. by rewrite Ht.
Qed.

Lemma sum_u64_run l acc w :
  Forall (fun x => 0 <= x) l -> 0 <= acc -> foldl Z.add acc l < U64 ->
  exec (sum_u64 l acc) w = (Done (foldl Z.add acc l), w).
Proof.
  revert acc. induction l as [|x l IH]; intros acc Hl Ha Hs; [done|]. simpl in *.
  apply Forall_cons in Hl as [Hx Hl].
  assert (acc + x <= foldl Z.add (acc + x) l) as Hle.
  { clear - Hl. revert Hl. generalize (acc + x) as y. induction l as [|z l IH]; simpl; intros y Hl;
      [lia|]. apply Forall_cons in Hl as [Hz Hl]. specialize (IH (y + z) Hl). lia. }
  rewrite arith_u64_small by (unfold is_u64; lia). rewrite exec_ret. by apply IH; [| lia |].
Qed.

(** [begin] registers the handler once, and reads the clock. *)
Lemma begin_run interrupt p once w :
  is_u64 (w_clock w) -> exists k, begin interrupt (p, (once, w)) =
    (Done tt, (mkProfiler (past p) (w_clock w), (true, set_kernel k w))).
Proof.
  intros Hc. destruct once.
  - exists (w_kernel w). unfold begin. erewrite comp_bind_done by reflexivity.
    cbn [fst snd]. erewrite comp_bind_done by reflexivity.
    erewrite comp_bind_done by by apply on_world_nsnow.
    erewrite comp_bind_done by reflexivity. by destruct w.
  - destruct (sigaction Interrupt (ASigaction (Sigaction_new interrupt set_empty 0))
      (w_kernel w)) as [r k] eqn:Hs.
    assert (exists x, r = Done x) as [x ->].
    { unfold sigaction in Hs. destruct (c_sigaction _ _ _). case_match; simplify_eq; eauto. }
    exists k. unfold begin. erewrite comp_bind_done by reflexivity. cbn [fst snd].
    erewrite comp_bind_done; last first.
    { erewrite comp_bind_done; [reflexivity|]. unfold on_world, zoom. cbn [fst snd].
      unfold syscall. simpl. rewrite Hs. reflexivity. }
    cbn [fst snd]. erewrite comp_bind_done by by apply on_world_nsnow.
    by erewrite comp_bind_done by reflexivity.
Qed.

Lemma end_run p once w :
  is_u64 (w_clock w) -> present p <> 0 /\ present p <= w_clock w ->
  end_ (p, (once, w)) =
    (Done true, (mkProfiler (past p ++ [w_clock w - present p]) 0, (once, w))).
Proof.
  intros Hc [Hp Hle]. unfold end_. erewrite comp_bind_done by reflexivity. cbn [fst].
  apply Z.eqb_neq in Hp. rewrite Hp. cbn [negb].
  erewrite comp_bind_done by by apply on_world_elapsed. done.
Qed.

(** A sequence of measurements: the world at each [begin] and at the [end] that follows it. *)
Fixpoint measure (interrupt : Z) (l : list (world * world)) (s : Profiler * bool)
  : exit unit * (Profiler * bool) :=
  match l with
  | [] => (Done tt, s)
  | (w1, w2) :: l' =>
      match begin interrupt (fst s, (snd s, w1)) with
      | (Done _, (p, (once, _))) =>
          match end_ (p, (once, w2)) with
          | (Done _, (p', (once', _))) => measure interrupt l' (p', once')
          | (Panicked m, (p', (once', _))) => (Panicked m, (p', once'))
          | (_, (p', (once', _))) => (Undefined, (p', once'))
          end
      | (Panicked m, (p, (once, _))) => (Panicked m, (p, once))
      | (_, (p, (once, _))) => (Undefined, (p, once))
      end
  end.

(** C33: The profiler records how long each measured stretch took: after any sequence of [begin] and
    [end] with a clock that is past the epoch and not set back in between, the collected durations
    are the differences of the clock readings, in order; no measurement is open, so that another
    [end] returns false and changes nothing; and the sum that is printed does not overflow as long
    as it is less than 2^64 nanoseconds. *)
Theorem profiler_measures interrupt l p once w :
  present p = 0 -> Forall (fun x => 0 <= x) (past p) ->
  Forall (fun '(w1, w2) => 0 < w_clock w1 /\ w_clock w1 <= w_clock w2 /\ w_clock w2 < U64) l ->
  let ds := (fun '(w1, w2) => w_clock w2 - w_clock w1) <$> l in
  exists once', let p' := mkProfiler (past p ++ ds) 0 in
    measure interrupt l (p, once) = (Done tt, (p', once')) /\
    end_ (p', (once', w)) = (Done false, (p', (once', w))) /\
    (foldl Z.add 0 (past p ++ ds) < U64 ->
     exec (Profiler_drop p') w =
       (Done (foldl Z.add 0 (past p ++ ds), Z.of_nat (length (past p ++ ds))), w)).
Proof.
  cbv zeta. revert p once. induction l as [|[w1 w2] l IH]; intros p once Hp Hpos Hl.
  - exists once. rewrite fmap_nil, app_nil_r. destruct p as [pa pr]. simpl in Hp. subst pr.
    split; [done|]. split; [done|]. intros Hs. unfold Profiler_drop.
    rewrite exec_bind. erewrite comp_bind_done by by apply sum_u64_run. done.
  - apply Forall_cons in Hl as [(H1 & H2 & H3) Hl]. cbn [measure].
    destruct (begin_run interrupt p once w1) as (k & Hb); [unfold is_u64; lia|].
    cbn [fst snd]. rewrite Hb.
    rewrite end_run by (simpl; unfold is_u64; lia). cbn [past present].
    destruct (IH (mkProfiler (past p ++ [w_clock w2 - w_clock w1]) 0) true) as (once' & IH');
      [done | | done |].
    { simpl. apply Forall_app. split; [done|]. apply Forall_singleton. lia. }
    exists once'. rewrite fmap_cons. simpl in IH'. by rewrite <- app_assoc in IH'.
Qed.
End ProfilerFacts.
