(* ===== verification/Examples.v ===== *)
(** * Witnesses

    A concrete platform, the Linux C library with three libsets, and a process on it that has
    launched its first function; the theorems about [launch], [resume] and the handler hold of it. *)

From S2P Require Import Prelude Signal Linux Reusable Gotcha Pools Timer Tcb World Preemption Linger.
From S2P Require Import Handler Frame Interference Transparency Oneshot Caller Resume Contract.
From S2P Require Import Launch Preempt Setup Cancel Failure Ownership Session Custody Service Future Ffi Profiler.

Module Process.

(** A platform on which every call succeeds, except that the kernel refuses the thread-control
    block at [refused]; [restores] says whether returning to a linked context restores the mask. *)
Definition platform (restores : bool) (refused : option Z) : Platform := {|
  plat_libc := Linux.libc; plat_gotcha := Libsets.gotcha 3; plat_ld := LdExample.ld refused;
  debug_assertions := true; preempt_addr := 4096; handler_errno _ := 35;
  makecontext_err _ := None; restorecontext_err _ := None; sigsetcontext_err _ := None;
  link_restores_mask := restores;
|}.
Abbreviation plat := (platform true).

#[export] Instance laws refused : @PlatformLaws (plat refused).
Proof. split; [exact Linux.laws | exact (Libsets.laws 3) | exact (LdExample.laws refused)]. Qed.

(** The process before its first [launch], at a time in 2023.  It has two threads, whose blocks are at
    10 and at 9; the first one runs. *)
Definition now : Z := 1700000000000000000.
Section Untouched.
Context (restores : bool).
#[local] Instance place : Platform := platform restores None.
Definition untouched_on : world := {|
  w_clock := now; w_kernel := Linux.kernel0; w_group := SHARED; w_errno := ∅;
  w_tcb := mkTcb 10 (<[9 := mkBlock LdExample.caller_words tls0]>
                    (<[10 := mkBlock LdExample.caller_words tls0]> ∅)) [];
  w_tid := 0%nat; w_signalers := ∅; w_signals := OnceNew; w_groups := OnceNew;
  w_stacks := OnceNew; w_localstores := OnceNew; w_heap := ∅; w_hooked := false; w_uc := None;
|}.
End Untouched.

#[export] Instance here : Platform := plat None.

Lemma calls_work : no_failures.
Proof. done. Qed.

Definition untouched : world := untouched_on true.
Definition start : machine := mkMachine untouched ∅ [] ∅.

(** The process once a first function has run, with [events] to come. *)
Definition warm_world : world := Eval vm_compute in m_world (snd (launch (URet 0) 1000 start)).
Definition warm_lingers : gmap nat Linger :=
  Eval vm_compute in m_lingers (snd (launch (URet 0) 1000 start)).
Definition warm (events : list tick) : machine := mkMachine warm_world ∅ events warm_lingers.

Lemma warm_reached : launch (URet 0) 1000 start = (Done (Ok 0%nat), warm []).
Proof. reflexivity. Qed.

(** A time far enough away, and a clock that is not set back. *)
Definition horizon : span := mkSpan 1800000000000000000 true.

(** Check an equation by evaluating its left-hand side. *)
Ltac by_vm := match goal with |- _ = ?y => vm_cast_no_check (eq_refl y) end.

(** The block that the next function gets, and what an earlier one left in it. *)
Definition a : Z := 13.
Definition g : Group := 1%nat.
Definition t : tls := Eval vm_compute in
  match blocks (w_tcb warm_world) !! a with Some b => locals b | None => tls0 end.

Lemma warm_ready events : ready Alarm 10 a g t (m_world (warm events)).
Proof.
  split; try reflexivity.
  - left. split; [eexists; by split | reflexivity].
  - right. by eexists _, _.
  - eexists. split; [reflexivity|]. by eexists _, _.
  - eexists _, _. split; [reflexivity|]. split; [by eexists _, _|]. split; [done|].
    split; [|split; [|done]];
      (eexists; split; [reflexivity | apply Nat.ltb_lt; reflexivity]).
Qed.

Lemma warm_fit : fit_for_use 10 a g t.
Proof. by split_and!. Qed.

(** The process before its first [launch] is ready too: the thread gets its signal on the way. *)
Definition cold (events : list tick) : machine := mkMachine untouched ∅ events ∅.

Lemma kernel_grants s k : exists tm k',
  ps_configure s preempt_addr QUANTUM_MICROSECS k = (Done (Ok tm), k').
Proof.
  unfold ps_configure. cbv zeta. do 2 (erewrite try_bind_ok by (by destruct s)).
  erewrite try_bind_ok by reflexivity. do 2 (erewrite comp_bind_done by reflexivity).
  erewrite try_bind_ok; [eexists _, _; reflexivity|].
  unfold timer_settime. cbn. by rewrite lookup_insert_eq.
Qed.

(** The thread-control blocks that the first [launch] allocates. *)
Definition cold_stores : once (Mutex (list (option ThreadControlBlock))) * tcb_state tls :=
  Eval vm_compute in snd (alloc_localstore tls0 (OnceNew, w_tcb untouched)).
Lemma cold_alloc : alloc_localstore tls0 (OnceNew, w_tcb untouched) =
  (Done (mkReusable (Some (Some (Some (Mut a))))), cold_stores).
Proof. by_vm. Qed.

Lemma cold_ready events : ready Alarm 10 a g tls0 (m_world (cold events)).
Proof.
  split; try reflexivity.
  - right. split_and!; [done | by eexists _, _ | apply kernel_grants].
  - by left.
  - eexists. split; [reflexivity|]. by eexists _, _.
  - exists (fst cold_stores), (snd cold_stores). split; [exact cold_alloc|].
    split; [by eexists _, _|]. split; [done|]. split; [|split; [|done]];
      (eexists; split; [reflexivity | apply Nat.ltb_lt; reflexivity]).
Qed.

Lemma cold_fit : fit_for_use 10 a g tls0.
Proof. by split_and!. Qed.

(** A function that computes for a while and calls a nonpreemptible library function, one that
    yields, and one that panics. *)
Definition worker : ucode := UStep (USetErrno 4 (UShared 2 (UGetErrno (fun e => URet (e + 1))))).
Definition polite : ucode := USetErrno 9 (UPause (UGetErrno (fun e => URet e))).
Definition broken : ucode := UStep (UPanic "index out of bounds").

Lemma worker_steady : never_pauses worker.
Proof. done. Qed.

(** 200 microseconds pass at every step, and the thread's signal arrives. *)
Definition busy : list tick := replicate 60 (mkTick 200000 [Alarm]).
Lemma busy_clock : clock_ok horizon now busy.
Proof. unfold busy. vm_compute. repeat split; discriminate. Qed.
Lemma idle_clock : clock_ok horizon now [].
Proof. by vm_compute. Qed.

Lemma launch_zero_defers_witness :
  exists id h c μ', launch worker 0 (warm busy) = (Done (Ok id), μ') /\
    m_lingers (warm busy) !! id = None /\
    pending_at Alarm 10 horizon a g h c false id (Ok 5) t μ' /\
    m_lingers μ' = <[id := LContinuation c]> warm_lingers /\
    w_heap (m_world μ') = <[h := Function worker]> (w_heap warm_world).
Proof.
  apply (launch_zero_defers Alarm 10 horizon false worker a g t (warm busy));
    [apply warm_ready | apply warm_fit | apply busy_clock | right; apply worker_steady].
Defined.

(** The machine after a [launch] that did not panic. *)
Abbreviation after_launch u us events := (snd (launch u us (warm events))).

Lemma short_budget us : 0 <= us <= 1000000 -> fits horizon us.
Proof. intros Hus. split; [lia|]. right. unfold horizon, U64. simpl. lia. Qed.

(** The result of a computation, checked by evaluation, and the state it leaves. *)
Lemma evaluated {S A} (m : comp S A) x s : fst (m s) = x -> m s = (x, snd (m s)).
Proof. intros <-. by destruct (m s). Qed.

Lemma mwp_evaluated {A} (m : comp machine A) Φ Ψ μ x :
  mwp m Φ Ψ μ -> fst (m μ) = Done x -> Φ x (snd (m μ)).
Proof. unfold mwp. intros Hm Hx. by destruct (m μ) as [[] ?]; simplify_eq/=. Qed.

(** The computation at [id] is still to be continued. *)
Definition unfinished (id : nat) (μ : machine) : bool :=
  match m_lingers μ !! id with Some (LContinuation c) => is_some (errno (stateful c)) | _ => false end.

Lemma unfinished_insert id id' v lg μ :
  unfinished id μ = true -> m_lingers μ = <[id' := LCompletion v]> lg -> id <> id'.
Proof.
  unfold unfinished. intros Hu Hl ->. by rewrite Hl, lookup_insert_eq in Hu.
Qed.

Lemma unfinished_at id μ :
  unfinished id μ = true -> exists c, m_lingers μ !! id = Some (LContinuation c).
Proof. unfold unfinished. repeat case_match; try done. eauto. Qed.

Lemma launch_refines_witness :
  launch worker 1000 (cold busy) = (Done (Ok 0%nat), snd (launch worker 1000 (cold busy))) /\
  pending_fn Alarm 10 horizon false 0%nat (Ok 5) (snd (launch worker 1000 (cold busy))).
Proof.
  pose proof (launch_refines Alarm 10 horizon ltac:(done) ltac:(done) calls_work
    false worker 1000 a g tls0 (cold busy) (cold_ready _) cold_fit busy_clock
    (or_intror worker_steady) (short_budget 1000 ltac:(lia)) ltac:(lia)) as Hm.
  cbv zeta in Hm.
  assert (fst (launch worker 1000 (cold busy)) = Done (Ok 0%nat)) as Hx by by_vm.
  assert (unfinished 0 (snd (launch worker 1000 (cold busy))) = true) as Hu by by_vm.
  rewrite (evaluated _ _ _ Hx) in Hm. split; [exact (evaluated _ _ _ Hx)|].
  destruct Hm as [_ [(v & _ & Hl)|Hp]]; [|exact Hp]. by destruct (unfinished_insert _ _ _ _ _ Hu Hl).
Defined.

(** ** Two functions: one that has yielded, and one that has not started *)

Abbreviation yielding := (after_launch polite 1000 []).

Lemma yielding_launched : fst (launch polite 1000 (warm [])) = Done (Ok 1%nat).
Proof. by_vm. Qed.
Lemma yielding_unfinished : unfinished 1 (snd (launch polite 1000 (warm []))) = true.
Proof. by_vm. Qed.
Lemma yielding_result : (ueval polite (errno_at (m_world (warm [])) (a, g))).1 = Ok 9.
Proof. by_vm. Qed.

Lemma yielding_pending : exists h c t',
  pending_at Alarm 10 horizon a g h c true 1%nat (Ok 9) t' yielding.
Proof.
  pose proof (mwp_evaluated _ _ _ _ _ (launch_run Alarm 10 horizon ltac:(done) ltac:(done)
    calls_work true polite 1000 a g t (Ok 9) (warm []) (warm_ready _) warm_fit idle_clock
    (or_introl eq_refl) (short_budget 1000 ltac:(lia)) ltac:(lia) yielding_result)
    yielding_launched) as Hm.
  destruct Hm as (id & [= <-] & _ & [(v & _ & Hl)|(h & c & t' & Hp & _)]).
  - by destruct (unfinished_insert _ _ _ _ _ yielding_unfinished Hl).
  - by exists h, c, t'.
Qed.

Definition two_world : world := Eval vm_compute in m_world (snd (launch worker 0 yielding)).
Definition two_lingers : gmap nat Linger :=
  Eval vm_compute in m_lingers (snd (launch worker 0 yielding)).
(** [saved] are the computations set aside, [events] the ticks to come. *)
Definition two (saved : gmap nat (prog unit)) (events : list tick) : machine :=
  mkMachine two_world saved events two_lingers.

(** The two continuations. *)
Definition resting : Continuation :=
  mkContinuation 0%nat (mkTask (Some 9) (Some (mkContext
    (mkReusable (Some {| stack_alloc := 2; stack_len := 2097152 |})) (0 : @sigset_t Linux.types)
    (Saved 0))) true) (mkReusable (Some 1%nat)) (mkReusable (Some (Some (Some (Mut 13))))).
Definition waiting : Continuation :=
  mkContinuation 1%nat Task_default (mkReusable (Some 2%nat))
    (mkReusable (Some (Some (Some (Mut 12))))).

Lemma yielding_linger : m_lingers yielding !! 1%nat = Some (LContinuation resting).
Proof. by_vm. Qed.
Lemma yielding_cell : w_heap (m_world yielding) !! 0%nat = Some Empty.
Proof. by_vm. Qed.

(** The rest of the function that has yielded, as [launch] left it. *)
Lemma resting_suspended : exists rest, m_saved yielding !! 0%nat = Some rest /\
  continuable a g 0%nat Alarm horizon (mkReusable (Some {| stack_alloc := 2; stack_len := 2097152 |}))
    true rest 9 (Some Empty) (Ok 9).
Proof.
  destruct yielding_pending as (h & c & t' & [Hl _ _ Ho _ _ _ (e & cell & Hat & Hres)]).
  rewrite yielding_linger in Hl. injection Hl as <-. destruct Ho as [Hh _].
  cbn [functional resting] in Hh. subst h.
  pose proof (at_heap _ _ _ _ _ _ _ _ _ _ _ _ _ _ Hat) as Hcell. rewrite yielding_cell in Hcell.
  subst cell. destruct Hres as [[Hfr _] | (e' & st & m & n & rest & y & Hst & Hn & _ & Hs)].
  - discriminate Hfr.
  - injection Hst as <- <- <- <- <-. exists rest. exact (conj Hn Hs).
Qed.

Ltac alive_block := eexists; split; [reflexivity | apply Nat.ltb_lt; reflexivity].

Lemma two_around a' g' h c t e cell :
  a' = 12 \/ a' = 13 -> g' <> SHARED -> owns a' g' h c -> parked t -> TASK t = Task_default ->
  locals <$> blocks (w_tcb two_world) !! a' = Some t ->
  errno_at two_world (a', g') = e -> w_heap two_world !! h = cell ->
  at_ a' g' h Alarm two_world horizon now (false, is_some (errno (stateful c))) 10 SHARED t e cell
    two_world /\ installable a' g' 10 two_world.
Proof.
  intros Ha Hg Ho Hp HT Hloc He Hcell. split.
  - split; try done.
    + left. split; [eexists; by split | reflexivity].
    + right. by eexists _, _.
    + intros _. by eexists _, _.
    + by eexists _, _.
    + by eexists _, _.
  - assert (live (w_tcb two_world) 12 /\ live (w_tcb two_world) 13) as [H12 H13]
      by (split; alive_block).
    by destruct Ha as [->| ->]; (split; [|split; [alive_block|]]).
Qed.

Definition resting_vars : tls := mkTls None false None Task_default 0 (Some 1%nat) false.

Lemma resting_pending saved events rest :
  saved !! 0%nat = Some rest ->
  continuable a g 0%nat Alarm horizon (mkReusable (Some {| stack_alloc := 2; stack_len := 2097152 |}))
    true rest 9 (Some Empty) (Ok 9) ->
  clock_ok horizon now events ->
  pending_at Alarm 10 horizon 13 1%nat 0%nat resting true 1%nat (Ok 9) resting_vars
    (two saved events).
Proof.
  intros Hn Hs Hc.
  destruct (two_around 13 1%nat 0%nat resting resting_vars 35 (Some Empty)) as [Hat Hi];
    [by right | done.. |].
  split; [done | done | exact Hc | done | exact Hi | done | done |].
  exists 35, (Some Empty). split; [exact Hat|]. right.
  by eexists 9, _, _, 0%nat, rest, true.
Qed.

Lemma waiting_pending saved events :
  clock_ok horizon now events ->
  pending_at Alarm 10 horizon 12 2%nat 1%nat waiting false 2%nat (Ok 5) tls0 (two saved events).
Proof.
  intros Hc.
  destruct (two_around 12 2%nat 1%nat waiting tls0 0 (Some (Function worker))) as [Hat Hi];
    [by left | done.. |].
  split; [done | done | exact Hc | done | exact Hi | done | done |].
  exists 0, (Some (Function worker)). split; [exact Hat|]. left. split; [done|].
  exists worker. split_and!; [done | done | right; apply worker_steady].
Qed.

(** ** Witnesses of the theorems about [resume] *)

Definition crowded : machine := two ∅ busy.

Lemma crowded_pending : pending_fn Alarm 10 horizon false 2%nat (Ok 5) crowded.
Proof. exists 12, 2%nat, 1%nat, waiting, tls0. apply waiting_pending, busy_clock. Qed.

Lemma two_budget : fits horizon 1000.
Proof. apply short_budget. lia. Qed.

Lemma resume_refines_witness :
  match resume 2%nat 1000 crowded with
  | (Done (Ok _), μ') =>
      (exists v, Ok 5 = Ok (E := string) v /\ m_lingers μ' !! 2%nat = Some (LCompletion v)) \/
      pending_fn Alarm 10 horizon false 2%nat (Ok 5) μ'
  | (Panicked msg, μ') => Ok 5 = Err (A := Z) msg /\ m_lingers μ' !! 2%nat = Some LPoison
  | _ => False
  end.
Proof.
  exact (resume_refines Alarm 10 horizon ltac:(done) ltac:(done) calls_work false 2%nat (Ok 5)
    1000 crowded crowded_pending two_budget).
Defined.

(** What the calls on this machine return. *)
Lemma crowded_result : fst (resume 2%nat 1000 crowded) = Done (Ok tt).
Proof. by_vm. Qed.

Lemma resume_restores_caller_witness :
  exists μ', resume 2%nat 1000 crowded = (Done (Ok tt), μ') /\
  fs_base (w_tcb (m_world μ')) = 10 /\ w_group (m_world μ') = SHARED /\
  blocked (w_kernel (m_world μ')) Alarm = true /\ w_uc (m_world μ') = None /\
  (forall y, y <> 12 -> locals <$> blocks (w_tcb (m_world μ')) !! y =
     locals <$> blocks (w_tcb (m_world crowded)) !! y) /\
  (forall y grp, y <> 12 -> errno_at (m_world μ') (y, grp) = errno_at (m_world crowded) (y, grp)) /\
  (forall y, y <> 1%nat -> w_heap (m_world μ') !! y = w_heap (m_world crowded) !! y).
Proof.
  exists (snd (resume 2%nat 1000 crowded)). split; [exact (evaluated _ _ _ crowded_result)|].
  exact (resume_restores_caller Alarm 10 horizon ltac:(done) ltac:(done) calls_work
    12 2%nat 1%nat waiting false 2%nat (Ok 5) tls0 1000 crowded _ _
    (waiting_pending ∅ busy busy_clock) two_budget (evaluated _ _ _ crowded_result)).
Defined.

Lemma crowded_paused :
  match m_lingers (snd (resume 2%nat 1000 crowded)) !! 2%nat with
  | Some (LContinuation c) => Some (is_some (errno (stateful c)), yielded (stateful c))
  | _ => None
  end = Some (true, false).
Proof. by_vm. Qed.

Lemma resume_respects_budget_witness : exists μ',
  resume 2%nat 1000 crowded = (Done (Ok tt), μ') /\ now + 1000000 <= w_clock (m_world μ').
Proof.
  pose proof crowded_paused as Hp. pose proof (evaluated _ _ _ crowded_result) as Hr.
  set (μ' := snd (resume 2%nat 1000 crowded)) in *. exists μ'. split; [exact Hr|].
  destruct (m_lingers μ' !! 2%nat) as [[v|c'|]|] eqn:Hl; try discriminate Hp.
  injection Hp as _ Hy.
  pose proof (resume_respects_budget Alarm 10 horizon ltac:(done) ltac:(done) calls_work false 2%nat
    (Ok 5) 1000 crowded (Ok tt) μ' c' crowded_pending two_budget ltac:(done) ltac:(done) Hr Hl) as Hb.
  rewrite Hy in Hb. exact Hb.
Defined.

Lemma resume_unlimited_completes_witness :
  match resume 2%nat u64_max crowded with
  | (Done (Ok _), μ') =>
      exists v, Ok 5 = Ok (E := string) v /\ m_lingers μ' !! 2%nat = Some (LCompletion v)
  | (Panicked msg, μ') => Ok 5 = Err (A := Z) msg /\ m_lingers μ' !! 2%nat = Some LPoison
  | _ => False
  end.
Proof.
  exact (resume_unlimited_completes Alarm 10 horizon ltac:(done) ltac:(done) calls_work 2%nat (Ok 5)
    u64_max crowded crowded_pending ltac:(done) ltac:(done) ltac:(done)).
Defined.

Lemma crowded_zero : fst (resume 2%nat 0 crowded) = Done (Ok tt).
Proof. by_vm. Qed.
Lemma crowded_zero_paused : unfinished 2 (snd (resume 2%nat 0 crowded)) = true.
Proof. by_vm. Qed.

Lemma resume_enters_witness : exists μ' c' n rest,
  resume 2%nat 0 crowded = (Done (Ok tt), μ') /\
  m_lingers μ' !! 2%nat = Some (LContinuation c') /\
  slot c' = Some n /\ m_saved μ' !! n = Some rest.
Proof.
  destruct (unfinished_at _ _ crowded_zero_paused) as [c' Hc].
  pose proof (evaluated _ _ _ crowded_zero) as Hr.
  set (μ' := snd (resume 2%nat 0 crowded)) in *.
  pose proof (resume_enters Alarm 10 horizon ltac:(done) ltac:(done) calls_work false 2%nat (Ok 5) 0
    crowded waiting (Done (Ok tt)) μ' crowded_pending (short_budget 0 ltac:(lia)) eq_refl eq_refl Hr)
    as Hm. rewrite Hc in Hm.
  destruct Hm as (e & st & m & n & rest & Hs & _ & Hn). exists μ', c', n, rest.
  refine (conj Hr (conj Hc (conj _ Hn))). unfold slot. rewrite Hs. reflexivity.
Defined.

Lemma resume_keeps_others_witness : exists rest μ',
  resume 2%nat 1000 (two (<[0%nat := rest]> ∅) busy) =
    (fst (resume 2%nat 1000 (two (<[0%nat := rest]> ∅) busy)), μ') /\
  pending_at Alarm 10 horizon 13 1%nat 0%nat resting true 1%nat (Ok 9) resting_vars μ'.
Proof.
  destruct resting_suspended as (rest & _ & Hs). exists rest.
  set (μ := two (<[0%nat := rest]> ∅) busy). exists (snd (resume 2%nat 1000 μ)).
  split; [exact (surjective_pairing _)|].
  refine (resume_keeps_others Alarm 10 horizon ltac:(done) ltac:(done) calls_work
    12 2%nat 1%nat waiting false 2%nat (Ok 5) tls0 13 1%nat 0%nat resting true 1%nat (Ok 9)
    resting_vars 1000 μ _ _ (waiting_pending _ busy busy_clock)
    (resting_pending _ busy rest (lookup_insert_eq _ _ _) Hs busy_clock)
    ltac:(done) ltac:(done) ltac:(done) ltac:(by intros n _) two_budget (surjective_pairing _)).
Defined.

(** All libsets are in use. *)
Definition full_world : world :=
  set_groups (OnceDone (mkPool (C := Mutex) (fresh_cell []) (3%nat : @gotcha_state (Libsets.gotcha 3))))
    warm_world.

Lemma launch_exhausted_witness : exists μ',
  launch worker 1000 (mkMachine full_world ∅ busy warm_lingers) =
    (Panicked "launch(): too many active timed functions", μ') /\
  m_lingers μ' = warm_lingers /\ m_saved μ' = ∅ /\ w_heap (m_world μ') = w_heap full_world.
Proof.
  apply (launch_exhausted worker 1000 (mkMachine full_world ∅ busy warm_lingers));
    [reflexivity | by eexists _, _].
Defined.

(** ** A session: two functions, one of them started on one thread and finished on the other *)

Definition threads : Z -> Prop := fun x => x = 10 \/ x = 9.
Lemma first_thread : threads 10.
Proof. by left. Qed.

Lemma here_obliging : obliging threads.
Proof. split; try done. intros used. by eexists _, _. Qed.

Lemma cold_fresh events :
  clock_ok horizon now events -> fresh_process threads Alarm 10 horizon (cold events).
Proof.
  intros Hc. split; try done.
  - split; try done.
    + right. split_and!; [done | by eexists _, _ | apply kernel_grants].
    + by left.
  - intros x [->| ->]; alive_block.
Qed.

(** One more call, evaluated. *)
Lemma session_next μ0 l μ o x :
  session threads horizon μ0 l μ -> issued horizon (m_lingers μ) o -> fst (perform o μ) = x ->
  session threads horizon μ0 (l ++ [(o, x)]) (snd (perform o μ)).
Proof. intros Hs Hi Hx. eapply session_call; [done..|]. by apply evaluated. Qed.

Lemma has_linger id μ : is_some (m_lingers μ !! id) = true -> is_Some (m_lingers μ !! id).
Proof. destruct (m_lingers μ !! id); [by eexists | done]. Qed.

Definition day1 : machine := snd (perform (OLaunch worker 1000) (cold busy)).
Definition day2 : machine := snd (perform (OLaunch polite 0) day1).
(** The second thread, which has not used the library yet. *)
Definition second : kthread := mkThread 1%nat 9 (0 : @sigset_t Linux.types) [].
Definition day3 : machine := snd (perform (OResume 0 1000000) (switch_thread second day2)).

Lemma day2_session : session threads horizon (cold busy)
  [(OLaunch worker 1000, Done (Ok 0%nat)); (OLaunch polite 0, Done (Ok 1%nat))] day2.
Proof.
  apply (session_next _ [(OLaunch worker 1000, Done (Ok 0%nat))]);
    [apply (session_next _ []); [constructor | apply short_budget; lia | by_vm]
    | apply short_budget; lia | by_vm].
Qed.

Lemma second_may_call : may_call VirtualAlarm (m_world (switch_thread second day2)).
Proof.
  split; [done|]. right. split_and!; [by_vm | | apply kernel_grants].
  exists (mkPool (C := Mutex) (fresh_cell []) 2), []. split; [by_vm | done].
Qed.

Lemma day3_session : session threads horizon (cold busy)
  [(OLaunch worker 1000, Done (Ok 0%nat)); (OLaunch polite 0, Done (Ok 1%nat));
   (OResume 0 1000000, Done (Ok 0%nat))] day3.
Proof.
  apply (session_next _ [(OLaunch worker 1000, Done (Ok 0%nat)); (OLaunch polite 0, Done (Ok 1%nat))]);
    [eapply session_switch; [apply day2_session | done | by right | exact second_may_call] | | by_vm].
  split; [apply has_linger; by_vm | apply short_budget; lia].
Qed.

Lemma session_refines_witness :
  exists σ, spec_session [(OLaunch worker 1000, Done (Ok 0%nat)); (OLaunch polite 0, Done (Ok 1%nat));
      (OResume 0 1000000, Done (Ok 0%nat))] σ /\
    (forall id, seen (σ !! id) (m_lingers day3 !! id)) /\ at_home threads (m_world day3).
Proof.
  exact (session_refines threads Alarm 10 horizon ltac:(done) first_thread
    ltac:(done) calls_work here_obliging _ _ _
    (cold_fresh _ busy_clock) day3_session).
Defined.

Lemma day3_completed : m_lingers day3 !! 0%nat = Some (LCompletion 5).
Proof. by_vm. Qed.

Lemma session_results_witness :
  yields [(OLaunch worker 1000, Done (Ok 0%nat)); (OLaunch polite 0, Done (Ok 1%nat));
    (OResume 0 1000000, Done (Ok 0%nat))] 0%nat (Ok 5).
Proof.
  apply (proj2 (session_results threads Alarm 10 horizon ltac:(done) first_thread
    ltac:(done) calls_work here_obliging _ _ _
    (cold_fresh _ busy_clock) day3_session)). exact day3_completed.
Defined.

(** Without that, the function ends on the second thread by blocking the signal of the first one,
    whose it was when it started, and the second thread's signal stays unblocked. *)
Definition migrated (restores : bool) : @machine (platform restores None) :=
  let here := platform restores None in
  snd (@resume here 0%nat 1000000 (@switch_thread here (mkThread 1%nat 9 0 [])
    (snd (@launch here worker 1000 (mkMachine (untouched_on restores) ∅ busy ∅))))).
Lemma migration_needs_mask :
  (forall restores, m_lingers (migrated restores) !! 0%nat = Some (LCompletion 5)) /\
  blocked (w_kernel (m_world (migrated true))) VirtualAlarm = true /\
  blocked (w_kernel (m_world (migrated false))) VirtualAlarm = false.
Proof. split; [intros []|split]; by_vm. Qed.

Lemma continuation_at id μ :
  is_continuation <$> m_lingers μ !! id = Some true -> exists c, m_lingers μ !! id = Some (LContinuation c).
Proof. destruct (m_lingers μ !! id) as [[]|]; try done. eauto. Qed.

Lemma session_exclusive_witness : exists c1 c2 a1 g1 a2 g2,
  owns a1 g1 (functional c1) c1 /\ owns a2 g2 (functional c2) c2 /\ ~ threads a1 /\ g1 <> SHARED /\
  a1 <> a2 /\ g1 <> g2 /\ functional c1 <> functional c2.
Proof.
  destruct (continuation_at 0%nat day2) as [c1 H1]; [by_vm|].
  destruct (continuation_at 1%nat day2) as [c2 H2]; [by_vm|].
  destruct (session_exclusive threads Alarm 10 horizon ltac:(done) first_thread
    ltac:(done) calls_work here_obliging _ _ _
    _ _ _ _ (cold_fresh _ busy_clock) day2_session H1 H2)
    as (a1 & g1 & a2 & g2 & Ho1 & Ho2 & Ha & _ & Hg & _ & Hne).
  destruct (Hne ltac:(lia)) as (Ha12 & Hg12 & Hf12 & _). exists c1, c2, a1, g1, a2, g2.
  exact (conj Ho1 (conj Ho2 (conj Ha (conj Hg (conj Ha12 (conj Hg12 Hf12)))))).
Defined.

Lemma warm_session : session threads horizon (cold []) [(OLaunch (URet 0) 1000, Done (Ok 0%nat))] (warm []).
Proof.
  assert (perform (OLaunch (URet 0) 1000) (cold []) = (Done (Ok 0%nat), warm [])) as Hw.
  { cbn [perform]. exact warm_reached. }
  refine (session_call threads horizon _ [] (cold []) _ _ _ (session_start _ _ _) _ Hw).
  apply short_budget. lia.
Qed.

Lemma session_no_leaks_witness :
  w_heap warm_world = ∅ /\ groups_held [] (w_groups warm_world) /\
  stacks_held [] (w_stacks warm_world) /\
  stores_held threads (Service.present (cold [])) [] (w_localstores warm_world) (w_tcb warm_world).
Proof.
  apply (proj2 (proj2 (session_no_leaks threads Alarm 10 horizon ltac:(done) first_thread
    ltac:(done) calls_work here_obliging _ _ _
    (cold_fresh _ idle_clock) warm_session))).
  assert (warm_lingers = <[0%nat := LCompletion 0]> ∅) as Hw by reflexivity.
  intros id x Hx. change (warm_lingers !! id = Some x) in Hx.
  rewrite Hw, lookup_insert_Some, lookup_empty in Hx. naive_solver.
Defined.

(** ** A function that is running *)

Definition home : Context :=
  mkContext (mkReusable (Some {| stack_alloc := 1; stack_len := 2097152 |}))
    (8192 : @sigset_t Linux.types) CallSite.
Definition running_vars (deferred : bool) (deadline : Z) : tls :=
  mkTls (Some 0%nat) deferred None (mkTask None (Some home) false) deadline (Some 2%nat) false.

(** In its own libset, with the signals of [mask] blocked and those in [arrived] pending. *)
Definition running (deferred : bool) (deadline mask : Z) (arrived : list Z) : world :=
  put_tls (running_vars deferred deadline)
    (set_kernel (set_pending arrived (set_mask (mask : @sigset_t Linux.types) (w_kernel two_world)))
      (set_group 2%nat (set_tcb (set_fs 12 (w_tcb two_world)) two_world))).

Lemma running_active deferred deadline mask arrived :
  active home (running deferred deadline mask arrived) (running_vars deferred deadline).
Proof. by split. Qed.

Lemma preempt_carries_out_witness : exists w',
  deliver Alarm (running false now 0 [14]) = (Done true, w') /\
  carried_out Alarm (running false now 0 [14]) (running_vars false now) w' Stop.
Proof.
  exact (preempt_carries_out Alarm home (running false now 0 [14]) (running_vars false now)
    (running_active _ _ _ _)).
Defined.

Lemma due_signal_stops_witness : exists w' env',
  run (steps 3) busy (running false now 0 [14]) = (Paused (steps 3), w', env') /\
  stopped_in Alarm home (running false now 0 [14]) (running_vars false now) w'.
Proof.
  apply (due_signal_stops Alarm home (running_vars false now) (steps 3) busy
    (running false now 0 [14])); [by split | apply (bool_decide_unpack _); exact I | done | done].
Defined.

Lemma running_function deferred deadline mask :
  in_function Alarm home (running deferred deadline mask []) (running_vars deferred deadline).
Proof. split; try done. apply (bool_decide_unpack _). exact I. Qed.

Lemma deferred_preemption_happens_witness : exists w1 w' env',
  exec resume_preemption (running true now 8192 []) = (Done tt, w1) /\
  run (steps 3) busy w1 = (Paused (steps 3), w', env') /\
  stopped_in Alarm home w1 (running_vars false now) w'.
Proof.
  apply (deferred_preemption_happens Alarm home (running_vars true now) (steps 3) busy
    (running true now 8192 [])); [apply running_function | done | done | done].
Defined.

Lemma pause_yields_witness : exists w1 w' env' t',
  exec (shared_call pause) (running false (now + 5000) 0 []) = (Done tt, w1) /\
  run (steps 3) busy w1 = (Paused (steps 3), w', env') /\
  cur_tls w' = Some t' /\ yielded (TASK t') = true /\ is_some (errno (TASK t')) = true /\
  DEFERRED t' = false /\ w_group w' = SHARED.
Proof.
  apply (pause_yields Alarm home (running_vars false (now + 5000)) (steps 3) busy
    (running false (now + 5000) 0 [])); [apply running_function | done | done].
Defined.

(** ** Setting up a thread *)

Definition first_signals : signal_pool := mkPool (fresh_cell []) 1.

Lemma thread_setup_first_witness : exists w' ps,
  exec (thread_setup 0%nat 4096 100) untouched = (Done (Ok tt), w') /\
  w_signalers w' = <[0%nat := ps]> ∅ /\ value (ps_signal ps) = Some Alarm /\
  configured Alarm 4096 100 (ps_timer ps) Linux.kernel0 (w_kernel w') /\
  thread_signal_of w' = Ok Alarm.
Proof.
  pose proof (thread_setup_first 0%nat 4096 100 Alarm first_signals [] untouched tls0 eq_refl
    ltac:(done) eq_refl eq_refl ltac:(done)) as Hm.
  assert (fst (exec (thread_setup 0%nat 4096 100) untouched) = Done (Ok tt)) as Hx by by_vm.
  rewrite (evaluated _ _ _ Hx) in Hm. destruct Hm as (ps & Hps & Hv & Hc & _ & _ & Hs & _).
  exists (snd (exec (thread_setup 0%nat 4096 100) untouched)), ps.
  exact (conj (evaluated _ _ _ Hx) (conj Hps (conj Hv (conj Hc Hs)))).
Defined.

Lemma PreemptionSignal_drop_keeps_handler_witness : exists k',
  PreemptionSignal_drop (mkPS (mkReusable (Some Alarm)) 0)
    (OnceDone first_signals, w_kernel two_world) =
    (Done tt, (returned_to first_signals [] Alarm, k')) /\
  k_timers k' = delete 0 (k_timers (w_kernel two_world)) /\ handled k' Alarm = true.
Proof.
  eexists. apply (PreemptionSignal_drop_keeps_handler Alarm 0 first_signals [] (w_kernel two_world));
    reflexivity.
Defined.

(** A budget of 10^17 microseconds, more than three thousand years: its nanoseconds do not fit in a
    [u64], and it is less than the present time. *)
Lemma stamp_due_witness : exists d,
  exec stamp (running false (10 ^ 17) 0 []) =
    (Done tt, put_tls (set_DEADLINE d (running_vars false (10 ^ 17))) (running false (10 ^ 17) 0 [])) /\
  d <= now.
Proof.
  pose proof (stamp_due (10 ^ 17) (running false (10 ^ 17) 0 []) (running_vars false (10 ^ 17))
    ltac:(done) eq_refl ltac:(done) ltac:(done)) as Hm.
  assert (fst (exec stamp (running false (10 ^ 17) 0 [])) = Done tt) as Hx by by_vm.
  rewrite (evaluated _ _ _ Hx) in Hm. destruct Hm as (d & Hw & Hd). exists d.
  split; [rewrite <- Hw; exact (evaluated _ _ _ Hx)|].
  apply Hd. right. left. split; vm_compute; discriminate.
Defined.

(** ** Cancellation *)

Lemma cancel_gives_back_witness : exists w μ',
  quiet two_world w /\
  given_back resting 1%nat {| stack_alloc := 2; stack_len := 2097152 |} (Some (Some (Mut 13)))
    w (m_world μ') /\
  m_lingers μ' = delete 1%nat two_lingers /\ m_saved μ' = ∅ /\
  forget_linger 1%nat crowded = (Done tt, μ').
Proof.
  apply (cancel_gives_back 1%nat resting 1%nat {| stack_alloc := 2; stack_len := 2097152 |}
    (Some (Some (Mut 13))) crowded); try done.
  - split; try done. by eexists.
  - by eexists _, _.
  - by eexists _, _.
  - by eexists _, _.
Defined.

(** ** Budgets at the edges *)

(** A budget of 0 does not make [resume] a no-op: a function that has not started is entered,
    and when no signal arrives in time it runs to its end. *)
Lemma resume_zero_runs :
  m_lingers (two ∅ []) !! 2%nat = Some (LContinuation waiting) /\
  fst (resume 2%nat 0 (two ∅ [])) = Done (Ok tt) /\
  m_lingers (snd (resume 2%nat 0 (two ∅ []))) !! 2%nat = Some (LCompletion 5).
Proof. split; [reflexivity|]. split; by_vm. Qed.

(** A budget of 10^17 microseconds, more than three thousand years, is over at the first signal:
    with a clock that does not move at all during the call, the function is paused, although it
    did not yield. *)
Lemma huge_budget_expires :
  let μ := two ∅ (replicate 60 (mkTick 0 [Alarm])) in
  let μ' := snd (resume 2%nat (10 ^ 17) μ) in
  fst (resume 2%nat (10 ^ 17) μ) = Done (Ok tt) /\ unfinished 2 μ' = true /\
  w_clock (m_world μ') = w_clock (m_world μ) /\
  Linger_yielded <$> m_lingers μ' !! 2%nat = Some false.
Proof. cbv zeta. split; [by_vm|]. split; [by_vm|]. split; by_vm. Qed.

(** ** Futures, the C interface and the profiler *)

(** A function that is pending twice and then ready. *)
Definition patient (i : nat) : call_of_fun := mkCall 3 (if (i <? 2)%nat then None else Some 8).

(** It has been polled before, and was interrupted inside its second call. *)
Definition interrupted : fut_state loop unit :=
  future_of tt 1000 0 (mkLoop (InFun 1) 1 (Suspended false) [2]%nat, sync_channel 1) 4%nat.
Lemma patient_ends : will_end patient 8 (InFun 1) 1.
Proof.
  exists 1%nat. split; [|reflexivity]. intros j Hj. by replace j with 0%nat by lia.
Qed.

Lemma poll_refines_witness : exists q,
  @poll loop unit (loop_engine patient) interrupted =
    (Done (Some Pending), future_of tt 1000 0 q 4%nat) /\
  @ends loop unit _ (loop_laws patient) tt (Ok 8) q.
Proof.
  pose proof (@poll_refines loop unit _ (loop_laws patient) tt (Ok 8) 1000 0
    (mkLoop (InFun 1) 1 (Suspended false) [2]%nat) (sync_channel 1) 4%nat
    (ex_intro _ 8 (conj eq_refl patient_ends)) I (conj eq_refl (le_n 1))) as Hm.
  destruct Hm as (y & q & Hr & Hp & He & Hst). exists q. split; [|exact He].
  assert (y = true) as ->.
  { injection Hr as <-. cbn in Hp. congruence. }
  rewrite <- Hst. reflexivity.
Defined.

Lemma future_completes_witness : exists l,
  polls patient 3 (loop_future AtRecv 0 [5; 6; 7]%nat [] Gone 1000 0 0) =
    ([Done (Some Pending); Done (Some Pending); Done (Some (Ready (Ok 8)))],
     mkFut (mkFuture None 1000 0) (l, sync_channel 1) 0%nat).
Proof.
  apply (future_completes patient 2 0 8 Gone 1000 0 0 [5; 6; 7]%nat); try reflexivity.
  - intros j Hj. unfold patient. simpl. by apply Nat.ltb_lt in Hj as ->.
  - intros j t' Hj. apply list_elem_of_lookup_2, list_elem_of_In in Hj. simpl in *. lia.
Defined.

Lemma future_deadlocks_witness : exists st,
  polls patient 3 (loop_future AtRecv 0 [2; 1]%nat [] Gone 1000 0 0) =
    ([Done (Some Pending); Done (Some Pending); Done None], st) /\ st_wakes st = 2%nat.
Proof.
  apply (future_deadlocks patient 0 Gone 1000 0 0 1 1 []). simpl. lia.
Defined.

Lemma ffi_resume_in_step_witness :
  match ffi_resume (Some (mkLinger false 2%nat)) 1000 crowded with
  | (Done timed', μ') => in_step timed' μ' /\ continuation timed' = 2%nat /\
      if is_complete timed'
      then exists v, Ok 5 = Ok (E := string) v /\ m_lingers μ' !! 2%nat = Some (LCompletion v)
      else pending_fn Alarm 10 horizon false 2%nat (Ok 5) μ'
  | (Undefined, _) => exists msg : string, Ok 5 = Err (A := Z) msg
  | _ => False
  end.
Proof.
  exact (ffi_resume_in_step Alarm 10 horizon ltac:(done) ltac:(done) calls_work false
    (mkLinger false 2%nat) (Ok 5) 1000 crowded crowded_pending two_budget).
Defined.

Lemma ffi_cancel_completes_witness : exists w μ',
  quiet two_world w /\
  given_back resting 1%nat {| stack_alloc := 2; stack_len := 2097152 |} (Some (Some (Mut 13)))
    w (m_world μ') /\
  ffi_cancel (Some (mkLinger false 1%nat)) crowded = (Done (mkLinger true 1%nat), μ') /\
  m_lingers μ' = <[1%nat := LCompletion 0]> two_lingers /\
  in_step (mkLinger true 1%nat) μ' /\
  ffi_cancel (Some (mkLinger true 1%nat)) μ' = (Done (mkLinger true 1%nat), μ').
Proof.
  apply (ffi_cancel_completes (mkLinger false 1%nat) resting 1%nat
    {| stack_alloc := 2; stack_len := 2097152 |} (Some (Some (Mut 13))) crowded); try done.
  - split; try done. by eexists.
  - by eexists _, _.
  - by eexists _, _.
  - by eexists _, _.
Defined.

Lemma profiler_measures_witness : exists once',
  measure 8192 [(untouched, set_clock (now + 70) untouched)] (Profiler_default, false) =
    (Done tt, (mkProfiler [70] 0, once')) /\
  end_ (mkProfiler [70] 0, (once', untouched)) =
    (Done false, (mkProfiler [70] 0, (once', untouched))) /\
  (70 < U64 -> exec (Profiler_drop (mkProfiler [70] 0)) untouched = (Done (70, 1), untouched)).
Proof.
  apply (profiler_measures 8192 [(untouched, set_clock (now + 70) untouched)] Profiler_default false
    untouched); [done | constructor | by repeat constructor].
Defined.
End Process.

(** A process whose kernel refuses the thread-control block at 13. *)
Module Refusal.

#[export] Instance there : Platform := Process.plat (Some 13).

Definition start : machine := mkMachine {|
  w_clock := Process.now; w_kernel := Linux.kernel0; w_group := SHARED; w_errno := ∅;
  w_tcb := mkTcb 10 (<[10 := mkBlock LdExample.caller_words tls0]> ∅) [];
  w_tid := 0%nat; w_signalers := ∅; w_signals := OnceNew; w_groups := OnceNew;
  w_stacks := OnceNew; w_localstores := OnceNew; w_heap := ∅; w_hooked := false; w_uc := None;
|} ∅ [] ∅.
Definition launched_world : world := Eval vm_compute in m_world (snd (launch (URet 0) 0 start)).
Definition launched : machine := mkMachine launched_world ∅ [] (<[0%nat := LContinuation
  (mkContinuation 0%nat Task_default (mkReusable (Some 1%nat))
     (mkReusable (Some (Some (Some (Mut 13))))))]> ∅).

Lemma launched_reached : launch (URet 0) 0 start = (Done (Ok 0%nat), launched).
Proof. reflexivity. Qed.

Lemma refused : fst (resume 0%nat 1000 launched) = Done (Err 22).
Proof. Process.by_vm. Qed.
Lemma refused_group : w_group (m_world (snd (resume 0%nat 1000 launched))) = SHARED.
Proof. Process.by_vm. Qed.

Lemma resume_error_strips_witness : exists c μ1 μ2,
  resume 0%nat 1000 launched = (Done (Err 22), μ1) /\
  (exists task, m_lingers μ1 !! 0%nat = Some (LContinuation (set_stateful task (stripped c)))) /\
  resume 0%nat 1000 μ1 = (Panicked "libinger: continuation with missing TCB", μ2).
Proof.
  pose proof (Process.evaluated _ _ _ refused) as Hr.
  destruct (resume_error_strips 0%nat 1000 1000 _ 22 launched _ (lookup_insert_eq _ _ _) Hr)
    as [Hs Hp].
  destruct (Hp refused_group) as [μ2 Hp2]. by eexists _, _, μ2.
Defined.
End Refusal.

(** A platform on which libtimetravel can no longer jump after a while. *)
Module Stranding.

Definition broken_from : Z := Process.now + 1000.
#[export] Instance worn : Platform := {|
  plat_libc := Linux.libc; plat_gotcha := Libsets.gotcha 3; plat_ld := LdExample.ld None;
  debug_assertions := true; preempt_addr := 4096; handler_errno _ := 35;
  makecontext_err _ := None; restorecontext_err _ := None;
  sigsetcontext_err now := if now <? broken_from then None else Some (Some 12);
  link_restores_mask := true;
|}.
#[export] Instance worn_laws : PlatformLaws.
Proof. split; [exact Linux.laws | exact (Libsets.laws 3) | exact (LdExample.laws None)]. Qed.

(** The process of [Refusal], here: it has launched a function that has yielded, and time has
    passed. *)
Definition start : machine := mkMachine {|
  w_clock := Process.now; w_kernel := Linux.kernel0; w_group := SHARED; w_errno := ∅;
  w_tcb := mkTcb 10 (<[10 := mkBlock LdExample.caller_words tls0]> ∅) [];
  w_tid := 0%nat; w_signalers := ∅; w_signals := OnceNew; w_groups := OnceNew;
  w_stacks := OnceNew; w_localstores := OnceNew; w_heap := ∅; w_hooked := false; w_uc := None;
|} ∅ [] ∅.
Definition yielded_world : world := Eval vm_compute in
  m_world (snd (launch Process.polite 1000 start)).
Definition yielded_lingers : gmap nat Linger := Eval vm_compute in
  m_lingers (snd (launch Process.polite 1000 start)).
Definition later : machine :=
  mkMachine (set_clock broken_from yielded_world) (m_saved (snd (launch Process.polite 1000 start)))
    [] yielded_lingers.

Definition paused : Continuation :=
  mkContinuation 0%nat (mkTask (Some 9) (Some (mkContext
    (mkReusable (Some {| stack_alloc := 2; stack_len := 2097152 |})) (0 : @sigset_t Linux.types)
    (Saved 0))) true) (mkReusable (Some 1%nat)) (mkReusable (Some (Some (Some (Mut 13))))).
Definition vars : tls := mkTls None false None Task_default 0 (Some 1%nat) false.

Lemma later_paused : paused_at Alarm 10 Process.horizon 13 1%nat 0%nat paused 0%nat vars 9 later.
Proof.
  split; try done.
  - split; [|split; [|done]]; Process.alive_block.
  - by eexists _, _.
  - exists 35, (Some Empty). split; try done.
    + left. split; [eexists; by split | reflexivity].
    + right. by eexists _, _.
    + intros _. by eexists _, _.
    + by eexists _, _.
    + by eexists _, _.
Qed.

Lemma jumps_fail_later : jumps_fail broken_from 12.
Proof. intros x Hx. split; [done|]. unfold sigsetcontext_err, worn. case_match; [lia | done]. Qed.

Lemma failed_jump_strands_witness : exists μ1 μ2,
  resume 0%nat 1000 later = (Done (Err 12), μ1) /\ stranded Alarm 10 13 1%nat (m_world μ1) /\
  launch (URet 0) 0 μ1 = (Panicked "launch(): called from preemptible function", μ2).
Proof.
  destruct (failed_jump_strands Alarm 10 Process.horizon ltac:(done) ltac:(done)
    13 1%nat 0%nat paused 0%nat vars 9 12 1000 later later_paused
    Process.two_budget jumps_fail_later) as (μ1 & Hr & Hs & Hp).
  destruct (proj2 (Hp eq_refl) (URet 0) 0) as [μ2 Hl]. by exists μ1, μ2.
Defined.
End Stranding.
